(** * noat: the publish engine, embedded shallowly

    The functions below are translated from the TypeScript module of the
    publisher (the marker-based variant, whose defaults are [AT_URL] and
    [AT proto publish ]).  JavaScript strings are sequences of UTF-16 code
    units, so a string is a [list N]; thrown [Error]s become values of the
    type [error]; the built-ins the module calls ([trim], [includes],
    [split], [encodeURIComponent], [JSON.stringify], the [posix] path
    functions, ...) are written out next to the code that uses them. *)

From Stdlib Require Import Ascii String.
From Stdlib Require Import List NArith ZArith Bool Lia.
Import ListNotations.

Set Implicit Arguments.
Set Warnings "-register-all,-abstract-large-number".

(** ** JavaScript strings *)

Module JS.

Local Open Scope N_scope.

Definition jsstring := list N.

(** A literal of the source, every character of which is ASCII. *)
Definition str (s : string) : jsstring :=
  List.map N_of_ascii (list_ascii_of_string s).

Fixpoint seqb (a b : jsstring) : bool :=
  match a, b with
  | [], [] => true
  | x :: a', y :: b' => N.eqb x y && seqb a' b'
  | _, _ => false
  end.

Definition ch (a : ascii) : N := N_of_ascii a.

Definition LF : N := 10.
Definition CR : N := 13.
Definition SLASH : N := 47.
Definition DOT : N := 46.

(** [WhiteSpace] and [LineTerminator] of ECMAScript: what [trim] removes and
    what [\s] matches. *)
Definition isWhitespace (c : N) : bool :=
  ((9 <=? c) && (c <=? 13)) || (c =? 32) || (c =? 160) || (c =? 5760)
  || ((8192 <=? c) && (c <=? 8202)) || (c =? 8232) || (c =? 8233)
  || (c =? 8239) || (c =? 8287) || (c =? 12288) || (c =? 65279).

Fixpoint dropWhile (p : N -> bool) (s : jsstring) : jsstring :=
  match s with
  | [] => []
  | c :: s' => if p c then dropWhile p s' else s
  end.

Fixpoint takeWhile (p : N -> bool) (s : jsstring) : jsstring :=
  match s with
  | [] => []
  | c :: s' => if p c then c :: takeWhile p s' else []
  end.

(** Drops the longest suffix whose characters all satisfy [p]. *)
Fixpoint dropWhileEnd (p : N -> bool) (s : jsstring) : jsstring :=
  match s with
  | [] => []
  | c :: s' =>
      match dropWhileEnd p s' with
      | [] => if p c then [] else [c]
      | r => c :: r
      end
  end.

Definition trimStart (s : jsstring) : jsstring := dropWhile isWhitespace s.
Definition trimEnd (s : jsstring) : jsstring := dropWhileEnd isWhitespace s.
Definition trim (s : jsstring) : jsstring := trimEnd (trimStart s).

Definition isBlank (s : jsstring) : bool :=
  match trim s with [] => true | _ => false end.

Fixpoint startsWith (s p : jsstring) {struct p} : bool :=
  match p, s with
  | [], _ => true
  | x :: p', y :: s' => N.eqb x y && startsWith s' p'
  | _ :: _, [] => false
  end.

Definition endsWith (s p : jsstring) : bool :=
  startsWith (rev s) (rev p).

(** [s.includes(p)] *)
Fixpoint includes (s p : jsstring) : bool :=
  startsWith s p ||
  match s with
  | [] => false
  | _ :: s' => includes s' p
  end.

(** [s.slice(0, -n)] for [n] at most the length of [s]. *)
Definition dropEnd (n : nat) (s : jsstring) : jsstring :=
  firstn (length s - n)%nat s.

(** [s.split(sep)] for a separator of one character: never empty. *)
Fixpoint split (sep : N) (s : jsstring) : list jsstring :=
  match s with
  | [] => [[]]
  | c :: s' =>
      if N.eqb c sep then [] :: split sep s'
      else match split sep s' with
           | [] => [[c]]
           | w :: ws => (c :: w) :: ws
           end
  end.

(** [parts.join(sep)] *)
Fixpoint join (sep : jsstring) (parts : list jsstring) : jsstring :=
  match parts with
  | [] => []
  | [p] => p
  | p :: ps => p ++ sep ++ join sep ps
  end.

(** [s.split(/\r?\n/)]: a line ends at a line feed, and a carriage return
    right before that line feed belongs to the separator. *)
Fixpoint splitLines (s : jsstring) : list jsstring :=
  match s with
  | [] => [[]]
  | c :: s' =>
      if N.eqb c LF then [] :: splitLines s'
      else if N.eqb c CR && match s' with d :: _ => N.eqb d LF | [] => false end
      then splitLines s' (* the line feed that follows ends the line *)
      else match splitLines s' with
           | [] => [[c]]
           | w :: ws => (c :: w) :: ws
           end
  end.

(** [s.replace(pat, rep)] with a string pattern: the first occurrence only. *)
Fixpoint replaceFirst (pat rep s : jsstring) : jsstring :=
  if startsWith s pat then rep ++ skipn (length pat) s
  else match s with
       | [] => []
       | c :: s' => c :: replaceFirst pat rep s'
       end.

(** The letters of ASCII, which are all that [/[a-z]/i] matches and all that
    an [i] flag folds onto an ASCII letter of a pattern (a regular expression
    without the [u] flag never folds a character above 127 onto one below). *)
Definition isAsciiUpper (c : N) : bool := (65 <=? c) && (c <=? 90).
Definition isAsciiLower (c : N) : bool := (97 <=? c) && (c <=? 122).
Definition isAsciiLetter (c : N) : bool := isAsciiUpper c || isAsciiLower c.
Definition isDigit (c : N) : bool := (48 <=? c) && (c <=? 57).

Definition asciiLower (c : N) : N := if isAsciiUpper c then c + 32 else c.

(** [/<p>$/i.test(s)] for a literal [p] in lower case. *)
Definition endsWithCI (s p : jsstring) : bool :=
  endsWith (List.map asciiLower s) p.

End JS.
Import JS.

(** ** Errors and results *)

(** One constructor for each [throw] of the module (the text of the message
    is the constructor, its interpolated values are the arguments), one for
    a failing [git] child process and one for the [URIError] of
    [encodeURIComponent]. *)
Inductive error : Type :=
| GitFailed (args : jsstring)
| InvalidYamlFrontmatter
| MissingPostText
| PostTextTooLong (characterCount : nat)
| PostTooLongAfterBacklink (postPath : jsstring) (characterCount : nat)
| BacklinkUnresolved (postPath : jsstring)
| OnlyRepositoryPaths (assetPath : jsstring)
| OutsideRepoRoot (assetPath : jsstring)
| UnsupportedImageType (filePath : jsstring)
| URIMalformed
| CouldNotParseJson (context : jsstring)
| BlueskyApiError (context : jsstring) (status : Z) (message : jsstring)
| ExpectedJsonObject (context : jsstring).

Inductive result (A : Type) : Type :=
| Ok (a : A)
| Err (e : error).
Arguments Ok {A} a.
Arguments Err {A} e.

Definition bind {A B} (r : result A) (k : A -> result B) : result B :=
  match r with
  | Ok a => k a
  | Err e => Err e
  end.

Notation "x <- r ;; k" := (bind r (fun x => k))
  (at level 61, r at next level, right associativity).

Definition isOk {A} (r : result A) : bool :=
  match r with Ok _ => true | Err _ => false end.

(** ** Values of type [unknown]

    What [yaml.load] and [JSON.parse] produce.  A number is kept as its
    literal: the module only ever asks whether a value is a string or an
    object.  [VExotic] stands for the objects of js-yaml that are neither
    plain objects nor arrays (a [Date] for a timestamp).  An object is the
    list of its own properties; reading a name that is not an own property
    gives [None], which is [undefined] (the inherited names of
    [Object.prototype] and [Array.prototype] hold functions and the [length]
    of an array is a number: none is a string, and none is a name the
    module reads by itself). *)
Inductive value : Type :=
| VNull
| VBool (b : bool)
| VNum (literal : jsstring)
| VStr (s : jsstring)
| VArr (items : list value)
| VObj (props : list (jsstring * value))
| VExotic.

Definition frontmatter := value.

Module Field.

Local Open Scope N_scope.

Fixpoint lookup (k : jsstring) (props : list (jsstring * value)) : option value :=
  match props with
  | [] => None
  | (k', v) :: rest => if seqb k k' then Some v else lookup k rest
  end.

(** The value of a decimal array index such as ["0"] or ["12"]; a leading
    zero or any other character makes the name an ordinary property name. *)
Fixpoint digitsValue (acc : nat) (s : jsstring) : option nat :=
  match s with
  | [] => Some acc
  | c :: s' =>
      if isDigit c then digitsValue (10 * acc + N.to_nat (c - 48))%nat s'
      else None
  end.

Definition arrayIndex (s : jsstring) : option nat :=
  match s with
  | [] => None
  | [c] => if isDigit c then Some (N.to_nat (c - 48)) else None
  | c :: _ => if N.eqb c 48 then None else digitsValue 0 s
  end.

(** [current[segment]] for a [current] that passed the [typeof] test. *)
Definition getProperty (current : value) (segment : jsstring) : option value :=
  match current with
  | VObj props => lookup segment props
  | VArr items =>
      match arrayIndex segment with
      | Some i => nth_error items i
      | None => None
      end
  | _ => None
  end.

(** [current == null || typeof current !== 'object'] *)
Definition notAnObject (current : option value) : bool :=
  match current with
  | None | Some VNull => true
  | Some (VArr _) | Some (VObj _) | Some VExotic => false
  | Some _ => true
  end.

Definition nonEmpty (s : jsstring) : bool :=
  match s with [] => false | _ => true end.

Fixpoint walk (current : option value) (segments : list jsstring) : option value :=
  match segments with
  | [] => current
  | segment :: rest =>
      if notAnObject current then None
      else match current with
           | Some v => walk (getProperty v segment) rest
           | None => None
           end
  end.

Definition getNestedField (data : value) (fieldPath : jsstring) : option value :=
  walk (Some data) (filter nonEmpty (split DOT fieldPath)).

Definition resolveString (v : option value) : option jsstring :=
  match v with
  | Some (VStr s) =>
      match trim s with
      | [] => None
      | trimmed => Some trimmed
      end
  | _ => None
  end.

Fixpoint firstString (data : value) (fieldPaths : list jsstring) : option jsstring :=
  match fieldPaths with
  | [] => None
  | fieldPath :: rest =>
      match resolveString (getNestedField data fieldPath) with
      | Some text => Some text
      | None => firstString data rest
      end
  end.

Definition seen_has (seen : list jsstring) (v : jsstring) : bool :=
  existsb (seqb v) seen.

Fixpoint uniquePaths_loop (seen : list jsstring) (paths : list jsstring)
  : list jsstring :=
  match paths with
  | [] => []
  | v :: rest =>
      if isBlank v then uniquePaths_loop seen rest
      else if seen_has seen v then uniquePaths_loop seen rest
      else v :: uniquePaths_loop (v :: seen) rest
  end.

Definition uniquePaths (paths : list jsstring) : list jsstring :=
  uniquePaths_loop [] paths.

End Field.
Import Field.

(** ** Code points, [Array.from] and [encodeURIComponent] *)

Module Unicode.

Local Open Scope N_scope.

Definition isHighSurrogate (c : N) : bool := (55296 <=? c) && (c <=? 56319).
Definition isLowSurrogate (c : N) : bool := (56320 <=? c) && (c <=? 57343).

(** [Array.from(text)]: the string iterator yields one element for a
    surrogate pair and one for every other code unit, paired or not. *)
Fixpoint arrayFrom (s : jsstring) : list jsstring :=
  match s with
  | [] => []
  | c :: s' =>
      match s' with
      | d :: s'' =>
          if isHighSurrogate c && isLowSurrogate d
          then [c; d] :: arrayFrom s''
          else [c] :: arrayFrom s'
      | [] => [[c]]
      end
  end.

(** [Array.from(text).length] *)
Definition characterCount (text : jsstring) : nat := length (arrayFrom text).

Definition hexDigit (n : N) : N := if n <? 10 then 48 + n else 55 + n.

Definition percent (byte : N) : jsstring :=
  [37; hexDigit (byte / 16); hexDigit (byte mod 16)].

Definition utf8 (cp : N) : list N :=
  if cp <? 128 then [cp]
  else if cp <? 2048 then [192 + cp / 64; 128 + cp mod 64]
  else if cp <? 65536 then
    [224 + cp / 4096; 128 + (cp / 64) mod 64; 128 + cp mod 64]
  else
    [240 + cp / 262144; 128 + (cp / 4096) mod 64;
     128 + (cp / 64) mod 64; 128 + cp mod 64].

(** The characters [encodeURIComponent] leaves alone: letters, digits and
    [- _ . ! ~ * ' ( )]. *)
Definition isUnescaped (c : N) : bool :=
  isAsciiLetter c || isDigit c
  || (c =? 45) || (c =? 95) || (c =? 46) || (c =? 33) || (c =? 126)
  || (c =? 42) || (c =? 39) || (c =? 40) || (c =? 41).

Definition encodeCodePoint (cp : N) : jsstring :=
  if isUnescaped cp then [cp] else concat (List.map percent (utf8 cp)).

(** [encodeURIComponent(s)]; a surrogate without its partner throws. *)
Fixpoint encodeURIComponent (s : jsstring) : result jsstring :=
  match s with
  | [] => Ok []
  | c :: s' =>
      if isLowSurrogate c then Err URIMalformed
      else if isHighSurrogate c then
        match s' with
        | d :: s'' =>
            if isLowSurrogate d then
              rest <- encodeURIComponent s'' ;;
              Ok (encodeCodePoint
                    (65536 + (c - 55296) * 1024 + (d - 56320)) ++ rest)
            else Err URIMalformed
        | [] => Err URIMalformed
        end
      else
        rest <- encodeURIComponent s' ;;
        Ok (encodeCodePoint c ++ rest)
  end.

(** [s.isWellFormed()]: no surrogate stands alone. *)
Fixpoint isWellFormed (s : jsstring) : bool :=
  match s with
  | [] => true
  | c :: s' =>
      if isLowSurrogate c then false
      else if isHighSurrogate c then
        match s' with
        | d :: s'' => isLowSurrogate d && isWellFormed s''
        | [] => false
        end
      else isWellFormed s'
  end.

End Unicode.
Import Unicode.

(** ** The resolved configuration *)

Record ResolvedConfig : Type := {
  handle : jsstring;
  pdsUrl : jsstring;
  postsDir : jsstring;
  passwordEnvVar : jsstring;
  postTextField : jsstring;
  baseUrl : jsstring
}.

(** ** The backlink *)

Module Backlink.

Definition isSlash (c : N) : bool := N.eqb c SLASH.

Definition trimTrailingSlash (v : jsstring) : jsstring :=
  if endsWith v (str "/") then dropEnd 1 v else v.

Definition appendBacklink (text backlinkUrl : jsstring) : jsstring :=
  if includes text backlinkUrl then text
  else text ++ [LF; LF] ++ backlinkUrl.

(** [.split('/').filter(Boolean).map(encodeURIComponent).join('/')] *)
Fixpoint encodeAll (segments : list jsstring) : result (list jsstring) :=
  match segments with
  | [] => Ok []
  | segment :: rest =>
      e <- encodeURIComponent segment ;;
      es <- encodeAll rest ;;
      Ok (e :: es)
  end.

Definition encodePath (path : jsstring) : result jsstring :=
  es <- encodeAll (filter nonEmpty (split SLASH path)) ;;
  Ok (join (str "/") es).

(** [.replace(/^\/+|\/+$/g, '')]: the first alternative can only match at
    the start and the second only at the end. *)
Definition stripSlashes (s : jsstring) : jsstring :=
  dropWhileEnd isSlash (dropWhile isSlash s).

(** [.replace(/^\.\/+/, '').replace(/\/+$/, '')] *)
Definition normalizePostsRoot (postsRootSpec : jsstring) : jsstring :=
  if seqb postsRootSpec (str ".") then []
  else
    let afterDot :=
      match postsRootSpec with
      | c :: (d :: _) as rest =>
          if N.eqb c DOT && isSlash d then dropWhile isSlash rest
          else postsRootSpec
      | _ => postsRootSpec
      end in
    dropWhileEnd isSlash afterDot.

(** [.replace(/<ext>$/i, '')] for a literal extension in lower case. *)
Definition stripExtensionCI (ext path : jsstring) : jsstring :=
  if endsWithCI path ext then dropEnd (length ext) path else path.

Definition backlinkFromPostPath (baseUrl postsRootSpec postPath : jsstring)
  : result jsstring :=
  let normalizedBaseUrl := trimTrailingSlash baseUrl in
  let postsRoot := normalizePostsRoot postsRootSpec in
  let postRelativePath :=
    match postsRoot with
    | [] => postPath
    | _ => replaceFirst (postsRoot ++ str "/") [] postPath
    end in
  let pathWithoutExtension :=
    stripExtensionCI (str ".md")
      (stripExtensionCI (str ".markdown") postRelativePath) in
  let canonicalPath :=
    if endsWith pathWithoutExtension (str "/index")
    then dropEnd (length (str "/index")) pathWithoutExtension
    else pathWithoutExtension in
  encodedPath <- encodePath canonicalPath ;;
  match encodedPath with
  | [] => Ok normalizedBaseUrl
  | _ => Ok (normalizedBaseUrl ++ str "/" ++ encodedPath)
  end.

(** The declared result is [string|null]: [Some] is a string. *)
Definition resolveBacklinkUrl
  (postPath postsRootSpec : jsstring) (fm : frontmatter) (config : ResolvedConfig)
  : result (option jsstring) :=
  match firstString fm (uniquePaths [str "slug"; str "bluesky.slug"]) with
  | None =>
      url <- backlinkFromPostPath (baseUrl config) postsRootSpec postPath ;;
      Ok (Some url)
  | Some slug =>
      let base := trimTrailingSlash (baseUrl config) in
      let normalizedSlug := stripSlashes (trim slug) in
      match normalizedSlug with
      | [] => Ok (Some base)
      | _ =>
          encodedSlug <- encodePath normalizedSlug ;;
          Ok (Some (base ++ str "/" ++ encodedSlug))
      end
  end.

End Backlink.
Import Backlink.

Definition config_of (base : jsstring) : ResolvedConfig :=
  {| handle := str "abc.bsky.social"; pdsUrl := str "https://bsky.social";
     postsDir := str "/repo/posts";
     passwordEnvVar := str "NOAT_BLUESKY_APP_PASSWORD";
     postTextField := str "post"; baseUrl := base |}.

(** ** [posix.dirname], [posix.join], [posix.normalize], [extname]

    These are Node's.  [dirname] follows Node's backward scan character by
    character; [normalize] is written on the segments between slashes, as
    Node documents it: empty and [.] segments vanish, [..] removes the
    segment before it, and a relative path keeps the [..] it cannot
    resolve. *)

Module Posix.

Definition isDotDot (seg : jsstring) : bool := seqb seg (str "..").
Definition isDot (seg : jsstring) : bool := seqb seg (str ".").

(** The stack holds the segments kept so far, the last one first. *)
Fixpoint normalizeSegments (allowAboveRoot : bool) (stack : list jsstring)
  (segments : list jsstring) : list jsstring :=
  match segments with
  | [] => rev stack
  | seg :: rest =>
      if negb (nonEmpty seg) || isDot seg then
        normalizeSegments allowAboveRoot stack rest
      else if isDotDot seg then
        match stack with
        | top :: below =>
            if isDotDot top then
              normalizeSegments allowAboveRoot
                (if allowAboveRoot then seg :: stack else stack) rest
            else normalizeSegments allowAboveRoot below rest
        | [] =>
            normalizeSegments allowAboveRoot
              (if allowAboveRoot then [seg] else []) rest
        end
      else normalizeSegments allowAboveRoot (seg :: stack) rest
  end.

Definition normalize (path : jsstring) : jsstring :=
  match path with
  | [] => str "."
  | _ =>
      let isAbsolute := startsWith path (str "/") in
      let trailingSeparator := endsWith path (str "/") in
      let body :=
        join (str "/")
          (normalizeSegments (negb isAbsolute) [] (split SLASH path)) in
      match body with
      | [] =>
          if isAbsolute then str "/"
          else if trailingSeparator then str "./" else str "."
      | _ =>
          let withTrailing :=
            if trailingSeparator then body ++ str "/" else body in
          if isAbsolute then str "/" ++ withTrailing else withTrailing
      end
  end.

(** [posix.join(a, b)] *)
Definition join2 (a b : jsstring) : jsstring :=
  match a, b with
  | [], [] => str "."
  | [], _ => normalize b
  | _, [] => normalize a
  | _, _ => normalize (a ++ str "/" ++ b)
  end.

(** The scan runs from the last character down to the second one: it skips
    the slashes at the end, then the last component, and stops at the slash
    before it; the first character is never looked at. *)
Definition dirname (path : jsstring) : jsstring :=
  match path with
  | [] => str "."
  | first :: body =>
      let hasRoot := isSlash first in
      match dropWhileEnd (fun c => negb (isSlash c))
              (dropWhileEnd isSlash body) with
      | [] => if hasRoot then str "/" else str "."
      | upToSlash =>
          if hasRoot && Nat.eqb (length upToSlash) 1 then str "//"
          else first :: removelast upToSlash
      end
  end.

(** The extension of the last component: from its last dot on, unless that
    dot is its first character or the component is [..]. *)
Definition extname (path : jsstring) : jsstring :=
  let base := last (split SLASH (dropWhileEnd isSlash path)) [] in
  let notDot := fun c => negb (N.eqb c DOT) in
  match dropWhileEnd notDot base with
  | [] => []
  | upToDot =>
      match removelast upToDot with
      | [] => []
      | _ =>
          if isDotDot base then []
          else skipn (length upToDot - 1) base
      end
  end.

End Posix.

(** ** Asset paths *)

Module Asset.

Local Open Scope N_scope.

(** [/^[a-z]+:\/\//i.test(s)] *)
Definition hasScheme (s : jsstring) : bool :=
  match takeWhile isAsciiLetter s with
  | [] => false
  | _ => startsWith (dropWhile isAsciiLetter s) (str "://")
  end.

(** [.replace(/\\/g, '/')] *)
Definition backslashesToSlashes (s : jsstring) : jsstring :=
  List.map (fun c => if c =? 92 then SLASH else c) s.

Definition resolveGitRelativePath (postPath assetPath : jsstring)
  : result jsstring :=
  let normalizedInput := backslashesToSlashes assetPath in
  if hasScheme normalizedInput || startsWith normalizedInput (str "data:")
  then Err (OnlyRepositoryPaths assetPath)
  else
    let resolvedPath :=
      if startsWith normalizedInput (str "/")
      then Posix.normalize (skipn 1 normalizedInput)
      else Posix.normalize
             (Posix.join2 (Posix.dirname postPath) normalizedInput) in
    if seqb resolvedPath [] || seqb resolvedPath (str ".")
       || startsWith resolvedPath (str "../") || seqb resolvedPath (str "..")
    then Err (OutsideRepoRoot assetPath)
    else Ok resolvedPath.

Definition IMAGE_MIME_BY_EXTENSION : list (jsstring * jsstring) :=
  [ (str ".jpg", str "image/jpeg"); (str ".jpeg", str "image/jpeg");
    (str ".png", str "image/png"); (str ".gif", str "image/gif");
    (str ".webp", str "image/webp"); (str ".avif", str "image/avif") ].

Fixpoint mimeLookup (ext : jsstring) (table : list (jsstring * jsstring))
  : option jsstring :=
  match table with
  | [] => None
  | (k, v) :: rest => if seqb ext k then Some v else mimeLookup ext rest
  end.

(** The keys of the table are ASCII, and [toLowerCase] maps no character
    other than an ASCII capital onto one of their letters, so lowering the
    ASCII capitals decides the lookup as [toLowerCase] does. *)
Definition detectImageMimeType (filePath : jsstring) : result jsstring :=
  let extension := List.map asciiLower (Posix.extname filePath) in
  match mimeLookup extension IMAGE_MIME_BY_EXTENSION with
  | Some mimeType => Ok mimeType
  | None => Err (UnsupportedImageType filePath)
  end.

End Asset.
Import Asset.

(** ** Markdown images in the body *)

Module Markdown.

Local Open Scope N_scope.

Definition notCloseBracket (c : N) : bool := negb (c =? 93).
Definition targetChar (c : N) : bool := negb (c =? 41) && negb (c =? LF).

(** A match of the image pattern that starts at the first character of
    [s]: an exclamation mark, the alternative text in square brackets (any
    characters but a closing bracket), the target in parentheses (one or
    more characters, none a closing parenthesis or a line feed).  The result
    holds the two groups and what follows the match.  Both classes exclude
    the character that must follow them, so the greedy match is the only
    one. *)
Definition matchImageAt (s : jsstring)
  : option (jsstring * jsstring * jsstring) :=
  match s with
  | 33 :: 91 :: s1 =>
      let alt := takeWhile notCloseBracket s1 in
      match dropWhile notCloseBracket s1 with
      | 93 :: 40 :: s2 =>
          let target := takeWhile targetChar s2 in
          match target, dropWhile targetChar s2 with
          | _ :: _, 41 :: rest => Some (alt, target, rest)
          | _, _ => None
          end
      | _ => None
      end
  | _ => None
  end.

(** [regex.exec(content)]: the leftmost match. *)
Fixpoint execImage (content : jsstring) : option (jsstring * jsstring) :=
  match matchImageAt content with
  | Some (alt, target, _) => Some (alt, target)
  | None =>
      match content with
      | [] => None
      | _ :: rest => execImage rest
      end
  end.

Fixpoint indexOf (c : N) (s : jsstring) : option nat :=
  match s with
  | [] => None
  | d :: s' =>
      if d =? c then Some 0%nat
      else match indexOf c s' with
           | Some i => Some (S i)
           | None => None
           end
  end.

Definition parseMarkdownImagePath (target : jsstring) : option jsstring :=
  match target with
  | [] => None
  | _ =>
      if startsWith target (str "<") then
        match indexOf 62 target with
        | Some closing =>
            if Nat.leb closing 1 then None
            else Some (trim (firstn (closing - 1) (skipn 1 target)))
        | None => None
        end
      else
        (* target.split(/\s+/)[0]: what precedes the first white space *)
        match trim (takeWhile (fun c => negb (isWhitespace c)) target) with
        | [] => None
        | firstToken => Some firstToken
        end
  end.

Record MarkdownImageReference : Type := {
  image_alt : jsstring;
  image_path : jsstring
}.

Definition findFirstMarkdownImage (content : jsstring)
  : option MarkdownImageReference :=
  match execImage content with
  | None => None
  | Some (alt, target) =>
      match parseMarkdownImagePath (trim target) with
      | None => None
      | Some path => Some {| image_alt := trim alt; image_path := path |}
      end
  end.

(** [content.replace(pattern, '')] with the image pattern and the [g]
    flag: after a match the scan goes on behind it.  Every step consumes a
    character, so a fuel of the length of the content is enough. *)
Fixpoint removeImages (fuel : nat) (content : jsstring) : jsstring :=
  match fuel with
  | O => content
  | S fuel' =>
      match matchImageAt content with
      | Some (_, _, rest) => removeImages fuel' rest
      | None =>
          match content with
          | [] => []
          | c :: rest => c :: removeImages fuel' rest
          end
      end
  end.

Definition stripMarkdownImages (content : jsstring) : jsstring :=
  trim (removeImages (length content) content).

End Markdown.
Import Markdown.

(** ** Frontmatter: reading *)

Definition DEFAULT_AT_URL_FIELD : jsstring := str "AT_URL".
Definition DELIMITER : jsstring := str "---".

Definition isDelimiter (line : jsstring) : bool := seqb (trim line) DELIMITER.

(** The lines before the first delimiter line, and the lines after it. *)
Fixpoint breakAtDelimiter (lines : list jsstring)
  : option (list jsstring * list jsstring) :=
  match lines with
  | [] => None
  | line :: rest =>
      if isDelimiter line then Some ([], rest)
      else match breakAtDelimiter rest with
           | Some (before, after) => Some (line :: before, after)
           | None => None
           end
  end.

(** The block of a document: the lines between the opening delimiter and
    the first closing one, and the lines after the closing one; [None] when
    the first line is no delimiter or no line closes the block. *)
Definition findBlock (markdown : jsstring)
  : option (list jsstring * list jsstring) :=
  match splitLines markdown with
  | first :: rest => if isDelimiter first then breakAtDelimiter rest else None
  | [] => None
  end.

Section Pipeline.

(** [yaml.load] of js-yaml: [None] when it throws, [Some None] when it
    returns [undefined] (an empty document). *)
Variable yaml_load : jsstring -> option (option value).

(** [git show HEAD:<path>] in the repository: the bytes of the blob, or
    [None] when the child process fails. *)
Variable gitShow : jsstring -> option (list N).

(** [buffer.toString('utf8')] *)
Variable utf8ToString : list N -> jsstring.

Definition parseYamlFrontmatter (yamlText : jsstring) : result frontmatter :=
  match yaml_load yamlText with
  | None => Err InvalidYamlFrontmatter
  | Some None | Some (Some VNull) => Ok (VObj [])
  | Some (Some (VObj props)) => Ok (VObj props)
  | Some (Some VExotic) => Ok VExotic
  | Some (Some _) => Err InvalidYamlFrontmatter
  end.

Definition splitFrontmatter (markdown : jsstring)
  : result (frontmatter * jsstring) :=
  match findBlock markdown with
  | None => Ok (VObj [], markdown)
  | Some (block, body) =>
      fm <- parseYamlFrontmatter (join [LF] block) ;;
      Ok (fm, join [LF] body)
  end.

Record ParsedPostFields : Type := {
  pp_text : jsstring;
  pp_imagePath : option jsstring;
  pp_imageAlt : jsstring
}.

Definition resolveText (fm : frontmatter) (content postTextField : jsstring)
  : jsstring :=
  match firstString fm (uniquePaths
          [postTextField; str "bluesky.text"; str "text"; str "post"]) with
  | Some text => text
  | None => trim (stripMarkdownImages content)
  end.

Definition parsePostFields (markdown postTextField : jsstring)
  : result ParsedPostFields :=
  parsed <- splitFrontmatter markdown ;;
  let (fm, content) := parsed in
  let firstImage := findFirstMarkdownImage content in
  let text := resolveText fm content postTextField in
  if isBlank text then Err MissingPostText
  else
    let characterCount := characterCount text in
    if Nat.ltb 300 characterCount then Err (PostTextTooLong characterCount)
    else
      Ok {| pp_text := text;
            pp_imagePath := option_map image_path firstImage;
            pp_imageAlt :=
              match firstImage with
              | Some img => image_alt img
              | None => []
              end |}.

Definition assertPostLength (text postPath : jsstring) : result unit :=
  let characterCount := characterCount text in
  if Nat.ltb 300 characterCount
  then Err (PostTooLongAfterBacklink postPath characterCount)
  else Ok tt.

Record DraftImage : Type := {
  di_path : jsstring;
  di_alt : jsstring;
  di_mimeType : jsstring;
  di_bytes : list N
}.

Record DraftPost : Type := {
  draft_path : jsstring;
  draft_text : jsstring;
  draft_image : option DraftImage
}.

Definition readGitBytes (args : jsstring) (path : jsstring)
  : result (list N) :=
  match gitShow path with
  | Some bytes => Ok bytes
  | None => Err (GitFailed (args ++ path))
  end.

Definition readHead (path : jsstring) : result (list N) :=
  readGitBytes (str "show HEAD:") path.

(** What one turn of the loop of [buildDrafts] does with a post that has
    no marker. *)
Definition buildDraft (config : ResolvedConfig) (postsRootSpec : jsstring)
  (postPath markdown : jsstring) (fm : frontmatter) : result DraftPost :=
  parsed <- parsePostFields markdown (postTextField config) ;;
  backlinkUrl <- resolveBacklinkUrl postPath postsRootSpec fm config ;;
  match backlinkUrl with
  | None => Err (BacklinkUnresolved postPath)
  | Some backlinkUrl =>
      let text := appendBacklink (pp_text parsed) backlinkUrl in
      _ <- assertPostLength text postPath ;;
      match pp_imagePath parsed with
      | Some imagePath =>
          imageRepoPath <- resolveGitRelativePath postPath imagePath ;;
          imageBytes <- readHead imageRepoPath ;;
          imageMimeType <- detectImageMimeType imageRepoPath ;;
          Ok {| draft_path := postPath; draft_text := text;
                draft_image :=
                  Some {| di_path := imageRepoPath;
                          di_alt := pp_imageAlt parsed;
                          di_mimeType := imageMimeType;
                          di_bytes := imageBytes |} |}
      | None =>
          Ok {| draft_path := postPath; draft_text := text;
                draft_image := None |}
      end
  end.

(** The loop of [buildDrafts]; [drafts.push] appends, so the drafts come in
    the order of the paths. *)
Fixpoint buildDrafts (config : ResolvedConfig) (postsRootSpec : jsstring)
  (postPaths : list jsstring) : result (list DraftPost) :=
  match postPaths with
  | [] => Ok []
  | postPath :: rest =>
      bytes <- readHead postPath ;;
      let markdown := utf8ToString bytes in
      parsed <- splitFrontmatter markdown ;;
      let fm := fst parsed in
      match getNestedField fm DEFAULT_AT_URL_FIELD with
      | Some _ => buildDrafts config postsRootSpec rest
      | None =>
          draft <- buildDraft config postsRootSpec postPath markdown fm ;;
          drafts <- buildDrafts config postsRootSpec rest ;;
          Ok (draft :: drafts)
      end
  end.

End Pipeline.

(** ** The publish commit counter *)

Module Commit.

Local Open Scope N_scope.

Definition PUBLISH_COMMIT_PREFIX : jsstring := str "AT proto publish ".

(** A [number] of the source that holds a whole number: a double, which is
    the whole number itself, or [Infinity]. *)
Inductive number : Type :=
| Finite (n : N)
| Infinity.

(** The double nearest to a whole number, as IEEE 754 rounds: a number
    below [2^53] is a double; above, the 53 leading bits are kept and the
    rest is rounded to the nearest, a tie to the even one; what rounds to
    [2^1024] is [Infinity]. *)
Definition roundToDouble (n : N) : number :=
  if n <? 2 ^ 53 then Finite n
  else
    let exponent := N.log2 n - 52 in
    let kept := n / 2 ^ exponent in
    let rest := n mod 2 ^ exponent in
    let half := 2 ^ (exponent - 1) in
    let rounded :=
      if rest <? half then kept
      else if half <? rest then kept + 1
      else if N.even kept then kept else kept + 1 in
    if rounded * 2 ^ exponent <? 2 ^ 1024 then Finite (rounded * 2 ^ exponent)
    else Infinity.

(** The whole number that a run of decimal digits writes. *)
Fixpoint parseDigits (acc : N) (digits : jsstring) : N :=
  match digits with
  | [] => acc
  | c :: rest => parseDigits (10 * acc + (c - 48)) rest
  end.

(** [Number.parseInt(digits, 10)] on a run of one or more decimal digits:
    the double nearest to the number they write, which is never [NaN].
    (ECMAScript lets an implementation read the digits after the 20th as
    zeros; V8 rounds the number itself, and so does this.) *)
Definition parseInt (digits : jsstring) : number :=
  roundToDouble (parseDigits 0 digits).

(** [previous + 1] in doubles. *)
Definition plusOne (previous : number) : number :=
  match previous with
  | Finite n => roundToDouble (n + 1)
  | Infinity => Infinity
  end.

(** [/^AT proto publish (\d+)$/.exec(subject)]: the group. *)
Definition publishDigits (subject : jsstring) : option jsstring :=
  if startsWith subject PUBLISH_COMMIT_PREFIX then
    match skipn (length PUBLISH_COMMIT_PREFIX) subject with
    | [] => None
    | digits => if forallb isDigit digits then Some digits else None
    end
  else None.

(** The loop over the subjects: the first match returns, with
    [Number.parseInt] of its group. *)
Fixpoint firstPublishCounter (subjects : list jsstring) : option number :=
  match subjects with
  | [] => None
  | subject :: rest =>
      match publishDigits (trim subject) with
      | Some digits => Some (parseInt digits)
      | None => firstPublishCounter rest
      end
  end.

(** The argument is what [git log --format=%s] printed.  [previous] is
    never [NaN], so the result is [previous + 1] whenever a subject
    matches. *)
Definition getNextPublishCommitNumber (logOutput : jsstring) : number :=
  match trim logOutput with
  | [] => Finite 1
  | subjects =>
      match firstPublishCounter (split LF subjects) with
      | Some previous => plusOne previous
      | None => Finite 1
      end
  end.

(** What [git log --format=%s] prints for a history, newest commit first:
    one line for each subject. *)
Definition gitLog (subjects : list jsstring) : jsstring :=
  concat (List.map (fun subject => subject ++ [LF]) subjects).

End Commit.
Import Commit.

(** ** Frontmatter: writing *)

Module Upsert.

Local Open Scope N_scope.

Definition hexLower (n : N) : N := if n <? 10 then 48 + n else 87 + n.

(** [\uXXXX] with lower-case digits, as [JSON.stringify] writes it. *)
Definition unicodeEscape (c : N) : jsstring :=
  [92; 117; hexLower (c / 4096); hexLower ((c / 256) mod 16);
   hexLower ((c / 16) mod 16); hexLower (c mod 16)].

Definition quoteUnit (c : N) : jsstring :=
  if c =? 34 then [92; 34]
  else if c =? 92 then [92; 92]
  else if c =? 8 then [92; 98]
  else if c =? 12 then [92; 102]
  else if c =? 10 then [92; 110]
  else if c =? 13 then [92; 114]
  else if c =? 9 then [92; 116]
  else if c <? 32 then unicodeEscape c
  else [c].

(** The characters of [JSON.stringify(value)] between the quotes: a
    surrogate pair is copied, a surrogate on its own is escaped. *)
Fixpoint quoteChars (s : jsstring) : jsstring :=
  match s with
  | [] => []
  | c :: s' =>
      if isHighSurrogate c then
        match s' with
        | d :: s'' =>
            if isLowSurrogate d then c :: d :: quoteChars s''
            else unicodeEscape c ++ quoteChars s'
        | [] => unicodeEscape c
        end
      else if isLowSurrogate c then unicodeEscape c ++ quoteChars s'
      else quoteUnit c ++ quoteChars s'
  end.

Definition JSON_stringify (v : jsstring) : jsstring :=
  [34] ++ quoteChars v ++ [34].

(** [new RegExp('^' + escapeRegex(field) + '\\s*:').test(line)]: the
    escaped field matches itself, white space follows, then a colon. *)
Definition fieldPatternTest (field line : jsstring) : bool :=
  startsWith line field &&
  match dropWhile isWhitespace (skipn (length field) line) with
  | 58 :: _ => true
  | _ => false
  end.

(** The loop that replaces the first line of the block that matches. *)
Fixpoint replaceFirstMatch (field renderedField : jsstring)
  (block : list jsstring) : option (list jsstring) :=
  match block with
  | [] => None
  | line :: rest =>
      if fieldPatternTest field line then Some (renderedField :: rest)
      else match replaceFirstMatch field renderedField rest with
           | Some rest' => Some (line :: rest')
           | None => None
           end
  end.

Definition finalizeNewline (text : jsstring) (hasTrailingNewline : bool)
  : jsstring :=
  if hasTrailingNewline then
    if endsWith text [LF] then text else text ++ [LF]
  else
    if endsWith text [LF] then dropEnd 1 text else text.

(** The lines of the document, split where [findBlock] splits them, with
    the delimiter lines kept as they are written. *)
Fixpoint breakAtDelimiter' (lines : list jsstring)
  : option (list jsstring * jsstring * list jsstring) :=
  match lines with
  | [] => None
  | line :: rest =>
      if isDelimiter line then Some ([], line, rest)
      else match breakAtDelimiter' rest with
           | Some (before, closing, after) =>
               Some (line :: before, closing, after)
           | None => None
           end
  end.

Definition upsertFrontmatterField (markdown field value : jsstring)
  : jsstring :=
  let lines := splitLines markdown in
  let renderedField := field ++ str ": " ++ JSON_stringify value in
  let hasTrailingNewline := endsWith markdown [LF] in
  let prefixed :=
    finalizeNewline
      (join [LF] [str "---"; renderedField; str "---"; markdown])
      hasTrailingNewline in
  match lines with
  | first :: rest =>
      if isDelimiter first then
        match breakAtDelimiter' rest with
        | Some (block, closing, after) =>
            let block' :=
              match replaceFirstMatch field renderedField block with
              | Some replaced => replaced
              | None => block ++ [renderedField]
              end in
            finalizeNewline
              (join [LF] (first :: block' ++ closing :: after))
              hasTrailingNewline
        | None => prefixed
        end
      else prefixed
  | [] => prefixed
  end.

(** The lines of the frontmatter block of a document that match the key. *)
Definition keyLines (field markdown : jsstring) : list jsstring :=
  match findBlock markdown with
  | Some (block, _) => filter (fieldPatternTest field) block
  | None => []
  end.

End Upsert.
Import Upsert.

Definition doc (lines : list jsstring) : jsstring := join [LF] lines.
Definition quoted (s : string) : jsstring := [34%N] ++ str s ++ [34%N].

(** ** [JSON.parse] *)

Module Json.

Local Open Scope N_scope.

(** The white space of JSON: space, tab, line feed, carriage return. *)
Definition isJsonSpace (c : N) : bool :=
  (c =? 32) || (c =? 9) || (c =? 10) || (c =? 13).

Definition skipSpace (s : jsstring) : jsstring := dropWhile isJsonSpace s.

Definition hexValue (c : N) : option N :=
  if isDigit c then Some (c - 48)
  else if (97 <=? c) && (c <=? 102) then Some (c - 87)
  else if (65 <=? c) && (c <=? 70) then Some (c - 55)
  else None.

Definition hex4 (s : jsstring) : option (N * jsstring) :=
  match s with
  | a :: b :: c :: d :: rest =>
      match hexValue a, hexValue b, hexValue c, hexValue d with
      | Some a, Some b, Some c, Some d =>
          Some (a * 4096 + b * 256 + c * 16 + d, rest)
      | _, _, _, _ => None
      end
  | _ => None
  end.

(** The characters of a string literal after its opening quote. *)
Fixpoint parseChars (fuel : nat) (s : jsstring) : option (jsstring * jsstring) :=
  match fuel with
  | O => None
  | S fuel' =>
      match s with
      | [] => None
      | 34 :: rest => Some ([], rest)
      | 92 :: e :: rest =>
          let simple (c : N) :=
            match parseChars fuel' rest with
            | Some (cs, rest') => Some (c :: cs, rest')
            | None => None
            end in
          if e =? 34 then simple 34
          else if e =? 92 then simple 92
          else if e =? 47 then simple 47
          else if e =? 98 then simple 8
          else if e =? 102 then simple 12
          else if e =? 110 then simple 10
          else if e =? 114 then simple 13
          else if e =? 116 then simple 9
          else if e =? 117 then
            match hex4 rest with
            | Some (c, rest') =>
                match parseChars fuel' rest' with
                | Some (cs, rest'') => Some (c :: cs, rest'')
                | None => None
                end
            | None => None
            end
          else None
      | c :: rest =>
          if (c <? 32) || (c =? 92) then None
          else match parseChars fuel' rest with
               | Some (cs, rest') => Some (c :: cs, rest')
               | None => None
               end
      end
  end.

(** A number literal: the lexeme and what follows it. *)
Definition parseNumber (s : jsstring) : option (jsstring * jsstring) :=
  let (sign, s1) :=
    match s with 45 :: r => ([45], r) | _ => ([], s) end in
  let intPart := takeWhile isDigit s1 in
  let s2 := dropWhile isDigit s1 in
  match intPart with
  | [] => None
  | d :: more =>
      if (d =? 48) && nonEmpty more then None
      else
        let fracResult :=
          match s2 with
          | 46 :: r =>
              match takeWhile isDigit r with
              | [] => None
              | ds => Some (46 :: ds, dropWhile isDigit r)
              end
          | _ => Some ([], s2)
          end in
        match fracResult with
        | None => None
        | Some (frac, s3) =>
            let expResult :=
              match s3 with
              | e :: r =>
                  if (e =? 101) || (e =? 69) then
                    let (esign, r1) :=
                      match r with
                      | x :: r' =>
                          if (x =? 43) || (x =? 45) then ([x], r')
                          else ([], r)
                      | [] => ([], r)
                      end in
                    match takeWhile isDigit r1 with
                    | [] => None
                    | ds => Some (e :: esign ++ ds, dropWhile isDigit r1)
                    end
                  else Some ([], s3)
              | [] => Some ([], s3)
              end in
            match expResult with
            | None => None
            | Some (ex, s4) => Some (sign ++ intPart ++ frac ++ ex, s4)
            end
        end
  end.

(** Defining a property a second time overwrites the first value. *)
Fixpoint setProp (k : jsstring) (v : value) (props : list (jsstring * value))
  : list (jsstring * value) :=
  match props with
  | [] => [(k, v)]
  | (k', v') :: rest =>
      if seqb k k' then (k', v) :: rest else (k', v') :: setProp k v rest
  end.

Fixpoint parseValue (fuel : nat) (s : jsstring) : option (value * jsstring) :=
  match fuel with
  | O => None
  | S fuel' =>
      match skipSpace s with
      | 123 :: rest =>
          match skipSpace rest with
          | 125 :: rest' => Some (VObj [], rest')
          | _ => parseMembers fuel' rest []
          end
      | 91 :: rest =>
          match skipSpace rest with
          | 93 :: rest' => Some (VArr [], rest')
          | _ => parseElements fuel' rest []
          end
      | 34 :: rest =>
          match parseChars (S (length rest)) rest with
          | Some (cs, rest') => Some (VStr cs, rest')
          | None => None
          end
      | 116 :: 114 :: 117 :: 101 :: rest => Some (VBool true, rest)
      | 102 :: 97 :: 108 :: 115 :: 101 :: rest => Some (VBool false, rest)
      | 110 :: 117 :: 108 :: 108 :: rest => Some (VNull, rest)
      | other =>
          match parseNumber other with
          | Some (lexeme, rest) => Some (VNum lexeme, rest)
          | None => None
          end
      end
  end
with parseElements (fuel : nat) (s : jsstring) (acc : list value)
  : option (value * jsstring) :=
  match fuel with
  | O => None
  | S fuel' =>
      match parseValue fuel' s with
      | Some (v, rest) =>
          match skipSpace rest with
          | 44 :: rest' => parseElements fuel' rest' (acc ++ [v])
          | 93 :: rest' => Some (VArr (acc ++ [v]), rest')
          | _ => None
          end
      | None => None
      end
  end
with parseMembers (fuel : nat) (s : jsstring) (acc : list (jsstring * value))
  : option (value * jsstring) :=
  match fuel with
  | O => None
  | S fuel' =>
      match skipSpace s with
      | 34 :: rest =>
          match parseChars (S (length rest)) rest with
          | Some (k, rest1) =>
              match skipSpace rest1 with
              | 58 :: rest2 =>
                  match parseValue fuel' rest2 with
                  | Some (v, rest3) =>
                      match skipSpace rest3 with
                      | 44 :: rest4 => parseMembers fuel' rest4 (setProp k v acc)
                      | 125 :: rest4 => Some (VObj (setProp k v acc), rest4)
                      | _ => None
                      end
                  | None => None
                  end
              | _ => None
              end
          | None => None
          end
      | _ => None
      end
  end.

(** [JSON.parse(text)]; [None] is a [SyntaxError].  Every level of the
    recursion has read a character, so the fuel suffices. *)
Definition JSON_parse (text : jsstring) : option value :=
  match parseValue (2 * length text + 2) text with
  | Some (v, rest) =>
      match skipSpace rest with
      | [] => Some v
      | _ => None
      end
  | None => None
  end.

End Json.
Import Json.

(** ** Responses of the protocol client *)

Module Client.

(** What the client reads of a response of [fetch]; [ok] is, by the Fetch
    standard, a status from 200 to 299. *)
Record Response : Type := {
  status : Z;
  statusText : jsstring;
  bodyText : jsstring
}.

Definition ok (response : Response) : bool :=
  (200 <=? status response)%Z && (status response <=? 299)%Z.

Definition isObject (v : value) : bool :=
  match v with
  | VArr _ | VObj _ | VExotic => true
  | _ => false
  end.

Definition extractApiError (payload : value) : option jsstring :=
  if negb (isObject payload) then None
  else
    match resolveString (getProperty payload (str "message")) with
    | Some message => Some message
    | None => resolveString (getProperty payload (str "error"))
    end.

Definition parseJsonResponse (response : Response) (context : jsstring)
  : result value :=
  parsed <-
    (if isBlank (bodyText response) then Ok (VObj [])
     else match JSON_parse (bodyText response) with
          | Some v => Ok v
          | None => Err (CouldNotParseJson context)
          end) ;;
  if negb (ok response) then
    let message :=
      match extractApiError parsed with
      | Some m => m
      | None => statusText response
      end in
    Err (BlueskyApiError context (status response) message)
  else if negb (isObject parsed) then Err (ExpectedJsonObject context)
  else Ok parsed.

End Client.
Import Client.

(** * Definitions that follow the words of the specification

    Each is compared below with the function of the source it describes. *)

Module Spec.

Local Open Scope N_scope.

(** The counters of the publish commits of a history, newest first: the
    whole numbers their subjects write. *)
Definition publishCounters (subjects : list jsstring) : list N :=
  flat_map (fun subject =>
              match publishDigits (trim subject) with
              | Some digits => [parseDigits 0 digits]
              | None => []
              end) subjects.

(** "The highest prior counter ... and one more than it, or 1 if none
    exist." *)
Definition nextByMaximum (subjects : list jsstring) : N :=
  match publishCounters subjects with
  | [] => 1
  | counter :: counters => fold_left N.max counters counter + 1
  end.

(** "Grapheme units": what a reader takes for one character.  A combining
    diacritical mark (U+0300 to U+036F) belongs to the grapheme of the
    character before it (rule GB9 of Unicode's text segmentation), so a
    letter with an accent written after it is one unit.  For a text of
    letters and such marks the units are the elements of [Array.from] that
    are no mark, and a mark with nothing before it. *)
Definition isCombiningMark (element : jsstring) : bool :=
  match element with
  | [c] => (768 <=? c) && (c <=? 879)
  | _ => false
  end.

Fixpoint graphemesFrom (inside : bool) (elements : list jsstring) : nat :=
  match elements with
  | [] => O
  | element :: rest =>
      if inside && isCombiningMark element then graphemesFrom true rest
      else S (graphemesFrom true rest)
  end.

Definition graphemeUnits (text : jsstring) : nat :=
  graphemesFrom false (arrayFrom text).

(** "The trimmed (no trailing slash) base URL." *)
Definition trimmedBase (base : jsstring) : jsstring :=
  match rev base with
  | c :: before => if c =? SLASH then rev before else base
  | [] => base
  end.

(** "Strip leading/trailing [/]." *)
Definition stripOuterSlashes (s : jsstring) : jsstring :=
  rev (dropWhile isSlash (rev (dropWhile isSlash s))).

(** "Trim, strip leading/trailing [/], percent-encode each [/]-separated
    segment independently, join with [/] onto the trimmed base URL.
    Empty-after-trim slug yields the bare base URL." *)
Definition slugBacklink (base slug : jsstring) : result jsstring :=
  match stripOuterSlashes (trim slug) with
  | [] => Ok (trimmedBase base)
  | path =>
      encoded <- encodeAll (split SLASH path) ;;
      Ok (trimmedBase base ++ str "/" ++ join (str "/") encoded)
  end.

(** The same with the empty segments of the slug left out, which is what
    the amended claim says. *)
Definition slugBacklinkAmended (base slug : jsstring) : result jsstring :=
  match stripOuterSlashes (trim slug) with
  | [] => Ok (trimmedBase base)
  | path =>
      encoded <- encodeAll (filter nonEmpty (split SLASH path)) ;;
      Ok (trimmedBase base ++ str "/" ++ join (str "/") encoded)
  end.

(** "The post path relative to the posts root." *)
Definition relativeTo (root path : jsstring) : jsstring :=
  match root with
  | [] => path
  | _ =>
      if startsWith path (root ++ str "/")
      then skipn (length root + 1) path
      else path
  end.

(** "Strip a trailing [.md]/[.markdown] extension." *)
Definition stripMarkdownExtension (path : jsstring) : jsstring :=
  if endsWith path (str ".markdown") then dropEnd 9 path
  else if endsWith path (str ".md") then dropEnd 3 path
  else path.

(** The two replacements of the source, one after the other, each blind to
    the case of the letters. *)
Definition stripMarkdownExtensions (path : jsstring) : jsstring :=
  stripExtensionCI (str ".md") (stripExtensionCI (str ".markdown") path).

(** "Collapse a trailing [/index] segment." *)
Definition collapseIndex (path : jsstring) : jsstring :=
  if endsWith path (str "/index") then dropEnd 6 path else path.

Definition joinOnto (base encodedPath : jsstring) : jsstring :=
  match encodedPath with
  | [] => base
  | _ => base ++ str "/" ++ encodedPath
  end.

(** "Take the post path relative to the posts root, strip a trailing
    [.md]/[.markdown] extension, collapse a trailing [/index] segment,
    percent-encode each remaining path segment, join onto the base URL." *)
Definition pathBacklink (base root postPath : jsstring) : result jsstring :=
  let path :=
    collapseIndex (stripMarkdownExtension (relativeTo root postPath)) in
  encoded <- encodeAll (split SLASH path) ;;
  Ok (joinOnto (trimmedBase base) (join (str "/") encoded)).

(** The same with both replacements of the source and with the empty
    segments left out, which is what the amended claim says. *)
Definition pathBacklinkAmended (base root postPath : jsstring)
  : result jsstring :=
  let path :=
    collapseIndex (stripMarkdownExtensions (relativeTo root postPath)) in
  encoded <- encodeAll (filter nonEmpty (split SLASH path)) ;;
  Ok (joinOnto (trimmedBase base) (join (str "/") encoded)).

(** The text of a field of an error payload: a property of an object that
    holds a string which is not blank, trimmed. *)
Definition textOf (payload : value) (name : jsstring) : option jsstring :=
  match payload with
  | VObj props =>
      match lookup name props with
      | Some (VStr s) => if isBlank s then None else Some (trim s)
      | _ => None
      end
  | _ => None
  end.

(** "A human-readable message from the JSON body's [message] or [error]
    field (falling back to the HTTP status text)." *)
Definition apiMessage (payload : value) (statusText : jsstring) : jsstring :=
  match textOf payload (str "message") with
  | Some message => message
  | None =>
      match textOf payload (str "error") with
      | Some error => error
      | None => statusText
      end
  end.

(** A document whose lines end in a bare line feed: no carriage return
    stands right before a line feed. *)
Fixpoint noCRLF (s : jsstring) : bool :=
  match s with
  | [] => true
  | c :: s' =>
      negb ((c =? CR) && match s' with d :: _ => d =? LF | [] => false end)
      && noCRLF s'
  end.

(** A text of one line. *)
Definition noLF (s : jsstring) : bool :=
  forallb (fun c => negb (c =? LF)) s.

(** Where a path leads, one segment after the other, from a directory
    under the repository root.  The stack holds the names of the
    directories from that directory up to the root; an empty segment and [.]
    stay, [..] goes up, any other segment goes down; [None] once [..] is met
    at the root: the path has left the repository. *)
Fixpoint walk (stack : list jsstring) (segments : list jsstring)
  : option (list jsstring) :=
  match segments with
  | [] => Some stack
  | seg :: rest =>
      if negb (nonEmpty seg) || Posix.isDot seg then walk stack rest
      else if Posix.isDotDot seg then
        match stack with
        | [] => None
        | _ :: below => walk below rest
        end
      else walk (seg :: stack) rest
  end.

(** Where an asset reference leads: from the repository root when it
    begins with a slash, from the directory of the post otherwise. *)
Definition locate (postPath asset : jsstring) : option (list jsstring) :=
  if startsWith asset (str "/") then walk [] (split SLASH (skipn 1 asset))
  else walk [] (split SLASH (Posix.dirname postPath) ++ split SLASH asset).

(** Whether the reference, as it is resolved, ends in a slash. *)
Definition trailingSlash (postPath asset : jsstring) : bool :=
  if startsWith asset (str "/") then endsWith (skipn 1 asset) (str "/")
  else match asset with
       | [] => endsWith (Posix.dirname postPath) (str "/")
       | _ => endsWith asset (str "/")
       end.

(** The repo-relative path of a place under the root: its names from the
    root down, joined by slashes, with the slash of the reference after
    them; the root itself is [.]. *)
Definition pathOf (namesFromRoot : list jsstring) (trailing : bool) : jsstring :=
  match join (str "/") namesFromRoot with
  | [] => if trailing then str "./" else str "."
  | body => if trailing then body ++ str "/" else body
  end.

(** The amended claim C4: a reference to something outside the
    repository and a reference to the root itself fail, every other one
    gives the path of the place it leads to. *)
Definition resolveAsset (postPath assetPath : jsstring) : result jsstring :=
  let asset := backslashesToSlashes assetPath in
  if hasScheme asset || startsWith asset (str "data:")
  then Err (OnlyRepositoryPaths assetPath)
  else
    match locate postPath asset with
    | None => Err (OutsideRepoRoot assetPath)
    | Some [] => Err (OutsideRepoRoot assetPath)
    | Some stack => Ok (pathOf (rev stack) (trailingSlash postPath asset))
    end.

(** A reference that leads to the root of the repository and is written
    with a slash at its end, as [../] is from [posts/a.md]. *)
Definition rootWithSlash (postPath assetPath : jsstring) : bool :=
  let asset := backslashesToSlashes assetPath in
  match locate postPath asset with
  | Some [] => trailingSlash postPath asset
  | _ => false
  end.

(** The claim C4 as it stands: the reference is resolved against the
    directory of the post, and only a path that leaves the root fails. *)
Definition resolveAssetAsClaimed (postPath assetPath : jsstring)
  : result jsstring :=
  let asset := backslashesToSlashes assetPath in
  if hasScheme asset || startsWith asset (str "data:")
  then Err (OnlyRepositoryPaths assetPath)
  else
    match walk [] (split SLASH (Posix.dirname postPath)
                   ++ split SLASH asset) with
    | None => Err (OutsideRepoRoot assetPath)
    | Some stack =>
        Ok (pathOf (rev stack)
              (match asset with
               | [] => endsWith (Posix.dirname postPath) (str "/")
               | _ => endsWith asset (str "/")
               end))
    end.

End Spec.

(** * Auxiliary definitions of the proofs *)

Module Aux.

Local Open Scope N_scope.

(** The loop of [getNextPublishCommitNumber] read off the characters of the
    log: [pending] is the part of the current line already passed. *)
Fixpoint scanFrom (pending : jsstring) (s : jsstring) : option number :=
  match s with
  | [] => option_map parseInt (publishDigits (trim pending))
  | c :: s' =>
      if c =? LF then
        match publishDigits (trim pending) with
        | Some digits => Some (parseInt digits)
        | None => scanFrom [] s'
        end
      else scanFrom (pending ++ [c]) s'
  end.

(** Well-formedness as an automaton: the state says whether a high
    surrogate waits for its partner. *)
Definition step (pending : bool) (c : N) : option bool :=
  if pending then (if isLowSurrogate c then Some false else None)
  else if isLowSurrogate c then None
  else if isHighSurrogate c then Some true
  else Some false.

Fixpoint run (pending : bool) (s : jsstring) : option bool :=
  match s with
  | [] => Some pending
  | c :: s' =>
      match step pending c with
      | Some pending' => run pending' s'
      | None => None
      end
  end.

Definition wf (s : jsstring) : Prop := run false s = Some false.

Definition isSurrogate (c : N) : bool :=
  isHighSurrogate c || isLowSurrogate c.

Fixpoint endsCR (line : jsstring) : bool :=
  match line with
  | [] => false
  | [c] => c =? CR
  | _ :: rest => endsCR rest
  end.

(** Lines that [join] and [splitLines] take to each other: none holds a
    line feed, and none but the last ends in a carriage return. *)
Fixpoint stableLines (lines : list jsstring) : bool :=
  match lines with
  | [] => false
  | [line] => Spec.noLF line
  | line :: rest => Spec.noLF line && negb (endsCR line) && stableLines rest
  end.

Definition lineOK (line : jsstring) : bool :=
  Spec.noLF line && negb (endsCR line).

Definition notDelimiter (line : jsstring) : bool := negb (isDelimiter line).

(** The line that [upsertFrontmatterField] writes. *)
Definition rendered (field value : jsstring) : jsstring :=
  field ++ str ": " ++ JSON_stringify value.

Definition slashFree (seg : jsstring) : bool :=
  forallb (fun c => negb (isSlash c)) seg.

(** A segment that names a file or a directory. *)
Definition isName (seg : jsstring) : bool :=
  nonEmpty seg && negb (Posix.isDot seg) && negb (Posix.isDotDot seg)
  && slashFree seg.

(** What [normalize] leaves of a relative path: steps up, then names. *)
Definition normalForm (segments : list jsstring) : Prop :=
  exists ups names,
    segments = repeat (str "..") ups ++ names /\ forallb isName names = true.

(** The guard of [resolveGitRelativePath]. *)
Definition rejected (resolvedPath : jsstring) : bool :=
  seqb resolvedPath [] || seqb resolvedPath (str ".")
  || startsWith resolvedPath (str "../") || seqb resolvedPath (str "..").

(** A post carries the marker when the frontmatter of its committed source
    has the field, whatever the value. *)
Definition hasMarker
  (yaml_load : jsstring -> option (option value))
  (gitShow : jsstring -> option (list N))
  (utf8ToString : list N -> jsstring)
  (postPath : jsstring) : Prop :=
  exists bytes fm content v,
    gitShow postPath = Some bytes
    /\ splitFrontmatter yaml_load (utf8ToString bytes) = Ok (fm, content)
    /\ getNestedField fm DEFAULT_AT_URL_FIELD = Some v.

End Aux.

(** * The code around the engine

    The functions the publisher calls before and after it builds the drafts:
    the link to a published post, the removal of the marker, the [.env]
    file, the configuration and the publish commit. *)

(** ** Errors of these functions *)

(** One constructor for each [throw] of the functions below; [Engine] passes
    on an error of the functions above. *)
Inductive failure : Type :=
| Engine (e : error)
| CouldNotDerivePostUrl (atUri : jsstring)
| MissingHandle
| MissingBaseUrl
| NothingToCommit.

Inductive outcome (A : Type) : Type :=
| Returned (a : A)
| Thrown (f : failure).
Arguments Returned {A} a.
Arguments Thrown {A} f.

Definition andThen {A B} (o : outcome A) (k : A -> outcome B) : outcome B :=
  match o with
  | Returned a => k a
  | Thrown f => Thrown f
  end.

Notation "x <~ o ;; k" := (andThen o (fun x => k))
  (at level 61, o at next level, right associativity).

Definition ofResult {A} (r : result A) : outcome A :=
  match r with
  | Ok a => Returned a
  | Err e => Thrown (Engine e)
  end.

(** ** The link to a published post *)

Module PostUrl.

Definition POST_COLLECTION : jsstring := str "/app.bsky.feed.post/".

(** A match of the pattern of [toBlueskyPostUrl] that starts at the first
    character of [s]: the name of the collection between slashes, then one
    or more characters that are not a slash, then the end of the string.
    The result is the group. *)
Definition matchPostIdAt (s : jsstring) : option jsstring :=
  if startsWith s POST_COLLECTION then
    match skipn (length POST_COLLECTION) s with
    | [] => None
    | postId =>
        if forallb (fun c => negb (isSlash c)) postId then Some postId
        else None
    end
  else None.

(** [regex.exec(atUri)]: the leftmost match. *)
Fixpoint execPostId (atUri : jsstring) : option jsstring :=
  match matchPostIdAt atUri with
  | Some postId => Some postId
  | None =>
      match atUri with
      | [] => None
      | _ :: rest => execPostId rest
      end
  end.

Definition toBlueskyPostUrl (handle atUri : jsstring) : outcome jsstring :=
  match execPostId atUri with
  | None => Thrown (CouldNotDerivePostUrl atUri)
  | Some group =>
      postId <~ ofResult (encodeURIComponent group) ;;
      encodedHandle <~ ofResult (encodeURIComponent handle) ;;
      Returned (str "https://bsky.app/profile/" ++ encodedHandle
                ++ str "/post/" ++ postId)
  end.

End PostUrl.
Import PostUrl.

(** ** Frontmatter: removing a field *)

Module Strip.

Local Open Scope N_scope.

(** The syntax characters of a regular expression, which are the
    characters of the class of [escapeRegex]:
    [. * + ? ^ $ { } ( ) | [ ] \]. *)
Definition isRegexSyntax (c : N) : bool :=
  (c =? 46) || (c =? 42) || (c =? 43) || (c =? 63) || (c =? 94) || (c =? 36)
  || (c =? 123) || (c =? 125) || (c =? 40) || (c =? 41) || (c =? 124)
  || (c =? 91) || (c =? 93) || (c =? 92).

(** [value.replace(/[.*+?^${}()|[\]\\]/g, '\\$&')]: a backslash goes
    before every syntax character. *)
Definition escapeRegex (value : jsstring) : jsstring :=
  flat_map (fun c => if isRegexSyntax c then [92; c] else [c]) value.

(** What a pattern matches when it is made of ordinary characters and of
    syntax characters behind a backslash: the string of these characters;
    [None] when a syntax character stands bare or a backslash stands
    before anything else. *)
Fixpoint literalOf (pattern : jsstring) : option jsstring :=
  match pattern with
  | [] => Some []
  | c :: rest =>
      if c =? 92 then
        match rest with
        | d :: rest' =>
            if isRegexSyntax d then option_map (cons d) (literalOf rest')
            else None
        | [] => None
        end
      else if isRegexSyntax c then None
      else option_map (cons c) (literalOf rest)
  end.

Definition stripFrontmatterField (markdown field : jsstring) : jsstring :=
  match splitLines markdown with
  | first :: rest =>
      if isDelimiter first then
        match breakAtDelimiter rest with
        | Some (block, after) =>
            let withoutField :=
              filter (fun line => negb (fieldPatternTest field line)) block in
            let rebuilt :=
              join [LF] (str "---" :: withoutField ++ str "---" :: after) in
            finalizeNewline rebuilt (endsWith markdown [LF])
        | None => markdown
        end
      else markdown
  | [] => markdown
  end.

End Strip.
Import Strip.

(** ** The [.env] file *)

Module DotEnv.

Local Open Scope N_scope.

(** A [Record<string, string>]: the own properties of the object, each
    name once, in the order the names were first set.  The code reads the
    object by name only. *)
Definition Env : Type := list (jsstring * jsstring).

Fixpoint lookupEnv (key : jsstring) (env : Env) : option jsstring :=
  match env with
  | [] => None
  | (k, v) :: rest => if seqb key k then Some v else lookupEnv key rest
  end.

Fixpoint setEnv (key value : jsstring) (env : Env) : Env :=
  match env with
  | [] => [(key, value)]
  | (k, v) :: rest =>
      if seqb key k then (k, value) :: rest else (k, v) :: setEnv key value rest
  end.

(** [env[key] = value] on an object made by a literal.  The name
    [__proto__] is the accessor of [Object.prototype], whose setter ignores
    a value that is a string: the object gets no property. *)
Definition assign (key value : jsstring) (env : Env) : Env :=
  if seqb key (str "__proto__") then env else setEnv key value env.

Definition notSeparator (c : N) : bool := negb (c =? 61).

(** [value.replace(/ab/g, rep)] for a pattern of two characters: the
    matches are taken from left to right and do not overlap. *)
Fixpoint replacePairs (a b : N) (rep : jsstring) (s : jsstring) : jsstring :=
  match s with
  | [] => []
  | x :: s' =>
      match s' with
      | y :: rest =>
          if (x =? a) && (y =? b) then rep ++ replacePairs a b rep rest
          else x :: replacePairs a b rep s'
      | [] => [x]
      end
  end.

(** [value.slice(0, value.indexOf(' #'))] when the index is not [-1]. *)
Fixpoint beforeComment (value : jsstring) : option jsstring :=
  match value with
  | [] => None
  | x :: s' =>
      match s' with
      | y :: _ =>
          if (x =? 32) && (y =? 35) then Some []
          else option_map (cons x) (beforeComment s')
      | [] => None
      end
  end.

Definition isQuotedBy (quote : N) (value : jsstring) : bool :=
  startsWith value [quote] && endsWith value [quote]
  && Nat.leb 2 (length value).

(** [value.slice(1, -1)] *)
Definition unquote (value : jsstring) : jsstring := dropEnd 1 (skipn 1 value).

(** The value of an assignment, from the trimmed text after the [=]. *)
Definition assignedValue (value : jsstring) : jsstring :=
  if isQuotedBy 34 value then
    replacePairs 92 92 [92]
      (replacePairs 92 34 [34] (replacePairs 92 110 [LF] (unquote value)))
  else if isQuotedBy 39 value then unquote value
  else
    match beforeComment value with
    | Some kept => trim kept
    | None => value
    end.

(** One turn of the loop of [parseDotEnv]. *)
Definition parseLine (env : Env) (rawLine : jsstring) : Env :=
  let line := trim rawLine in
  if negb (nonEmpty line) || startsWith line (str "#") then env
  else
    match dropWhile notSeparator line with
    | [] => env
    | _ :: afterSeparator =>
        match trim (takeWhile notSeparator line) with
        | [] => env
        | key => assign key (assignedValue (trim afterSeparator)) env
        end
    end.

Definition parseDotEnv (source : jsstring) : Env :=
  fold_left parseLine (splitLines source) [].

End DotEnv.
Import DotEnv.

(** ** The configuration *)

Module Config.

Definition DEFAULT_PDS_URL : jsstring := str "https://bsky.social".
Definition DEFAULT_POSTS_DIR : jsstring := str "./posts".
Definition DEFAULT_PASSWORD_ENV_VAR : jsstring :=
  str "NOAT_BLUESKY_APP_PASSWORD".
Definition DEFAULT_POST_TEXT_FIELD : jsstring := str "post".

(** A [NoatConfig] is an object whose fields may be missing, and hold
    whatever the configuration file exports: the list of its properties. *)
Definition NoatConfig : Type := list (jsstring * value).

Record PublishOptions : Type := {
  opt_cwd : option jsstring;
  opt_configPath : option jsstring;
  opt_handle : option jsstring;
  opt_pdsUrl : option jsstring;
  opt_postsDir : option jsstring;
  opt_passwordEnvVar : option jsstring;
  opt_postTextField : option jsstring;
  opt_baseUrl : option jsstring;
  opt_dryRun : option bool;
  opt_verbose : option bool
}.

(** [a ?? b] *)
Definition orElse {A} (a b : option A) : option A :=
  match a with
  | Some _ => a
  | None => b
  end.

(** [if (option != null) config.name = option] *)
Definition setIfGiven (name : jsstring) (given : option jsstring)
  (config : NoatConfig) : NoatConfig :=
  match given with
  | Some v => setProp name (VStr v) config
  | None => config
  end.

Definition extractConfigOverrides (options : PublishOptions) : NoatConfig :=
  setIfGiven (str "baseUrl") (opt_baseUrl options)
    (setIfGiven (str "postTextField") (opt_postTextField options)
       (setIfGiven (str "passwordEnvVar") (opt_passwordEnvVar options)
          (setIfGiven (str "posts") (opt_postsDir options)
             (setIfGiven (str "pdsUrl") (opt_pdsUrl options)
                (setIfGiven (str "handle") (opt_handle options) []))))).

(** [{ ...a, ...b }]: the properties of [a], then those of [b] over them. *)
Definition spread (a b : NoatConfig) : NoatConfig :=
  fold_left (fun merged property => setProp (fst property) (snd property) merged)
    b a.

(** The [mergedConfig] of [publish]. *)
Definition mergedConfig (loaded : NoatConfig) (options : PublishOptions)
  : NoatConfig :=
  spread loaded (extractConfigOverrides options).

Section Normalize.

(** [path.resolve(configDir, path)] *)
Variable resolve : jsstring -> jsstring -> jsstring.

Definition normalizeConfig (configDir : jsstring) (env : Env)
  (config : NoatConfig) : outcome ResolvedConfig :=
  let field (name : jsstring) := resolveString (lookup name config) in
  let variable (name : jsstring) :=
    resolveString (option_map VStr (lookupEnv name env)) in
  match orElse (field (str "handle")) (variable (str "NOAT_BLUESKY_HANDLE")) with
  | None => Thrown MissingHandle
  | Some handle =>
      let pdsUrl :=
        match orElse (field (str "pdsUrl"))
                (variable (str "NOAT_BLUESKY_PDS_URL")) with
        | Some url => url
        | None => DEFAULT_PDS_URL
        end in
      let passwordEnvVar :=
        match field (str "passwordEnvVar") with
        | Some name => name
        | None => DEFAULT_PASSWORD_ENV_VAR
        end in
      match orElse (field (str "baseUrl")) (variable (str "NOAT_BASE_URL")) with
      | None => Thrown MissingBaseUrl
      | Some baseUrl =>
          let postsDir :=
            match field (str "posts") with
            | Some configuredPosts => resolve configDir configuredPosts
            | None => resolve configDir DEFAULT_POSTS_DIR
            end in
          Returned
            {| handle := handle;
               pdsUrl := pdsUrl;
               postsDir := postsDir;
               passwordEnvVar := passwordEnvVar;
               baseUrl := baseUrl;
               postTextField :=
                 match field (str "postTextField") with
                 | Some name => name
                 | None => DEFAULT_POST_TEXT_FIELD
                 end |}
      end
  end.

End Normalize.

End Config.
Import Config.

(** ** The publish commit *)

Module Repo.

Local Open Scope N_scope.

(** The decimal digits of a number, the last one first in [acc]. *)
Fixpoint digitsOf (fuel : nat) (n : N) (acc : jsstring) : jsstring :=
  match fuel with
  | O => acc
  | S fuel' =>
      let acc' := (48 + n mod 10) :: acc in
      if n / 10 =? 0 then acc' else digitsOf fuel' (n / 10) acc'
  end.

(** The decimal digits of a whole number, which has no more digits than
    bits. *)
Definition toString (n : N) : jsstring :=
  digitsOf (S (N.to_nat (N.log2 n))) n [].

Section Git.

(** The repository, and [execFileSync('git', args)] in it: what the
    process prints and the repository it leaves, or [None] when it fails. *)
Variable Repository : Type.
Variable git : list jsstring -> Repository -> option (jsstring * Repository).

(** The text of a double from [2^53] on in a template literal: the
    shortest digits that read back as the double, which need not be the
    digits of its value, with an exponent from [10^21] on. *)
Variable shortestDigits : N -> jsstring.





End Git.

End Repo.
Import Repo.

(** ** Auxiliary definitions of the proofs *)

Module Shape.

Local Open Scope N_scope.

(** A character that is no white space. *)
Definition noSpace (c : N) : bool := negb (isWhitespace c).

(** A character that is no exclamation mark: no image begins at it. *)
Definition noBang (c : N) : bool := negb (c =? 33).

(** Whether the committed source of a post carries the marker: the loop of
    [buildDrafts] goes on to the next post exactly then. *)
Definition isMarked
  (yaml_load : jsstring -> option (option value))
  (gitShow : jsstring -> option (list N))
  (utf8ToString : list N -> jsstring)
  (postPath : jsstring) : bool :=
  match gitShow postPath with
  | Some bytes =>
      match splitFrontmatter yaml_load (utf8ToString bytes) with
      | Ok (fm, _) =>
          match getNestedField fm DEFAULT_AT_URL_FIELD with
          | Some _ => true
          | None => false
          end
      | Err _ => false
      end
  | None => false
  end.

(** A line that does not set the field. *)
Definition notKey (field line : jsstring) : bool :=
  negb (fieldPatternTest field line).

(** The lines of the frontmatter block of a document, and the content
    after the block: what [splitFrontmatter] hands to the YAML loader and
    what it returns as [content]. *)
Definition blockOf (markdown : jsstring) : list jsstring :=
  match findBlock markdown with
  | Some (block, _) => block
  | None => []
  end.

Definition bodyOf (markdown : jsstring) : jsstring :=
  match findBlock markdown with
  | Some (_, after) => join [LF] after
  | None => markdown
  end.

(** A line without the carriage return at its end, if it has one: what
    [split] makes of a line that a line feed follows. *)
Definition dropCR (line : jsstring) : jsstring :=
  if Aux.endsCR line then removelast line else line.

(** The lines [split] finds in lines joined by line feeds: every line but
    the last loses the carriage return at its end. *)
Fixpoint resplit (lines : list jsstring) : list jsstring :=
  match lines with
  | [] => []
  | [line] => [line]
  | line :: rest => dropCR line :: resplit rest
  end.

(** The assignment a line of a [.env] file makes, if it makes one. *)
Definition entryOf (rawLine : jsstring) : option (jsstring * jsstring) :=
  let line := trim rawLine in
  if negb (nonEmpty line) || startsWith line (str "#") then None
  else
    match dropWhile notSeparator line with
    | [] => None
    | _ :: afterSeparator =>
        match trim (takeWhile notSeparator line) with
        | [] => None
        | key => Some (key, assignedValue (trim afterSeparator))
        end
    end.

(** A name a [.env] file can set: not empty, without white space around
    it, without [=] and line feed, not a comment and not [__proto__]. *)
Definition isKey (key : jsstring) : bool :=
  nonEmpty key && seqb (trim key) key && forallb notSeparator key
  && Spec.noLF key && negb (startsWith key (str "#"))
  && negb (seqb key (str "__proto__")).

(** A value written without quotes: without white space around it, of one
    line, not beginning with a quote, and without a space before a [#]. *)
Definition isBare (value : jsstring) : bool :=
  seqb (trim value) value && Spec.noLF value
  && negb (startsWith value [34%N]) && negb (startsWith value [39%N])
  && match beforeComment value with
     | Some _ => false
     | None => true
     end.

(** What a field of the merged configuration holds: the option of the
    caller when it is given, the value of the configuration file
    otherwise. *)
Definition override (given : option jsstring) (configured : option value)
  : option value :=
  match given with
  | Some v => Some (VStr v)
  | None => configured
  end.

(** The names every object inherits from [Object.prototype].  Read on an
    object that has no property of the name of its own, such a name gives
    what the prototype holds (a function, or the prototype itself for
    [__proto__]) and not [undefined]. *)
Definition OBJECT_PROTOTYPE_NAMES : list jsstring :=
  [str "constructor"; str "__defineGetter__"; str "__defineSetter__";
   str "hasOwnProperty"; str "__lookupGetter__"; str "__lookupSetter__";
   str "isPrototypeOf"; str "propertyIsEnumerable"; str "toString";
   str "valueOf"; str "__proto__"; str "toLocaleString"].

Definition isInherited (name : jsstring) : bool :=
  existsb (seqb name) OBJECT_PROTOTYPE_NAMES.

(** The number of line feeds of a text. *)
Definition lineFeeds (s : jsstring) : nat :=
  length (filter (fun c => c =? LF) s).

Definition isNil (line : jsstring) : bool :=
  match line with
  | [] => true
  | _ => false
  end.

End Shape.
Import Shape.

(** * Sample inputs *)

Definition history_4_2_1 : list jsstring :=
  [str "AT proto publish 4"; str "Fix a typo"; str "AT proto publish 2";
   str "AT proto publish 1"; str "Initial commit"].

Definition history_2_4_1 : list jsstring :=
  [str "AT proto publish 2"; str "AT proto publish 4";
   str "AT proto publish 1"].

(** A text of [n] letters. *)
Definition letters (n : nat) : jsstring := repeat 97%N n.

(** A text of [n] letters [e], each with an acute accent written after it
    (U+0301): [n] graphemes of two code points. *)
Definition accented (n : nat) : jsstring := concat (repeat [101; 769]%N n).

(** A loader and a repository for documents without frontmatter and
    without images: neither is asked anything. *)
Definition no_yaml : jsstring -> option (option value) := fun _ => None.
Definition no_blobs : jsstring -> option (list N) := fun _ => None.

Definition launch_post : jsstring := str "posts/2026-02-01-launch.md".

Definition with_slug (slug : jsstring) : frontmatter :=
  VObj [(str "title", VStr (str "Launch")); (str "slug", VStr slug)].

(** A frontmatter whose [slug] is blank and whose [bluesky.slug] is no
    string. *)
Definition blank_slugs : frontmatter :=
  VObj [(str "slug", VStr (str "  "));
        (str "bluesky", VObj [(str "slug", VNull)])].

(** A frontmatter whose [slug] is blank and whose [bluesky.slug] is not. *)
Definition blank_slug_beside_other : frontmatter :=
  VObj [(str "slug", VStr (str "  "));
        (str "bluesky", VObj [(str "slug", VStr (str "x"))])].

Definition abc_blog : ResolvedConfig := config_of (str "https://abc.com/blog").
Definition abc_blog_slash : ResolvedConfig :=
  config_of (str "https://abc.com/blog/").

Definition lone_surrogate : jsstring := [55357%N].

(** A repository of two posts.  The first carries the marker, with no
    value, over a body of 400 letters and an image that is not in the
    repository; the second is new. *)
Definition old_post : jsstring := str "posts/2025-old.md".
Definition new_post : jsstring := str "posts/2026-new.md".

Definition old_post_source : jsstring :=
  doc [str "---"; str "AT_URL:"; str "---";
       letters 400 ++ str " ![chart](../../../missing.bmp)"].

Definition new_post_source : jsstring :=
  doc [str "---"; str "slug: hello"; str "---"; str "Hello, world"].

Definition sample_head (path : jsstring) : option (list N) :=
  if seqb path old_post then Some old_post_source
  else if seqb path new_post then Some new_post_source
  else None.

(** The sources are ASCII, which UTF-8 decodes byte by byte. *)
Definition ascii_text (bytes : list N) : jsstring := bytes.

(** What [yaml.load] returns for the blocks of the two posts. *)
Definition sample_yaml (text : jsstring) : option (option value) :=
  if seqb text (str "AT_URL:") then Some (Some (VObj [(str "AT_URL", VNull)]))
  else if seqb text (str "slug: hello")
  then Some (Some (VObj [(str "slug", VStr (str "hello"))]))
  else None.

Definition unauthorized : Response :=
  {| status := 401; statusText := str "Unauthorized";
     bodyText :=
       str "{" ++ quoted "error" ++ str ":" ++ quoted "AuthenticationRequired"
       ++ str "," ++ quoted "message" ++ str ":"
       ++ quoted "Invalid identifier or password" ++ str "}" |}.

Definition bad_gateway : Response :=
  {| status := 502; statusText := str "Bad Gateway";
     bodyText := str "<html><body>502 Bad Gateway</body></html>" |}.

Definition at_url_value : jsstring :=
  str "https://bsky.app/profile/abc.bsky.social/post/3laz2abc".

Definition launch_document : jsstring :=
  doc [str "---"; str "title: Launch"; str "post: Hello"; str "---";
       str "Body"].

(** A document with the line ends of Windows and no frontmatter. *)
Definition windows_document : jsstring :=
  str "# Heading" ++ [CR; LF] ++ [CR; LF] ++ str "Body" ++ [CR; LF].

(** The document of the tests with the line ends of Windows. *)
Definition windows_launch_document : jsstring :=
  str "---" ++ [CR; LF] ++ str "title: Launch" ++ [CR; LF]
  ++ str "post: Hello" ++ [CR; LF] ++ str "---" ++ [CR; LF]
  ++ str "Body" ++ [CR; LF].

(** A document whose block holds the key twice. *)
Definition twice_marked_document : jsstring :=
  doc [str "---"; str "AT_URL: first"; str "AT_URL: second"; str "---";
       str "Body"].

(** A field name of two lines. *)
Definition two_line_field : jsstring := str "note" ++ [LF] ++ str "AT_URL".

Definition alpha_post : jsstring := str "example/posts/alpha.md".

(** Discharges [Forall (fun subject => ~ In LF subject)] on a list of
    literals. *)
Ltac single_lines :=
  repeat constructor; intros H; vm_compute in H; intuition discriminate.

(** [path.resolve] of POSIX on an absolute directory. *)
Definition posix_resolve (directory path : jsstring) : jsstring :=
  let joined :=
    if startsWith path (str "/") then path
    else directory ++ str "/" ++ path in
  str "/" ++ join (str "/")
    (Posix.normalizeSegments false [] (split SLASH joined)).

Definition env_of_the_tests : jsstring :=
  doc [str "# comment";
       str "NOAT_BLUESKY_APP_PASSWORD=abc123";
       str "QUOTED=" ++ quoted "hello world";
       str "INLINE=value # inline";
       [];
       str "SINGLE='ok'"].

Definition nick_env : Env :=
  [(str "NOAT_BLUESKY_HANDLE", str "nick.bsky.social");
   (str "NOAT_BASE_URL", str "https://blog.example.com")].

(** A configuration file, and options that give a blank handle and a base
    URL. *)
Definition file_config : NoatConfig :=
  [(str "handle", VStr (str "file.bsky.social"));
   (str "baseUrl", VStr (str "https://file.example.com"));
   (str "posts", VStr (str "notes"))].

Definition blank_handle_options : PublishOptions :=
  {| opt_cwd := None; opt_configPath := None;
     opt_handle := Some (str "  "); opt_pdsUrl := None; opt_postsDir := None;
     opt_passwordEnvVar := None; opt_postTextField := None;
     opt_baseUrl := Some (str "https://cli.example.com");
     opt_dryRun := None; opt_verbose := None |}.


Definition marked_document : jsstring :=
  doc [str "---"; str "title: Launch";
       str "AT_URL: " ++ quoted "https://bsky.app/profile/abc.bsky.social/post/3laz2abc";
       str "post: Hello"; str "---"; str "Body"].
(** A repository of one more post, without frontmatter and with an image
    that is in the repository. *)
Definition gallery_post : jsstring := str "posts/2026-gallery.md".
Definition harbour_png : jsstring := str "images/harbour.png".

Definition gallery_post_source : jsstring :=
  doc [str "A day out"; str "![Harbour](../images/harbour.png)"].

Definition harbour_bytes : list N := [137; 80; 78; 71]%N.

Definition gallery_head (path : jsstring) : option (list N) :=
  if seqb path gallery_post then Some gallery_post_source
  else if seqb path harbour_png then Some harbour_bytes
  else sample_head path.

Definition gallery_image : DraftImage :=
  {| di_path := harbour_png; di_alt := str "Harbour";
     di_mimeType := str "image/png"; di_bytes := harbour_bytes |}.

Definition gallery_draft : DraftPost :=
  {| draft_path := gallery_post;
     draft_text :=
       str "A day out" ++ [LF; LF] ++ str "https://abc.com/blog/2026-gallery";
     draft_image := Some gallery_image |}.

Definition new_draft : DraftPost :=
  {| draft_path := new_post;
     draft_text :=
       str "Hello, world" ++ [LF; LF] ++ str "https://abc.com/blog/hello";
     draft_image := None |}.

(** The answer of the server to [createRecord]. *)
Definition record_created : Response :=
  {| status := 200; statusText := str "OK";
     bodyText :=
       str "{" ++ quoted "uri" ++ str ":"
       ++ quoted "at://did:plc:abc/app.bsky.feed.post/3laz2abc" ++ str "}" |}.

(** * Evaluations

    The tests of the repository and the examples of its README, run on the
    embedding. *)

Example str_ex : str "a/b" = [97; 47; 98]%N.
Proof. reflexivity. Qed.
Example split_ex1 : split SLASH (str "a//b/") = [str "a"; []; str "b"; []].
Proof. reflexivity. Qed.
Example split_ex2 : split SLASH [] = [[]].
Proof. reflexivity. Qed.
Example splitLines_ex :
  splitLines (str "a" ++ [CR; LF] ++ str "b" ++ [LF] ++ [CR; CR; LF])
  = [str "a"; str "b"; [CR]; []].
Proof. reflexivity. Qed.
Example trim_ex : trim (str "  a b  ") = str "a b".
Proof. reflexivity. Qed.
Example replaceFirst_ex :
  replaceFirst (str "posts/") [] (str "posts/posts/a.md") = str "posts/a.md".
Proof. reflexivity. Qed.
Example getNestedField_ex :
  getNestedField (VObj [(str "bluesky", VObj [(str "slug", VStr (str "x"))])])
                 (str "bluesky.slug") = Some (VStr (str "x")).
Proof. reflexivity. Qed.
Example getNestedField_null :
  getNestedField (VObj [(str "AT_URL", VNull)]) (str "AT_URL") = Some VNull.
Proof. reflexivity. Qed.
Example getNestedField_through_string :
  getNestedField (VObj [(str "bluesky", VStr (str "x"))]) (str "bluesky.slug")
  = None.
Proof. reflexivity. Qed.
Example encode_space :
  encodeURIComponent (str "weekly note") = Ok (str "weekly%20note").
Proof. reflexivity. Qed.
Example encode_e_acute :
  encodeURIComponent [233%N] = Ok (str "%C3%A9").
Proof. reflexivity. Qed.
Example encode_emoji :
  encodeURIComponent [55357%N; 56832%N] = Ok (str "%F0%9F%98%80").
Proof. reflexivity. Qed.
Example encode_lone : encodeURIComponent [55357%N] = Err URIMalformed.
Proof. reflexivity. Qed.
Example count_emoji : characterCount [55357%N; 56832%N; 97%N] = 2.
Proof. reflexivity. Qed.
Example backlink_readme_1 :
  resolveBacklinkUrl (str "posts/2026-02-01-launch.md") (str "posts")
    (VObj [(str "slug", VStr (str "foo"))]) (config_of (str "https://abc.com/blog"))
  = Ok (Some (str "https://abc.com/blog/foo")).
Proof. reflexivity. Qed.
Example backlink_readme_2 :
  resolveBacklinkUrl (str "posts/2026-02-01-launch.md") (str "posts")
    (VObj [(str "slug", VStr (str "/weekly note/"))])
    (config_of (str "https://abc.com/blog/"))
  = Ok (Some (str "https://abc.com/blog/weekly%20note")).
Proof. reflexivity. Qed.
Example backlink_readme_3 :
  resolveBacklinkUrl (str "posts/2026-02-01-launch.md") (str "posts")
    (VObj []) (config_of (str "https://abc.com/blog"))
  = Ok (Some (str "https://abc.com/blog/2026-02-01-launch")).
Proof. reflexivity. Qed.
Example backlink_test_nested :
  resolveBacklinkUrl (str "posts/2026-02-01-launch.md") (str "posts")
    (VObj [(str "slug", VStr (str "/updates/weekly note/"))])
    (config_of (str "https://blog.example.com/blog"))
  = Ok (Some (str "https://blog.example.com/blog/updates/weekly%20note")).
Proof. reflexivity. Qed.
Example dirname_ex1 : Posix.dirname (str "example/posts/alpha.md") = str "example/posts".
Proof. reflexivity. Qed.
Example dirname_ex2 : Posix.dirname (str "alpha.md") = str ".".
Proof. reflexivity. Qed.
Example dirname_ex3 : Posix.dirname (str "a//b") = str "a/".
Proof. reflexivity. Qed.
Example dirname_ex4 : Posix.dirname (str "/a") = str "/".
Proof. reflexivity. Qed.
Example normalize_ex1 : Posix.normalize (str "a/./b/../../c/") = str "c/".
Proof. reflexivity. Qed.
Example normalize_ex2 : Posix.normalize (str "a/../../b") = str "../b".
Proof. reflexivity. Qed.
Example normalize_ex3 : Posix.normalize (str "/../a") = str "/a".
Proof. reflexivity. Qed.
Example normalize_ex4 : Posix.normalize (str "./") = str "./".
Proof. reflexivity. Qed.
Example normalize_ex5 : Posix.normalize (str "../../x") = str "../../x".
Proof. reflexivity. Qed.
Example extname_ex1 : Posix.extname (str "a/b.c/pic.tar.PNG") = str ".PNG".
Proof. reflexivity. Qed.
Example extname_ex2 : Posix.extname (str "a/.hidden") = [].
Proof. reflexivity. Qed.
Example extname_ex3 : Posix.extname (str "a/..") = [].
Proof. reflexivity. Qed.
Example extname_ex4 : Posix.extname (str "pic.") = str ".".
Proof. reflexivity. Qed.
Example extname_ex5 : Posix.extname (str "a.png//") = str ".png".
Proof. reflexivity. Qed.
Example resolve_test_good :
  resolveGitRelativePath (str "example/posts/alpha.md") (str "./images/pic.png")
  = Ok (str "example/posts/images/pic.png").
Proof. reflexivity. Qed.
Example resolve_test_url :
  resolveGitRelativePath (str "example/posts/alpha.md")
    (str "https://cdn.example.com/pic.png")
  = Err (OnlyRepositoryPaths (str "https://cdn.example.com/pic.png")).
Proof. reflexivity. Qed.
Example resolve_test_escape :
  resolveGitRelativePath (str "example/posts/alpha.md") (str "../../../secrets.png")
  = Err (OutsideRepoRoot (str "../../../secrets.png")).
Proof. reflexivity. Qed.
Example findFirst_test :
  findFirstMarkdownImage
    (str "Intro" ++ [LF] ++ str "![First](./images/first.png)" ++ [LF]
     ++ str "Middle" ++ [LF] ++ str "![Second](./images/second.png)")
  = Some {| image_alt := str "First"; image_path := str "./images/first.png" |}.
Proof. reflexivity. Qed.
Example strip_images_ex :
  stripMarkdownImages (str " Hello ![a](b.png) world ![c](d e) ") =
  str "Hello  world".
Proof. reflexivity. Qed.
Example next_empty : getNextPublishCommitNumber [] = Finite 1.
Proof. reflexivity. Qed.
Example next_421 :
  getNextPublishCommitNumber
    (gitLog [str "AT proto publish 4"; str "fix typo";
             str "AT proto publish 2"; str "AT proto publish 1"; str "init"])
  = Finite 5.
Proof. vm_compute. reflexivity. Qed.
Example next_not_a_counter :
  getNextPublishCommitNumber (gitLog [str "AT proto publish 4 (amended)"])
  = Finite 1.
Proof. reflexivity. Qed.
Example next_at_2_53 :
  getNextPublishCommitNumber
    (gitLog [str "AT proto publish 9007199254740992"])
  = Finite 9007199254740992
  /\ getNextPublishCommitNumber
       (gitLog [str "AT proto publish 9007199254740993"])
     = Finite 9007199254740992
  /\ getNextPublishCommitNumber
       (gitLog [str "AT proto publish 9007199254740995"])
     = Finite 9007199254740996.
Proof. vm_compute. repeat split. Qed.
Example next_infinity :
  getNextPublishCommitNumber
    (gitLog [str "AT proto publish " ++ repeat 57%N 309])
  = Infinity.
Proof. vm_compute. reflexivity. Qed.
Example stringify_ex :
  JSON_stringify ([97; 34; 98; 92; 10]%N) = [34; 97; 92; 34; 98; 92; 92; 92; 110; 34]%N.
Proof. reflexivity. Qed.
Example upsert_test_add :
  upsertFrontmatterField
    (doc [str "---"; str "title: Launch"; str "post: Hello"; str "---"; str "Body"])
    (str "AT_URL") (str "https://bsky.app/profile/abc.bsky.social/post/3laz2abc")
  = doc [str "---"; str "title: Launch"; str "post: Hello";
         str "AT_URL: "
         ++ quoted "https://bsky.app/profile/abc.bsky.social/post/3laz2abc";
         str "---"; str "Body"].
Proof. reflexivity. Qed.
Example upsert_test_replace :
  upsertFrontmatterField
    (doc [str "---"; str "title: Launch";
          str "AT_URL: " ++ quoted "https://old"; str "---"; str "Body"])
    (str "AT_URL") (str "https://new")
  = doc [str "---"; str "title: Launch";
         str "AT_URL: " ++ quoted "https://new"; str "---"; str "Body"].
Proof. reflexivity. Qed.
Example upsert_test_create :
  upsertFrontmatterField (doc [str "# Heading"; []; str "Body"])
    (str "AT_URL") (str "https://x")
  = doc [str "---"; str "AT_URL: " ++ quoted "https://x"; str "---";
         str "# Heading"; []; str "Body"].
Proof. reflexivity. Qed.
Example json_ex1 :
  JSON_parse (str "{" ++ quoted "error" ++ str ":" ++ quoted "AuthRequired"
              ++ str ", " ++ quoted "message" ++ str " : " ++ quoted "Bad token"
              ++ str ", " ++ quoted "n" ++ str ": [1, -2.5e3, true, null, {}]}")
  = Some (VObj [(str "error", VStr (str "AuthRequired"));
                (str "message", VStr (str "Bad token"));
                (str "n", VArr [VNum (str "1"); VNum (str "-2.5e3");
                                VBool true; VNull; VObj []])]).
Proof. reflexivity. Qed.
Example json_ex2 : JSON_parse (str "<html>Bad Gateway</html>") = None.
Proof. reflexivity. Qed.
Example json_ex3 : JSON_parse (str "{} x") = None.
Proof. reflexivity. Qed.
Example json_ex4 : JSON_parse (str "01") = None.
Proof. reflexivity. Qed.
Example json_ex5 :
  JSON_parse (quoted "a\u00e9\n") = Some (VStr [97; 233; 10]%N).
Proof. reflexivity. Qed.

Example build_sample_drafts :
  buildDrafts sample_yaml sample_head ascii_text abc_blog (str "posts")
    [old_post; new_post]
  = Ok [{| draft_path := new_post;
           draft_text :=
             str "Hello, world" ++ [LF; LF] ++ str "https://abc.com/blog/hello";
           draft_image := None |}].
Proof. vm_compute. reflexivity. Qed.
Example old_post_would_be_rejected :
  buildDraft sample_yaml sample_head abc_blog (str "posts") old_post
    old_post_source (VObj [])
  = Err (PostTextTooLong 400).
Proof. vm_compute. reflexivity. Qed.
Example marker_with_empty_string :
  getNestedField (VObj [(str "AT_URL", VStr [])]) DEFAULT_AT_URL_FIELD
  = Some (VStr []).
Proof. reflexivity. Qed.
Example count_300_with_pair :
  characterCount (letters 299 ++ [55357%N; 56832%N]) = 300.
Proof. vm_compute. reflexivity. Qed.
Example backlink_index_page :
  resolveBacklinkUrl (str "posts/guides/index.md") (str "./posts/") (VObj [])
    abc_blog
  = Ok (Some (str "https://abc.com/blog/guides")).
Proof. reflexivity. Qed.
Example backlink_empty_path :
  resolveBacklinkUrl (str "posts/.md") (str "posts") (VObj []) abc_blog
  = Ok (Some (str "https://abc.com/blog")).
Proof. reflexivity. Qed.
Example backlink_nested_slug :
  resolveBacklinkUrl launch_post (str "posts")
    (VObj [(str "slug", VNum (str "7"));
           (str "bluesky", VObj [(str "slug", VStr (str " caf" ++ [233%N]))])])
    abc_blog
  = Ok (Some (str "https://abc.com/blog/caf%C3%A9")).
Proof. reflexivity. Qed.
Example upsert_windows_once :
  upsertFrontmatterField windows_document DEFAULT_AT_URL_FIELD (str "u")
  = doc [str "---"; str "AT_URL: " ++ quoted "u"; str "---";
         str "# Heading" ++ [CR]; [CR]; str "Body" ++ [CR]; []].
Proof. reflexivity. Qed.
Example upsert_windows_twice :
  upsertFrontmatterField
    (upsertFrontmatterField windows_document DEFAULT_AT_URL_FIELD (str "u"))
    DEFAULT_AT_URL_FIELD (str "u")
  = doc [str "---"; str "AT_URL: " ++ quoted "u"; str "---";
         str "# Heading"; []; str "Body"; []].
Proof. reflexivity. Qed.
Example upsert_twice_marked :
  upsertFrontmatterField twice_marked_document DEFAULT_AT_URL_FIELD (str "u")
  = doc [str "---"; str "AT_URL: " ++ quoted "u"; str "AT_URL: second";
         str "---"; str "Body"].
Proof. reflexivity. Qed.
Example upsert_empty_document :
  upsertFrontmatterField [] DEFAULT_AT_URL_FIELD (str "u")
  = doc [str "---"; str "AT_URL: " ++ quoted "u"; str "---"].
Proof. reflexivity. Qed.
Example resolve_root_with_slash :
  resolveGitRelativePath (str "a.md") (str "./") = Ok (str "./").
Proof. reflexivity. Qed.
Example resolve_two_slashes :
  resolveGitRelativePath (str "posts/a.md") (str "//etc/passwd")
  = Ok (str "/etc/passwd").
Proof. reflexivity. Qed.
Example resolve_backslashes :
  resolveGitRelativePath (str "posts/a.md") (str "..\..\x.png")
  = Err (OutsideRepoRoot (str "..\..\x.png")).
Proof. reflexivity. Qed.
Example response_blank_body :
  parseJsonResponse
    {| status := 503; statusText := str "Service Unavailable";
       bodyText := str "  " |} (str "upload blob")
  = Err (BlueskyApiError (str "upload blob") 503 (str "Service Unavailable")).
Proof. reflexivity. Qed.
Example response_error_field :
  parseJsonResponse
    {| status := 400; statusText := str "Bad Request";
       bodyText := str "{" ++ quoted "error" ++ str ":" ++ quoted "InvalidRequest"
                   ++ str "," ++ quoted "message" ++ str ":42}" |}
    (str "create session")
  = Err (BlueskyApiError (str "create session") 400 (str "InvalidRequest")).
Proof. vm_compute. reflexivity. Qed.
Example response_ok :
  parseJsonResponse
    {| status := 200; statusText := str "OK";
       bodyText := str "{" ++ quoted "uri" ++ str ":" ++ quoted "at://x" ++ str "}" |}
    (str "create record for posts/a.md")
  = Ok (VObj [(str "uri", VStr (str "at://x"))]).
Proof. vm_compute. reflexivity. Qed.

Example toBlueskyPostUrl_test :
  toBlueskyPostUrl (str "abc.bsky.social")
    (str "at://did:plc:123/app.bsky.feed.post/3laz2abc")
  = Returned (str "https://bsky.app/profile/abc.bsky.social/post/3laz2abc").
Proof. reflexivity. Qed.
Example toBlueskyPostUrl_other_collection :
  toBlueskyPostUrl (str "abc.bsky.social")
    (str "at://did:plc:123/app.bsky.feed.like/3laz2abc")
  = Thrown (CouldNotDerivePostUrl
              (str "at://did:plc:123/app.bsky.feed.like/3laz2abc")).
Proof. reflexivity. Qed.
Example toBlueskyPostUrl_trailing_slash :
  toBlueskyPostUrl (str "abc.bsky.social")
    (str "at://did:plc:123/app.bsky.feed.post/3laz2abc/")
  = Thrown (CouldNotDerivePostUrl
              (str "at://did:plc:123/app.bsky.feed.post/3laz2abc/")).
Proof. reflexivity. Qed.
Example escapeRegex_ex :
  escapeRegex (str "a.b[0]") = str "a\.b\[0\]".
Proof. reflexivity. Qed.
Example strip_test :
  stripFrontmatterField marked_document (str "AT_URL")
  = doc [str "---"; str "title: Launch"; str "post: Hello"; str "---";
         str "Body"].
Proof. reflexivity. Qed.
Example strip_no_frontmatter :
  stripFrontmatterField windows_document (str "AT_URL") = windows_document.
Proof. reflexivity. Qed.
Example parseDotEnv_test :
  parseDotEnv env_of_the_tests
  = [(str "NOAT_BLUESKY_APP_PASSWORD", str "abc123");
     (str "QUOTED", str "hello world");
     (str "INLINE", str "value");
     (str "SINGLE", str "ok")].
Proof. reflexivity. Qed.
Example parseDotEnv_escapes :
  parseDotEnv (str "A=" ++ quoted "one\ntwo\\n")
  = [(str "A", str "one" ++ [LF] ++ str "two\" ++ [LF])].
Proof. reflexivity. Qed.
Example parseDotEnv_proto :
  parseDotEnv (str "__proto__=x") = [].
Proof. reflexivity. Qed.
Example parseDotEnv_comment_alone :
  parseDotEnv (str "KEY= # c") = [(str "KEY", str "# c")].
Proof. reflexivity. Qed.
Example parseDotEnv_second_line_wins :
  parseDotEnv (doc [str "A=1"; str "B=2"; str " A = 3 "])
  = [(str "A", str "3"); (str "B", str "2")].
Proof. reflexivity. Qed.
Example normalizeConfig_test_defaults :
  normalizeConfig posix_resolve (str "/repo") nick_env []
  = Returned {| handle := str "nick.bsky.social";
                pdsUrl := str "https://bsky.social";
                postsDir := str "/repo/posts";
                passwordEnvVar := str "NOAT_BLUESKY_APP_PASSWORD";
                postTextField := str "post";
                baseUrl := str "https://blog.example.com" |}.
Proof. reflexivity. Qed.
Example normalizeConfig_test_posts :
  option_map (@postsDir)
    (match normalizeConfig posix_resolve (str "/repo/example") nick_env
             [(str "posts", VStr (str "posts"))] with
     | Returned config => Some config
     | Thrown _ => None
     end)
  = Some (str "/repo/example/posts").
Proof. reflexivity. Qed.
Example normalizeConfig_test_base :
  normalizeConfig posix_resolve (str "/repo")
    [(str "NOAT_BLUESKY_HANDLE", str "nick.bsky.social")] []
  = Thrown MissingBaseUrl.
Proof. reflexivity. Qed.
Example toString_ex : toString 0 = str "0" /\ toString 1905 = str "1905".
Proof. split; reflexivity. Qed.
Example build_gallery_drafts :
  buildDrafts sample_yaml gallery_head ascii_text abc_blog (str "posts")
    [old_post; gallery_post; new_post]
  = Ok [gallery_draft; new_draft].
Proof. vm_compute. reflexivity. Qed.

(** * Properties of the string functions *)

Unset Implicit Arguments.

Section StringFacts.

Local Open Scope N_scope.

Lemma seqb_refl (a : jsstring) : seqb a a = true.
Proof.
  induction a as [|x a IH]; simpl; [reflexivity|].
  now rewrite N.eqb_refl, IH.
Qed.

Lemma seqb_eq (a b : jsstring) : seqb a b = true <-> a = b.
Proof.
  split.
  - revert b; induction a as [|x a IH]; intros [|y b] H; simpl in H;
      try discriminate; [reflexivity|].
    apply andb_true_iff in H as [Hx Hab].
    apply N.eqb_eq in Hx. f_equal; auto.
  - intros ->. apply seqb_refl.
Qed.

Lemma seqb_neq (a b : jsstring) : seqb a b = false <-> a <> b.
Proof.
  split.
  - intros H E. apply seqb_eq in E. congruence.
  - intros H. destruct (seqb a b) eqn:E; [|reflexivity].
    apply seqb_eq in E. contradiction.
Qed.

Lemma startsWith_app (p s : jsstring) : startsWith (p ++ s) p = true.
Proof.
  induction p as [|x p IH]; simpl; [reflexivity|].
  now rewrite N.eqb_refl, IH.
Qed.

Lemma startsWith_refl (s : jsstring) : startsWith s s = true.
Proof.
  rewrite <- (app_nil_r s) at 1. apply startsWith_app.
Qed.

Lemma startsWith_inv (s p : jsstring) :
  startsWith s p = true -> exists r, s = p ++ r.
Proof.
  revert s; induction p as [|x p IH]; intros s H.
  - exists s. reflexivity.
  - destruct s as [|y s]; simpl in H; [discriminate|].
    apply andb_true_iff in H as [Hx Hs]. apply N.eqb_eq in Hx. subst y.
    destruct (IH _ Hs) as [r ->]. exists r. reflexivity.
Qed.

Lemma startsWith_app_l (s p r : jsstring) :
  startsWith s p = true -> startsWith (s ++ r) p = true.
Proof.
  intros H. destruct (startsWith_inv _ _ H) as [t ->].
  rewrite <- app_assoc. apply startsWith_app.
Qed.

Lemma includes_app_r (a b : jsstring) : includes (a ++ b) b = true.
Proof.
  induction a as [|c a IH]; simpl.
  - destruct b; simpl; [reflexivity|].
    now rewrite N.eqb_refl, startsWith_refl.
  - rewrite IH. apply orb_true_r.
Qed.

Lemma includes_inv (s p : jsstring) :
  includes s p = true -> exists a b, s = a ++ p ++ b.
Proof.
  induction s as [|c s IH]; simpl; intros H.
  - rewrite orb_false_r in H. destruct (startsWith_inv _ _ H) as [r E].
    exists [], r. exact E.
  - apply orb_true_iff in H as [H|H].
    + destruct (startsWith_inv _ _ H) as [r E]. exists [], r. exact E.
    + destruct (IH H) as (a & b & ->). exists (c :: a), b. reflexivity.
Qed.

Lemma endsWith_app (s p : jsstring) : endsWith (s ++ p) p = true.
Proof.
  unfold endsWith. rewrite rev_app_distr. apply startsWith_app.
Qed.

Lemma endsWith_inv (s p : jsstring) :
  endsWith s p = true -> exists r, s = r ++ p.
Proof.
  unfold endsWith. intros H. destruct (startsWith_inv _ _ H) as [r E].
  exists (rev r). rewrite <- (rev_involutive s), E, rev_app_distr.
  now rewrite rev_involutive.
Qed.

Lemma dropEnd_app (s p : jsstring) : dropEnd (length p) (s ++ p) = s.
Proof.
  unfold dropEnd. rewrite length_app.
  replace (length s + length p - length p)%nat with (length s) by lia.
  rewrite firstn_app, firstn_all, Nat.sub_diag. simpl. apply app_nil_r.
Qed.

End StringFacts.

(** * The backlink is appended once *)

(** C8: [appendBacklink] applied to its own result changes nothing; the
    result always contains the backlink; and the backlink is appended, after
    an empty line, exactly when the text did not contain it. *)
Theorem appendBacklink_idempotent (text backlinkUrl : jsstring) :
  appendBacklink (appendBacklink text backlinkUrl) backlinkUrl
  = appendBacklink text backlinkUrl
  /\ includes (appendBacklink text backlinkUrl) backlinkUrl = true
  /\ appendBacklink text backlinkUrl
     = if includes text backlinkUrl then text
       else text ++ [LF; LF] ++ backlinkUrl.
Proof.
  assert (Hin : includes (appendBacklink text backlinkUrl) backlinkUrl = true).
  { unfold appendBacklink. destruct (includes text backlinkUrl) eqn:E.
    - exact E.
    - rewrite app_assoc. apply includes_app_r. }
  repeat split.
  - unfold appendBacklink at 1. now rewrite Hin.
  - exact Hin.
Qed.

(** * Trimming *)

Section TrimFacts.

Variable p : N -> bool.

Lemma dropWhile_all (s : jsstring) :
  forallb p s = true -> dropWhile p s = [].
Proof.
  induction s as [|c s IH]; simpl; [reflexivity|].
  intros H. apply andb_true_iff in H as [Hc Hs]. now rewrite Hc, IH.
Qed.

Lemma dropWhile_app_last (s : jsstring) (c : N) :
  dropWhile p (s ++ [c]) =
  if forallb p s then (if p c then [] else [c]) else dropWhile p s ++ [c].
Proof.
  induction s as [|d s IH]; simpl; [reflexivity|].
  destruct (p d); simpl; [exact IH|reflexivity].
Qed.

Lemma dropWhileEnd_all (s : jsstring) :
  forallb p s = true -> dropWhileEnd p s = [].
Proof.
  induction s as [|c s IH]; simpl; [reflexivity|].
  intros H. apply andb_true_iff in H as [Hc Hs]. now rewrite IH, Hc.
Qed.

Lemma dropWhileEnd_nil_inv (s : jsstring) :
  dropWhileEnd p s = [] -> forallb p s = true.
Proof.
  induction s as [|c s IH]; simpl; [reflexivity|].
  destruct (dropWhileEnd p s) eqn:E.
  - destruct (p c); [intros _; now rewrite IH | discriminate].
  - discriminate.
Qed.

Lemma dropWhileEnd_app_last (s : jsstring) (c : N) :
  p c = true -> dropWhileEnd p (s ++ [c]) = dropWhileEnd p s.
Proof.
  intros Hc. induction s as [|d s IH]; simpl.
  - now rewrite Hc.
  - now rewrite IH.
Qed.

Lemma dropWhileEnd_app_all (s t : jsstring) :
  forallb p t = true -> dropWhileEnd p (s ++ t) = dropWhileEnd p s.
Proof.
  intros Ht. induction s as [|d s IH]; simpl.
  - now apply dropWhileEnd_all.
  - now rewrite IH.
Qed.

Lemma dropWhileEnd_keep (s : jsstring) (c : N) :
  p c = false -> dropWhileEnd p (s ++ [c]) = s ++ [c].
Proof.
  intros Hc. induction s as [|d s IH]; simpl.
  - now rewrite Hc.
  - rewrite IH. destruct (s ++ [c]) eqn:E; [|reflexivity].
    destruct s; discriminate.
Qed.

(** What is dropped at the end satisfies the predicate throughout. *)
Lemma dropWhileEnd_split (s : jsstring) :
  exists t, s = dropWhileEnd p s ++ t /\ forallb p t = true.
Proof.
  induction s as [|c s (t & E & Ht)]; simpl.
  - exists []. split; reflexivity.
  - destruct (dropWhileEnd p s) eqn:D.
    + destruct (p c) eqn:Hc.
      * exists (c :: s). split; [reflexivity|]. simpl. rewrite Hc. simpl.
        apply dropWhileEnd_nil_inv. exact D.
      * exists s. split; [reflexivity|]. apply dropWhileEnd_nil_inv. exact D.
    + exists t. split; [|exact Ht]. simpl. f_equal. exact E.
Qed.

Lemma dropWhile_split (s : jsstring) :
  exists t, s = t ++ dropWhile p s /\ forallb p t = true.
Proof.
  induction s as [|c s (t & E & Ht)]; simpl.
  - exists []. split; reflexivity.
  - destruct (p c) eqn:Hc.
    + exists (c :: t). split; [simpl; now rewrite <- E|]. simpl. now rewrite Hc.
    + exists []. split; reflexivity.
Qed.

Lemma dropWhile_head (s : jsstring) (c : N) (r : jsstring) :
  dropWhile p s = c :: r -> p c = false.
Proof.
  induction s as [|d s IH]; simpl; [discriminate|].
  destruct (p d) eqn:Hd; [exact IH|].
  intros E. injection E as -> _. exact Hd.
Qed.

Lemma dropWhile_idem (s : jsstring) :
  dropWhile p (dropWhile p s) = dropWhile p s.
Proof.
  destruct (dropWhile p s) as [|c r] eqn:E; [reflexivity|].
  simpl. now rewrite (dropWhile_head s c r E).
Qed.

Lemma dropWhileEnd_idem (s : jsstring) :
  dropWhileEnd p (dropWhileEnd p s) = dropWhileEnd p s.
Proof.
  induction s as [|c s IH]; simpl; [reflexivity|].
  destruct (dropWhileEnd p s) as [|d r] eqn:E.
  - destruct (p c) eqn:Hc; simpl; [reflexivity|now rewrite Hc].
  - change (dropWhileEnd p (c :: d :: r))
      with (match dropWhileEnd p (d :: r) with
            | [] => if p c then [] else [c]
            | r' => c :: r'
            end).
    now rewrite IH.
Qed.

End TrimFacts.

Lemma trim_cons_ws (c : N) (s : jsstring) :
  isWhitespace c = true -> trim (c :: s) = trim s.
Proof. intros H. unfold trim, trimStart. simpl. now rewrite H. Qed.

Lemma trim_app_ws (s : jsstring) (c : N) :
  isWhitespace c = true -> trim (s ++ [c]) = trim s.
Proof.
  intros H. unfold trim, trimStart, trimEnd.
  rewrite dropWhile_app_last, H.
  destruct (forallb isWhitespace s) eqn:A.
  - now rewrite (dropWhile_all _ _ A).
  - now apply dropWhileEnd_app_last.
Qed.

Lemma trim_nil : trim [] = [].
Proof. reflexivity. Qed.

(** * The publish commit counter *)

Section CommitFacts.

Local Open Scope N_scope.
Import Aux Spec.

Lemma LF_is_whitespace : isWhitespace LF = true.
Proof. reflexivity. Qed.

Lemma eqb_LF_whitespace (c : N) : (c =? LF) = true -> isWhitespace c = true.
Proof. intros H. apply N.eqb_eq in H. now subst. Qed.

Lemma publishDigits_nil : publishDigits (trim []) = None.
Proof. reflexivity. Qed.

Lemma split_nonempty (sep : N) (s : jsstring) : split sep s <> [].
Proof.
  destruct s as [|c s]; simpl; [discriminate|].
  destruct (c =? sep); [discriminate|]. destruct (split sep s); discriminate.
Qed.

(** [scanFrom] is the loop over the lines. *)
Lemma scanFrom_split (s pending : jsstring) :
  scanFrom pending s =
  match split LF s with
  | w :: ws =>
      match publishDigits (trim (pending ++ w)) with
      | Some digits => Some (parseInt digits)
      | None => firstPublishCounter ws
      end
  | [] => None
  end.
Proof.
  revert pending; induction s as [|c s IH]; intros pending; simpl.
  - rewrite app_nil_r. now destruct (publishDigits (trim pending)).
  - destruct (c =? LF) eqn:E.
    + rewrite app_nil_r.
      destruct (publishDigits (trim pending)); [reflexivity|].
      rewrite IH. destruct (split LF s); reflexivity.
    + rewrite IH. destruct (split LF s) as [|w ws] eqn:S.
      * now apply split_nonempty in S.
      * now rewrite <- app_assoc.
Qed.

Lemma firstPublishCounter_scan (s : jsstring) :
  firstPublishCounter (split LF s) = scanFrom [] s.
Proof.
  rewrite scanFrom_split. destruct (split LF s) as [|w ws] eqn:E.
  - now apply split_nonempty in E.
  - reflexivity.
Qed.

Lemma scanFrom_ws_pending (s pending : jsstring) (c : N) :
  isWhitespace c = true -> scanFrom (c :: pending) s = scanFrom pending s.
Proof.
  intros Hc. revert pending; induction s as [|d s IH]; intros pending; simpl.
  - now rewrite trim_cons_ws.
  - rewrite trim_cons_ws by exact Hc.
    destruct (d =? LF); [reflexivity|]. apply (IH (pending ++ [d])).
Qed.

Lemma scanFrom_trimStart (s : jsstring) :
  scanFrom [] (trimStart s) = scanFrom [] s.
Proof.
  unfold trimStart. induction s as [|c s IH]; [reflexivity|].
  simpl dropWhile. destruct (isWhitespace c) eqn:Hc; [|reflexivity].
  rewrite IH. simpl. destruct (c =? LF) eqn:E.
  - reflexivity.
  - symmetry. now apply scanFrom_ws_pending.
Qed.

Lemma scanFrom_trimEnd (s pending : jsstring) :
  scanFrom pending (trimEnd s) = scanFrom pending s.
Proof.
  unfold trimEnd.
  revert pending; induction s as [|c s IH]; intros pending; [reflexivity|].
  simpl dropWhileEnd. destruct (dropWhileEnd isWhitespace s) as [|d t] eqn:D.
  - destruct (isWhitespace c) eqn:Hc.
    + simpl. destruct (c =? LF) eqn:E.
      * destruct (publishDigits (trim pending)); [reflexivity|].
        rewrite <- IH. reflexivity.
      * rewrite <- IH. simpl. now rewrite trim_app_ws.
    + simpl. destruct (c =? LF) eqn:E.
      * apply eqb_LF_whitespace in E. congruence.
      * rewrite <- IH. reflexivity.
  - simpl. destruct (c =? LF) eqn:E.
    + destruct (publishDigits (trim pending)); [reflexivity|].
      rewrite <- IH. reflexivity.
    + rewrite <- IH. reflexivity.
Qed.

(** The number depends on the lines of the log alone. *)
Lemma getNext_scan (logOutput : jsstring) :
  getNextPublishCommitNumber logOutput =
  match scanFrom [] logOutput with
  | Some previous => plusOne previous
  | None => Finite 1
  end.
Proof.
  unfold getNextPublishCommitNumber.
  assert (H : scanFrom [] (trim logOutput) = scanFrom [] logOutput).
  { unfold trim. now rewrite scanFrom_trimEnd, scanFrom_trimStart. }
  rewrite <- H. destruct (trim logOutput) as [|c r] eqn:E.
  - reflexivity.
  - now rewrite firstPublishCounter_scan.
Qed.

Lemma scanFrom_line (line rest pending : jsstring) :
  ~ In LF line ->
  scanFrom pending (line ++ LF :: rest) =
  match publishDigits (trim (pending ++ line)) with
  | Some digits => Some (parseInt digits)
  | None => scanFrom [] rest
  end.
Proof.
  revert pending; induction line as [|c line IH]; intros pending Hn; simpl.
  - now rewrite app_nil_r.
  - destruct (c =? LF) eqn:E.
    + apply N.eqb_eq in E. subst c. exfalso. apply Hn. now left.
    + rewrite IH by (intros Hin; apply Hn; now right).
      now rewrite <- app_assoc.
Qed.

Lemma scanFrom_gitLog (subjects : list jsstring) :
  Forall (fun subject => ~ In LF subject) subjects ->
  scanFrom [] (gitLog subjects) = firstPublishCounter subjects.
Proof.
  induction 1 as [|subject subjects Hs _ IH]; [reflexivity|].
  unfold gitLog in *. simpl. rewrite <- app_assoc. simpl.
  rewrite scanFrom_line by exact Hs. simpl. now rewrite IH.
Qed.

Lemma firstPublishCounter_counters (subjects : list jsstring) :
  firstPublishCounter subjects
  = option_map roundToDouble (hd_error (publishCounters subjects)).
Proof.
  unfold publishCounters.
  induction subjects as [|subject subjects IH]; [reflexivity|].
  simpl. destruct (publishDigits (trim subject)); [reflexivity|exact IH].
Qed.

(** Below [2^53] every whole number is a double, and so is the next one. *)
Lemma roundToDouble_exact (n : N) : n < 2 ^ 53 -> roundToDouble n = Finite n.
Proof.
  intros H. unfold roundToDouble. apply N.ltb_lt in H. now rewrite H.
Qed.

Lemma plusOne_exact (n : N) :
  n < 2 ^ 53 -> plusOne (roundToDouble n) = Finite (n + 1).
Proof.
  intros H. rewrite roundToDouble_exact by exact H. cbn [plusOne].
  destruct (N.eq_dec (n + 1) (2 ^ 53)) as [E|E].
  - rewrite E. vm_compute. reflexivity.
  - apply roundToDouble_exact. lia.
Qed.

Lemma fold_max_bounded (older : list N) (latest : N) :
  Forall (fun c => c <= latest) older -> fold_left N.max older latest = latest.
Proof.
  induction 1 as [|c older Hc _ IH]; simpl; [reflexivity|].
  now rewrite N.max_l.
Qed.

End CommitFacts.

(** C3, as amended: for every history, whose subjects are single lines,
    the next number is 1 when no subject matches the publish prefix, and
    otherwise what the doubles of the source make of one more than the
    counter of the most recent subject that matches (the first one that
    [git log] lists).  When that counter is below [2^53] this is the counter
    plus one, and it is the maximum plus one whenever, besides, no older
    publish commit carries a higher counter than the most recent one. *)
Theorem next_number_follows_latest_publish (subjects : list jsstring) :
  Forall (fun subject => ~ In LF subject) subjects ->
  getNextPublishCommitNumber (gitLog subjects)
  = match Spec.publishCounters subjects with
    | [] => Finite 1
    | latest :: _ => plusOne (roundToDouble latest)
    end
  /\ (forall latest older,
         Spec.publishCounters subjects = latest :: older ->
         (latest < 2 ^ 53)%N ->
         getNextPublishCommitNumber (gitLog subjects) = Finite (latest + 1)
         /\ (Forall (fun counter => (counter <= latest)%N) older ->
             getNextPublishCommitNumber (gitLog subjects)
             = Finite (Spec.nextByMaximum subjects))).
Proof.
  intros Hlines.
  assert (E : getNextPublishCommitNumber (gitLog subjects)
              = match Spec.publishCounters subjects with
                | [] => Finite 1
                | latest :: _ => plusOne (roundToDouble latest)
                end).
  { rewrite getNext_scan, scanFrom_gitLog by exact Hlines.
    rewrite firstPublishCounter_counters.
    now destruct (Spec.publishCounters subjects). }
  split; [exact E|].
  intros latest older Hc Hsafe. rewrite E, Hc.
  rewrite (plusOne_exact latest Hsafe). split; [reflexivity|].
  intros Hmax. unfold Spec.nextByMaximum.
  rewrite Hc. now rewrite fold_max_bounded.
Qed.

(** Counters 1, 2 and 4 with the 4 in the most recent publish commit: the
    next number is 5. *)
Lemma next_number_after_4_2_1 :
  getNextPublishCommitNumber (gitLog history_4_2_1) = Finite 5
  /\ Spec.nextByMaximum history_4_2_1 = 5%N.
Proof.
  assert (Hlines : Forall (fun subject => ~ In LF subject) history_4_2_1)
    by single_lines.
  destruct (next_number_follows_latest_publish history_4_2_1 Hlines)
    as [_ Hlatest].
  destruct (Hlatest 4%N [2%N; 1%N] eq_refl) as [_ Hmax]; [reflexivity|].
  split; [|reflexivity].
  rewrite Hmax; [reflexivity|]. repeat constructor; discriminate.
Defined.

(** C3, as stated, fails: with the counters 1, 2 and 4 in a history whose
    most recent publish commit carries the 2, the code answers 3 and the
    maximum plus one is 5. *)
Lemma next_number_is_not_the_maximum :
  getNextPublishCommitNumber (gitLog history_2_4_1) = Finite 3
  /\ Spec.nextByMaximum history_2_4_1 = 5%N.
Proof. split; vm_compute; reflexivity. Qed.

(** * The length limit *)

Section LengthFacts.

Variable yaml_load : jsstring -> option (option value).

Lemma dropWhileEnd_head (p : N -> bool) (s : jsstring) (c : N) (r : jsstring) :
  dropWhileEnd p s = c :: r -> exists r', s = c :: r'.
Proof.
  destruct s as [|d s]; simpl; [discriminate|].
  destruct (dropWhileEnd p s).
  - destruct (p d); [discriminate|]. intros E. injection E as -> _. now exists s.
  - intros E. injection E as -> _. now exists s.
Qed.

Lemma trim_idem (s : jsstring) : trim (trim s) = trim s.
Proof.
  unfold trim at 1. unfold trimStart, trimEnd.
  assert (H : dropWhile isWhitespace (trim s) = trim s).
  { destruct (trim s) as [|c r] eqn:E; [reflexivity|].
    unfold trim, trimEnd, trimStart in E.
    destruct (dropWhileEnd_head _ _ _ _ E) as [r' E'].
    simpl. now rewrite (dropWhile_head _ _ _ _ E'). }
  rewrite H. unfold trim, trimEnd. apply dropWhileEnd_idem.
Qed.

Lemma isBlank_trim (s : jsstring) : isBlank (trim s) = isBlank s.
Proof. unfold isBlank. now rewrite trim_idem. Qed.

Lemma resolveString_trimmed (v : option value) (text : jsstring) :
  resolveString v = Some text -> trim text = text /\ text <> [].
Proof.
  destruct v as [[| | |s| | |]|]; simpl; try discriminate.
  destruct (trim s) eqn:E; [discriminate|].
  intros H. injection H as <-. rewrite <- E. split; [apply trim_idem|].
  rewrite E. discriminate.
Qed.

Lemma firstString_trimmed (fm : frontmatter) (paths : list jsstring)
  (text : jsstring) :
  firstString fm paths = Some text -> trim text = text /\ text <> [].
Proof.
  induction paths as [|path paths IH]; simpl; [discriminate|].
  destruct (resolveString (getNestedField fm path)) eqn:E.
  - intros H. injection H as <-. eapply resolveString_trimmed; eassumption.
  - exact IH.
Qed.

(** The text that [parsePostFields] measures is already trimmed. *)
Lemma resolveText_trimmed (fm : frontmatter) (content field : jsstring) :
  trim (resolveText fm content field) = resolveText fm content field.
Proof.
  unfold resolveText.
  destruct (firstString fm _) eqn:E.
  - now apply firstString_trimmed in E.
  - apply trim_idem.
Qed.

Lemma characterCount_nil_inv (text : jsstring) :
  characterCount text <> 0 -> text <> [].
Proof. intros H ->. now apply H. Qed.

Lemma resolveText_not_blank (fm : frontmatter) (content field : jsstring) :
  characterCount (resolveText fm content field) <> 0 ->
  isBlank (resolveText fm content field) = false.
Proof.
  intros H. unfold isBlank. rewrite resolveText_trimmed.
  apply characterCount_nil_inv in H.
  now destruct (resolveText fm content field).
Qed.

Lemma assertPostLength_ok (text postPath : jsstring) :
  assertPostLength text postPath = Ok tt <-> characterCount text <= 300.
Proof.
  unfold assertPostLength.
  destruct (Nat.ltb 300 (characterCount text)) eqn:E.
  - apply Nat.ltb_lt in E. split; [discriminate|lia].
  - apply Nat.ltb_ge in E. split; [intros _; exact E|reflexivity].
Qed.

Lemma parsePostFields_text (markdown field : jsstring) (p : ParsedPostFields) :
  parsePostFields yaml_load markdown field = Ok p ->
  characterCount (pp_text p) <= 300.
Proof.
  unfold parsePostFields.
  destruct (splitFrontmatter yaml_load markdown) as [[fm content]|]; simpl;
    [|discriminate].
  destruct (isBlank _); [discriminate|].
  destruct (Nat.ltb 300 _) eqn:E; [discriminate|].
  intros H. injection H as <-. simpl. now apply Nat.ltb_ge in E.
Qed.

End LengthFacts.

(** C2, as amended: the text of a post is limited to 300 units, a unit
    being an element of [Array.from(text)] (a code point: a surrogate pair
    counts once, a letter with a combining accent counts twice).
    After the backlink is appended ([assertPostLength]) a text of 301 units
    fails and one of 300 units passes, and the same holds before it is
    appended ([parsePostFields], whatever tier the text came from); a draft
    that is built never carries more than 300 units. *)
Theorem post_text_limit_300
  (yaml_load : jsstring -> option (option value))
  (gitShow : jsstring -> option (list N)) :
  (forall text postPath,
      characterCount text = 301 ->
      assertPostLength text postPath
      = Err (PostTooLongAfterBacklink postPath 301))
  /\ (forall text postPath,
         characterCount text = 300 -> assertPostLength text postPath = Ok tt)
  /\ (forall markdown field fm content,
         splitFrontmatter yaml_load markdown = Ok (fm, content) ->
         characterCount (resolveText fm content field) = 301 ->
         parsePostFields yaml_load markdown field = Err (PostTextTooLong 301))
  /\ (forall markdown field fm content,
         splitFrontmatter yaml_load markdown = Ok (fm, content) ->
         characterCount (resolveText fm content field) = 300 ->
         exists parsed,
           parsePostFields yaml_load markdown field = Ok parsed
           /\ pp_text parsed = resolveText fm content field)
  /\ (forall config postsRootSpec postPath markdown fm draft,
         buildDraft yaml_load gitShow config postsRootSpec postPath markdown fm
         = Ok draft ->
         characterCount (draft_text draft) <= 300).
Proof.
  repeat split.
  - intros text postPath H. unfold assertPostLength. now rewrite H.
  - intros text postPath H. apply assertPostLength_ok. lia.
  - intros markdown field fm content Hs H. unfold parsePostFields.
    rewrite Hs. simpl. rewrite resolveText_not_blank by lia. now rewrite H.
  - intros markdown field fm content Hs H. unfold parsePostFields.
    rewrite Hs. simpl. rewrite resolveText_not_blank by lia. rewrite H. simpl.
    eexists. split; reflexivity.
  - intros config postsRootSpec postPath markdown fm draft.
    unfold buildDraft.
    destruct (parsePostFields yaml_load markdown _) as [parsed|]; simpl;
      [|discriminate].
    destruct (resolveBacklinkUrl _ _ _ _) as [[url|]|]; simpl;
      try discriminate.
    destruct (assertPostLength _ postPath) as [[]|] eqn:A; simpl;
      [|discriminate].
    apply assertPostLength_ok in A.
    destruct (pp_imagePath parsed).
    + destruct (resolveGitRelativePath _ _); simpl; [|discriminate].
      destruct (readHead _ _); simpl; [|discriminate].
      destruct (detectImageMimeType _); simpl; [|discriminate].
      intros H. injection H as <-. exact A.
    + intros H. injection H as <-. exact A.
Qed.

(** The limit at work on texts of 301 and of 300 letters. *)
Lemma post_text_limit_300_witness :
  assertPostLength (letters 301) (str "posts/a.md")
  = Err (PostTooLongAfterBacklink (str "posts/a.md") 301)
  /\ assertPostLength (letters 300) (str "posts/a.md") = Ok tt
  /\ parsePostFields no_yaml (letters 301) (str "post")
     = Err (PostTextTooLong 301)
  /\ exists parsed,
       parsePostFields no_yaml (letters 300) (str "post") = Ok parsed
       /\ pp_text parsed = letters 300.
Proof.
  destruct (post_text_limit_300 no_yaml no_blobs) as (A & B & C & D & _).
  split; [|split; [|split]].
  - apply A. vm_compute. reflexivity.
  - apply B. vm_compute. reflexivity.
  - apply (C (letters 301) (str "post") (VObj []) (letters 301)).
    + vm_compute. reflexivity.
    + vm_compute. reflexivity.
  - destruct (D (letters 300) (str "post") (VObj []) (letters 300))
      as (parsed & Hp & Ht).
    + vm_compute. reflexivity.
    + vm_compute. reflexivity.
    + exists parsed. split; [exact Hp|]. rewrite Ht. vm_compute. reflexivity.
Defined.

(** C2, as stated, fails: 300 letters that carry a combining accent each
    are 300 grapheme units and 600 elements of [Array.from], and the text
    is refused before the backlink is appended and after. *)
Lemma grapheme_units_are_not_the_limit :
  Spec.graphemeUnits (accented 300) = 300
  /\ characterCount (accented 300) = 600
  /\ parsePostFields no_yaml (accented 300) (str "post")
     = Err (PostTextTooLong 600)
  /\ assertPostLength (accented 300) (str "posts/a.md")
     = Err (PostTooLongAfterBacklink (str "posts/a.md") 600).
Proof. vm_compute. repeat split. Qed.

(** * The backlink *)

Section BacklinkFacts.

Local Open Scope N_scope.

Lemma trimTrailingSlash_spec (base : jsstring) :
  trimTrailingSlash base = Spec.trimmedBase base.
Proof.
  unfold trimTrailingSlash, Spec.trimmedBase, endsWith.
  destruct base as [|x l _] using rev_ind; [reflexivity|].
  rewrite rev_app_distr.
  change (rev [x] ++ rev l) with (x :: rev l).
  change (rev (str "/")) with [SLASH]. cbn [startsWith].
  rewrite andb_true_r, N.eqb_sym.
  destruct (x =? SLASH); [|reflexivity].
  rewrite rev_involutive. apply (dropEnd_app l [x]).
Qed.

Lemma dropWhileEnd_rev (p : N -> bool) (s : jsstring) :
  dropWhileEnd p s = rev (dropWhile p (rev s)).
Proof.
  induction s as [|x l IH] using rev_ind; [reflexivity|].
  rewrite rev_app_distr. simpl. destruct (p x) eqn:Hx.
  - rewrite dropWhileEnd_app_last by exact Hx. exact IH.
  - rewrite dropWhileEnd_keep by exact Hx. simpl.
    now rewrite rev_involutive.
Qed.

Lemma stripSlashes_spec (s : jsstring) :
  stripSlashes s = Spec.stripOuterSlashes s.
Proof. apply dropWhileEnd_rev. Qed.

Lemma slug_paths :
  uniquePaths [str "slug"; str "bluesky.slug"] = [str "slug"; str "bluesky.slug"].
Proof. reflexivity. Qed.

Lemma replaceFirst_prefix (pat rest : jsstring) :
  replaceFirst pat [] (pat ++ rest) = rest.
Proof.
  destruct pat as [|c pat]; simpl.
  - destruct rest; reflexivity.
  - rewrite N.eqb_refl, startsWith_app. simpl.
    now rewrite skipn_app, skipn_all, Nat.sub_diag.
Qed.

Lemma relative_path_spec (root postPath : jsstring) :
  root = [] \/ startsWith postPath (root ++ str "/") = true ->
  match root with
  | [] => postPath
  | _ => replaceFirst (root ++ str "/") [] postPath
  end = Spec.relativeTo root postPath.
Proof.
  unfold Spec.relativeTo. intros [->|H]; [reflexivity|].
  destruct root as [|c root]; [reflexivity|].
  rewrite H. destruct (startsWith_inv _ _ H) as [rest ->].
  rewrite replaceFirst_prefix.
  rewrite skipn_app.
  replace (length (c :: root) + 1)%nat
    with (length ((c :: root) ++ str "/")) by (rewrite length_app; reflexivity).
  now rewrite skipn_all, Nat.sub_diag.
Qed.

Lemma backlinkFromPostPath_spec (base postsRootSpec postPath : jsstring) :
  normalizePostsRoot postsRootSpec = []
  \/ startsWith postPath (normalizePostsRoot postsRootSpec ++ str "/") = true ->
  backlinkFromPostPath base postsRootSpec postPath
  = Spec.pathBacklinkAmended base (normalizePostsRoot postsRootSpec) postPath.
Proof.
  intros H. unfold backlinkFromPostPath, Spec.pathBacklinkAmended.
  rewrite (@relative_path_spec _ _ H), trimTrailingSlash_spec.
  unfold encodePath, Spec.collapseIndex, Spec.stripMarkdownExtensions.
  destruct (encodeAll _) as [es|]; simpl; [|reflexivity].
  now destruct (join (str "/") es).
Qed.

Lemma resolveBacklinkUrl_slug
  (postPath postsRootSpec : jsstring) (fm : frontmatter)
  (config : ResolvedConfig) (slug : jsstring) :
  getNestedField fm (str "slug") = Some (VStr slug) ->
  isBlank slug = false ->
  resolveBacklinkUrl postPath postsRootSpec fm config
  = (url <- Spec.slugBacklinkAmended (baseUrl config) slug ;; Ok (Some url)).
Proof.
  intros Hslug Hblank. unfold resolveBacklinkUrl.
  rewrite slug_paths. simpl firstString. rewrite Hslug. simpl resolveString.
  unfold isBlank in Hblank.
  destruct (trim slug) as [|c r] eqn:E; [discriminate|].
  rewrite <- E, trim_idem. unfold Spec.slugBacklinkAmended.
  rewrite stripSlashes_spec, trimTrailingSlash_spec.
  destruct (Spec.stripOuterSlashes (trim slug)) as [|d path]; [reflexivity|].
  unfold encodePath.
  destruct (encodeAll _); reflexivity.
Qed.

End BacklinkFacts.

(** C5, as amended: when the frontmatter holds a [slug] that is a string and
    not blank, the backlink is the base URL without its trailing slash,
    joined with [/] to the slug after trimming it, stripping its leading and
    trailing [/] and percent-encoding each non-empty [/]-separated segment
    on its own; a slug of slashes alone gives the bare base URL, and the
    encoding fails where [encodeURIComponent] does.  A [slug] that is
    missing, no string or blank counts as no slug: [bluesky.slug] is then
    used in the same way when it is a string that is not blank, and the
    backlink comes from the path of the post otherwise. *)
Theorem slug_backlink
  (postPath postsRootSpec : jsstring) (fm : frontmatter)
  (config : ResolvedConfig) :
  (forall slug,
      getNestedField fm (str "slug") = Some (VStr slug) ->
      isBlank slug = false ->
      resolveBacklinkUrl postPath postsRootSpec fm config
      = (url <- Spec.slugBacklinkAmended (baseUrl config) slug ;;
         Ok (Some url))
      /\ (stripSlashes (trim slug) = [] ->
          resolveBacklinkUrl postPath postsRootSpec fm config
          = Ok (Some (trimTrailingSlash (baseUrl config)))))
  /\ (resolveString (getNestedField fm (str "slug")) = None ->
      resolveBacklinkUrl postPath postsRootSpec fm config
      = match resolveString (getNestedField fm (str "bluesky.slug")) with
        | Some slug =>
            url <- Spec.slugBacklinkAmended (baseUrl config) slug ;;
            Ok (Some url)
        | None =>
            url <- backlinkFromPostPath (baseUrl config) postsRootSpec
                     postPath ;;
            Ok (Some url)
        end).
Proof.
  split.
  - intros slug Hslug Hblank.
    pose proof (resolveBacklinkUrl_slug postPath postsRootSpec fm config slug
                  Hslug Hblank) as E.
    split; [exact E|]. intros Hempty. rewrite E.
    unfold Spec.slugBacklinkAmended.
    now rewrite <- stripSlashes_spec, Hempty, trimTrailingSlash_spec.
  - intros Hnone. unfold resolveBacklinkUrl.
    rewrite slug_paths. cbn [firstString]. rewrite Hnone.
    destruct (resolveString (getNestedField fm (str "bluesky.slug")))
      as [slug|] eqn:Hother; [|reflexivity].
    destruct (resolveString_trimmed _ _ Hother) as [Htrim _].
    unfold Spec.slugBacklinkAmended.
    rewrite Htrim, stripSlashes_spec, trimTrailingSlash_spec.
    destruct (Spec.stripOuterSlashes slug) as [|d path]; [reflexivity|].
    unfold encodePath. destruct (encodeAll _); reflexivity.
Qed.

(** The two slugs of the README, and a blank slug beside a
    [bluesky.slug]. *)
Lemma slug_backlink_readme :
  resolveBacklinkUrl launch_post (str "posts") (with_slug (str "foo")) abc_blog
  = Ok (Some (str "https://abc.com/blog/foo"))
  /\ resolveBacklinkUrl launch_post (str "posts")
       (with_slug (str "/weekly note/")) abc_blog_slash
     = Ok (Some (str "https://abc.com/blog/weekly%20note"))
  /\ resolveBacklinkUrl launch_post (str "posts") blank_slug_beside_other
       abc_blog
     = Ok (Some (str "https://abc.com/blog/x")).
Proof.
  split; [|split].
  - destruct (slug_backlink launch_post (str "posts") (with_slug (str "foo"))
                abc_blog) as [Hslug _].
    destruct (Hslug (str "foo") eq_refl eq_refl) as [-> _]. reflexivity.
  - destruct (slug_backlink launch_post (str "posts")
                (with_slug (str "/weekly note/")) abc_blog_slash)
      as [Hslug _].
    destruct (Hslug (str "/weekly note/") eq_refl eq_refl) as [-> _].
    reflexivity.
  - destruct (slug_backlink launch_post (str "posts") blank_slug_beside_other
                abc_blog) as [_ Hother].
    rewrite (Hother eq_refl). reflexivity.
Defined.

(** C5, as stated, fails twice.  An empty segment inside the slug is
    dropped, not encoded and joined; and a slug that is blank is no slug:
    the backlink then comes from the path of the post, not from the bare
    base URL. *)
Lemma slug_backlink_differs :
  resolveBacklinkUrl launch_post (str "posts") (with_slug (str "a//b")) abc_blog
  = Ok (Some (str "https://abc.com/blog/a/b"))
  /\ Spec.slugBacklink (str "https://abc.com/blog") (str "a//b")
     = Ok (str "https://abc.com/blog/a//b")
  /\ resolveBacklinkUrl launch_post (str "posts") (with_slug (str "  ")) abc_blog
     = Ok (Some (str "https://abc.com/blog/2026-02-01-launch"))
  /\ Spec.slugBacklink (str "https://abc.com/blog") (str "  ")
     = Ok (str "https://abc.com/blog").
Proof. repeat split. Qed.

(** C6, as amended: when the frontmatter gives no slug (neither [slug] nor
    [bluesky.slug] holds a string that is not blank) and the post lies
    under the posts root, the backlink is the base URL joined with the path
    of the post relative to that root, without a trailing [.markdown] and
    then without a trailing [.md] (in any case of the letters), without a
    trailing [/index], with each non-empty segment percent-encoded; an empty
    path gives the bare base URL. *)
Theorem path_backlink
  (postPath postsRootSpec : jsstring) (fm : frontmatter)
  (config : ResolvedConfig) :
  resolveString (getNestedField fm (str "slug")) = None ->
  resolveString (getNestedField fm (str "bluesky.slug")) = None ->
  normalizePostsRoot postsRootSpec = []
  \/ startsWith postPath (normalizePostsRoot postsRootSpec ++ str "/") = true ->
  resolveBacklinkUrl postPath postsRootSpec fm config
  = (url <- Spec.pathBacklinkAmended (baseUrl config)
              (normalizePostsRoot postsRootSpec) postPath ;;
     Ok (Some url)).
Proof.
  intros H1 H2 Hroot. unfold resolveBacklinkUrl.
  rewrite slug_paths. cbn [firstString]. rewrite H1, H2.
  now rewrite backlinkFromPostPath_spec.
Qed.

(** The post of the README, and a post whose slugs are blank and no
    string. *)
Lemma path_backlink_readme :
  resolveBacklinkUrl launch_post (str "posts") (VObj []) abc_blog
  = Ok (Some (str "https://abc.com/blog/2026-02-01-launch"))
  /\ resolveBacklinkUrl launch_post (str "posts") blank_slugs abc_blog
     = Ok (Some (str "https://abc.com/blog/2026-02-01-launch")).
Proof.
  split.
  - rewrite (@path_backlink launch_post (str "posts") (VObj []) abc_blog
               eq_refl eq_refl (or_intror eq_refl)).
    reflexivity.
  - rewrite (@path_backlink launch_post (str "posts") blank_slugs abc_blog
               eq_refl eq_refl (or_intror eq_refl)).
    reflexivity.
Defined.

(** C6, as stated, fails on a name with both extensions: the code strips
    [.markdown] and then [.md], where one trailing extension was to go; and
    it strips an extension written in capitals, which is neither [.md] nor
    [.markdown]. *)
Lemma path_backlink_differs :
  resolveBacklinkUrl (str "posts/notes.md.markdown") (str "posts")
    (VObj []) abc_blog
  = Ok (Some (str "https://abc.com/blog/notes"))
  /\ Spec.pathBacklink (str "https://abc.com/blog") (str "posts")
       (str "posts/notes.md.markdown")
     = Ok (str "https://abc.com/blog/notes.md")
  /\ resolveBacklinkUrl (str "posts/README.MD") (str "posts")
       (VObj []) abc_blog
     = Ok (Some (str "https://abc.com/blog/README"))
  /\ Spec.pathBacklink (str "https://abc.com/blog") (str "posts")
       (str "posts/README.MD")
     = Ok (str "https://abc.com/blog/README.MD").
Proof. repeat split. Qed.

(** * Well-formed strings and [encodeURIComponent] *)

Section WellFormed.

Local Open Scope N_scope.
Import Aux.

Lemma isWellFormed_run_pair (s : jsstring) :
  (isWellFormed s = true <-> wf s)
  /\ (forall c, isWellFormed (c :: s) = true <-> wf (c :: s)).
Proof.
  unfold wf. induction s as [|d s [IH1 IH2]].
  - split; [simpl; tauto|].
    intros c. simpl. unfold step.
    destruct (isLowSurrogate c); [split; discriminate|].
    destruct (isHighSurrogate c); simpl; split; congruence.
  - split; [apply IH2|].
    intros c. specialize (IH2 d).
    change (isWellFormed (c :: d :: s))
      with (if isLowSurrogate c then false
            else if isHighSurrogate c
                 then isLowSurrogate d && isWellFormed s
                 else isWellFormed (d :: s)).
    change (run false (c :: d :: s))
      with (match step false c with
            | Some q => run q (d :: s)
            | None => None
            end).
    unfold step at 1.
    destruct (isLowSurrogate c); [split; discriminate|].
    destruct (isHighSurrogate c); [|exact IH2].
    simpl run. unfold step.
    destruct (isLowSurrogate d); simpl; [exact IH1|split; discriminate].
Qed.

Lemma isWellFormed_wf (s : jsstring) : isWellFormed s = true <-> wf s.
Proof. apply isWellFormed_run_pair. Qed.

Lemma encode_ok_pair (s : jsstring) :
  (isOk (encodeURIComponent s) = isWellFormed s)
  /\ (forall c, isOk (encodeURIComponent (c :: s)) = isWellFormed (c :: s)).
Proof.
  induction s as [|d s [IH1 IH2]].
  - split; [reflexivity|].
    intros c. simpl.
    destruct (isLowSurrogate c); [reflexivity|].
    destruct (isHighSurrogate c); reflexivity.
  - split; [apply IH2|].
    intros c. specialize (IH2 d).
    change (isWellFormed (c :: d :: s))
      with (if isLowSurrogate c then false
            else if isHighSurrogate c
                 then isLowSurrogate d && isWellFormed s
                 else isWellFormed (d :: s)).
    change (encodeURIComponent (c :: d :: s))
      with (if isLowSurrogate c then Err URIMalformed
            else if isHighSurrogate c then
                   if isLowSurrogate d then
                     rest <- encodeURIComponent s ;;
                     Ok (encodeCodePoint
                           (65536 + (c - 55296) * 1024 + (d - 56320)) ++ rest)
                   else Err URIMalformed
                 else
                   rest <- encodeURIComponent (d :: s) ;;
                   Ok (encodeCodePoint c ++ rest)).
    destruct (isLowSurrogate c); [reflexivity|].
    destruct (isHighSurrogate c).
    + destruct (isLowSurrogate d); [|reflexivity].
      simpl. rewrite <- IH1. now destruct (encodeURIComponent s).
    + rewrite <- IH2. now destruct (encodeURIComponent (d :: s)).
Qed.

(** [encodeURIComponent] returns exactly on the well-formed strings. *)
Lemma encode_ok (s : jsstring) :
  isOk (encodeURIComponent s) = isWellFormed s.
Proof. apply encode_ok_pair. Qed.

Lemma encode_error (s : jsstring) (e : error) :
  encodeURIComponent s = Err e -> e = URIMalformed.
Proof.
  assert (H : forall s,
             (forall e, encodeURIComponent s = Err e -> e = URIMalformed)
             /\ (forall c e, encodeURIComponent (c :: s) = Err e
                             -> e = URIMalformed)).
  { clear. induction s as [|d s [IH1 IH2]].
    - split; [discriminate|]. intros c e. simpl.
      destruct (isLowSurrogate c); [congruence|].
      destruct (isHighSurrogate c); simpl; congruence.
    - split; [apply IH2|]. intros c e.
      change (encodeURIComponent (c :: d :: s))
        with (if isLowSurrogate c then Err URIMalformed
              else if isHighSurrogate c then
                     if isLowSurrogate d then
                       rest <- encodeURIComponent s ;;
                       Ok (encodeCodePoint
                             (65536 + (c - 55296) * 1024 + (d - 56320))
                           ++ rest)
                     else Err URIMalformed
                   else
                     rest <- encodeURIComponent (d :: s) ;;
                     Ok (encodeCodePoint c ++ rest)).
      destruct (isLowSurrogate c); [congruence|].
      destruct (isHighSurrogate c).
      + destruct (isLowSurrogate d); [|congruence].
        destruct (encodeURIComponent s) eqn:E; simpl; [discriminate|].
        intros H. injection H as <-. now apply IH1.
      + destruct (encodeURIComponent (d :: s)) eqn:E; simpl; [discriminate|].
        intros H. injection H as <-. now apply (IH2 d). }
  apply H.
Qed.

Lemma encodeAll_error (segments : list jsstring) (e : error) :
  encodeAll segments = Err e -> e = URIMalformed.
Proof.
  induction segments as [|seg segments IH]; simpl; [discriminate|].
  destruct (encodeURIComponent seg) eqn:E; simpl.
  - destruct (encodeAll segments); simpl; [discriminate|].
    intros H. injection H as <-. now apply IH.
  - intros H. injection H as <-. now apply encode_error in E.
Qed.

Lemma encodeAll_ok (segments : list jsstring) :
  Forall wf segments -> exists encoded, encodeAll segments = Ok encoded.
Proof.
  induction 1 as [|seg segments Hs _ [encoded IH]]; simpl.
  - now exists [].
  - apply isWellFormed_wf in Hs. rewrite <- encode_ok in Hs.
    destruct (encodeURIComponent seg) as [e|]; [|discriminate].
    simpl. rewrite IH. simpl. now eexists.
Qed.

Lemma run_app (a b : jsstring) (q : bool) :
  run q (a ++ b) = match run q a with
                   | Some q' => run q' b
                   | None => None
                   end.
Proof.
  revert q; induction a as [|c a IH]; intros q; simpl; [reflexivity|].
  destruct (step q c); [apply IH|reflexivity].
Qed.

Lemma step_plain (q : bool) (c : N) :
  isSurrogate c = false -> step q c = if q then None else Some false.
Proof.
  unfold isSurrogate, step. intros H. apply orb_false_iff in H as [H1 H2].
  now rewrite H1, H2.
Qed.

Lemma run_plain (t : jsstring) :
  forallb (fun c => negb (isSurrogate c)) t = true ->
  run false t = Some false
  /\ (t <> [] -> run true t = None).
Proof.
  induction t as [|c t IH]; intros H.
  - split; [reflexivity|congruence].
  - cbn [forallb] in H.
    apply andb_true_iff in H as [Hc Ht]. apply negb_true_iff in Hc.
    split.
    + cbn [run]. rewrite step_plain by exact Hc. now apply IH.
    + intros _. cbn [run]. now rewrite step_plain by exact Hc.
Qed.

(** A suffix free of surrogates can be cut off. *)
Lemma wf_cut_suffix (a t : jsstring) :
  forallb (fun c => negb (isSurrogate c)) t = true -> wf (a ++ t) -> wf a.
Proof.
  unfold wf. intros Ht. rewrite run_app.
  destruct (run false a) as [[|]|]; try discriminate; [|reflexivity].
  destruct t as [|c t]; simpl; [congruence|].
  destruct (run_plain _ Ht) as [_ H]. simpl in H. rewrite H; congruence.
Qed.

Lemma wf_cut_prefix (t b : jsstring) :
  forallb (fun c => negb (isSurrogate c)) t = true -> wf (t ++ b) -> wf b.
Proof.
  unfold wf. intros Ht. rewrite run_app.
  destruct (run_plain _ Ht) as [H _]. now rewrite H.
Qed.

Lemma wf_app (a b : jsstring) : wf a -> wf b -> wf (a ++ b).
Proof. unfold wf. intros Ha Hb. now rewrite run_app, Ha. Qed.

Lemma forallb_impl (p q : N -> bool) (t : jsstring) :
  (forall c, p c = true -> q c = true) ->
  forallb p t = true -> forallb q t = true.
Proof.
  intros Hpq. induction t as [|c t IH]; simpl; [reflexivity|].
  intros H. apply andb_true_iff in H as [Hc Ht]. now rewrite Hpq, IH.
Qed.

Lemma wf_dropWhile (p : N -> bool) (s : jsstring) :
  (forall c, p c = true -> isSurrogate c = false) ->
  wf s -> wf (dropWhile p s).
Proof.
  intros Hp Hs. destruct (dropWhile_split p s) as (t & E & Ht).
  rewrite E in Hs. eapply wf_cut_prefix; [|exact Hs].
  eapply forallb_impl; [|exact Ht]. intros c Hc. now rewrite Hp.
Qed.

Lemma wf_dropWhileEnd (p : N -> bool) (s : jsstring) :
  (forall c, p c = true -> isSurrogate c = false) ->
  wf s -> wf (dropWhileEnd p s).
Proof.
  intros Hp Hs. destruct (dropWhileEnd_split p s) as (t & E & Ht).
  rewrite E in Hs. eapply wf_cut_suffix; [|exact Hs].
  eapply forallb_impl; [|exact Ht]. intros c Hc. now rewrite Hp.
Qed.

Lemma whitespace_plain (c : N) :
  isWhitespace c = true -> isSurrogate c = false.
Proof.
  unfold isWhitespace, isSurrogate, isHighSurrogate, isLowSurrogate.
  intros H.
  repeat match goal with
         | H : (_ || _) = true |- _ => apply orb_true_iff in H as [H|H]
         | H : (_ && _) = true |- _ => apply andb_true_iff in H as [? ?]
         | H : (_ <=? _) = true |- _ => apply N.leb_le in H
         | H : (_ =? _) = true |- _ => apply N.eqb_eq in H
         end;
    apply orb_false_iff; split; apply andb_false_iff;
    rewrite !N.leb_gt; lia.
Qed.

Lemma slash_plain (c : N) : isSlash c = true -> isSurrogate c = false.
Proof. unfold isSlash. intros H. apply N.eqb_eq in H. now subst. Qed.

Lemma wf_trim (s : jsstring) : wf s -> wf (trim s).
Proof.
  intros H. unfold trim, trimEnd, trimStart.
  apply wf_dropWhileEnd; [exact whitespace_plain|].
  apply wf_dropWhile; [exact whitespace_plain|exact H].
Qed.

Lemma wf_stripSlashes (s : jsstring) : wf s -> wf (stripSlashes s).
Proof.
  intros H. unfold stripSlashes.
  apply wf_dropWhileEnd; [exact slash_plain|].
  apply wf_dropWhile; [exact slash_plain|exact H].
Qed.

Lemma run_split (s : jsstring) (q : bool) :
  run q s = Some false ->
  exists w ws, split SLASH s = w :: ws
               /\ run q w = Some false /\ Forall wf ws.
Proof.
  revert q; induction s as [|c s IH]; intros q H.
  - exists [], []. repeat split; [exact H|constructor].
  - simpl in H. destruct (step q c) as [q'|] eqn:S; [|discriminate].
    destruct (IH _ H) as (w & ws & E & Hw & Hws).
    simpl. destruct (c =? SLASH) eqn:C.
    + apply N.eqb_eq in C. subst c.
      rewrite step_plain in S by reflexivity.
      destruct q; [discriminate|]. injection S as <-.
      exists [], (split SLASH s). repeat split.
      rewrite E. constructor; assumption.
    + rewrite E. exists (c :: w), ws. repeat split; [|exact Hws].
      simpl. now rewrite S.
Qed.

Lemma wf_segments (s : jsstring) :
  wf s -> Forall wf (filter nonEmpty (split SLASH s)).
Proof.
  intros H. destruct (@run_split s false H) as (w & ws & E & Hw & Hws).
  rewrite E. apply Forall_forall. intros seg Hin.
  apply filter_In in Hin as [Hin _].
  destruct Hin as [<-|Hin]; [exact Hw|].
  rewrite Forall_forall in Hws. now apply Hws.
Qed.

Lemma encodePath_ok (path : jsstring) :
  wf path -> exists encoded, encodePath path = Ok encoded.
Proof.
  intros H. unfold encodePath.
  destruct (@encodeAll_ok _ (@wf_segments path H)) as [es E].
  rewrite E. simpl. now eexists.
Qed.

Lemma encodePath_error (path : jsstring) (e : error) :
  encodePath path = Err e -> e = URIMalformed.
Proof.
  unfold encodePath. destruct (encodeAll _) eqn:E; simpl; [discriminate|].
  intros H. injection H as <-. now apply encodeAll_error in E.
Qed.

End WellFormed.

Section BacklinkTotal.

Local Open Scope N_scope.
Import Aux.

Lemma replaceFirst_cases (pat s : jsstring) :
  replaceFirst pat [] s = s
  \/ exists a b, s = a ++ pat ++ b /\ replaceFirst pat [] s = a ++ b.
Proof.
  induction s as [|c s IH].
  - left. simpl. now destruct (startsWith [] pat); [destruct pat|].
  - simpl. destruct (startsWith (c :: s) pat) eqn:E.
    + right. destruct (startsWith_inv _ _ E) as [r Hr].
      exists [], r. split; [exact Hr|]. simpl. rewrite Hr.
      now rewrite skipn_app, skipn_all, Nat.sub_diag.
    + destruct IH as [IH|(a & b & Hs & IH)].
      * left. now rewrite IH.
      * right. exists (c :: a), b. split; [now rewrite Hs|now rewrite IH].
Qed.

Lemma run_pending_wf (pat : jsstring) :
  pat <> [] -> wf pat -> run true pat = None.
Proof.
  unfold wf. destruct pat as [|c pat]; [congruence|]. intros _. simpl.
  unfold step. destruct (isLowSurrogate c); [discriminate|reflexivity].
Qed.

Lemma wf_replaceFirst (pat s : jsstring) :
  pat <> [] -> wf pat -> wf s -> wf (replaceFirst pat [] s).
Proof.
  intros Hne Hpat Hs.
  destruct (replaceFirst_cases pat s) as [->|(a & b & E & ->)]; [exact Hs|].
  rewrite E in Hs. unfold wf in Hs. rewrite run_app in Hs.
  destruct (run false a) as [[|]|] eqn:A; try discriminate.
  - rewrite run_app, (run_pending_wf pat Hne Hpat) in Hs. discriminate.
  - rewrite run_app, Hpat in Hs. now apply wf_app.
Qed.

Lemma asciiLower_plain (c : N) :
  (asciiLower c <? 128) = true -> negb (isSurrogate c) = true.
Proof.
  unfold asciiLower, isAsciiUpper, isSurrogate, isHighSurrogate,
    isLowSurrogate.
  intros H. apply N.ltb_lt in H. apply negb_true_iff, orb_false_iff.
  destruct ((65 <=? c) && (c <=? 90)) eqn:U;
    split; apply andb_false_iff; rewrite !N.leb_gt; lia.
Qed.

Lemma forallb_after_map (p : N -> bool) (f : N -> N) (t : jsstring) :
  forallb p (List.map f t) = forallb (fun c => p (f c)) t.
Proof.
  induction t as [|c t IH]; simpl; [reflexivity|]. now rewrite IH.
Qed.

Lemma wf_stripExtensionCI (ext path : jsstring) :
  forallb (fun c => c <? 128) ext = true ->
  wf path -> wf (stripExtensionCI ext path).
Proof.
  intros Hext Hp. unfold stripExtensionCI, endsWithCI.
  destruct (endsWith (List.map asciiLower path) ext) eqn:E; [|exact Hp].
  destruct (endsWith_inv _ _ E) as [r Hr].
  apply map_eq_app in Hr as (l1 & l2 & -> & _ & H2).
  replace (length ext) with (length l2)
    by (rewrite <- H2; symmetry; apply length_map).
  rewrite dropEnd_app. apply (wf_cut_suffix l1 l2); [|exact Hp].
  rewrite <- H2, forallb_after_map in Hext.
  eapply forallb_impl; [|exact Hext]. exact asciiLower_plain.
Qed.

Lemma wf_collapse (path : jsstring) :
  wf path ->
  wf (if endsWith path (str "/index")
      then dropEnd (length (str "/index")) path else path).
Proof.
  intros Hp. destruct (endsWith path (str "/index")) eqn:E; [|exact Hp].
  destruct (endsWith_inv _ _ E) as [r ->].
  rewrite dropEnd_app. now apply (wf_cut_suffix r (str "/index")).
Qed.

Lemma wf_normalizePostsRoot (postsRootSpec : jsstring) :
  wf postsRootSpec -> wf (normalizePostsRoot postsRootSpec).
Proof.
  intros H. unfold normalizePostsRoot.
  destruct (seqb postsRootSpec (str ".")); [reflexivity|].
  apply wf_dropWhileEnd; [exact slash_plain|].
  destruct postsRootSpec as [|c [|d rest]]; try exact H.
  destruct ((c =? DOT) && isSlash d) eqn:E; [|exact H].
  apply andb_true_iff in E as [Ec Ed]. apply N.eqb_eq in Ec. subst c.
  apply wf_dropWhile; [exact slash_plain|].
  now apply (wf_cut_prefix [DOT] (d :: rest)).
Qed.

Lemma backlinkFromPostPath_ok (base postsRootSpec postPath : jsstring) :
  wf postsRootSpec -> wf postPath ->
  exists url, backlinkFromPostPath base postsRootSpec postPath = Ok url.
Proof.
  intros Hroot Hpath. unfold backlinkFromPostPath.
  apply wf_normalizePostsRoot in Hroot.
  set (root := normalizePostsRoot postsRootSpec) in *.
  assert (Hrel : wf match root with
                    | [] => postPath
                    | _ => replaceFirst (root ++ str "/") [] postPath
                    end).
  { destruct root as [|c root]; [exact Hpath|].
    apply wf_replaceFirst; [discriminate| |exact Hpath].
    now apply wf_app. }
  apply (wf_stripExtensionCI (str ".markdown") _ eq_refl) in Hrel.
  apply (wf_stripExtensionCI (str ".md") _ eq_refl) in Hrel.
  apply wf_collapse in Hrel.
  destruct (encodePath_ok _ Hrel) as [encoded ->]. simpl.
  destruct encoded; now eexists.
Qed.

Lemma backlinkFromPostPath_prefix (base postsRootSpec postPath url : jsstring) :
  backlinkFromPostPath base postsRootSpec postPath = Ok url ->
  startsWith url (trimTrailingSlash base) = true.
Proof.
  unfold backlinkFromPostPath.
  destruct (encodePath _) as [encoded|]; simpl; [|discriminate].
  destruct encoded; intros H; injection H as <-.
  - apply startsWith_refl.
  - apply startsWith_app.
Qed.

Lemma backlinkFromPostPath_error (base postsRootSpec postPath : jsstring)
  (e : error) :
  backlinkFromPostPath base postsRootSpec postPath = Err e ->
  e = URIMalformed.
Proof.
  unfold backlinkFromPostPath.
  destruct (encodePath _) as [encoded|] eqn:E; simpl.
  - destruct encoded; discriminate.
  - intros H. injection H as <-. now apply encodePath_error in E.
Qed.

Lemma resolveString_inv (v : option value) (text : jsstring) :
  resolveString v = Some text -> exists s, v = Some (VStr s) /\ text = trim s.
Proof.
  destruct v as [[| | |s| | |]|]; simpl; try discriminate.
  destruct (trim s) eqn:E; [discriminate|].
  intros H. injection H as <-. now exists s.
Qed.

Lemma firstString_slug (fm : frontmatter) (text : jsstring) :
  firstString fm (uniquePaths [str "slug"; str "bluesky.slug"]) = Some text ->
  exists s, text = trim s
            /\ (getNestedField fm (str "slug") = Some (VStr s)
                \/ getNestedField fm (str "bluesky.slug") = Some (VStr s)).
Proof.
  rewrite slug_paths. simpl.
  destruct (resolveString (getNestedField fm (str "slug"))) eqn:E1.
  - intros H. injection H as <-.
    apply resolveString_inv in E1 as (s & E & ->). exists s. tauto.
  - destruct (resolveString (getNestedField fm (str "bluesky.slug"))) eqn:E2;
      [|discriminate].
    intros H. injection H as <-.
    apply resolveString_inv in E2 as (s & E & ->). exists s. tauto.
Qed.

Lemma resolveBacklinkUrl_not_null
  (postPath postsRootSpec : jsstring) (fm : frontmatter)
  (config : ResolvedConfig) :
  resolveBacklinkUrl postPath postsRootSpec fm config <> Ok None.
Proof.
  unfold resolveBacklinkUrl. destruct (firstString fm _).
  - destruct (stripSlashes _); [discriminate|].
    destruct (encodePath _); discriminate.
  - destruct (backlinkFromPostPath _ _ _); discriminate.
Qed.

Lemma resolveBacklinkUrl_prefix
  (postPath postsRootSpec : jsstring) (fm : frontmatter)
  (config : ResolvedConfig) (url : jsstring) :
  resolveBacklinkUrl postPath postsRootSpec fm config = Ok (Some url) ->
  startsWith url (trimTrailingSlash (baseUrl config)) = true.
Proof.
  unfold resolveBacklinkUrl. destruct (firstString fm _).
  - destruct (stripSlashes _).
    + intros H. injection H as <-. apply startsWith_refl.
    + destruct (encodePath _); simpl; [|discriminate].
      intros H. injection H as <-. apply startsWith_app.
  - destruct (backlinkFromPostPath _ _ _) eqn:E; simpl; [|discriminate].
    intros H. injection H as <-. now apply backlinkFromPostPath_prefix in E.
Qed.

Lemma resolveBacklinkUrl_error
  (postPath postsRootSpec : jsstring) (fm : frontmatter)
  (config : ResolvedConfig) (e : error) :
  resolveBacklinkUrl postPath postsRootSpec fm config = Err e ->
  e = URIMalformed.
Proof.
  unfold resolveBacklinkUrl. destruct (firstString fm _).
  - destruct (stripSlashes _); [discriminate|].
    destruct (encodePath _) eqn:E; simpl; [discriminate|].
    intros H. injection H as <-. now apply encodePath_error in E.
  - destruct (backlinkFromPostPath _ _ _) eqn:E; simpl; [discriminate|].
    intros H. injection H as <-. now apply backlinkFromPostPath_error in E.
Qed.

Lemma resolveBacklinkUrl_ok
  (postPath postsRootSpec : jsstring) (fm : frontmatter)
  (config : ResolvedConfig) :
  (forall s, getNestedField fm (str "slug") = Some (VStr s) ->
             isWellFormed s = true) ->
  (forall s, getNestedField fm (str "bluesky.slug") = Some (VStr s) ->
             isWellFormed s = true) ->
  isWellFormed postsRootSpec = true ->
  isWellFormed postPath = true ->
  exists url,
    resolveBacklinkUrl postPath postsRootSpec fm config = Ok (Some url).
Proof.
  intros H1 H2 Hroot Hpath. unfold resolveBacklinkUrl.
  destruct (firstString fm _) as [text|] eqn:F.
  - apply firstString_slug in F as (s & -> & Hs).
    assert (W : wf s).
    { apply isWellFormed_wf. destruct Hs as [Hs|Hs]; auto. }
    apply wf_trim, wf_trim, wf_stripSlashes in W.
    destruct (stripSlashes (trim (trim s))) eqn:E; [now eexists|].
    destruct (encodePath_ok _ W) as [encoded ->]. simpl. now eexists.
  - apply isWellFormed_wf in Hroot, Hpath.
    destruct (backlinkFromPostPath_ok (baseUrl config) _ _ Hroot Hpath)
      as [url ->].
    simpl. now eexists.
Qed.

End BacklinkTotal.

(** * The drafts *)

Section DraftFacts.

Variable yaml_load : jsstring -> option (option value).
Variable gitShow : jsstring -> option (list N).
Variable utf8ToString : list N -> jsstring.

Local Abbreviation hasMarker :=
  (Aux.hasMarker yaml_load gitShow utf8ToString).

Lemma buildDraft_resolves (config : ResolvedConfig)
  (postsRootSpec postPath markdown : jsstring) (fm : frontmatter)
  (unresolved : jsstring) :
  buildDraft yaml_load gitShow config postsRootSpec postPath markdown fm
  <> Err (BacklinkUnresolved unresolved).
Proof.
  unfold buildDraft.
  destruct (parsePostFields yaml_load markdown _) as [parsed|e] eqn:P; simpl.
  - destruct (resolveBacklinkUrl _ _ _ _) as [[url|]|e] eqn:R; simpl.
    + unfold assertPostLength. destruct (Nat.ltb 300 _); simpl;
        [discriminate|].
      destruct (pp_imagePath parsed); [|discriminate].
      unfold resolveGitRelativePath.
      destruct (_ || _); simpl; [discriminate|].
      destruct (_ || _); simpl; [discriminate|].
      unfold readHead, readGitBytes. destruct (gitShow _); simpl;
        [|discriminate].
      unfold detectImageMimeType. destruct (mimeLookup _ _); discriminate.
    + now apply resolveBacklinkUrl_not_null in R.
    + apply resolveBacklinkUrl_error in R. subst e. discriminate.
  - unfold parsePostFields in P.
    destruct (splitFrontmatter yaml_load markdown) as [[fm' content]|e'] eqn:S;
      simpl in P.
    + destruct (isBlank _); [injection P as <-; discriminate|].
      destruct (Nat.ltb 300 _); [injection P as <-; discriminate|discriminate].
    + injection P as <-. unfold splitFrontmatter in S.
      destruct (findBlock markdown) as [[block body]|]; [|discriminate].
      unfold parseYamlFrontmatter in S.
      destruct (yaml_load _) as [[[]|]|]; simpl in S;
        try discriminate; injection S as <-; discriminate.
Qed.

Lemma splitFrontmatter_error (markdown : jsstring) (e : error) :
  splitFrontmatter yaml_load markdown = Err e -> e = InvalidYamlFrontmatter.
Proof.
  unfold splitFrontmatter.
  destruct (findBlock markdown) as [[block body]|]; [|discriminate].
  unfold parseYamlFrontmatter.
  destruct (yaml_load _) as [[[]|]|]; simpl; try discriminate;
    intros H; injection H as <-; reflexivity.
Qed.

Lemma buildDrafts_resolves (config : ResolvedConfig)
  (postsRootSpec : jsstring) (postPaths : list jsstring)
  (unresolved : jsstring) :
  buildDrafts yaml_load gitShow utf8ToString config postsRootSpec postPaths
  <> Err (BacklinkUnresolved unresolved).
Proof.
  induction postPaths as [|postPath rest IH]; simpl; [discriminate|].
  unfold readHead, readGitBytes.
  destruct (gitShow postPath) as [bytes|]; simpl; [|discriminate].
  destruct (splitFrontmatter yaml_load (utf8ToString bytes))
    as [[fm content]|e] eqn:S; simpl.
  - destruct (getNestedField fm DEFAULT_AT_URL_FIELD); [exact IH|].
    destruct (buildDraft _ _ _ _ _ _ _) as [draft|e] eqn:B; simpl.
    + destruct (buildDrafts _ _ _ _ _ rest); simpl; [discriminate|].
      intros H. apply IH. exact H.
    + intros H. injection H as ->.
      now apply buildDraft_resolves in B.
  - apply splitFrontmatter_error in S. subst e. discriminate.
Qed.

Lemma buildDrafts_skip (config : ResolvedConfig) (postsRootSpec : jsstring)
  (postPath : jsstring) (rest : list jsstring) :
  hasMarker postPath ->
  buildDrafts yaml_load gitShow utf8ToString config postsRootSpec
    (postPath :: rest)
  = buildDrafts yaml_load gitShow utf8ToString config postsRootSpec rest.
Proof.
  intros (bytes & fm & content & v & Hg & Hs & Hf). simpl.
  unfold readHead, readGitBytes. rewrite Hg. simpl. rewrite Hs. simpl.
  now rewrite Hf.
Qed.

Lemma buildDrafts_skip_inside (config : ResolvedConfig)
  (postsRootSpec : jsstring) (postPath : jsstring)
  (before after : list jsstring) :
  hasMarker postPath ->
  buildDrafts yaml_load gitShow utf8ToString config postsRootSpec
    (before ++ postPath :: after)
  = buildDrafts yaml_load gitShow utf8ToString config postsRootSpec
      (before ++ after).
Proof.
  intros H. induction before as [|p before IH].
  - now apply buildDrafts_skip.
  - simpl. destruct (readHead gitShow p); simpl; [|reflexivity].
    destruct (splitFrontmatter yaml_load _) as [[fm content]|]; simpl;
      [|reflexivity].
    destruct (getNestedField fm DEFAULT_AT_URL_FIELD); [exact IH|].
    destruct (buildDraft _ _ _ _ _ _ _); simpl; [|reflexivity].
    now rewrite IH.
Qed.

Lemma buildDraft_path (config : ResolvedConfig)
  (postsRootSpec postPath markdown : jsstring) (fm : frontmatter)
  (draft : DraftPost) :
  buildDraft yaml_load gitShow config postsRootSpec postPath markdown fm
  = Ok draft ->
  draft_path draft = postPath.
Proof.
  unfold buildDraft.
  destruct (parsePostFields _ _ _) as [parsed|]; simpl; [|discriminate].
  destruct (resolveBacklinkUrl _ _ _ _) as [[url|]|]; simpl; try discriminate.
  destruct (assertPostLength _ _); simpl; [|discriminate].
  destruct (pp_imagePath parsed).
  - destruct (resolveGitRelativePath _ _); simpl; [|discriminate].
    destruct (readHead _ _); simpl; [|discriminate].
    destruct (detectImageMimeType _); simpl; [|discriminate].
    intros H. now injection H as <-.
  - intros H. now injection H as <-.
Qed.

(** Every draft comes from a path of the list that carries no marker. *)
Lemma buildDrafts_unmarked (config : ResolvedConfig) (postsRootSpec : jsstring)
  (postPaths : list jsstring) (drafts : list DraftPost) :
  buildDrafts yaml_load gitShow utf8ToString config postsRootSpec postPaths
  = Ok drafts ->
  forall draft, In draft drafts ->
    In (draft_path draft) postPaths /\ ~ hasMarker (draft_path draft).
Proof.
  revert drafts; induction postPaths as [|postPath rest IH]; intros drafts.
  - simpl. intros H. injection H as <-. intros draft [].
  - simpl. unfold readHead, readGitBytes.
    destruct (gitShow postPath) as [bytes|] eqn:G; simpl; [|discriminate].
    destruct (splitFrontmatter yaml_load (utf8ToString bytes))
      as [[fm content]|] eqn:S; simpl; [|discriminate].
    destruct (getNestedField fm DEFAULT_AT_URL_FIELD) eqn:F.
    + intros H draft Hin. destruct (IH _ H _ Hin). split; [now right|assumption].
    + destruct (buildDraft _ _ _ _ _ _ _) as [d|] eqn:B; simpl; [|discriminate].
      destruct (buildDrafts _ _ _ _ _ rest) as [ds|] eqn:R; simpl;
        [|discriminate].
      intros H. injection H as <-. intros draft [<-|Hin].
      * apply buildDraft_path in B. rewrite B. split; [now left|].
        intros (bytes' & fm' & content' & v & Hg & Hs & Hf).
        rewrite G in Hg. injection Hg as <-. rewrite S in Hs.
        injection Hs as <- <-. congruence.
      * destruct (IH _ eq_refl _ Hin). split; [now right|assumption].
Qed.

End DraftFacts.

(** C1: a post whose committed frontmatter holds the field [AT_URL], with
    any value ([null] and the empty string included), is passed over by
    [buildDrafts]: the result for the whole list, drafts or error, is the
    result for the list without that post, so nothing of its text, length or
    image is looked at, and no draft that is returned has its path. *)
Theorem marked_post_is_skipped
  (yaml_load : jsstring -> option (option value))
  (gitShow : jsstring -> option (list N))
  (utf8ToString : list N -> jsstring)
  (config : ResolvedConfig) (postsRootSpec postPath : jsstring)
  (before after : list jsstring)
  (bytes : list N) (props : list (jsstring * value)) (content : jsstring)
  (v : value) :
  gitShow postPath = Some bytes ->
  splitFrontmatter yaml_load (utf8ToString bytes) = Ok (VObj props, content) ->
  lookup DEFAULT_AT_URL_FIELD props = Some v ->
  buildDrafts yaml_load gitShow utf8ToString config postsRootSpec
    (before ++ postPath :: after)
  = buildDrafts yaml_load gitShow utf8ToString config postsRootSpec
      (before ++ after)
  /\ forall drafts,
       buildDrafts yaml_load gitShow utf8ToString config postsRootSpec
         (before ++ postPath :: after) = Ok drafts ->
       ~ In postPath (List.map (@draft_path) drafts).
Proof.
  intros Hg Hs Hv.
  assert (M : Aux.hasMarker yaml_load gitShow utf8ToString postPath).
  { exists bytes, (VObj props), content, v. repeat split; assumption. }
  split; [now apply buildDrafts_skip_inside|].
  intros drafts H Hin. apply in_map_iff in Hin as (draft & E & Hin).
  destruct (buildDrafts_unmarked _ _ _ _ _ _ _ H _ Hin) as [_ Hn].
  apply Hn. now rewrite E.
Qed.

(** In the sample repository the marked post, which no validation would
    accept, leaves the list of drafts as it is without it. *)
Lemma marked_post_is_skipped_sample :
  buildDrafts sample_yaml sample_head ascii_text abc_blog (str "posts")
    [old_post; new_post]
  = buildDrafts sample_yaml sample_head ascii_text abc_blog (str "posts")
      [new_post]
  /\ forall drafts,
       buildDrafts sample_yaml sample_head ascii_text abc_blog (str "posts")
         [old_post; new_post] = Ok drafts ->
       ~ In old_post (List.map (@draft_path) drafts).
Proof.
  apply (@marked_post_is_skipped sample_yaml sample_head ascii_text abc_blog
           (str "posts") old_post [] [new_post] old_post_source
           [(str "AT_URL", VNull)]
           (letters 400 ++ str " ![chart](../../../missing.bmp)") VNull).
  - reflexivity.
  - vm_compute. reflexivity.
  - reflexivity.
Defined.

(** C10, as amended: [resolveBacklinkUrl] never returns [null].  Whatever
    it returns is a string that begins with the base URL without its
    trailing slash (that URL itself when the slug holds slashes alone); it
    returns whenever the slug, the posts root and the post path are
    well-formed strings, and the only way it fails is the [URIError] of
    [encodeURIComponent]; so [buildDrafts] never reaches its error "Could
    not resolve backlink URL". *)
Theorem backlink_never_null
  (yaml_load : jsstring -> option (option value))
  (gitShow : jsstring -> option (list N))
  (utf8ToString : list N -> jsstring)
  (postPath postsRootSpec : jsstring) (fm : frontmatter)
  (config : ResolvedConfig) :
  resolveBacklinkUrl postPath postsRootSpec fm config <> Ok None
  /\ (forall url,
         resolveBacklinkUrl postPath postsRootSpec fm config = Ok (Some url) ->
         startsWith url (trimTrailingSlash (baseUrl config)) = true)
  /\ (forall e,
         resolveBacklinkUrl postPath postsRootSpec fm config = Err e ->
         e = URIMalformed)
  /\ ((forall s, getNestedField fm (str "slug") = Some (VStr s) ->
                 isWellFormed s = true) ->
      (forall s, getNestedField fm (str "bluesky.slug") = Some (VStr s) ->
                 isWellFormed s = true) ->
      isWellFormed postsRootSpec = true ->
      isWellFormed postPath = true ->
      exists url,
        resolveBacklinkUrl postPath postsRootSpec fm config = Ok (Some url))
  /\ (forall slug,
         getNestedField fm (str "slug") = Some (VStr slug) ->
         isBlank slug = false ->
         stripSlashes (trim slug) = [] ->
         resolveBacklinkUrl postPath postsRootSpec fm config
         = Ok (Some (trimTrailingSlash (baseUrl config))))
  /\ (forall postPaths unresolved,
         buildDrafts yaml_load gitShow utf8ToString config postsRootSpec
           postPaths
         <> Err (BacklinkUnresolved unresolved)).
Proof.
  split; [apply resolveBacklinkUrl_not_null|].
  split; [intros url; apply resolveBacklinkUrl_prefix|].
  split; [intros e; apply resolveBacklinkUrl_error|].
  split; [apply resolveBacklinkUrl_ok|].
  split; [|intros; apply buildDrafts_resolves].
  intros slug Hs Hb He.
  rewrite (resolveBacklinkUrl_slug postPath postsRootSpec fm config slug Hs Hb).
  unfold Spec.slugBacklinkAmended.
  rewrite <- stripSlashes_spec, He, trimTrailingSlash_spec. reflexivity.
Qed.

(** A post with a slug in the sample configuration: the call returns. *)
Lemma backlink_never_null_sample :
  exists url,
    resolveBacklinkUrl launch_post (str "posts") (with_slug (str "/"))
      abc_blog_slash = Ok (Some url)
    /\ url = str "https://abc.com/blog".
Proof.
  destruct (backlink_never_null no_yaml no_blobs ascii_text launch_post
              (str "posts") (with_slug (str "/")) abc_blog_slash)
    as (_ & _ & _ & _ & H & _).
  exists (str "https://abc.com/blog"). split; [|reflexivity].
  rewrite (H (str "/") eq_refl eq_refl eq_refl). reflexivity.
Defined.

(** C10, as stated, fails: a slug that holds a surrogate on its own (the
    YAML scalar ["\uD83D"]) makes [encodeURIComponent] throw, and the call
    returns nothing. *)
Lemma backlink_may_throw :
  resolveBacklinkUrl launch_post (str "posts") (with_slug lone_surrogate)
    abc_blog
  = Err URIMalformed.
Proof. reflexivity. Qed.

(** * The protocol client *)

Section ClientFacts.

Lemma extractApiError_spec (payload : value) (fallback : jsstring) :
  match extractApiError payload with
  | Some message => message
  | None => fallback
  end = Spec.apiMessage payload fallback.
Proof.
  unfold extractApiError, Spec.apiMessage, Spec.textOf.
  destruct payload as [| | | |items|props|]; simpl; try reflexivity.
  assert (H : forall name,
             resolveString (lookup name props)
             = match lookup name props with
               | Some (VStr s) => if isBlank s then None else Some (trim s)
               | _ => None
               end).
  { intros name. destruct (lookup name props) as [[| | |s| | |]|];
      try reflexivity.
    simpl. unfold isBlank. now destruct (trim s). }
  rewrite !H.
  destruct (lookup (str "message") props) as [[| | |s| | |]|];
    try reflexivity.
  now destruct (isBlank s).
Qed.

End ClientFacts.

(** C9, as amended: for every response whose status is not a 2xx and whose
    body is blank or parses as JSON, the client fails with the error that
    carries the operation context, the HTTP status and a message: the
    [message] field of the body when it is a string that is not blank, else
    its [error] field when that is one, else the status text.  A body that
    is not blank and does not parse as JSON makes the client fail with the
    parse error of that context instead, whatever the status. *)
Theorem api_error_carries_status (response : Response) (context : jsstring) :
  (forall payload,
      ok response = false ->
      (if isBlank (bodyText response) then payload = VObj []
       else JSON_parse (bodyText response) = Some payload) ->
      parseJsonResponse response context
      = Err (BlueskyApiError context (status response)
               (Spec.apiMessage payload (statusText response))))
  /\ (isBlank (bodyText response) = false ->
      JSON_parse (bodyText response) = None ->
      parseJsonResponse response context = Err (CouldNotParseJson context)).
Proof.
  split.
  - intros payload Hok Hbody. unfold parseJsonResponse.
    destruct (isBlank (bodyText response)).
    + subst payload. simpl. rewrite Hok. simpl. reflexivity.
    + rewrite Hbody. simpl. rewrite Hok. simpl.
      now rewrite extractApiError_spec.
  - intros Hblank Hparse. unfold parseJsonResponse.
    now rewrite Hblank, Hparse.
Qed.

(** A refused session: the message of the body is reported with the
    status; and the page of a gateway: the parse error is reported. *)
Lemma api_error_unauthorized :
  parseJsonResponse unauthorized (str "create session")
  = Err (BlueskyApiError (str "create session") 401
           (str "Invalid identifier or password"))
  /\ parseJsonResponse bad_gateway (str "create session")
     = Err (CouldNotParseJson (str "create session")).
Proof.
  split.
  - destruct (api_error_carries_status unauthorized (str "create session"))
      as [Hstatus _].
    rewrite (Hstatus
               (VObj [(str "error", VStr (str "AuthenticationRequired"));
                      (str "message",
                       VStr (str "Invalid identifier or password"))])
               eq_refl).
    + reflexivity.
    + vm_compute. reflexivity.
  - destruct (api_error_carries_status bad_gateway (str "create session"))
      as [_ Hparse].
    apply Hparse; vm_compute; reflexivity.
Defined.

(** C9, as stated, fails on a body that is no JSON: the page of a gateway
    makes the client fail on the parse, before it looks at the status, and
    the error carries neither the status nor the status text. *)
Lemma api_error_unparsable_body :
  ok bad_gateway = false
  /\ parseJsonResponse bad_gateway (str "create record for posts/a.md")
     = Err (CouldNotParseJson (str "create record for posts/a.md")).
Proof. split; reflexivity. Qed.

(** * Lines *)

Section LineFacts.

Local Open Scope N_scope.
Import Aux Spec.

Lemma join_cons (sep line : jsstring) (l : jsstring) (rest : list jsstring) :
  join sep (line :: l :: rest) = line ++ sep ++ join sep (l :: rest).
Proof. reflexivity. Qed.

Lemma splitLines_nonempty (s : jsstring) : splitLines s <> [].
Proof.
  induction s as [|c s IH]; simpl; [discriminate|].
  destruct (c =? LF); [discriminate|].
  destruct ((c =? CR) && _); [exact IH|].
  destruct (splitLines s); discriminate.
Qed.

Lemma splitLines_cons (c : N) (s : jsstring) :
  (c =? LF) = false ->
  ((c =? CR) && match s with d :: _ => d =? LF | [] => false end) = false ->
  splitLines (c :: s)
  = (c :: hd [] (splitLines s)) :: tl (splitLines s).
Proof.
  intros H1 H2. simpl. rewrite H1, H2.
  destruct (splitLines s) eqn:E; [now apply splitLines_nonempty in E|].
  reflexivity.
Qed.

Lemma splitLines_one (line : jsstring) :
  noLF line = true -> splitLines line = [line].
Proof.
  induction line as [|c line IH]; [reflexivity|].
  unfold noLF. cbn [forallb]. intros H.
  apply andb_true_iff in H as [Hc Hl]. apply negb_true_iff in Hc.
  rewrite splitLines_cons; [now rewrite IH|exact Hc|].
  destruct line as [|d line]; [apply andb_false_r|].
  cbn [forallb] in Hl. apply andb_true_iff in Hl as [Hd _].
  apply negb_true_iff in Hd. rewrite Hd. apply andb_false_r.
Qed.

Lemma splitLines_line (line rest : jsstring) :
  noLF line = true -> endsCR line = false ->
  splitLines (line ++ LF :: rest) = line :: splitLines rest.
Proof.
  induction line as [|c line IH]; [reflexivity|].
  unfold noLF. cbn [forallb]. intros H Hcr.
  apply andb_true_iff in H as [Hc Hl]. apply negb_true_iff in Hc.
  change ((c :: line) ++ LF :: rest) with (c :: (line ++ LF :: rest)).
  rewrite splitLines_cons.
  - rewrite IH; [reflexivity|exact Hl|].
    destruct line; [reflexivity|exact Hcr].
  - exact Hc.
  - destruct line as [|d line].
    + simpl in Hcr. simpl. now rewrite Hcr.
    + cbn [forallb] in Hl. apply andb_true_iff in Hl as [Hd _].
      apply negb_true_iff in Hd. simpl. rewrite Hd. apply andb_false_r.
Qed.

Lemma stableLines_nonempty (lines : list jsstring) :
  stableLines lines = true -> lines <> [].
Proof. destruct lines; [discriminate|discriminate]. Qed.

Lemma stableLines_cons (line : jsstring) (rest : list jsstring) :
  rest <> [] ->
  stableLines (line :: rest)
  = noLF line && negb (endsCR line) && stableLines rest.
Proof. destruct rest; [congruence|reflexivity]. Qed.

(** [splitLines] undoes [join] on stable lines. *)
Lemma splitLines_join (lines : list jsstring) :
  stableLines lines = true -> splitLines (join [LF] lines) = lines.
Proof.
  induction lines as [|line rest IH]; [discriminate|].
  destruct rest as [|l rest].
  - simpl. apply splitLines_one.
  - rewrite stableLines_cons by discriminate. intros H.
    apply andb_true_iff in H as [H Hrest].
    apply andb_true_iff in H as [Hl Hcr]. apply negb_true_iff in Hcr.
    rewrite join_cons. change ([LF] ++ ?x) with (LF :: x).
    rewrite splitLines_line by assumption. now rewrite IH.
Qed.

Lemma noCRLF_cons (c : N) (s : jsstring) :
  noCRLF (c :: s) = true ->
  ((c =? CR) && match s with d :: _ => d =? LF | [] => false end) = false
  /\ noCRLF s = true.
Proof.
  simpl. intros H. apply andb_true_iff in H as [H1 H2].
  apply negb_true_iff in H1. now split.
Qed.

(** [join] undoes [splitLines] on a document without CR LF. *)
Lemma join_splitLines (s : jsstring) :
  noCRLF s = true -> join [LF] (splitLines s) = s.
Proof.
  induction s as [|c s IH]; [reflexivity|].
  intros H. apply noCRLF_cons in H as [Hc Hs]. specialize (IH Hs).
  simpl splitLines. rewrite Hc.
  destruct (c =? LF) eqn:E.
  - apply N.eqb_eq in E. subst c.
    destruct (splitLines s) as [|l rest] eqn:S;
      [now apply splitLines_nonempty in S|].
    rewrite join_cons, IH. reflexivity.
  - destruct (splitLines s) as [|l rest] eqn:S;
      [now apply splitLines_nonempty in S|].
    destruct rest as [|l' rest].
    + simpl in *. now rewrite IH.
    + rewrite join_cons. rewrite join_cons in IH. now rewrite <- IH.
Qed.

Lemma head_line_empty (s : jsstring) (rest : list jsstring) :
  noCRLF s = true -> splitLines s = [] :: rest -> rest <> [] ->
  exists s', s = LF :: s'.
Proof.
  destruct s as [|c s]; simpl.
  - intros _ H Hne. injection H as <-. now contradiction Hne.
  - intros H. apply andb_true_iff in H as [H1 _].
    apply negb_true_iff in H1. rewrite H1.
    destruct (c =? LF) eqn:E.
    + apply N.eqb_eq in E. subst c. intros _ _. now exists s.
    + destruct (splitLines s); discriminate.
Qed.

(** The lines of a document without CR LF are stable. *)
Lemma stableLines_splitLines (s : jsstring) :
  noCRLF s = true -> stableLines (splitLines s) = true.
Proof.
  induction s as [|c s IH]; [reflexivity|].
  intros H. pose proof (noCRLF_cons _ _ H) as [Hc Hs]. specialize (IH Hs).
  simpl splitLines. rewrite Hc.
  destruct (c =? LF) eqn:E.
  - destruct (splitLines s) as [|l rest] eqn:S;
      [now apply splitLines_nonempty in S|].
    rewrite stableLines_cons by discriminate. exact IH.
  - destruct (splitLines s) as [|l rest] eqn:S;
      [now apply splitLines_nonempty in S|].
    destruct rest as [|l' rest].
    + simpl in *. unfold noLF in *. simpl. now rewrite E, IH.
    + rewrite stableLines_cons in * by discriminate.
      apply andb_true_iff in IH as [IH Hrest].
      apply andb_true_iff in IH as [Hl Hcr].
      rewrite Hrest, andb_true_r.
      apply andb_true_iff. split.
      * unfold noLF in *. simpl. now rewrite E, Hl.
      * destruct l as [|d l]; [|exact Hcr].
        destruct (@head_line_empty s (l' :: rest) Hs S) as [s' ->];
          [discriminate|].
        change ((c =? CR) && true = false) in Hc.
        rewrite andb_true_r in Hc. simpl. now rewrite Hc.
Qed.

Lemma noLF_app (a b : jsstring) :
  noLF (a ++ b) = noLF a && noLF b.
Proof. unfold noLF. apply forallb_app. Qed.

Lemma endsCR_app_last (a : jsstring) (c : N) :
  endsCR (a ++ [c]) = (c =? CR).
Proof.
  induction a as [|d a IH]; [reflexivity|].
  simpl. destruct (a ++ [c]) eqn:E; [now destruct a|exact IH].
Qed.

End LineFacts.

(** * Writing the marker *)

Section UpsertFacts.

Local Open Scope N_scope.
Import Aux Spec.

Lemma hexLower_not_LF (n : N) : (hexLower n =? LF) = false.
Proof.
  unfold hexLower, LF. apply N.eqb_neq.
  destruct (n <? 10) eqn:E; [|apply N.ltb_ge in E]; lia.
Qed.

Lemma noLF_unicodeEscape (c : N) : noLF (unicodeEscape c) = true.
Proof.
  unfold noLF, unicodeEscape. cbn [forallb].
  now rewrite !hexLower_not_LF.
Qed.

Lemma noLF_quoteUnit (c : N) : noLF (quoteUnit c) = true.
Proof.
  unfold quoteUnit.
  repeat match goal with
         | |- context [if ?b then _ else _] =>
             destruct b eqn:?; [try reflexivity; try apply noLF_unicodeEscape|]
         end.
  unfold noLF. simpl. unfold LF.
  match goal with H : (c =? 10) = false |- _ => now rewrite H end.
Qed.

Lemma noLF_pair (c d : N) :
  isHighSurrogate c = true -> isLowSurrogate d = true -> noLF [c; d] = true.
Proof.
  unfold isHighSurrogate, isLowSurrogate, noLF, LF. intros Hc Hd.
  apply andb_true_iff in Hc as [Hc _], Hd as [Hd _].
  apply N.leb_le in Hc, Hd. cbn [forallb].
  replace (c =? 10) with false by (symmetry; apply N.eqb_neq; lia).
  replace (d =? 10) with false by (symmetry; apply N.eqb_neq; lia).
  reflexivity.
Qed.

Lemma noLF_quoteChars (s : jsstring) : noLF (quoteChars s) = true.
Proof.
  assert (H : forall s, noLF (quoteChars s) = true
                        /\ forall c, noLF (quoteChars (c :: s)) = true).
  { clear. induction s as [|d s [IH1 IH2]].
    - split; [reflexivity|]. intros c.
      change (quoteChars [c])
        with (if isHighSurrogate c then unicodeEscape c
              else if isLowSurrogate c then unicodeEscape c ++ []
                   else quoteUnit c ++ []).
      destruct (isHighSurrogate c); [apply noLF_unicodeEscape|].
      destruct (isLowSurrogate c); rewrite app_nil_r;
        [apply noLF_unicodeEscape|apply noLF_quoteUnit].
    - split; [apply IH2|]. intros c.
      change (quoteChars (c :: d :: s))
        with (if isHighSurrogate c then
                if isLowSurrogate d then c :: d :: quoteChars s
                else unicodeEscape c ++ quoteChars (d :: s)
              else if isLowSurrogate c
                   then unicodeEscape c ++ quoteChars (d :: s)
                   else quoteUnit c ++ quoteChars (d :: s)).
      destruct (isHighSurrogate c) eqn:Hc.
      + destruct (isLowSurrogate d) eqn:Hd.
        * change (c :: d :: quoteChars s) with ([c; d] ++ quoteChars s).
          now rewrite noLF_app, noLF_pair, IH1.
        * now rewrite noLF_app, noLF_unicodeEscape, IH2.
      + destruct (isLowSurrogate c).
        * now rewrite noLF_app, noLF_unicodeEscape, IH2.
        * now rewrite noLF_app, noLF_quoteUnit, IH2. }
  apply H.
Qed.

Lemma rendered_last (field value : jsstring) :
  exists body, rendered field value = body ++ [34].
Proof.
  exists (field ++ str ": " ++ [34] ++ quoteChars value).
  unfold rendered, JSON_stringify. now rewrite <- !app_assoc.
Qed.

Lemma rendered_lineOK (field value : jsstring) :
  noLF field = true -> lineOK (rendered field value) = true.
Proof.
  intros Hf. unfold lineOK. apply andb_true_iff. split.
  - unfold rendered, JSON_stringify.
    now rewrite !noLF_app, Hf, noLF_quoteChars.
  - destruct (rendered_last field value) as [body ->].
    now rewrite endsCR_app_last.
Qed.

Lemma trim_keeps_last (s : jsstring) (c : N) :
  isWhitespace c = false -> exists body, trim (s ++ [c]) = body ++ [c].
Proof.
  intros Hc. unfold trim, trimStart, trimEnd.
  rewrite dropWhile_app_last, Hc.
  destruct (forallb isWhitespace s).
  - exists []. simpl. now rewrite Hc.
  - exists (dropWhile isWhitespace s). now apply dropWhileEnd_keep.
Qed.

Lemma rendered_notDelimiter (field value : jsstring) :
  notDelimiter (rendered field value) = true.
Proof.
  unfold notDelimiter, isDelimiter. apply negb_true_iff, seqb_neq.
  destruct (rendered_last field value) as [body ->].
  destruct (@trim_keeps_last body 34 eq_refl) as [t ->].
  intros E. apply (f_equal (fun l => last l 0)) in E.
  rewrite last_last in E. discriminate.
Qed.

Lemma rendered_matches (field value : jsstring) :
  fieldPatternTest field (rendered field value) = true.
Proof.
  unfold fieldPatternTest, rendered.
  rewrite startsWith_app, skipn_app, skipn_all, Nat.sub_diag.
  reflexivity.
Qed.

Lemma breakAtDelimiter'_inv (rest block after : list jsstring)
  (closing : jsstring) :
  breakAtDelimiter' rest = Some (block, closing, after) ->
  rest = block ++ closing :: after
  /\ forallb notDelimiter block = true
  /\ isDelimiter closing = true.
Proof.
  revert block; induction rest as [|line rest IH]; intros block;
    [discriminate|].
  simpl. destruct (isDelimiter line) eqn:D.
  - intros H. injection H as <- <- <-. now repeat split.
  - destruct (breakAtDelimiter' rest) as [[[b c] a]|]; [|discriminate].
    intros H. injection H as <- <- <-.
    destruct (IH b eq_refl) as (-> & Hb & Hc).
    repeat split; [|exact Hc]. simpl. unfold notDelimiter at 1.
    now rewrite D, Hb.
Qed.

Lemma breakAtDelimiter'_app (block after : list jsstring) (closing : jsstring) :
  forallb notDelimiter block = true -> isDelimiter closing = true ->
  breakAtDelimiter' (block ++ closing :: after) = Some (block, closing, after).
Proof.
  intros Hb Hc. induction block as [|line block IH]; simpl.
  - now rewrite Hc.
  - simpl in Hb. apply andb_true_iff in Hb as [Hl Hb].
    unfold notDelimiter in Hl. apply negb_true_iff in Hl.
    now rewrite Hl, IH.
Qed.

Lemma breakAtDelimiter_forget (rest : list jsstring) :
  breakAtDelimiter rest
  = match breakAtDelimiter' rest with
    | Some (block, _, after) => Some (block, after)
    | None => None
    end.
Proof.
  induction rest as [|line rest IH]; [reflexivity|].
  simpl. destruct (isDelimiter line); [reflexivity|].
  rewrite IH. now destruct (breakAtDelimiter' rest) as [[[b c] a]|].
Qed.

Lemma replaceFirstMatch_some (field r : jsstring) (block block' : list jsstring) :
  fieldPatternTest field r = true ->
  replaceFirstMatch field r block = Some block' ->
  replaceFirstMatch field r block' = Some block'
  /\ length (filter (fieldPatternTest field) block')
     = length (filter (fieldPatternTest field) block)
  /\ filter (fieldPatternTest field) block <> []
  /\ forall P : jsstring -> bool,
       P r = true -> forallb P block = true -> forallb P block' = true.
Proof.
  intros Hr. revert block'; induction block as [|line block IH];
    intros block'; [discriminate|].
  simpl. destruct (fieldPatternTest field line) eqn:T.
  - intros H. injection H as <-. simpl. rewrite Hr.
    repeat split; [discriminate|].
    intros P HP Hb. simpl in *. apply andb_true_iff in Hb as [_ Hb].
    now rewrite HP.
  - destruct (replaceFirstMatch field r block) as [b|]; [|discriminate].
    intros H. injection H as <-.
    destruct (IH b eq_refl) as (H1 & H2 & H3 & H4).
    simpl. rewrite T, H1. repeat split; try assumption.
    intros P HP Hb. simpl in *. apply andb_true_iff in Hb as [Hl Hb].
    now rewrite Hl, H4.
Qed.

Lemma replaceFirstMatch_none (field r : jsstring) (block : list jsstring) :
  fieldPatternTest field r = true ->
  replaceFirstMatch field r block = None ->
  filter (fieldPatternTest field) block = []
  /\ replaceFirstMatch field r (block ++ [r]) = Some (block ++ [r])
  /\ filter (fieldPatternTest field) (block ++ [r]) = [r].
Proof.
  intros Hr. induction block as [|line block IH]; simpl.
  - intros _. now rewrite Hr.
  - destruct (fieldPatternTest field line) eqn:T; [discriminate|].
    destruct (replaceFirstMatch field r block); [discriminate|].
    intros _. destruct (IH eq_refl) as (H1 & H2 & H3).
    now rewrite H2.
Qed.

Lemma stableLines_app (xs ys : list jsstring) :
  ys <> [] ->
  stableLines (xs ++ ys) = forallb lineOK xs && stableLines ys.
Proof.
  intros Hy. induction xs as [|x xs IH]; [reflexivity|].
  simpl app. rewrite stableLines_cons by (destruct xs, ys; simpl; congruence).
  rewrite IH. simpl. unfold lineOK. now rewrite andb_assoc.
Qed.

Lemma join_app (sep : jsstring) (xs ys : list jsstring) :
  xs <> [] -> ys <> [] ->
  join sep (xs ++ ys) = join sep xs ++ sep ++ join sep ys.
Proof.
  intros Hx Hy. induction xs as [|x xs IH]; [congruence|].
  destruct xs as [|x' xs].
  - simpl. destruct ys; [congruence|reflexivity].
  - change ((x :: x' :: xs) ++ ys) with (x :: (x' :: xs) ++ ys).
    change ((x' :: xs) ++ ys) with (x' :: xs ++ ys).
    rewrite !join_cons.
    change (x' :: xs ++ ys) with ((x' :: xs) ++ ys).
    rewrite IH by discriminate. now rewrite <- !app_assoc.
Qed.

Lemma endsWith_last_part (a c : jsstring) (x : N) :
  c <> [] -> endsWith (a ++ c) [x] = endsWith c [x].
Proof.
  intros Hc. unfold endsWith. rewrite rev_app_distr.
  destruct (rev c) eqn:E; [|reflexivity].
  apply (f_equal (@rev N)) in E. rewrite rev_involutive in E. now subst.
Qed.

Lemma finalizeNewline_self (text : jsstring) :
  finalizeNewline text (endsWith text [LF]) = text.
Proof.
  unfold finalizeNewline. now destruct (endsWith text [LF]).
Qed.

Lemma endsWith_join_same_tail (xs xs' ys : list jsstring) :
  xs <> [] -> xs' <> [] -> ys <> [] ->
  endsWith (join [LF] (xs ++ ys)) [LF] = endsWith (join [LF] (xs' ++ ys)) [LF].
Proof.
  intros Hx Hx' Hy. rewrite !join_app by assumption.
  rewrite !(@endsWith_last_part _ ([LF] ++ join [LF] ys)) by discriminate.
  reflexivity.
Qed.

End UpsertFacts.

(** * Asset paths stay in the repository *)

Section SegmentFacts.

Local Open Scope N_scope.
Import Aux Spec Posix.

Lemma split_app (sep : N) (a b : jsstring) :
  split sep (a ++ sep :: b) = split sep a ++ split sep b.
Proof.
  induction a as [|c a IH]; simpl.
  - now rewrite N.eqb_refl.
  - destruct (c =? sep); [now rewrite IH|].
    rewrite IH. destruct (split sep a) eqn:E; [now apply split_nonempty in E|].
    reflexivity.
Qed.

Lemma split_slashFree (seg : jsstring) :
  slashFree seg = true -> split SLASH seg = [seg].
Proof.
  induction seg as [|c seg IH]; [reflexivity|].
  simpl. intros H. apply andb_true_iff in H as [Hc Hs].
  unfold isSlash in Hc. apply negb_true_iff in Hc. now rewrite Hc, IH.
Qed.

Lemma split_join (segments : list jsstring) :
  segments <> [] -> forallb slashFree segments = true ->
  split SLASH (join (str "/") segments) = segments.
Proof.
  induction segments as [|seg rest IH]; [congruence|]. intros _ H.
  simpl in H. apply andb_true_iff in H as [Hs Hr].
  destruct rest as [|seg' rest].
  - simpl. now apply split_slashFree.
  - rewrite join_cons. change (str "/" ++ ?x) with (SLASH :: x).
    rewrite split_app, split_slashFree by exact Hs.
    now rewrite IH.
Qed.

Lemma split_segments_slashFree (s : jsstring) :
  forallb slashFree (split SLASH s) = true.
Proof.
  induction s as [|c s IH]; [reflexivity|].
  simpl. destruct (c =? SLASH) eqn:E; [exact IH|].
  destruct (split SLASH s) as [|w ws] eqn:S; [now apply split_nonempty in S|].
  simpl in *. unfold isSlash. now rewrite E.
Qed.

Lemma isName_slashFree (seg : jsstring) : isName seg = true -> slashFree seg = true.
Proof.
  unfold isName. intros H. now apply andb_true_iff in H as [_ H].
Qed.

Lemma isName_of_segment (seg : jsstring) :
  (negb (nonEmpty seg) || isDot seg) = false -> isDotDot seg = false ->
  slashFree seg = true -> isName seg = true.
Proof.
  intros H1 H2 H3. apply orb_false_iff in H1 as [Hn Hd].
  apply negb_false_iff in Hn. unfold isName.
  now rewrite Hn, Hd, H2, H3.
Qed.

Lemma isName_not_special (seg : jsstring) :
  isName seg = true ->
  (negb (nonEmpty seg) || isDot seg) = false /\ isDotDot seg = false.
Proof.
  unfold isName. intros H.
  apply andb_true_iff in H as [H _]. apply andb_true_iff in H as [H H3].
  apply andb_true_iff in H as [H1 H2].
  apply negb_true_iff in H2, H3. now rewrite H1, H2, H3.
Qed.

Local Abbreviation NS := (normalizeSegments true).

(** On a stack of names, [normalizeSegments] and [walk] go the same way. *)
Lemma NS_walk_some (segments stack stack' : list jsstring) :
  forallb isName stack = true ->
  forallb slashFree segments = true ->
  walk stack segments = Some stack' ->
  NS stack segments = rev stack' /\ forallb isName stack' = true.
Proof.
  revert stack; induction segments as [|seg rest IH]; intros stack Hst Hsf.
  - simpl. intros H. injection H as <-. now split.
  - simpl in Hsf. apply andb_true_iff in Hsf as [Hseg Hrest].
    simpl. destruct (negb (nonEmpty seg) || isDot seg) eqn:E1; [now apply IH|].
    destruct (isDotDot seg) eqn:E2.
    + destruct stack as [|top below]; [discriminate|].
      simpl in Hst. apply andb_true_iff in Hst as [Ht Hb].
      apply isName_not_special in Ht as [_ Ht]. rewrite Ht. now apply IH.
    + apply IH; [|exact Hrest]. simpl.
      now rewrite (isName_of_segment seg E1 E2 Hseg).
Qed.

Lemma NS_bottom (segments upper : list jsstring) :
  exists rest, NS (upper ++ [str ".."]) segments = str ".." :: rest.
Proof.
  revert upper; induction segments as [|seg rest IH]; intros upper.
  - simpl. rewrite rev_app_distr. simpl. now eexists.
  - simpl. destruct (negb (nonEmpty seg) || isDot seg); [apply IH|].
    destruct (isDotDot seg) eqn:E.
    + destruct upper as [|top upper]; simpl.
      * apply seqb_eq in E. subst seg. apply (IH [str ".."]).
      * destruct (isDotDot top).
        -- apply (IH (seg :: top :: upper)).
        -- apply IH.
    + apply (IH (seg :: upper)).
Qed.

Lemma NS_walk_none (segments stack : list jsstring) :
  forallb isName stack = true ->
  forallb slashFree segments = true ->
  walk stack segments = None ->
  exists rest, NS stack segments = str ".." :: rest.
Proof.
  revert stack; induction segments as [|seg rest IH]; intros stack Hst Hsf;
    [discriminate|].
  simpl in Hsf. apply andb_true_iff in Hsf as [Hseg Hrest].
  simpl. destruct (negb (nonEmpty seg) || isDot seg) eqn:E1; [now apply IH|].
  destruct (isDotDot seg) eqn:E2.
  - destruct stack as [|top below].
    + intros _. apply seqb_eq in E2. subst seg. apply (NS_bottom rest []).
    + simpl in Hst. apply andb_true_iff in Hst as [Ht Hb].
      apply isName_not_special in Ht as [_ Ht]. rewrite Ht. now apply IH.
  - apply IH; [|exact Hrest]. simpl.
    now rewrite (isName_of_segment seg E1 E2 Hseg).
Qed.

Lemma forallb_reversed (p : jsstring -> bool) (l : list jsstring) :
  forallb p (rev l) = forallb p l.
Proof.
  induction l as [|x l IH]; [reflexivity|].
  simpl. rewrite forallb_app, IH. simpl. rewrite andb_true_r.
  apply andb_comm.
Qed.

(** The stack of [normalizeSegments] holds names above steps up. *)
Lemma NS_normal (segments names : list jsstring) (ups : nat) :
  forallb isName names = true ->
  forallb slashFree segments = true ->
  normalForm (NS (names ++ repeat (str "..") ups) segments).
Proof.
  revert names ups; induction segments as [|seg rest IH];
    intros names ups Hn Hsf.
  - simpl. exists ups, (rev names). split.
    + rewrite rev_app_distr. f_equal. apply rev_repeat.
    + rewrite forallb_reversed. exact Hn.
  - simpl in Hsf. apply andb_true_iff in Hsf as [Hseg Hrest].
    simpl. destruct (negb (nonEmpty seg) || isDot seg) eqn:E1; [now apply IH|].
    destruct (isDotDot seg) eqn:E2.
    + apply seqb_eq in E2. subst seg.
      destruct names as [|top names].
      * destruct ups as [|ups]; simpl.
        -- apply (IH [] 1%nat); [reflexivity|exact Hrest].
        -- apply (IH [] (S (S ups))); [reflexivity|exact Hrest].
      * simpl in Hn. apply andb_true_iff in Hn as [Ht Hn].
        simpl. apply isName_not_special in Ht as [_ Ht]. rewrite Ht.
        now apply IH.
    + apply (IH (seg :: names) ups); [|exact Hrest]. simpl.
      now rewrite (isName_of_segment seg E1 E2 Hseg).
Qed.

Lemma NS_up (stackUps : nat) (segments : list jsstring) :
  NS (repeat (str "..") stackUps) (str ".." :: segments)
  = NS (repeat (str "..") (S stackUps)) segments.
Proof. destruct stackUps; reflexivity. Qed.

Lemma NS_ups (ups : nat) (stackUps : nat) (segments : list jsstring) :
  NS (repeat (str "..") stackUps) (repeat (str "..") ups ++ segments)
  = NS (repeat (str "..") (ups + stackUps)) segments.
Proof.
  revert stackUps; induction ups as [|ups IH]; intros stackUps; [reflexivity|].
  change (repeat (str "..") (S ups) ++ segments)
    with (str ".." :: (repeat (str "..") ups ++ segments)).
  rewrite NS_up, IH. now rewrite Nat.add_succ_r.
Qed.

Lemma NS_names (names extra stack : list jsstring) :
  forallb isName names = true ->
  NS stack (names ++ extra) = NS (rev names ++ stack) extra.
Proof.
  revert stack; induction names as [|name names IH]; intros stack Hn;
    [reflexivity|].
  simpl in Hn. apply andb_true_iff in Hn as [Hname Hn].
  destruct (isName_not_special name Hname) as [E1 E2].
  simpl. rewrite E1, E2, IH by exact Hn. now rewrite <- app_assoc.
Qed.

(** A normal form is left as it is, with or without an empty segment
    after it. *)
Lemma NS_fixed (segments : list jsstring) (trailing : bool) :
  normalForm segments ->
  NS [] (match segments with [] => [str "."] | _ => segments end
         ++ if trailing then [[]] else [])
  = segments.
Proof.
  intros (ups & names & -> & Hn).
  assert (E : forall extra, extra = [[]] \/ extra = [] ->
              NS [] ((repeat (str "..") ups ++ names) ++ extra)
              = repeat (str "..") ups ++ names).
  { intros extra He. rewrite <- app_assoc.
    etransitivity; [apply (NS_ups ups 0 (names ++ extra))|].
    rewrite Nat.add_0_r, NS_names by exact Hn.
    destruct He as [-> | ->]; simpl;
      now rewrite rev_app_distr, rev_involutive, rev_repeat. }
  destruct (repeat (str "..") ups ++ names) eqn:S.
  - now destruct trailing.
  - apply E. destruct trailing; auto.
Qed.

Lemma normalForm_head (segments : list jsstring) :
  normalForm segments ->
  match segments with
  | [] => True
  | seg :: rest =>
      (isDotDot seg = true \/ isName seg = true)
      /\ forallb slashFree (seg :: rest) = true
  end.
Proof.
  intros (ups & names & -> & Hn).
  assert (Hsf : forallb slashFree (repeat (str "..") ups ++ names) = true).
  { rewrite forallb_app. apply andb_true_iff. split.
    - clear. induction ups; simpl; [reflexivity|exact IHups].
    - clear -Hn. induction names as [|n names IH]; [reflexivity|].
      simpl in *. apply andb_true_iff in Hn as [H1 H2].
      now rewrite (isName_slashFree n H1), IH. }
  destruct ups as [|ups]; simpl in *.
  - destruct names as [|name names]; [exact I|].
    split; [|exact Hsf]. right. simpl in Hn.
    now apply andb_true_iff in Hn as [Hn _].
  - split; [now left|exact Hsf].
Qed.

Lemma normalForm_nonempty (segments : list jsstring) :
  normalForm segments -> forallb nonEmpty segments = true.
Proof.
  intros (ups & names & -> & Hn). rewrite forallb_app.
  apply andb_true_iff. split.
  - clear. induction ups; simpl; [reflexivity|exact IHups].
  - clear -Hn. induction names as [|n names IH]; [reflexivity|].
    simpl in *. apply andb_true_iff in Hn as [H1 H2]. rewrite IH by exact H2.
    unfold isName in H1. now destruct n.
Qed.

Lemma slashFree_head (seg : jsstring) (c : N) (rest : jsstring) :
  slashFree (c :: rest) = true -> (c =? SLASH) = false.
Proof.
  simpl. intros H. apply andb_true_iff in H as [H _].
  now apply negb_true_iff in H.
Qed.

Lemma slashFree_no_trailing (seg : jsstring) :
  slashFree seg = true -> endsWith seg (str "/") = false.
Proof.
  intros H. unfold endsWith. change (rev (str "/")) with [SLASH].
  destruct (rev seg) as [|c r] eqn:E; [reflexivity|].
  cbn [startsWith]. rewrite andb_true_r.
  assert (Hin : In c seg) by (apply in_rev; rewrite E; now left).
  unfold slashFree in H. rewrite forallb_forall in H. specialize (H c Hin).
  unfold isSlash in H. apply negb_true_iff in H. now rewrite N.eqb_sym.
Qed.

Lemma normalForm_nonempty_head (seg : jsstring) (rest : list jsstring) :
  normalForm (seg :: rest) -> seg <> [].
Proof.
  intros H. apply normalForm_head in H as [[H|H] _].
  - apply seqb_eq in H. subst. discriminate.
  - unfold isName in H. destruct seg; [discriminate|discriminate].
Qed.

Lemma join_head (seg : jsstring) (rest : list jsstring) :
  exists tail,
    join (str "/") (seg :: rest) = seg ++ tail
    /\ (tail = [] \/ exists u, tail = SLASH :: u).
Proof.
  destruct rest as [|seg' rest].
  - exists []. split; [simpl; now rewrite app_nil_r|now left].
  - exists (str "/" ++ join (str "/") (seg' :: rest)).
    split; [reflexivity|]. right. now eexists.
Qed.

Lemma pathOf_cons (seg : jsstring) (rest : list jsstring) (trailing : bool) :
  seg <> [] ->
  pathOf (seg :: rest) trailing
  = join (str "/") (seg :: rest) ++ (if trailing then str "/" else [])
  /\ exists tail,
       pathOf (seg :: rest) trailing = seg ++ tail
       /\ (tail = [] \/ exists u, tail = SLASH :: u).
Proof.
  intros Hne. destruct (join_head seg rest) as (tail & E & Ht).
  assert (P : pathOf (seg :: rest) trailing
              = join (str "/") (seg :: rest)
                ++ (if trailing then str "/" else [])).
  { unfold pathOf. destruct (join (str "/") (seg :: rest)) eqn:J.
    - destruct seg; [congruence|discriminate].
    - destruct trailing; [reflexivity|now rewrite app_nil_r]. }
  split; [exact P|]. rewrite P, E, <- app_assoc.
  exists (tail ++ (if trailing then str "/" else [])). split; [reflexivity|].
  destruct Ht as [->|[u ->]].
  - destruct trailing; [right; now eexists|now left].
  - right. now eexists.
Qed.

Lemma split_pathOf (segments : list jsstring) (trailing : bool) :
  normalForm segments ->
  split SLASH (pathOf segments trailing)
  = match segments with [] => [str "."] | _ => segments end
    ++ if trailing then [[]] else [].
Proof.
  intros H. destruct segments as [|seg rest]; [now destruct trailing|].
  pose proof (normalForm_nonempty_head seg rest H) as Hne.
  apply normalForm_head in H as [_ Hsf].
  destruct (pathOf_cons seg rest trailing Hne) as [-> _].
  destruct trailing.
  - change (str "/") with [SLASH] at 2.
    rewrite split_app, split_join by (try discriminate; exact Hsf).
    reflexivity.
  - rewrite app_nil_r, split_join by (try discriminate; exact Hsf).
    now rewrite app_nil_r.
Qed.

Lemma endsWith_pathOf (segments : list jsstring) (trailing : bool) :
  normalForm segments ->
  endsWith (pathOf segments trailing) (str "/") = trailing.
Proof.
  intros H. destruct segments as [|seg rest]; [now destruct trailing|].
  pose proof (normalForm_nonempty_head seg rest H) as Hne.
  pose proof (normalForm_nonempty _ H) as Hall.
  apply normalForm_head in H as [_ Hsf].
  destruct (pathOf_cons seg rest trailing Hne) as [-> _].
  destruct trailing; [apply endsWith_app|]. rewrite app_nil_r.
  destruct (exists_last (l := seg :: rest)) as (init & lastSeg & E);
    [discriminate|].
  rewrite E in *. rewrite forallb_app in Hsf, Hall.
  apply andb_true_iff in Hsf as [_ Hl]. simpl in Hl. rewrite andb_true_r in Hl.
  apply andb_true_iff in Hall as [_ Hlne]. simpl in Hlne.
  rewrite andb_true_r in Hlne.
  destruct init as [|i init].
  - simpl. now apply slashFree_no_trailing.
  - rewrite join_app by discriminate. simpl join at 2.
    destruct lastSeg as [|c lastSeg]; [discriminate|].
    rewrite app_assoc,
      (endsWith_last_part _ (c :: lastSeg) SLASH) by discriminate.
    now apply slashFree_no_trailing.
Qed.

Lemma pathOf_relative (segments : list jsstring) (trailing : bool) :
  normalForm segments ->
  pathOf segments trailing <> []
  /\ startsWith (pathOf segments trailing) (str "/") = false.
Proof.
  intros H. destruct segments as [|seg rest];
    [destruct trailing; split; [discriminate|reflexivity
                                |discriminate|reflexivity]|].
  pose proof (normalForm_nonempty_head seg rest H) as Hne.
  apply normalForm_head in H as [_ Hsf].
  destruct (pathOf_cons seg rest trailing Hne) as [_ (tail & -> & _)].
  destruct seg as [|c seg]; [congruence|]. split; [discriminate|].
  simpl in Hsf. apply andb_true_iff in Hsf as [Hs _].
  apply slashFree_head in Hs; [|exact seg].
  change (str "/") with [SLASH]. cbn [app startsWith].
  now rewrite N.eqb_sym, Hs.
Qed.

Lemma normalize_relative (path : jsstring) :
  path <> [] -> startsWith path (str "/") = false ->
  normalize path
  = pathOf (NS [] (split SLASH path)) (endsWith path (str "/")).
Proof.
  intros Hne Hrel. unfold normalize, pathOf.
  destruct path as [|c path]; [congruence|]. rewrite Hrel.
  cbn [negb].
  destruct (join (str "/") (NS [] (split SLASH (c :: path)))); reflexivity.
Qed.

(** [normalize] leaves what it has produced as it is. *)
Lemma normalize_pathOf (segments : list jsstring) (trailing : bool) :
  normalForm segments ->
  normalize (pathOf segments trailing) = pathOf segments trailing.
Proof.
  intros H. destruct (pathOf_relative segments trailing H) as [Hne Hrel].
  rewrite normalize_relative by assumption.
  now rewrite split_pathOf, NS_fixed, endsWith_pathOf.
Qed.

Lemma NS_initial_normal (segments : list jsstring) :
  forallb slashFree segments = true -> normalForm (NS [] segments).
Proof. intros H. now apply (NS_normal segments [] 0). Qed.

Lemma NS_empty_last (segments stack : list jsstring) :
  NS stack (segments ++ [[]]) = NS stack segments.
Proof.
  revert stack; induction segments as [|seg rest IH]; intros stack;
    [reflexivity|].
  simpl. destruct (negb (nonEmpty seg) || isDot seg); [apply IH|].
  destruct (isDotDot seg).
  - destruct stack as [|top below]; [apply IH|].
    destruct (isDotDot top); apply IH.
  - apply IH.
Qed.

Lemma rejected_name (seg tail : jsstring) :
  isName seg = true -> (tail = [] \/ exists u, tail = SLASH :: u) ->
  rejected (seg ++ tail) = false.
Proof.
  unfold isName, rejected, isDot, isDotDot, slashFree, isSlash.
  intros H Ht.
  apply andb_true_iff in H as [H Hsf]. apply andb_true_iff in H as [H Hdd].
  apply andb_true_iff in H as [Hne Hd].
  apply negb_true_iff in Hd, Hdd.
  destruct seg as [|a [|b [|c seg]]]; [discriminate| | |];
    cbn [seqb startsWith app str List.map list_ascii_of_string forallb] in *;
    change (N_of_ascii "/") with SLASH in *;
    change (N_of_ascii ".") with DOT in *;
    rewrite ?(N.eqb_sym DOT _), ?(N.eqb_sym SLASH _) in *.
  - destruct (a =? DOT); [discriminate|reflexivity].
  - destruct (a =? DOT); [|reflexivity].
    destruct (b =? DOT); [discriminate|reflexivity].
  - destruct (c =? SLASH); [destruct (a =? SLASH), (b =? SLASH); discriminate|].
    destruct (a =? DOT); [|reflexivity].
    destruct (b =? DOT); reflexivity.
Qed.

Lemma rejected_pathOf (segments : list jsstring) (trailing : bool) :
  normalForm segments ->
  rejected (pathOf segments trailing)
  = match segments with
    | [] => negb trailing
    | seg :: _ => isDotDot seg
    end.
Proof.
  intros H. destruct segments as [|seg rest]; [now destruct trailing|].
  pose proof (normalForm_nonempty_head seg rest H) as Hne.
  apply normalForm_head in H as [Hseg _].
  destruct (pathOf_cons seg rest trailing Hne) as [_ (tail & -> & Ht)].
  destruct Hseg as [Hdd|Hname].
  - rewrite Hdd. apply seqb_eq in Hdd. subst seg.
    destruct Ht as [->|[u ->]]; reflexivity.
  - rewrite (rejected_name seg tail Hname Ht).
    apply isName_not_special in Hname as [_ Hdd]. now rewrite Hdd.
Qed.

Lemma dirname_relative (postPath : jsstring) :
  startsWith postPath (str "/") = false ->
  dirname postPath <> []
  /\ startsWith (dirname postPath) (str "/") = false.
Proof.
  unfold dirname. destruct postPath as [|first body];
    [split; [discriminate|reflexivity]|].
  intros H. change (str "/") with [SLASH] in *. cbn [startsWith] in H.
  rewrite andb_true_r in H. unfold isSlash. rewrite (N.eqb_sym first SLASH), H.
  cbn [andb].
  destruct (dropWhileEnd _ _); (split; [discriminate|]); [reflexivity|].
  cbn [startsWith]. now rewrite H.
Qed.

(** What [resolveGitRelativePath] does with the segments it resolves. *)
Lemma guard_walk (segments : list jsstring) (trailing : bool)
  (assetPath : jsstring) :
  forallb slashFree segments = true ->
  (if rejected (pathOf (NS [] segments) trailing)
   then Err (OutsideRepoRoot assetPath)
   else Ok (pathOf (NS [] segments) trailing))
  = match walk [] segments with
    | None => Err (OutsideRepoRoot assetPath)
    | Some [] =>
        if trailing then Ok (str "./") else Err (OutsideRepoRoot assetPath)
    | Some stack => Ok (pathOf (rev stack) trailing)
    end.
Proof.
  intros Hsf. rewrite rejected_pathOf by now apply NS_initial_normal.
  destruct (walk [] segments) as [stack|] eqn:W.
  - destruct (NS_walk_some segments [] stack eq_refl Hsf W) as [-> Hn].
    destruct stack as [|top below]; [now destruct trailing|].
    destruct (rev (top :: below)) as [|seg rest] eqn:R.
    + apply (f_equal (@rev jsstring)) in R. rewrite rev_involutive in R.
      discriminate.
    + assert (Hin : In seg (top :: below)).
      { apply in_rev. rewrite R. now left. }
      rewrite forallb_forall in Hn.
      destruct (isName_not_special seg (Hn seg Hin)) as [_ ->]. reflexivity.
  - destruct (NS_walk_none segments [] eq_refl Hsf W) as [rest ->].
    reflexivity.
Qed.

End SegmentFacts.

Section AssetFacts.

Import Aux Spec Posix.

Local Abbreviation NS := (normalizeSegments true).

Lemma resolveGitRelativePath_guard (postPath assetPath : jsstring) :
  resolveGitRelativePath postPath assetPath
  = let asset := backslashesToSlashes assetPath in
    if hasScheme asset || startsWith asset (str "data:")
    then Err (OnlyRepositoryPaths assetPath)
    else
      let resolvedPath :=
        if startsWith asset (str "/") then normalize (skipn 1 asset)
        else normalize (join2 (dirname postPath) asset) in
      if rejected resolvedPath then Err (OutsideRepoRoot assetPath)
      else Ok resolvedPath.
Proof. reflexivity. Qed.

Lemma resolve_from_root (asset assetPath : jsstring) :
  startsWith asset (str "/") = false ->
  (if rejected (normalize asset) then Err (OutsideRepoRoot assetPath)
   else Ok (normalize asset))
  = match walk [] (split SLASH asset) with
    | None => Err (OutsideRepoRoot assetPath)
    | Some [] =>
        if endsWith asset (str "/") then Ok (str "./")
        else Err (OutsideRepoRoot assetPath)
    | Some stack => Ok (pathOf (rev stack) (endsWith asset (str "/")))
    end.
Proof.
  intros Hrel. destruct asset as [|c asset]; [reflexivity|].
  rewrite normalize_relative by (try discriminate; exact Hrel).
  apply guard_walk, split_segments_slashFree.
Qed.

Lemma resolve_from_directory (directory asset assetPath : jsstring) :
  directory <> [] -> startsWith directory (str "/") = false ->
  let trailing :=
    match asset with
    | [] => endsWith directory (str "/")
    | _ => endsWith asset (str "/")
    end in
  (if rejected (normalize (join2 directory asset))
   then Err (OutsideRepoRoot assetPath)
   else Ok (normalize (join2 directory asset)))
  = match walk [] (split SLASH directory ++ split SLASH asset) with
    | None => Err (OutsideRepoRoot assetPath)
    | Some [] =>
        if trailing then Ok (str "./") else Err (OutsideRepoRoot assetPath)
    | Some stack => Ok (pathOf (rev stack) trailing)
    end.
Proof.
  intros Hne Hrel trailing.
  assert (Hsf : forallb slashFree (split SLASH directory ++ split SLASH asset)
                = true).
  { rewrite forallb_app. now rewrite !split_segments_slashFree. }
  assert (E : normalize (join2 directory asset)
              = pathOf (NS [] (split SLASH directory ++ split SLASH asset))
                  trailing).
  { destruct directory as [|d directory]; [congruence|].
    destruct asset as [|a asset].
    - change (join2 (d :: directory) []) with (normalize (d :: directory)).
      rewrite (normalize_relative (d :: directory)) by assumption.
      rewrite normalize_pathOf
        by (apply NS_initial_normal, split_segments_slashFree).
      change (split SLASH []) with [[]: jsstring].
      now rewrite NS_empty_last.
    - change (join2 (d :: directory) (a :: asset))
        with (normalize ((d :: directory) ++ str "/" ++ a :: asset)).
      set (whole := (d :: directory) ++ str "/" ++ a :: asset).
      assert (Hw : startsWith whole (str "/") = false).
      { unfold whole. change (str "/") with [SLASH] in *.
        cbn [app startsWith] in *. exact Hrel. }
      rewrite (normalize_relative whole) by (try discriminate; exact Hw).
      rewrite normalize_pathOf
        by (apply NS_initial_normal, split_segments_slashFree).
      unfold whole. change (str "/" ++ a :: asset) with (SLASH :: a :: asset).
      rewrite split_app. f_equal. unfold trailing.
      change (SLASH :: a :: asset) with ([SLASH] ++ a :: asset).
      rewrite app_assoc.
      now rewrite (endsWith_last_part _ (a :: asset) SLASH) by discriminate. }
  rewrite E. now apply guard_walk.
Qed.

(** What [resolveGitRelativePath] does with a reference, by the place it
    leads to. *)
Lemma resolveGitRelativePath_located (postPath assetPath : jsstring) :
  startsWith postPath (str "/") = false ->
  startsWith (backslashesToSlashes assetPath) (str "//") = false ->
  resolveGitRelativePath postPath assetPath
  = let asset := backslashesToSlashes assetPath in
    if hasScheme asset || startsWith asset (str "data:")
    then Err (OnlyRepositoryPaths assetPath)
    else
      match Spec.locate postPath asset with
      | None => Err (OutsideRepoRoot assetPath)
      | Some [] =>
          if Spec.trailingSlash postPath asset then Ok (str "./")
          else Err (OutsideRepoRoot assetPath)
      | Some stack =>
          Ok (Spec.pathOf (rev stack) (Spec.trailingSlash postPath asset))
      end.
Proof.
  intros HP HA. rewrite resolveGitRelativePath_guard. cbv zeta.
  set (asset := backslashesToSlashes assetPath) in *.
  destruct (hasScheme asset || startsWith asset (str "data:"));
    [reflexivity|].
  unfold Spec.locate, Spec.trailingSlash.
  destruct (startsWith asset (str "/")) eqn:S.
  - apply resolve_from_root.
    destruct (startsWith_inv _ _ S) as [rest E]. rewrite E in *.
    change (skipn 1 (str "/" ++ rest)) with rest.
    change (str "/" ++ rest) with (SLASH :: rest) in HA.
    change (str "//") with [SLASH; SLASH] in HA.
    change (str "/") with [SLASH].
    cbn [startsWith] in HA |- *. rewrite N.eqb_refl in HA. exact HA.
  - destruct (dirname_relative postPath HP) as [Hne Hrel].
    apply (resolve_from_directory (Posix.dirname postPath) asset assetPath
             Hne Hrel).
Qed.

End AssetFacts.

(** C4, as amended: for a post path that is relative and an asset
    reference that does not begin with two slashes (backslashes count as
    slashes) and does not lead to the repository root with a slash at its
    end, [resolveGitRelativePath] fails with the error of non-local
    references when the reference begins with letters and [://] or with
    [data:]; otherwise it resolves the reference against the repository
    root when it begins with a slash and against the directory of the post
    when it does not, fails with the error of paths outside the repository
    when the path leaves the root or normalizes to the root itself, and
    returns the normalized repo-relative path in every other case. *)
Theorem asset_path_stays_in_repo (postPath assetPath : jsstring) :
  startsWith postPath (str "/") = false ->
  startsWith (backslashesToSlashes assetPath) (str "//") = false ->
  Spec.rootWithSlash postPath assetPath = false ->
  resolveGitRelativePath postPath assetPath
  = Spec.resolveAsset postPath assetPath.
Proof.
  intros HP HA Hroot.
  rewrite (resolveGitRelativePath_located postPath assetPath HP HA).
  unfold Spec.resolveAsset, Spec.rootWithSlash in *. cbv zeta in *.
  destruct (hasScheme _ || startsWith _ (str "data:")); [reflexivity|].
  destruct (Spec.locate postPath (backslashesToSlashes assetPath))
    as [[|name stack]|]; try reflexivity.
  now rewrite Hroot.
Qed.

(** The two paths of the tests: one under the directory of the post, one
    three levels above it. *)
Lemma asset_path_of_the_tests :
  resolveGitRelativePath alpha_post (str "./images/pic.png")
  = Ok (str "example/posts/images/pic.png")
  /\ resolveGitRelativePath alpha_post (str "../../../secrets.png")
     = Err (OutsideRepoRoot (str "../../../secrets.png")).
Proof.
  split.
  - rewrite (asset_path_stays_in_repo alpha_post (str "./images/pic.png")
               eq_refl eq_refl eq_refl).
    reflexivity.
  - rewrite (asset_path_stays_in_repo alpha_post (str "../../../secrets.png")
               eq_refl eq_refl eq_refl).
    reflexivity.
Defined.

(** C4, as stated, fails twice.  A reference to the repository root itself
    leaves nothing and is rejected all the same; and a reference that begins
    with a slash is resolved against the repository root, not against the
    directory of the post. *)
Lemma asset_path_differs :
  resolveGitRelativePath (str "posts/a.md") (str "..")
  = Err (OutsideRepoRoot (str ".."))
  /\ Spec.resolveAssetAsClaimed (str "posts/a.md") (str "..") = Ok (str ".")
  /\ resolveGitRelativePath (str "posts/a.md") (str "/images/pic.png")
     = Ok (str "images/pic.png")
  /\ Spec.resolveAssetAsClaimed (str "posts/a.md") (str "/images/pic.png")
     = Ok (str "posts/images/pic.png").
Proof. repeat split. Qed.

(** * Reading a field of the frontmatter *)

Section FieldFacts.

Local Open Scope N_scope.

Lemma walk_undefined (segments : list jsstring) : walk None segments = None.
Proof. now destruct segments. Qed.

Lemma walk_app (current : option value) (a b : list jsstring) :
  walk current (a ++ b) = walk (walk current a) b.
Proof.
  revert current. induction a as [|segment a IH]; intros current; [reflexivity|].
  cbn [app walk].
  destruct (notAnObject current); [now rewrite walk_undefined|].
  destruct current as [v|]; [apply IH|now rewrite walk_undefined].
Qed.

Lemma split_free (sep : N) (s : jsstring) :
  forallb (fun c => negb (c =? sep)) s = true -> split sep s = [s].
Proof.
  induction s as [|c s IH]; [reflexivity|].
  cbn [forallb split]. intros H. apply andb_true_iff in H as [Hc Hs].
  apply negb_true_iff in Hc. rewrite Hc, (IH Hs). reflexivity.
Qed.

(** X1.  [getNestedField] follows a dotted path one name after the other:
    the empty path gives the data itself; a name without a dot, when the
    object has a property of that name of its own or [Object.prototype]
    defines none of that name, gives the own property of the object, and
    [undefined] when there is none; and [path.rest] is [rest] read in what
    [path] gives; once a step gives [undefined] the result is
    [undefined]. *)
Theorem getNestedField_dotted (data : value) :
  getNestedField data [] = Some data
  /\ (forall props name,
         data = VObj props -> name <> [] ->
         forallb (fun c => negb (c =? DOT)) name = true ->
         lookup name props <> None \/ isInherited name = false ->
         getNestedField data name = lookup name props)
  /\ (forall path rest,
         getNestedField data (path ++ [DOT] ++ rest)
         = match getNestedField data path with
           | Some inner => getNestedField inner rest
           | None => None
           end).
Proof.
  split; [reflexivity|]. split.
  - intros props name -> Hne Hfree _. unfold getNestedField.
    rewrite (split_free DOT name Hfree).
    destruct name as [|c name]; [congruence|]. reflexivity.
  - intros path rest. unfold getNestedField.
    change (path ++ [DOT] ++ rest) with (path ++ DOT :: rest).
    rewrite split_app, filter_app, walk_app.
    destruct (walk (Some data) (filter nonEmpty (split DOT path))) as [inner|];
      [reflexivity|apply walk_undefined].
Qed.

Lemma getNestedField_dotted_sample :
  getNestedField
    (VObj [(str "bluesky", VObj [(str "text", VStr (str "Hi"))])])
    (str "bluesky")
  = Some (VObj [(str "text", VStr (str "Hi"))])
  /\ getNestedField
       (VObj [(str "bluesky", VObj [(str "text", VStr (str "Hi"))])])
       (str "bluesky.text")
     = Some (VStr (str "Hi")).
Proof.
  pose proof (getNestedField_dotted
                (VObj [(str "bluesky", VObj [(str "text", VStr (str "Hi"))])]))
    as [_ [Hname Hpath]].
  split.
  - rewrite (Hname _ (str "bluesky") eq_refl);
      [reflexivity|discriminate|reflexivity|now right].
  - change (str "bluesky.text") with (str "bluesky" ++ [DOT] ++ str "text").
    rewrite Hpath. reflexivity.
Defined.

Lemma seen_has_In (seen : list jsstring) (v : jsstring) :
  seen_has seen v = true <-> In v seen.
Proof.
  unfold seen_has. rewrite existsb_exists. split.
  - intros [x [Hin Heq]]. apply seqb_eq in Heq. now subst.
  - intros Hin. exists v. split; [assumption|apply seqb_refl].
Qed.

Lemma uniquePaths_loop_In (paths seen : list jsstring) (p : jsstring) :
  In p (uniquePaths_loop seen paths)
  <-> In p paths /\ isBlank p = false /\ ~ In p seen.
Proof.
  revert seen. induction paths as [|v paths IH]; intros seen.
  - cbn. tauto.
  - cbn [uniquePaths_loop].
    destruct (isBlank v) eqn:Hblank.
    + rewrite IH. cbn [In]. split.
      * intros [H1 [H2 H3]]. tauto.
      * intros [[->|H1] [H2 H3]]; [congruence|tauto].
    + destruct (seen_has seen v) eqn:Hseen.
      * rewrite IH. cbn [In]. apply seen_has_In in Hseen. split.
        -- intros [H1 [H2 H3]]. tauto.
        -- intros [[->|H1] [H2 H3]]; [contradiction|tauto].
      * assert (Hnot : ~ In v seen).
        { intros Hin. apply seen_has_In in Hin. congruence. }
        cbn [In]. rewrite IH. cbn [In]. split.
        -- intros [->|[H1 [H2 H3]]]; [tauto|]. split; [tauto|]. split; [tauto|].
           intros Hin. apply H3. now right.
        -- intros [[->|H1] [H2 H3]]; [now left|].
           destruct (list_eq_dec N.eq_dec v p) as [->|Hne]; [now left|].
           right. split; [assumption|]. split; [assumption|].
           intros [Heq|Hin]; [congruence|contradiction].
Qed.

Lemma uniquePaths_loop_NoDup (paths seen : list jsstring) :
  NoDup (uniquePaths_loop seen paths).
Proof.
  revert seen. induction paths as [|v paths IH]; intros seen; [constructor|].
  cbn [uniquePaths_loop].
  destruct (isBlank v); [apply IH|].
  destruct (seen_has seen v); [apply IH|].
  constructor; [|apply IH].
  intros Hin. apply uniquePaths_loop_In in Hin as [_ [_ Hnot]].
  apply Hnot. now left.
Qed.

Lemma firstString_uniquePaths_loop (data : value) (paths seen : list jsstring) :
  (forall s, In s seen -> resolveString (getNestedField data s) = None) ->
  firstString data (uniquePaths_loop seen paths)
  = firstString data (filter (fun p => negb (isBlank p)) paths).
Proof.
  revert seen. induction paths as [|v paths IH]; intros seen Hseen; [reflexivity|].
  cbn [uniquePaths_loop filter].
  destruct (isBlank v) eqn:Hblank; cbn [negb]; [now apply IH|].
  destruct (seen_has seen v) eqn:Hhas.
  - apply seen_has_In in Hhas. cbn [firstString].
    rewrite (Hseen v Hhas). now apply IH.
  - cbn [firstString].
    destruct (resolveString (getNestedField data v)) eqn:Hv; [reflexivity|].
    apply IH. intros s [<-|Hin]; [assumption|now apply Hseen].
Qed.

(** X2.  [uniquePaths] keeps the paths that are not blank, each once, and
    this never changes what [firstString] finds: looking the paths up in
    the list without its blank entries gives the same text. *)
Theorem uniquePaths_keeps_first (paths : list jsstring) :
  NoDup (uniquePaths paths)
  /\ (forall p, In p (uniquePaths paths) <-> In p paths /\ isBlank p = false)
  /\ (forall data,
         firstString data (uniquePaths paths)
         = firstString data (filter (fun p => negb (isBlank p)) paths)).
Proof.
  split; [apply uniquePaths_loop_NoDup|]. split.
  - intros p. unfold uniquePaths. rewrite uniquePaths_loop_In. cbn [In]. tauto.
  - intros data. apply firstString_uniquePaths_loop. intros s [].
Qed.

Lemma firstString_skip (data : value) (before after : list jsstring) :
  (forall q, In q before -> resolveString (getNestedField data q) = None) ->
  firstString data (before ++ after) = firstString data after.
Proof.
  induction before as [|q before IH]; intros H; [reflexivity|].
  cbn [app firstString]. rewrite (H q (or_introl eq_refl)).
  apply IH. intros q' Hin. apply H. now right.
Qed.

(** X3.  [firstString] gives the text of the first path that holds a string
    which is not blank, trimmed; the paths before it may hold anything else:
    nothing, a number, an object, a blank string. *)
Theorem firstString_first (data : value) (before after : list jsstring)
  (path s : jsstring) :
  (forall q, In q before -> resolveString (getNestedField data q) = None) ->
  getNestedField data path = Some (VStr s) ->
  isBlank s = false ->
  firstString data (before ++ path :: after) = Some (trim s)
  /\ trim (trim s) = trim s /\ trim s <> [].
Proof.
  intros Hbefore Hpath Hblank.
  rewrite (firstString_skip data before (path :: after) Hbefore).
  cbn [firstString]. rewrite Hpath. unfold resolveString.
  unfold isBlank in Hblank.
  destruct (trim s) as [|c t] eqn:Ht; [discriminate|].
  rewrite <- Ht. split; [reflexivity|]. split; [apply trim_idem|].
  rewrite Ht. discriminate.
Qed.

Lemma firstString_first_sample :
  firstString
    (VObj [(str "post", VStr (str "  ")); (str "text", VNum (str "7"));
           (str "bluesky", VObj [(str "text", VStr (str " Hello "))])])
    ([str "post"; str "text"] ++ str "bluesky.text" :: [str "title"])
  = Some (trim (str " Hello "))
  /\ trim (trim (str " Hello ")) = trim (str " Hello ")
  /\ trim (str " Hello ") <> [].
Proof.
  apply firstString_first.
  - intros q [<-|[<-|[]]]; reflexivity.
  - reflexivity.
  - reflexivity.
Defined.

End FieldFacts.

(** * The text and the image of a post *)

Section PostFacts.

Local Open Scope N_scope.

Lemma takeWhile_until (p : N -> bool) (a : jsstring) (c : N) (b : jsstring) :
  forallb p a = true -> p c = false ->
  takeWhile p (a ++ c :: b) = a /\ dropWhile p (a ++ c :: b) = c :: b.
Proof.
  intros Ha Hc. induction a as [|x a IH].
  - cbn. now rewrite Hc.
  - cbn [forallb] in Ha. apply andb_true_iff in Ha as [Hx Ha].
    cbn [app takeWhile dropWhile]. rewrite Hx.
    destruct (IH Ha) as [-> ->]. now split.
Qed.

Lemma takeWhile_all (p : N -> bool) (a : jsstring) :
  forallb p a = true -> takeWhile p a = a.
Proof.
  induction a as [|x a IH]; [reflexivity|].
  cbn [forallb takeWhile]. intros H. apply andb_true_iff in H as [Hx Ha].
  now rewrite Hx, IH.
Qed.

Lemma dropWhileEnd_app (p : N -> bool) (a b : jsstring) :
  dropWhileEnd p (a ++ b)
  = match dropWhileEnd p b with
    | [] => dropWhileEnd p a
    | kept => a ++ kept
    end.
Proof.
  induction a as [|x a IH].
  - cbn [app]. now destruct (dropWhileEnd p b).
  - cbn [app dropWhileEnd]. rewrite IH.
    destruct (dropWhileEnd p b) as [|y kept]; [reflexivity|].
    now destruct a.
Qed.

Lemma dropWhileEnd_none (p : N -> bool) (a : jsstring) :
  forallb (fun c => negb (p c)) a = true -> dropWhileEnd p a = a.
Proof.
  induction a as [|x a IH]; [reflexivity|].
  cbn [forallb dropWhileEnd]. intros H. apply andb_true_iff in H as [Hx Ha].
  rewrite (IH Ha). apply negb_true_iff in Hx. rewrite Hx. now destruct a.
Qed.

Lemma dropWhile_none (p : N -> bool) (a : jsstring) :
  forallb (fun c => negb (p c)) a = true -> dropWhile p a = a.
Proof.
  destruct a as [|x a]; [reflexivity|].
  cbn [forallb dropWhile]. intros H. apply andb_true_iff in H as [Hx _].
  apply negb_true_iff in Hx. now rewrite Hx.
Qed.

(** A target that is a path, or a path, white space and a title. *)
Lemma trim_path_title (path title : jsstring) :
  path <> [] -> forallb noSpace path = true ->
  (title = [] \/ exists w rest, title = w :: rest /\ isWhitespace w = true) ->
  exists title',
    trim (path ++ title) = path ++ title'
    /\ (title' = [] \/ exists w rest, title' = w :: rest /\ isWhitespace w = true).
Proof.
  intros Hne Hpath Htitle. unfold trim, trimStart, trimEnd.
  assert (Hstart : dropWhile isWhitespace (path ++ title) = path ++ title).
  { destruct path as [|c path]; [congruence|].
    cbn [forallb] in Hpath. apply andb_true_iff in Hpath as [Hc _].
    apply negb_true_iff in Hc. cbn [app dropWhile]. now rewrite Hc. }
  rewrite Hstart, dropWhileEnd_app.
  destruct (dropWhileEnd isWhitespace title) as [|w kept] eqn:Hkept.
  - exists []. rewrite app_nil_r. split; [|now left].
    now apply dropWhileEnd_none.
  - exists (w :: kept). split; [reflexivity|]. right. exists w, kept.
    split; [reflexivity|].
    destruct Htitle as [->|[w' [rest [-> Hw']]]]; [discriminate|].
    destruct (dropWhileEnd_head isWhitespace (w' :: rest) w kept Hkept) as [r' Hr'].
    now injection Hr' as -> _.
Qed.

Lemma parseMarkdownImagePath_path (path title' : jsstring) (c : N) (body : jsstring) :
  path = c :: body -> (c =? 60) = false ->
  forallb noSpace path = true ->
  (title' = [] \/ exists w rest, title' = w :: rest /\ isWhitespace w = true) ->
  parseMarkdownImagePath (path ++ title') = Some path.
Proof.
  intros Hpath Hc Hfree Htitle. unfold parseMarkdownImagePath.
  assert (Htake : takeWhile (fun c => negb (isWhitespace c)) (path ++ title') = path).
  { destruct Htitle as [->|[w [rest [-> Hw]]]].
    - rewrite app_nil_r. now apply takeWhile_all.
    - apply takeWhile_until; [assumption|]. now rewrite Hw. }
  rewrite Htake.
  assert (Htrim : trim path = path).
  { unfold trim, trimStart, trimEnd.
    rewrite (dropWhile_none isWhitespace path Hfree).
    now apply dropWhileEnd_none. }
  rewrite Htrim. subst path. cbn [app].
  change (startsWith (c :: body ++ title') (str "<"))
    with ((60 =? c) && true).
  rewrite N.eqb_sym, Hc. reflexivity.
Qed.

Lemma matchImageAt_other (c : N) (s : jsstring) :
  noBang c = true -> matchImageAt (c :: s) = None.
Proof.
  unfold noBang. intros H. apply negb_true_iff in H. apply N.eqb_neq in H.
  unfold matchImageAt.
  destruct c as [|p]; [reflexivity|].
  repeat (destruct p as [p|p|]; try reflexivity). congruence.
Qed.

Lemma execImage_skip (before s : jsstring) :
  forallb noBang before = true -> execImage (before ++ s) = execImage s.
Proof.
  induction before as [|c before IH]; [reflexivity|].
  cbn [forallb]. intros H. apply andb_true_iff in H as [Hc Hb].
  cbn [app execImage]. rewrite (matchImageAt_other c (before ++ s) Hc).
  now apply IH.
Qed.

Lemma execImage_none (s : jsstring) :
  forallb noBang s = true -> execImage s = None.
Proof.
  intros H. rewrite <- (app_nil_r s), (execImage_skip s [] H). reflexivity.
Qed.

Lemma matchImageAt_image (alt target after : jsstring) :
  forallb notCloseBracket alt = true ->
  target <> [] -> forallb targetChar target = true ->
  matchImageAt (str "![" ++ alt ++ str "](" ++ target ++ str ")" ++ after)
  = Some (alt, target, after).
Proof.
  intros Halt Hne Htarget.
  change (str "![" ++ alt ++ str "](" ++ target ++ str ")" ++ after)
    with (33 :: 91 :: (alt ++ 93 :: 40 :: (target ++ 41 :: after))).
  unfold matchImageAt.
  destruct (takeWhile_until notCloseBracket alt 93
              (40 :: (target ++ 41 :: after)) Halt eq_refl) as [-> ->].
  destruct (takeWhile_until targetChar target 41 after Htarget eq_refl)
    as [-> ->].
  destruct target; [congruence|reflexivity].
Qed.

(** X4.  The first image of a body.  When no exclamation mark stands before
    it, an image written [![alt](path)] or [![alt](path title)] is the one
    [findFirstMarkdownImage] returns, with the alternative text trimmed and
    the path alone: what follows the first white space of the target is
    dropped. *)
Theorem findFirstMarkdownImage_first
  (before alt path title after : jsstring) (c : N) (body : jsstring) :
  forallb noBang before = true ->
  forallb notCloseBracket alt = true ->
  path = c :: body -> (c =? 60) = false ->
  forallb noSpace path = true ->
  (title = [] \/ exists w rest, title = w :: rest /\ isWhitespace w = true) ->
  forallb targetChar (path ++ title) = true ->
  findFirstMarkdownImage
    (before ++ str "![" ++ alt ++ str "](" ++ path ++ title ++ str ")" ++ after)
  = Some {| image_alt := trim alt; image_path := path |}.
Proof.
  intros Hbefore Halt Hpath Hc Hfree Htitle Htarget.
  unfold findFirstMarkdownImage.
  rewrite (execImage_skip before _ Hbefore).
  assert (Hne : path ++ title <> []) by (subst path; discriminate).
  pose proof (matchImageAt_image alt (path ++ title) after Halt Hne Htarget)
    as Hmatch.
  rewrite <- app_assoc in Hmatch.
  assert (Hexec :
    execImage (str "![" ++ alt ++ str "](" ++ path ++ title ++ str ")" ++ after)
    = Some (alt, path ++ title)).
  { destruct (str "![" ++ alt ++ str "](" ++ path ++ title ++ str ")" ++ after);
      cbn [execImage]; now rewrite Hmatch. }
  rewrite Hexec.
  assert (Hne' : path <> []) by (subst path; discriminate).
  destruct (trim_path_title path title Hne' Hfree Htitle) as [title' [-> Ht']].
  now rewrite (parseMarkdownImagePath_path path title' c body Hpath Hc Hfree Ht').
Qed.

Lemma findFirstMarkdownImage_first_sample :
  findFirstMarkdownImage
    (str "Intro " ++ str "![" ++ str " A chart " ++ str "]("
     ++ str "./images/chart.png" ++ (32 :: quoted "Sales") ++ str ")"
     ++ str " and ![more](second.png)")
  = Some {| image_alt := trim (str " A chart ");
            image_path := str "./images/chart.png" |}.
Proof.
  apply (findFirstMarkdownImage_first (str "Intro ") (str " A chart ")
           (str "./images/chart.png") (32 :: quoted "Sales")
           (str " and ![more](second.png)") 46 (str "/images/chart.png")).
  - reflexivity.
  - reflexivity.
  - reflexivity.
  - reflexivity.
  - reflexivity.
  - right. exists 32, (quoted "Sales"). split; reflexivity.
  - reflexivity.
Defined.

Lemma removeImages_plain (fuel : nat) (s : jsstring) :
  forallb noBang s = true -> removeImages fuel s = s.
Proof.
  revert s. induction fuel as [|fuel IH]; intros s H; [reflexivity|].
  destruct s as [|c s]; [reflexivity|].
  cbn [forallb] in H. apply andb_true_iff in H as [Hc Hs].
  cbn [removeImages]. rewrite (matchImageAt_other c s Hc).
  now rewrite (IH s Hs).
Qed.

Lemma removeImages_skip (before s : jsstring) (fuel : nat) :
  forallb noBang before = true ->
  removeImages (length before + fuel) (before ++ s)
  = before ++ removeImages fuel s.
Proof.
  induction before as [|c before IH]; [reflexivity|].
  cbn [forallb]. intros H. apply andb_true_iff in H as [Hc Hb].
  cbn [length app Nat.add removeImages].
  rewrite (matchImageAt_other c (before ++ s) Hc).
  now rewrite (IH Hb).
Qed.

(** X5.  What goes to the text of a post, for a body with one image: the
    image is cut out and what stands before and after it is joined and
    trimmed; a body without an exclamation mark is only trimmed. *)
Theorem stripMarkdownImages_one (before alt target after : jsstring) :
  forallb noBang before = true ->
  forallb notCloseBracket alt = true ->
  target <> [] -> forallb targetChar target = true ->
  forallb noBang after = true ->
  stripMarkdownImages
    (before ++ str "![" ++ alt ++ str "](" ++ target ++ str ")" ++ after)
  = trim (before ++ after)
  /\ stripMarkdownImages (before ++ after) = trim (before ++ after).
Proof.
  intros Hbefore Halt Hne Htarget Hafter. split.
  - unfold stripMarkdownImages. f_equal.
    set (image := str "![" ++ alt ++ str "](" ++ target ++ str ")" ++ after).
    assert (Hlen : length (before ++ image)
                   = (length before + S (length image - 1))%nat).
    { rewrite length_app. unfold image. cbn [str app length].
      change (str "![") with [33; 91]. cbn [app length]. lia. }
    rewrite Hlen, (removeImages_skip before image _ Hbefore). f_equal.
    cbn [removeImages]. unfold image.
    rewrite (matchImageAt_image alt target after Halt Hne Htarget).
    now apply removeImages_plain.
  - unfold stripMarkdownImages. f_equal. apply removeImages_plain.
    rewrite forallb_app. now rewrite Hbefore, Hafter.
Qed.

Lemma stripMarkdownImages_one_sample :
  stripMarkdownImages
    (str "Hello " ++ str "![" ++ str "chart" ++ str "](" ++ str "a.png"
     ++ str ")" ++ str " world ")
  = trim (str "Hello " ++ str " world ")
  /\ stripMarkdownImages (str "Hello " ++ str " world ")
     = trim (str "Hello " ++ str " world ").
Proof.
  apply (stripMarkdownImages_one (str "Hello ") (str "chart") (str "a.png")
           (str " world ")); try reflexivity.
  discriminate.
Defined.

End PostFacts.

(** * The type of an image *)

Section MimeFacts.

Local Open Scope N_scope.

(** A string is what stands before its last separator, if any, and its
    last segment. *)
Lemma split_one_inv (sep : N) (s w : jsstring) :
  split sep s = [w] -> w = s /\ forallb (fun c => negb (c =? sep)) s = true.
Proof.
  revert w. induction s as [|c s IH]; intros w Hsplit.
  - injection Hsplit as <-. now split.
  - cbn [split] in Hsplit. pose proof (split_nonempty sep s) as Hne.
    destruct (c =? sep) eqn:Hc.
    + destruct (split sep s); [congruence|discriminate].
    + destruct (split sep s) as [|v vs]; [congruence|].
      destruct vs; [|discriminate]. injection Hsplit as <-.
      destruct (IH v eq_refl) as [-> Hfree].
      split; [reflexivity|]. cbn [forallb]. now rewrite Hc, Hfree.
Qed.

Lemma last_segment (sep : N) (s : jsstring) :
  exists prefix,
    s = prefix ++ last (split sep s) []
    /\ forallb (fun c => negb (c =? sep)) (last (split sep s) []) = true
    /\ (prefix = [] \/ exists d, prefix = d ++ [sep]).
Proof.
  induction s as [|c s [prefix [Hs [Hfree Hprefix]]]].
  - exists []. cbn. auto.
  - pose proof (split_nonempty sep s) as Hne.
    cbn [split]. destruct (split sep s) as [|w ws] eqn:Hsplit; [congruence|].
    destruct (c =? sep) eqn:Hc.
    + apply N.eqb_eq in Hc. subst c.
      change (last ([] :: w :: ws) []) with (last (w :: ws) []).
      exists (sep :: prefix). split; [cbn [app]; now f_equal|].
      split; [assumption|]. right.
      destruct Hprefix as [->|[d ->]]; [now exists []|now exists (sep :: d)].
    + destruct ws as [|w' ws].
      * destruct (split_one_inv sep s w Hsplit) as [-> Hall].
        exists []. cbn [app last forallb]. rewrite Hc, Hall. auto.
      * change (last ((c :: w) :: w' :: ws) []) with (last (w :: w' :: ws) []).
        exists (c :: prefix). split; [cbn [app]; now f_equal|].
        split; [assumption|]. right.
        destruct Hprefix as [->|[d ->]]; [|now exists (c :: d)].
        exfalso. cbn [app] in Hs. rewrite Hs in Hsplit at 1.
        rewrite (split_free sep _ Hfree) in Hsplit. discriminate.
Qed.

Lemma last_split_app (sep : N) (prefix seg : jsstring) :
  (prefix = [] \/ exists d, prefix = d ++ [sep]) ->
  forallb (fun c => negb (c =? sep)) seg = true ->
  last (split sep (prefix ++ seg)) [] = seg.
Proof.
  intros [->|[d ->]] Hfree.
  - cbn [app]. now rewrite (split_free sep seg Hfree).
  - rewrite <- app_assoc. cbn [app]. rewrite split_app.
    rewrite (split_free sep seg Hfree). apply last_last.
Qed.

Lemma notSlash_app (a b : jsstring) :
  forallb (fun c => negb (c =? SLASH)) (a ++ b)
  = forallb (fun c => negb (c =? SLASH)) a
    && forallb (fun c => negb (c =? SLASH)) b.
Proof. apply forallb_app. Qed.

(** The extension of a name that has something before its last dot. *)
Lemma extname_suffix (stem letters : jsstring) :
  stem <> [] -> endsWith stem (str "/") = false ->
  letters <> [] ->
  forallb (fun c => negb (c =? SLASH)) letters = true ->
  forallb (fun c => negb (c =? DOT)) letters = true ->
  Posix.extname (stem ++ DOT :: letters) = DOT :: letters.
Proof.
  intros Hstem Hend Hletters Hslash Hdot.
  destruct (last_segment SLASH stem) as [prefix [Hs [Hfree Hprefix]]].
  set (seg := last (split SLASH stem) []) in *.
  assert (Hseg : seg <> []).
  { intros Hnil. rewrite Hnil, app_nil_r in Hs.
    destruct Hprefix as [->|[d ->]]; [congruence|].
    rewrite Hs in Hend. change (str "/") with [SLASH] in Hend.
    now rewrite endsWith_app in Hend. }
  unfold Posix.extname.
  assert (Hkeep : dropWhileEnd isSlash (stem ++ DOT :: letters)
                  = stem ++ DOT :: letters).
  { rewrite dropWhileEnd_app.
    assert (H : dropWhileEnd isSlash (DOT :: letters) = DOT :: letters).
    { apply dropWhileEnd_none. cbn [forallb]. unfold isSlash.
      now rewrite Hslash. }
    now rewrite H. }
  rewrite Hkeep.
  assert (Hbase : last (split SLASH (stem ++ DOT :: letters)) []
                  = seg ++ DOT :: letters).
  { rewrite Hs at 1. rewrite <- app_assoc.
    apply last_split_app; [assumption|].
    rewrite notSlash_app. rewrite Hfree. cbn [forallb]. now rewrite Hslash. }
  rewrite Hbase.
  assert (Hup : dropWhileEnd (fun c => negb (c =? DOT)) (seg ++ DOT :: letters)
                = seg ++ [DOT]).
  { rewrite dropWhileEnd_app. cbn [dropWhileEnd].
    rewrite (dropWhileEnd_all _ letters Hdot). now rewrite N.eqb_refl. }
  rewrite Hup.
  destruct (seg ++ [DOT]) as [|u up] eqn:Hupto; [now destruct seg|].
  rewrite <- Hupto, removelast_last.
  destruct seg as [|x seg']; [congruence|].
  assert (Hdd : Posix.isDotDot ((x :: seg') ++ DOT :: letters) = false).
  { unfold Posix.isDotDot. apply seqb_neq. intros Heq.
    apply (f_equal (@length N)) in Heq. rewrite length_app in Heq.
    destruct letters; [congruence|]. cbn in Heq. lia. }
  rewrite Hdd.
  assert (Hlen : (length ((x :: seg') ++ [DOT]) - 1 = length (x :: seg'))%nat)
    by (rewrite length_app; cbn [length]; lia).
  rewrite Hlen, skipn_app, skipn_all, Nat.sub_diag. reflexivity.
Qed.

Lemma asciiLower_keeps (c k : N) :
  asciiLower c = k -> isAsciiLower k = true ->
  negb (c =? SLASH) = true /\ negb (c =? DOT) = true.
Proof.
  intros <- Hk. unfold asciiLower, isAsciiLower, isAsciiUpper, SLASH, DOT in *.
  destruct ((65 <=? c) && (c <=? 90)) eqn:Hup.
  - apply andb_true_iff in Hup as [H1 H2]. apply N.leb_le in H1, H2.
    split; apply negb_true_iff, N.eqb_neq; lia.
  - apply andb_true_iff in Hk as [H1 H2]. apply N.leb_le in H1, H2.
    split; apply negb_true_iff, N.eqb_neq; lia.
Qed.

Lemma lowered_letters (letters key : jsstring) :
  List.map asciiLower letters = key -> forallb isAsciiLower key = true ->
  forallb (fun c => negb (c =? SLASH)) letters = true
  /\ forallb (fun c => negb (c =? DOT)) letters = true.
Proof.
  revert key. induction letters as [|c letters IH]; intros key Hmap Hkey.
  - now split.
  - destruct key as [|k key]; [discriminate|]. cbn [List.map] in Hmap.
    injection Hmap as Hc Hrest. cbn [forallb] in Hkey.
    apply andb_true_iff in Hkey as [Hk Hkey].
    destruct (asciiLower_keeps c k Hc Hk) as [H1 H2].
    destruct (IH key Hrest Hkey) as [H3 H4].
    cbn [forallb]. now rewrite H1, H2, H3, H4.
Qed.

Lemma table_keys (key mime : jsstring) :
  In (key, mime) IMAGE_MIME_BY_EXTENSION ->
  mimeLookup key IMAGE_MIME_BY_EXTENSION = Some mime
  /\ exists letters, key = DOT :: letters /\ letters <> []
                     /\ forallb isAsciiLower letters = true.
Proof.
  intros Hin. unfold IMAGE_MIME_BY_EXTENSION in Hin. cbn [In] in Hin.
  repeat (destruct Hin as [Heq|Hin];
          [injection Heq as <- <-; split; [reflexivity|];
           eexists; split; [reflexivity|]; split; [discriminate|reflexivity]|]).
  contradiction.
Qed.

Lemma mimeLookup_In (ext mime : jsstring) (table : list (jsstring * jsstring)) :
  mimeLookup ext table = Some mime -> In (ext, mime) table.
Proof.
  induction table as [|[k v] table IH]; [discriminate|].
  cbn [mimeLookup]. destruct (seqb ext k) eqn:Hk.
  - apply seqb_eq in Hk. intros [= ->]. left. now subst.
  - intros H. right. now apply IH.
Qed.

Lemma skipn_suffix (n : nat) (s : jsstring) : exists r, s = r ++ skipn n s.
Proof. exists (firstn n s). symmetry. apply firstn_skipn. Qed.

(** The extension is the end of the path, the slashes after it apart. *)
Lemma extname_is_suffix (path : jsstring) :
  exists r, dropWhileEnd isSlash path = r ++ Posix.extname path.
Proof.
  unfold Posix.extname.
  destruct (last_segment SLASH (dropWhileEnd isSlash path)) as [prefix [Hs _]].
  set (base := last (split SLASH (dropWhileEnd isSlash path)) []) in *.
  destruct (dropWhileEnd (fun c => negb (c =? DOT)) base) as [|u up].
  - exists (dropWhileEnd isSlash path). now rewrite app_nil_r.
  - destruct (removelast (u :: up)).
    + exists (dropWhileEnd isSlash path). now rewrite app_nil_r.
    + destruct (Posix.isDotDot base).
      * exists (dropWhileEnd isSlash path). now rewrite app_nil_r.
      * destruct (skipn_suffix (length (u :: up) - 1) base) as [r Hr].
        exists (prefix ++ r). rewrite <- app_assoc, <- Hr. exact Hs.
Qed.

(** A path that is given a type ends in an extension of the table. *)
Lemma detectImageMimeType_suffix (path mime : jsstring) :
  detectImageMimeType path = Ok mime ->
  exists key,
    In (key, mime) IMAGE_MIME_BY_EXTENSION
    /\ endsWithCI (dropWhileEnd isSlash path) key = true.
Proof.
  unfold detectImageMimeType.
  destruct (mimeLookup (List.map asciiLower (Posix.extname path))
              IMAGE_MIME_BY_EXTENSION) as [m|] eqn:Hlookup; [|discriminate].
  intros [= ->]. exists (List.map asciiLower (Posix.extname path)).
  split; [now apply mimeLookup_In|].
  unfold endsWithCI. destruct (extname_is_suffix path) as [r ->].
  rewrite map_app. apply endsWith_app.
Qed.

(** X6.  The type of an image is read off the extension of its path, blind
    to the case of its letters: a path that ends in a name, a dot and one of
    [jpg], [jpeg], [png], [gif], [webp], [avif] in any case has the type of
    the table, and a path is given a type only if it ends so (slashes after
    the extension apart); every other path is refused. *)
Theorem detectImageMimeType_by_extension :
  (forall stem extension key mime,
      stem <> [] -> endsWith stem (str "/") = false ->
      In (key, mime) IMAGE_MIME_BY_EXTENSION ->
      List.map asciiLower extension = key ->
      detectImageMimeType (stem ++ extension) = Ok mime)
  /\ (forall path mime,
         detectImageMimeType path = Ok mime ->
         exists key,
           In (key, mime) IMAGE_MIME_BY_EXTENSION
           /\ endsWithCI (dropWhileEnd isSlash path) key = true)
  /\ (forall path e,
         detectImageMimeType path = Err e -> e = UnsupportedImageType path).
Proof.
  split; [|split].
  - intros stem extension key mime Hstem Hend Hin Hmap.
    destruct (table_keys key mime Hin) as [Hlookup [ks [Hkey [Hks Hlower]]]].
    destruct extension as [|d letters]; [subst key; discriminate|].
    rewrite Hkey in Hmap. cbn [List.map] in Hmap. injection Hmap as Hd Hletters.
    assert (Hdot : d = DOT).
    { unfold asciiLower, isAsciiUpper, DOT in Hd.
      destruct ((65 <=? d) && (d <=? 90)) eqn:Hup; [|assumption].
      apply andb_true_iff in Hup as [H1 H2]. apply N.leb_le in H1, H2. lia. }
    subst d.
    destruct (lowered_letters letters ks Hletters Hlower) as [Hslash Hnodot].
    assert (Hne : letters <> []) by (intros ->; cbn in Hletters; congruence).
    unfold detectImageMimeType.
    rewrite (extname_suffix stem letters Hstem Hend Hne Hslash Hnodot).
    cbn [List.map]. rewrite Hletters.
    change (asciiLower DOT) with DOT. rewrite <- Hkey, Hlookup. reflexivity.
  - apply detectImageMimeType_suffix.
  - intros path e. unfold detectImageMimeType.
    destruct (mimeLookup _ _); [discriminate|]. now intros [= <-].
Qed.

Lemma detectImageMimeType_by_extension_sample :
  detectImageMimeType (str "posts/images/Chart.v2" ++ str ".JPeG")
  = Ok (str "image/jpeg").
Proof.
  destruct detectImageMimeType_by_extension as [Hext _].
  apply (Hext (str "posts/images/Chart.v2") (str ".JPeG") (str ".jpeg")
           (str "image/jpeg")).
  - discriminate.
  - reflexivity.
  - cbn. tauto.
  - reflexivity.
Defined.

End MimeFacts.

(** * The list of drafts *)

Section DraftListFacts.

Variable yaml_load : jsstring -> option (option value).
Variable gitShow : jsstring -> option (list N).
Variable utf8ToString : list N -> jsstring.
Variable config : ResolvedConfig.
Variable postsRootSpec : jsstring.

Local Abbreviation drafts_of :=
  (buildDrafts yaml_load gitShow utf8ToString config postsRootSpec).
Local Abbreviation draft_of :=
  (buildDraft yaml_load gitShow config postsRootSpec).
Local Abbreviation marked := (isMarked yaml_load gitShow utf8ToString).

Lemma buildDrafts_paths (postPaths : list jsstring) (drafts : list DraftPost) :
  drafts_of postPaths = Ok drafts ->
  List.map (@draft_path) drafts
  = filter (fun postPath => negb (marked postPath)) postPaths.
Proof.
  revert drafts. induction postPaths as [|postPath rest IH]; intros drafts.
  - cbn. now intros [= <-].
  - cbn [buildDrafts filter]. unfold readHead, readGitBytes, isMarked.
    destruct (gitShow postPath) as [bytes|]; cbn [bind]; [|discriminate].
    destruct (splitFrontmatter yaml_load (utf8ToString bytes))
      as [[fm content]|]; cbn [bind fst]; [|discriminate].
    destruct (getNestedField fm DEFAULT_AT_URL_FIELD); cbn [negb].
    + apply IH.
    + destruct (buildDraft _ _ _ _ _ _ _) as [d|] eqn:B; cbn [bind];
        [|discriminate].
      destruct (buildDrafts _ _ _ _ _ rest) as [ds|]; cbn [bind];
        [|discriminate].
      intros [= <-]. cbn [List.map].
      rewrite (buildDraft_path _ _ _ _ _ _ _ _ B). f_equal. now apply IH.
Qed.

(** X7.  The drafts are the posts without the marker, one draft for each,
    in the order of the paths: when [buildDrafts] returns, the paths of its
    drafts are the paths it was given with the marked ones left out. *)
Theorem buildDrafts_in_order (postPaths : list jsstring)
  (drafts : list DraftPost) :
  drafts_of postPaths = Ok drafts ->
  List.map (@draft_path) drafts
  = filter (fun postPath => negb (marked postPath)) postPaths
  /\ length drafts <= length postPaths.
Proof.
  intros H. pose proof (buildDrafts_paths postPaths drafts H) as Hpaths.
  split; [assumption|].
  rewrite <- (length_map (@draft_path) drafts), Hpaths. apply filter_length_le.
Qed.

(** X8.  [buildDrafts] works through the paths from left to right and is
    all or nothing: the drafts of a list in two parts are the drafts of the
    first part followed by those of the second, and the first error met is
    the result for the whole list. *)
Theorem buildDrafts_app (a b : list jsstring) :
  drafts_of (a ++ b)
  = (first <- drafts_of a ;; second <- drafts_of b ;; Ok (first ++ second)).
Proof.
  induction a as [|postPath a IH].
  - cbn [app buildDrafts bind]. now destruct (drafts_of b).
  - cbn [app buildDrafts].
    destruct (readHead gitShow postPath) as [bytes|]; cbn [bind]; [|reflexivity].
    destruct (splitFrontmatter yaml_load (utf8ToString bytes))
      as [[fm content]|]; cbn [bind fst]; [|reflexivity].
    destruct (getNestedField fm DEFAULT_AT_URL_FIELD); [exact IH|].
    destruct (buildDraft _ _ _ _ _ _ _) as [d|]; cbn [bind]; [|reflexivity].
    rewrite IH. destruct (drafts_of a); cbn [bind]; [|reflexivity].
    now destruct (drafts_of b).
Qed.

(** Each draft was built from the committed source of its post. *)
Lemma buildDrafts_member (postPaths : list jsstring) (drafts : list DraftPost)
  (draft : DraftPost) :
  drafts_of postPaths = Ok drafts -> In draft drafts ->
  exists bytes fm content,
    gitShow (draft_path draft) = Some bytes
    /\ splitFrontmatter yaml_load (utf8ToString bytes) = Ok (fm, content)
    /\ draft_of (draft_path draft) (utf8ToString bytes) fm = Ok draft.
Proof.
  revert drafts. induction postPaths as [|postPath rest IH]; intros drafts.
  - cbn. now intros [= <-] [].
  - cbn [buildDrafts]. unfold readHead, readGitBytes.
    destruct (gitShow postPath) as [bytes|] eqn:G; cbn [bind]; [|discriminate].
    destruct (splitFrontmatter yaml_load (utf8ToString bytes))
      as [[fm content]|] eqn:S; cbn [bind fst]; [|discriminate].
    destruct (getNestedField fm DEFAULT_AT_URL_FIELD).
    + apply IH.
    + destruct (buildDraft _ _ _ _ _ _ _) as [d|] eqn:B; cbn [bind];
        [|discriminate].
      destruct (buildDrafts _ _ _ _ _ rest) as [ds|] eqn:R; cbn [bind];
        [|discriminate].
      intros [= <-] [<-|Hin]; [|now apply (IH ds)].
      pose proof (buildDraft_path _ _ _ _ _ _ _ _ B) as Hpath.
      rewrite Hpath. now exists bytes, fm, content.
Qed.

Lemma buildDraft_links_back (postPath markdown : jsstring) (fm : frontmatter)
  (draft : DraftPost) :
  draft_of postPath markdown fm = Ok draft ->
  exists url,
    resolveBacklinkUrl postPath postsRootSpec fm config = Ok (Some url)
    /\ includes (draft_text draft) url = true.
Proof.
  unfold buildDraft.
  destruct (parsePostFields _ _ _) as [parsed|]; cbn [bind]; [|discriminate].
  destruct (resolveBacklinkUrl _ _ _ _) as [[url|]|]; cbn [bind];
    try discriminate.
  destruct (assertPostLength _ _); cbn [bind]; [|discriminate].
  assert (Hinc : includes (appendBacklink (pp_text parsed) url) url = true).
  { unfold appendBacklink.
    destruct (includes (pp_text parsed) url) eqn:Hi; [assumption|].
    change (pp_text parsed ++ [LF; LF] ++ url)
      with (pp_text parsed ++ [LF; LF] ++ url).
    rewrite app_assoc. apply includes_app_r. }
  destruct (pp_imagePath parsed).
  - destruct (resolveGitRelativePath _ _); cbn [bind]; [|discriminate].
    destruct (readHead _ _); cbn [bind]; [|discriminate].
    destruct (detectImageMimeType _); cbn [bind]; [|discriminate].
    intros [= <-]. now exists url.
  - intros [= <-]. now exists url.
Qed.

(** X9.  Every draft links back to the site: its text contains the backlink
    that [resolveBacklinkUrl] gives for the post and the frontmatter of its
    committed source, and that backlink begins with the base URL without a
    slash at its end. *)
Theorem draft_text_links_back (postPaths : list jsstring)
  (drafts : list DraftPost) (draft : DraftPost) :
  drafts_of postPaths = Ok drafts -> In draft drafts ->
  exists bytes fm content url,
    gitShow (draft_path draft) = Some bytes
    /\ splitFrontmatter yaml_load (utf8ToString bytes) = Ok (fm, content)
    /\ resolveBacklinkUrl (draft_path draft) postsRootSpec fm config
       = Ok (Some url)
    /\ startsWith url (trimTrailingSlash (baseUrl config)) = true
    /\ includes (draft_text draft) url = true.
Proof.
  intros H Hin.
  destruct (buildDrafts_member postPaths drafts draft H Hin)
    as [bytes [fm [content [Hg [Hs Hb]]]]].
  destruct (buildDraft_links_back _ _ _ _ Hb) as [url [Hurl Hinc]].
  exists bytes, fm, content, url. repeat split; try assumption.
  now apply (resolveBacklinkUrl_prefix _ _ _ _ _ Hurl).
Qed.

Lemma buildDraft_image (postPath markdown : jsstring) (fm fm' : frontmatter)
  (content : jsstring) (draft : DraftPost) (image : DraftImage) :
  splitFrontmatter yaml_load markdown = Ok (fm', content) ->
  draft_of postPath markdown fm = Ok draft ->
  draft_image draft = Some image ->
  exists first,
    findFirstMarkdownImage content = Some first
    /\ di_alt image = image_alt first
    /\ resolveGitRelativePath postPath (image_path first) = Ok (di_path image)
    /\ gitShow (di_path image) = Some (di_bytes image)
    /\ detectImageMimeType (di_path image) = Ok (di_mimeType image).
Proof.
  intros Hsplit. unfold buildDraft, parsePostFields. rewrite Hsplit.
  cbn [bind].
  destruct (isBlank _); cbn [bind]; [discriminate|].
  destruct (Nat.ltb 300 _); cbn [bind]; [discriminate|].
  destruct (resolveBacklinkUrl _ _ _ _) as [[url|]|]; cbn [bind];
    try discriminate.
  destruct (assertPostLength _ _); cbn [bind]; [|discriminate].
  cbn [pp_imagePath pp_imageAlt pp_text].
  destruct (findFirstMarkdownImage content) as [first|]; cbn [option_map].
  - destruct (resolveGitRelativePath _ _) as [repoPath|] eqn:Hr; cbn [bind];
      [|discriminate].
    unfold readHead, readGitBytes.
    destruct (gitShow repoPath) as [bytes|] eqn:Hg; cbn [bind]; [|discriminate].
    destruct (detectImageMimeType _) as [mime|] eqn:Hm; cbn [bind];
      [|discriminate].
    intros [= <-]. cbn [draft_image]. intros [= <-].
    cbn [di_path di_bytes di_mimeType di_alt].
    now exists first.
  - intros [= <-]. discriminate.
Qed.

Lemma resolveGitRelativePath_accepted (postPath assetPath resolved : jsstring) :
  resolveGitRelativePath postPath assetPath = Ok resolved ->
  Aux.rejected resolved = false.
Proof.
  unfold resolveGitRelativePath, Aux.rejected.
  destruct (_ || _); [discriminate|].
  match goal with |- context [if ?g then _ else _] => destruct g eqn:Hg end;
    [discriminate|].
  intros [= <-]. exact Hg.
Qed.

(** X10.  Where the image of a draft comes from.  It is the first image of
    the content of the committed source of the post: its alternative text
    is the one of that image, its path is what [resolveGitRelativePath]
    returned for the reference of that image (so it passed the guard: it is
    neither empty, [.] nor [..] and does not begin with [../]), its bytes
    are what [git show HEAD:<path>] printed for that path, and its type is
    the one the table has for the extension of the path. *)
Theorem draft_image_from_head (postPaths : list jsstring)
  (drafts : list DraftPost) (draft : DraftPost) (image : DraftImage) :
  drafts_of postPaths = Ok drafts -> In draft drafts ->
  draft_image draft = Some image ->
  (exists bytes fm content first,
      gitShow (draft_path draft) = Some bytes
      /\ splitFrontmatter yaml_load (utf8ToString bytes) = Ok (fm, content)
      /\ findFirstMarkdownImage content = Some first
      /\ di_alt image = image_alt first
      /\ resolveGitRelativePath (draft_path draft) (image_path first)
         = Ok (di_path image))
  /\ di_path image <> [] /\ di_path image <> str "."
  /\ di_path image <> str ".."
  /\ startsWith (di_path image) (str "../") = false
  /\ gitShow (di_path image) = Some (di_bytes image)
  /\ exists key,
       In (key, di_mimeType image) IMAGE_MIME_BY_EXTENSION
       /\ endsWithCI (dropWhileEnd isSlash (di_path image)) key = true.
Proof.
  intros H Hin Himage.
  destruct (buildDrafts_member postPaths drafts draft H Hin)
    as [bytes [fm [content [Hshow [Hsplit Hb]]]]].
  destruct (buildDraft_image _ _ _ _ _ _ _ Hsplit Hb Himage)
    as [first (Hfirst & Halt & Hr & Hg & Hm)].
  split; [now exists bytes, fm, content, first|].
  apply resolveGitRelativePath_accepted in Hr. unfold Aux.rejected in Hr.
  apply orb_false_iff in Hr as [Hr H4]. apply orb_false_iff in Hr as [Hr H3].
  apply orb_false_iff in Hr as [H1 H2].
  apply seqb_neq in H1, H2, H4.
  repeat split; try assumption.
  now apply detectImageMimeType_suffix.
Qed.

End DraftListFacts.

(** The repository with the gallery: the marked post is left out, the drafts
    of the two others come in the order of the paths. *)
Lemma buildDrafts_in_order_sample :
  List.map (@draft_path) [gallery_draft; new_draft]
  = filter (fun postPath =>
              negb (isMarked sample_yaml gallery_head ascii_text postPath))
      [old_post; gallery_post; new_post]
  /\ length [gallery_draft; new_draft]
     <= length [old_post; gallery_post; new_post].
Proof.
  apply (buildDrafts_in_order sample_yaml gallery_head ascii_text abc_blog
           (str "posts")).
  vm_compute. reflexivity.
Defined.

(** The draft of the gallery links back to its page. *)
Lemma draft_text_links_back_sample :
  exists bytes fm content url,
    gallery_head (draft_path gallery_draft) = Some bytes
    /\ splitFrontmatter sample_yaml (ascii_text bytes) = Ok (fm, content)
    /\ resolveBacklinkUrl (draft_path gallery_draft) (str "posts") fm abc_blog
       = Ok (Some url)
    /\ startsWith url (trimTrailingSlash (baseUrl abc_blog)) = true
    /\ includes (draft_text gallery_draft) url = true.
Proof.
  apply (draft_text_links_back sample_yaml gallery_head ascii_text abc_blog
           (str "posts") [old_post; gallery_post; new_post]
           [gallery_draft; new_draft]).
  - vm_compute. reflexivity.
  - left. reflexivity.
Defined.

(** The image of the gallery is the file of the repository. *)
Lemma draft_image_from_head_sample :
  (exists bytes fm content first,
      gallery_head (draft_path gallery_draft) = Some bytes
      /\ splitFrontmatter sample_yaml (ascii_text bytes) = Ok (fm, content)
      /\ findFirstMarkdownImage content = Some first
      /\ di_alt gallery_image = image_alt first
      /\ resolveGitRelativePath (draft_path gallery_draft) (image_path first)
         = Ok (di_path gallery_image))
  /\ di_path gallery_image <> [] /\ di_path gallery_image <> str "."
  /\ di_path gallery_image <> str ".."
  /\ startsWith (di_path gallery_image) (str "../") = false
  /\ gallery_head (di_path gallery_image) = Some (di_bytes gallery_image)
  /\ exists key,
       In (key, di_mimeType gallery_image) IMAGE_MIME_BY_EXTENSION
       /\ endsWithCI (dropWhileEnd isSlash (di_path gallery_image)) key = true.
Proof.
  apply (draft_image_from_head sample_yaml gallery_head ascii_text abc_blog
           (str "posts") [old_post; gallery_post; new_post]
           [gallery_draft; new_draft] gallery_draft gallery_image).
  - vm_compute. reflexivity.
  - left. reflexivity.
  - reflexivity.
Defined.

(** * The answers of the server *)

Section ResponseFacts.

(** X11.  [parseJsonResponse] returns only for a status from 200 to 299,
    and then an object: the empty object for a blank body, what [JSON.parse]
    reads from the body otherwise; a body that parses to a string, a number,
    a boolean or [null] is refused.  Its errors are the three of the
    source. *)
Theorem parseJsonResponse_returns (response : Response) (context : jsstring) :
  (forall parsed,
      parseJsonResponse response context = Ok parsed
      <-> ok response = true /\ isObject parsed = true
          /\ (if isBlank (bodyText response) then parsed = VObj []
              else JSON_parse (bodyText response) = Some parsed))
  /\ (forall e,
         parseJsonResponse response context = Err e ->
         e = CouldNotParseJson context
         \/ (exists message,
                e = BlueskyApiError context (status response) message)
         \/ e = ExpectedJsonObject context).
Proof.
  unfold parseJsonResponse. split.
  - intros parsed.
    destruct (isBlank (bodyText response)); cbn [bind].
    + destruct (ok response); cbn [negb isObject].
      * split; [intros [= <-]; now repeat split|]. now intros [_ [_ ->]].
      * split; [discriminate|]. now intros [H _].
    + destruct (JSON_parse (bodyText response)) as [v|]; cbn [bind].
      * destruct (ok response); cbn [negb].
        -- destruct (isObject v) eqn:Hv; cbn [negb].
           ++ split; [intros [= <-]; now repeat split|].
              now intros [_ [_ [= ->]]].
           ++ split; [discriminate|]. intros [_ [H [= ->]]]. congruence.
        -- split; [discriminate|]. now intros [H _].
      * split; [discriminate|]. now intros [_ [_ H]].
  - intros e.
    assert (Hafter : forall v,
      (if negb (ok response)
       then Err (BlueskyApiError context (status response)
                   match extractApiError v with
                   | Some m => m
                   | None => statusText response
                   end)
       else if negb (isObject v) then Err (ExpectedJsonObject context)
            else Ok v) = Err e ->
      e = CouldNotParseJson context
      \/ (exists message,
             e = BlueskyApiError context (status response) message)
      \/ e = ExpectedJsonObject context).
    { intros v. destruct (ok response); cbn [negb].
      - destruct (isObject v); cbn [negb]; [discriminate|].
        intros [= <-]. tauto.
      - intros [= <-]. right. left. eexists. reflexivity. }
    destruct (isBlank (bodyText response)); cbn [bind]; [apply Hafter|].
    destruct (JSON_parse (bodyText response)); cbn [bind]; [apply Hafter|].
    intros [= <-]. now left.
Qed.

End ResponseFacts.

(** The answer to [createRecord] is returned as the object it holds. *)
Lemma parseJsonResponse_returns_sample :
  parseJsonResponse record_created (str "createRecord")
  = Ok (VObj [(str "uri",
               VStr (str "at://did:plc:abc/app.bsky.feed.post/3laz2abc"))]).
Proof.
  apply (proj1 (parseJsonResponse_returns record_created (str "createRecord"))).
  repeat split.
Defined.

(** * The link to a published post *)

Section PostUrlFacts.

Local Open Scope N_scope.

Lemma execPostId_unfold (atUri : jsstring) :
  execPostId atUri
  = match matchPostIdAt atUri with
    | Some postId => Some postId
    | None =>
        match atUri with
        | [] => None
        | _ :: rest => execPostId rest
        end
    end.
Proof. now destruct atUri. Qed.

Lemma skipn_within (n : nat) (a b : jsstring) :
  (n <= length a)%nat -> skipn n (a ++ b) = skipn n a ++ b.
Proof.
  intros H. rewrite skipn_app.
  replace (n - length a)%nat with 0%nat by lia. reflexivity.
Qed.

Lemma matchPostIdAt_here (postId : jsstring) :
  postId <> [] -> forallb (fun c => negb (isSlash c)) postId = true ->
  matchPostIdAt (POST_COLLECTION ++ postId) = Some postId.
Proof.
  intros Hne Hfree. unfold matchPostIdAt.
  rewrite startsWith_app, skipn_app, skipn_all, Nat.sub_diag.
  cbn [app skipn]. destruct postId as [|x postId]; [congruence|].
  now rewrite Hfree.
Qed.

Lemma matchPostIdAt_early (c : N) (prefix postId : jsstring) :
  matchPostIdAt (c :: prefix ++ POST_COLLECTION ++ postId) = None.
Proof.
  unfold matchPostIdAt.
  destruct (startsWith _ POST_COLLECTION); [|reflexivity].
  change POST_COLLECTION
    with (str "/app.bsky.feed.post" ++ [SLASH]) at 2.
  rewrite <- app_assoc.
  change (c :: prefix ++ str "/app.bsky.feed.post" ++ [SLASH] ++ postId)
    with ((c :: prefix) ++ str "/app.bsky.feed.post" ++ [SLASH] ++ postId).
  rewrite (app_assoc (c :: prefix)).
  rewrite skipn_within.
  2:{ rewrite length_app. cbn [length]. change (length POST_COLLECTION) with 20%nat.
      change (length (str "/app.bsky.feed.post")) with 19%nat. lia. }
  set (kept := skipn (length POST_COLLECTION)
                 ((c :: prefix) ++ str "/app.bsky.feed.post")).
  assert (Hslash : forallb (fun c => negb (isSlash c))
                     (kept ++ [SLASH] ++ postId) = false).
  { rewrite forallb_app. cbn [app forallb]. unfold isSlash at 2.
    rewrite N.eqb_refl. cbn [negb andb]. apply andb_false_r. }
  destruct (kept ++ [SLASH] ++ postId) eqn:Hk; [reflexivity|].
  now rewrite Hslash.
Qed.

Lemma execPostId_found (prefix postId : jsstring) :
  postId <> [] -> forallb (fun c => negb (isSlash c)) postId = true ->
  execPostId (prefix ++ POST_COLLECTION ++ postId) = Some postId.
Proof.
  intros Hne Hfree. induction prefix as [|c prefix IH].
  - rewrite execPostId_unfold. cbn [app].
    now rewrite (matchPostIdAt_here postId Hne Hfree).
  - rewrite execPostId_unfold. cbn [app].
    now rewrite matchPostIdAt_early.
Qed.

Lemma matchPostIdAt_inv (s postId : jsstring) :
  matchPostIdAt s = Some postId ->
  s = POST_COLLECTION ++ postId /\ postId <> []
  /\ forallb (fun c => negb (isSlash c)) postId = true.
Proof.
  unfold matchPostIdAt.
  destruct (startsWith s POST_COLLECTION) eqn:Hs; [|discriminate].
  apply startsWith_inv in Hs as [r ->].
  rewrite skipn_app, skipn_all, Nat.sub_diag. cbn [app skipn].
  destruct r as [|x r]; [discriminate|].
  destruct (forallb _ (x :: r)) eqn:Hfree; [|discriminate].
  intros [= <-]. repeat split; [discriminate|assumption].
Qed.

Lemma execPostId_inv (atUri postId : jsstring) :
  execPostId atUri = Some postId ->
  exists prefix,
    atUri = prefix ++ POST_COLLECTION ++ postId /\ postId <> []
    /\ forallb (fun c => negb (isSlash c)) postId = true.
Proof.
  induction atUri as [|c atUri IH]; rewrite execPostId_unfold.
  - destruct (matchPostIdAt []) eqn:Hm; [|discriminate].
    intros [= ->]. apply matchPostIdAt_inv in Hm as [H1 [H2 H3]].
    now exists [].
  - destruct (matchPostIdAt (c :: atUri)) eqn:Hm.
    + intros [= ->]. apply matchPostIdAt_inv in Hm as [H1 [H2 H3]].
      now exists [].
    + intros H. destruct (IH H) as [prefix [-> [H2 H3]]].
      now exists (c :: prefix).
Qed.

(** X12.  [toBlueskyPostUrl] reads the record key off the end of the AT
    URI: for a URI that ends in [/app.bsky.feed.post/] and a key of one or
    more characters without a slash, the link is
    [https://bsky.app/profile/<handle>/post/<key>] with the handle and the
    key percent-encoded; it returns for no other URI, and throws nothing
    but its own error and the [URIError] of [encodeURIComponent]. *)
Theorem toBlueskyPostUrl_record_key (handle atUri : jsstring) :
  (forall prefix key encodedHandle encodedKey,
      atUri = prefix ++ str "/app.bsky.feed.post/" ++ key ->
      key <> [] -> forallb (fun c => negb (isSlash c)) key = true ->
      encodeURIComponent handle = Ok encodedHandle ->
      encodeURIComponent key = Ok encodedKey ->
      toBlueskyPostUrl handle atUri
      = Returned (str "https://bsky.app/profile/" ++ encodedHandle
                  ++ str "/post/" ++ encodedKey))
  /\ (forall url,
         toBlueskyPostUrl handle atUri = Returned url ->
         exists prefix key encodedHandle encodedKey,
           atUri = prefix ++ str "/app.bsky.feed.post/" ++ key
           /\ key <> [] /\ forallb (fun c => negb (isSlash c)) key = true
           /\ encodeURIComponent handle = Ok encodedHandle
           /\ encodeURIComponent key = Ok encodedKey
           /\ url = str "https://bsky.app/profile/" ++ encodedHandle
                    ++ str "/post/" ++ encodedKey)
  /\ (forall f,
         toBlueskyPostUrl handle atUri = Thrown f ->
         f = CouldNotDerivePostUrl atUri \/ f = Engine URIMalformed).
Proof.
  split; [|split].
  - intros prefix key encodedHandle encodedKey -> Hne Hfree Hh Hk.
    unfold toBlueskyPostUrl.
    change (str "/app.bsky.feed.post/") with POST_COLLECTION.
    rewrite (execPostId_found prefix key Hne Hfree), Hk. cbn [ofResult andThen].
    now rewrite Hh.
  - intros url. unfold toBlueskyPostUrl.
    destruct (execPostId atUri) as [key|] eqn:He; [|discriminate].
    destruct (execPostId_inv atUri key He) as [prefix [Hu [Hne Hfree]]].
    destruct (encodeURIComponent key) as [encodedKey|] eqn:Hk;
      cbn [ofResult andThen]; [|discriminate].
    destruct (encodeURIComponent handle) as [encodedHandle|] eqn:Hh;
      cbn [ofResult andThen]; [|discriminate].
    intros [= <-]. now exists prefix, key, encodedHandle, encodedKey.
  - intros f. unfold toBlueskyPostUrl.
    destruct (execPostId atUri) as [key|]; [|intros [= <-]; now left].
    destruct (encodeURIComponent key) as [encodedKey|e] eqn:Hk;
      cbn [ofResult andThen].
    + destruct (encodeURIComponent handle) as [encodedHandle|e] eqn:Hh;
        cbn [ofResult andThen]; [discriminate|].
      intros [= <-]. right. now rewrite (encode_error handle e Hh).
    + intros [= <-]. right. now rewrite (encode_error key e Hk).
Qed.

Lemma toBlueskyPostUrl_record_key_sample :
  toBlueskyPostUrl (str "abc.bsky.social")
    (str "at://did:plc:123" ++ str "/app.bsky.feed.post/" ++ str "3laz2abc")
  = Returned (str "https://bsky.app/profile/" ++ str "abc.bsky.social"
              ++ str "/post/" ++ str "3laz2abc").
Proof.
  destruct (toBlueskyPostUrl_record_key (str "abc.bsky.social")
              (str "at://did:plc:123" ++ str "/app.bsky.feed.post/"
               ++ str "3laz2abc")) as [Hkey _].
  apply (Hkey (str "at://did:plc:123") (str "3laz2abc")); try reflexivity.
  discriminate.
Defined.

End PostUrlFacts.

(** * Removing the marker *)

Section EscapeFacts.

Local Open Scope N_scope.

(** X13.  [escapeRegex] makes a pattern that matches its argument and
    nothing else: every syntax character of the argument gets a backslash
    and no other character does, so the pattern reads back as the
    argument. *)
Theorem escapeRegex_literal (value : jsstring) :
  literalOf (escapeRegex value) = Some value.
Proof.
  induction value as [|c value IH]; [reflexivity|].
  unfold escapeRegex. cbn [flat_map]. fold (escapeRegex value).
  destruct (isRegexSyntax c) eqn:Hc.
  - cbn [app literalOf]. rewrite N.eqb_refl, Hc, IH. reflexivity.
  - cbn [app literalOf]. rewrite Hc.
    assert (H92 : (c =? 92) = false).
    { unfold isRegexSyntax in Hc. repeat (apply orb_false_iff in Hc as [Hc ?]).
      assumption. }
    rewrite H92, IH. reflexivity.
Qed.

End EscapeFacts.

(** * Writing and removing the marker: the rest of the document *)

Section MarkerFacts.

Local Open Scope N_scope.
Import Aux Spec.

Lemma findBlock_join (first closing : jsstring) (block after : list jsstring) :
  stableLines (first :: block ++ closing :: after) = true ->
  isDelimiter first = true -> forallb notDelimiter block = true ->
  isDelimiter closing = true ->
  findBlock (join [LF] (first :: block ++ closing :: after))
  = Some (block, after).
Proof.
  intros Hs Hf Hb Hc. unfold findBlock.
  rewrite (splitLines_join _ Hs), Hf, breakAtDelimiter_forget.
  now rewrite (breakAtDelimiter'_app block after closing Hb Hc).
Qed.

Lemma findBlock_inv (markdown : jsstring) (block after : list jsstring) :
  findBlock markdown = Some (block, after) ->
  exists first closing,
    splitLines markdown = first :: block ++ closing :: after
    /\ isDelimiter first = true /\ forallb notDelimiter block = true
    /\ isDelimiter closing = true.
Proof.
  unfold findBlock.
  destruct (splitLines markdown) as [|first rest]; [discriminate|].
  destruct (isDelimiter first) eqn:Hf; [|discriminate].
  rewrite breakAtDelimiter_forget.
  destruct (breakAtDelimiter' rest) as [[[b closing] a]|] eqn:B; [|discriminate].
  intros [= <- <-].
  apply breakAtDelimiter'_inv in B as (-> & Hb & Hc).
  now exists first, closing.
Qed.

Lemma noLF_endsWith (line : jsstring) :
  noLF line = true -> endsWith line [LF] = false.
Proof.
  intros H. destruct (endsWith line [LF]) eqn:He; [|reflexivity].
  apply endsWith_inv in He as [r ->]. rewrite noLF_app in H.
  apply andb_true_iff in H as [_ H]. discriminate.
Qed.

Lemma stableLines_last_line (lines : list jsstring) (line : jsstring) :
  stableLines (lines ++ [line]) = true -> noLF line = true.
Proof.
  intros H. rewrite stableLines_app in H by discriminate.
  apply andb_true_iff in H as [_ H]. exact H.
Qed.

(** Two documents with the same lines after a closing delimiter end alike. *)
Lemma endsWith_same_rest (xs xs' after : list jsstring) (closing closing' : jsstring) :
  noLF closing = true -> noLF closing' = true ->
  closing <> [] -> closing' <> [] ->
  endsWith (join [LF] (xs ++ closing :: after)) [LF]
  = endsWith (join [LF] (xs' ++ closing' :: after)) [LF].
Proof.
  intros H1 H2 Hn1 Hn2. destruct after as [|a after].
  - assert (Hend : forall ys c, noLF c = true -> c <> [] ->
                     endsWith (join [LF] (ys ++ [c])) [LF] = false).
    { intros ys c Hc Hne. destruct ys as [|y ys].
      - cbn. now apply noLF_endsWith.
      - rewrite join_app by discriminate. cbn [join].
        rewrite app_assoc, endsWith_last_part by assumption.
        now apply noLF_endsWith. }
    now rewrite !Hend.
  - change (xs ++ closing :: a :: after) with (xs ++ [closing] ++ a :: after).
    change (xs' ++ closing' :: a :: after) with (xs' ++ [closing'] ++ a :: after).
    rewrite !app_assoc.
    apply endsWith_join_same_tail; try discriminate;
      intros H; apply app_eq_nil in H as [_ H]; discriminate.
Qed.

Lemma delimiter_nonempty (line : jsstring) : isDelimiter line = true -> line <> [].
Proof. intros H ->. discriminate. Qed.

Lemma stableLines_middle (xs after : list jsstring) (closing : jsstring) :
  stableLines (xs ++ closing :: after) = true ->
  forallb lineOK xs = true /\ noLF closing = true
  /\ forall xs' closing',
       forallb lineOK xs' = true -> lineOK closing' = true ->
       stableLines (xs' ++ closing' :: after) = true.
Proof.
  intros H. rewrite stableLines_app in H by discriminate.
  apply andb_true_iff in H as [Hxs Hrest]. split; [assumption|].
  destruct after as [|a after].
  - split; [exact Hrest|]. intros xs' closing' H1 H2.
    rewrite stableLines_app by discriminate. rewrite H1.
    unfold lineOK in H2. apply andb_true_iff in H2 as [H2 _]. exact H2.
  - rewrite stableLines_cons in Hrest by discriminate.
    apply andb_true_iff in Hrest as [Hc Hafter].
    apply andb_true_iff in Hc as [Hc _]. split; [assumption|].
    intros xs' closing' H1 H2.
    rewrite stableLines_app by discriminate. rewrite H1.
    rewrite stableLines_cons by discriminate.
    unfold lineOK in H2. now rewrite H2, Hafter.
Qed.

Lemma forallb_filter_keep (P Q : jsstring -> bool) (l : list jsstring) :
  forallb P l = true -> forallb P (filter Q l) = true.
Proof.
  induction l as [|x l IH]; [reflexivity|]. cbn [forallb filter].
  intros H. apply andb_true_iff in H as [Hx Hl].
  destruct (Q x); cbn [forallb]; [rewrite Hx|]; now apply IH.
Qed.


Lemma noCRLF_plain (line : jsstring) : noLF line = true -> noCRLF line = true.
Proof.
  induction line as [|c line IH]; [reflexivity|].
  unfold noLF. cbn [forallb noCRLF]. intros H.
  apply andb_true_iff in H as [_ Hl]. rewrite (IH Hl), andb_true_r.
  destruct line as [|d line]; [now rewrite andb_false_r|].
  cbn [forallb] in Hl. apply andb_true_iff in Hl as [Hd _].
  apply negb_true_iff in Hd. now rewrite Hd, andb_false_r.
Qed.

Lemma noCRLF_line (line rest : jsstring) :
  noLF line = true -> endsCR line = false -> noCRLF rest = true ->
  noCRLF (line ++ LF :: rest) = true.
Proof.
  intros Hl Hcr Hrest. induction line as [|c line IH].
  - cbn [app noCRLF]. now rewrite Hrest.
  - unfold noLF in Hl. cbn [forallb] in Hl.
    apply andb_true_iff in Hl as [_ Hl].
    cbn [app noCRLF]. destruct line as [|d line].
    + cbn [app]. cbn [endsCR] in Hcr. rewrite Hcr. cbn [andb negb].
      apply (IH Hl eq_refl).
    + cbn [forallb] in Hl. pose proof Hl as Hl'.
      apply andb_true_iff in Hl as [Hd _]. apply negb_true_iff in Hd.
      cbn [app]. rewrite Hd, andb_false_r. cbn [negb andb].
      apply (IH Hl' Hcr).
Qed.

(** A document made of stable lines has no CR LF. *)
Lemma noCRLF_join (lines : list jsstring) :
  stableLines lines = true -> noCRLF (join [LF] lines) = true.
Proof.
  induction lines as [|line rest IH]; [discriminate|].
  destruct rest as [|l rest].
  - cbn. apply noCRLF_plain.
  - rewrite stableLines_cons by discriminate. intros H.
    apply andb_true_iff in H as [H Hrest].
    apply andb_true_iff in H as [Hl Hcr]. apply negb_true_iff in Hcr.
    rewrite join_cons. change ([LF] ++ ?x) with (LF :: x).
    apply noCRLF_line; [assumption|assumption|now apply IH].
Qed.

(** What [stripFrontmatterField] writes for a document with a block. *)
Lemma strip_shape (markdown field : jsstring) (block after : list jsstring) :
  noCRLF markdown = true ->
  findBlock markdown = Some (block, after) ->
  stripFrontmatterField markdown field
  = join [LF] (str "---" :: filter (notKey field) block ++ str "---" :: after)
  /\ stableLines (str "---" :: filter (notKey field) block ++ str "---" :: after)
     = true
  /\ forallb notDelimiter (filter (notKey field) block) = true.
Proof.
  intros Hm Hfind.
  pose proof (stableLines_splitLines _ Hm) as HS.
  pose proof (join_splitLines _ Hm) as HJ.
  destruct (findBlock_inv markdown block after Hfind)
    as (first & closing & Hlines & Hf & Hb & Hc).
  rewrite Hlines in HS, HJ.
  change (first :: block ++ closing :: after)
    with ((first :: block) ++ closing :: after) in HS, HJ.
  destruct (stableLines_middle _ _ _ HS) as (Hxs & Hclosing & Hswap).
  cbn [forallb] in Hxs. apply andb_true_iff in Hxs as [Hfirst Hblock].
  assert (Hkept : forallb lineOK (filter (notKey field) block) = true)
    by now apply forallb_filter_keep.
  assert (Hstable :
    stableLines (str "---" :: filter (notKey field) block ++ str "---" :: after)
    = true).
  { apply (Hswap (str "---" :: filter (notKey field) block) (str "---"));
      [|reflexivity]. cbn [forallb]. now rewrite Hkept. }
  split; [|split; [exact Hstable|now apply forallb_filter_keep]].
  unfold stripFrontmatterField. rewrite Hlines, Hf.
  unfold findBlock in Hfind. rewrite Hlines, Hf in Hfind. rewrite Hfind.
  fold (notKey field).
  set (rebuilt := join [LF]
         (str "---" :: filter (notKey field) block ++ str "---" :: after)).
  replace (endsWith markdown [LF]) with (endsWith rebuilt [LF]);
    [apply finalizeNewline_self|].
  rewrite <- HJ. unfold rebuilt.
  change (str "---" :: filter (notKey field) block ++ str "---" :: after)
    with ((str "---" :: filter (notKey field) block) ++ str "---" :: after).
  apply endsWith_same_rest; try reflexivity; try discriminate;
    [assumption|now apply delimiter_nonempty].
Qed.

Lemma replaceFirstMatch_no_key (field r : jsstring) (block : list jsstring) :
  forallb (notKey field) block = true ->
  replaceFirstMatch field r block = None.
Proof.
  induction block as [|line block IH]; [reflexivity|].
  cbn [forallb replaceFirstMatch]. intros H.
  apply andb_true_iff in H as [Hl Hb]. unfold notKey in Hl.
  apply negb_true_iff in Hl. now rewrite Hl, (IH Hb).
Qed.

Lemma filter_notKey_all (field : jsstring) (block : list jsstring) :
  forallb (notKey field) block = true -> filter (notKey field) block = block.
Proof.
  induction block as [|line block IH]; [reflexivity|].
  cbn [forallb filter]. intros H. apply andb_true_iff in H as [Hl Hb].
  now rewrite Hl, (IH Hb).
Qed.

Lemma filter_notKey_replaced (field r : jsstring) (block block' : list jsstring) :
  fieldPatternTest field r = true ->
  replaceFirstMatch field r block = Some block' ->
  filter (notKey field) block' = filter (notKey field) block.
Proof.
  intros Hr. revert block'. induction block as [|line block IH];
    intros block'; [discriminate|].
  cbn [replaceFirstMatch]. destruct (fieldPatternTest field line) eqn:T.
  - intros [= <-]. cbn [filter]. unfold notKey. now rewrite Hr, T.
  - destruct (replaceFirstMatch field r block) as [b|]; [|discriminate].
    intros [= <-]. cbn [filter].
    assert (Hn : notKey field line = true) by (unfold notKey; now rewrite T).
    rewrite Hn. f_equal. now apply IH.
Qed.

(** What [upsertFrontmatterField] writes for a document with a block. *)
Lemma upsert_shape (markdown field value : jsstring)
  (block after : list jsstring) :
  noCRLF markdown = true -> noLF field = true ->
  findBlock markdown = Some (block, after) ->
  exists first closing block',
    upsertFrontmatterField markdown field value
    = join [LF] (first :: block' ++ closing :: after)
    /\ stableLines (first :: block' ++ closing :: after) = true
    /\ isDelimiter first = true /\ isDelimiter closing = true
    /\ forallb notDelimiter block' = true
    /\ block' = match replaceFirstMatch field (rendered field value) block with
                | Some replaced => replaced
                | None => block ++ [rendered field value]
                end
    /\ splitLines markdown = first :: block ++ closing :: after.
Proof.
  intros Hm Hfield Hfind. set (r := rendered field value).
  assert (Hr : lineOK r = true) by now apply rendered_lineOK.
  assert (Hd : notDelimiter r = true) by apply rendered_notDelimiter.
  assert (Ht : fieldPatternTest field r = true) by apply rendered_matches.
  pose proof (stableLines_splitLines _ Hm) as HS.
  pose proof (join_splitLines _ Hm) as HJ.
  destruct (findBlock_inv markdown block after Hfind)
    as (first & closing & Hlines & Hf & Hb & Hc).
  rewrite Hlines in HS, HJ.
  change (first :: block ++ closing :: after)
    with ((first :: block) ++ closing :: after) in HS, HJ.
  destruct (stableLines_middle _ _ _ HS) as (Hxs & Hclosing & _).
  cbn [forallb] in Hxs. apply andb_true_iff in Hxs as [Hfirst Hblock].
  rewrite stableLines_app in HS by discriminate.
  apply andb_true_iff in HS as [_ HS2].
  set (block' := match replaceFirstMatch field r block with
                 | Some replaced => replaced
                 | None => block ++ [r]
                 end).
  assert (Hall : forall P : jsstring -> bool,
             P r = true -> forallb P block = true -> forallb P block' = true).
  { intros P HP HB. unfold block'.
    destruct (replaceFirstMatch field r block) as [b|] eqn:RM.
    - destruct (replaceFirstMatch_some field r block b Ht RM) as (_ & _ & _ & H4).
      now apply H4.
    - rewrite forallb_app, HB. cbn. now rewrite HP. }
  exists first, closing, block'. repeat split; try assumption.
  - unfold upsertFrontmatterField. rewrite Hlines, Hf.
    unfold findBlock in Hfind. rewrite Hlines, Hf in Hfind.
    rewrite breakAtDelimiter_forget in Hfind.
    destruct (breakAtDelimiter' (block ++ closing :: after))
      as [[[b c] a]|] eqn:B; [|discriminate].
    injection Hfind as -> ->.
    apply breakAtDelimiter'_inv in B as (Heq & _ & _).
    apply app_inv_head in Heq. injection Heq as <-.
    fold (rendered field value). fold r. fold block'.
    rewrite <- HJ.
    rewrite (endsWith_join_same_tail (first :: block) (first :: block')
               (closing :: after)) by discriminate.
    apply finalizeNewline_self.
  - change (first :: block' ++ closing :: after)
      with ((first :: block') ++ closing :: after).
    rewrite stableLines_app by discriminate. cbn [forallb].
    now rewrite Hfirst, (Hall lineOK Hr Hblock), HS2.
  - now apply Hall.
Qed.

(** What [upsertFrontmatterField] writes for a document without a block. *)
Lemma upsert_shape_new (markdown field value : jsstring) :
  noCRLF markdown = true -> noLF field = true ->
  findBlock markdown = None ->
  exists after,
    upsertFrontmatterField markdown field value
    = join [LF] (str "---" :: [rendered field value] ++ str "---" :: after)
    /\ stableLines (str "---" :: [rendered field value] ++ str "---" :: after)
       = true
    /\ join [LF] after = markdown.
Proof.
  intros Hm Hfield Hfind. set (r := rendered field value).
  assert (Hr : lineOK r = true) by now apply rendered_lineOK.
  assert (Hprefixed :
    upsertFrontmatterField markdown field value
    = finalizeNewline (join [LF] [str "---"; r; str "---"; markdown])
        (endsWith markdown [LF])).
  { unfold upsertFrontmatterField, findBlock in *.
    destruct (splitLines markdown) as [|first rest]; [reflexivity|].
    destruct (isDelimiter first); [|reflexivity].
    rewrite breakAtDelimiter_forget in Hfind.
    now destruct (breakAtDelimiter' rest) as [[[b c] a]|]. }
  rewrite Hprefixed.
  destruct markdown as [|c markdown].
  - exists []. split; [|split; [|reflexivity]].
    + change (join [LF] [str "---"; r; str "---"; []])
        with (str "---" ++ [LF] ++ r ++ [LF] ++ str "---" ++ [LF] ++ []).
      rewrite app_nil_r.
      replace (str "---" ++ [LF] ++ r ++ [LF] ++ str "---" ++ [LF])
        with ((str "---" ++ [LF] ++ r ++ [LF] ++ str "---") ++ [LF])
        by (now rewrite <- !app_assoc).
      unfold finalizeNewline.
      change (endsWith [] [LF]) with false. cbv iota.
      rewrite endsWith_app. apply (dropEnd_app _ [LF]).
    + change (str "---" :: [r] ++ [str "---"])
        with ([str "---"; r] ++ [str "---"]).
      rewrite stableLines_app by discriminate. cbn. now rewrite Hr.
  - set (md := c :: markdown) in *.
    pose proof (stableLines_splitLines _ Hm) as HS.
    pose proof (join_splitLines _ Hm) as HJ.
    exists (splitLines md). split; [|split; [|exact HJ]].
    + change (str "---" :: [r] ++ str "---" :: splitLines md)
        with ([str "---"; r; str "---"] ++ splitLines md).
      rewrite join_app by (try discriminate; apply splitLines_nonempty).
      rewrite HJ.
      change (join [LF] [str "---"; r; str "---"; md])
        with (str "---" ++ [LF] ++ r ++ [LF] ++ str "---" ++ [LF] ++ md).
      change (join [LF] [str "---"; r; str "---"])
        with (str "---" ++ [LF] ++ r ++ [LF] ++ str "---").
      rewrite <- !app_assoc.
      set (text := str "---" ++ [LF] ++ r ++ [LF] ++ str "---" ++ [LF] ++ md).
      replace (endsWith md [LF]) with (endsWith text [LF]);
        [apply finalizeNewline_self|].
      unfold text. rewrite !app_assoc. now apply endsWith_last_part.
    + change (str "---" :: [r] ++ str "---" :: splitLines md)
        with ([str "---"; r; str "---"] ++ splitLines md).
      rewrite stableLines_app by apply splitLines_nonempty.
      rewrite HS. cbn [forallb]. now rewrite Hr.
Qed.

End MarkerFacts.

Section MarkerTheorems.

Local Open Scope N_scope.
Import Aux Spec.

Lemma strip_without_block (markdown field : jsstring) :
  findBlock markdown = None -> stripFrontmatterField markdown field = markdown.
Proof.
  unfold findBlock, stripFrontmatterField.
  destruct (splitLines markdown) as [|first rest]; [reflexivity|].
  destruct (isDelimiter first); [|reflexivity].
  now intros ->.
Qed.

Lemma first_key_replaced (field r : jsstring) (block block' : list jsstring) :
  fieldPatternTest field r = true ->
  replaceFirstMatch field r block = Some block' ->
  hd_error (filter (fieldPatternTest field) block') = Some r.
Proof.
  intros Hr. revert block'. induction block as [|line block IH];
    intros block'; [discriminate|].
  cbn [replaceFirstMatch]. destruct (fieldPatternTest field line) eqn:T.
  - intros [= <-]. cbn [filter]. now rewrite Hr.
  - destruct (replaceFirstMatch field r block) as [b|]; [|discriminate].
    intros [= <-]. cbn [filter]. rewrite T. now apply IH.
Qed.

(** X14.  Removing the marker undoes writing it, up to the delimiter
    lines.  For a document made of an opening delimiter line, the lines of
    a block that does not set the field, a closing delimiter line and the
    lines of a body, with lines that end in a bare line feed, and for a
    field name of one line, [stripFrontmatterField] applied to what
    [upsertFrontmatterField] wrote gives the document back with its two
    delimiter lines written [---]: the document itself, character by
    character, when they were written so, without white space around
    them. *)
Theorem strip_undoes_upsert (first closing : jsstring)
  (block after : list jsstring) (field value : jsstring) :
  stableLines (first :: block ++ closing :: after) = true ->
  isDelimiter first = true -> isDelimiter closing = true ->
  forallb notDelimiter block = true ->
  forallb (notKey field) block = true ->
  noLF field = true ->
  stripFrontmatterField
    (upsertFrontmatterField (doc (first :: block ++ closing :: after))
       field value) field
  = doc (str "---" :: block ++ str "---" :: after).
Proof.
  intros Hs Hfirst Hclosing Hb Hk Hfield. unfold doc.
  set (markdown := join [LF] (first :: block ++ closing :: after)).
  assert (Hfind : findBlock markdown = Some (block, after))
    by now apply findBlock_join.
  assert (Hm : noCRLF markdown = true) by now apply noCRLF_join.
  destruct (upsert_shape markdown field value block after Hm Hfield Hfind)
    as (first' & closing' & block' & Hu & Hus & Hf & Hc & Hb' & Hblock'
        & Hlines).
  unfold markdown in Hlines. rewrite (splitLines_join _ Hs) in Hlines.
  injection Hlines as <- Hrest. apply app_inv_head in Hrest.
  injection Hrest as <-.
  rewrite (replaceFirstMatch_no_key field (rendered field value) block Hk)
    in Hblock'.
  subst block'. rewrite Hu.
  set (written := join [LF]
         (first :: (block ++ [rendered field value]) ++ closing :: after))
    in *.
  assert (Hw : noCRLF written = true) by now apply noCRLF_join.
  assert (Hwfind : findBlock written
                   = Some (block ++ [rendered field value], after))
    by now apply findBlock_join.
  destruct (strip_shape written field _ _ Hw Hwfind) as (-> & _ & _).
  rewrite filter_app, (filter_notKey_all field block Hk). cbn [filter].
  unfold notKey at 1. rewrite rendered_matches. cbn [negb].
  now rewrite app_nil_r.
Qed.

(** The document of the tests, and the same with white space after its
    delimiters. *)
Lemma strip_undoes_upsert_launch :
  stripFrontmatterField
    (upsertFrontmatterField
       (doc (str "---" :: [str "title: Launch"; str "post: Hello"]
             ++ str "---" :: [str "Body"; []]))
       DEFAULT_AT_URL_FIELD at_url_value) DEFAULT_AT_URL_FIELD
  = doc (str "---" :: [str "title: Launch"; str "post: Hello"]
         ++ str "---" :: [str "Body"; []])
  /\ stripFrontmatterField
       (upsertFrontmatterField
          (doc (str "--- " :: [str "title: Launch"; str "post: Hello"]
                ++ str "---  " :: [str "Body"; []]))
          DEFAULT_AT_URL_FIELD at_url_value) DEFAULT_AT_URL_FIELD
     = doc (str "---" :: [str "title: Launch"; str "post: Hello"]
            ++ str "---" :: [str "Body"; []]).
Proof.
  split.
  - apply (strip_undoes_upsert (str "---") (str "---")
             [str "title: Launch"; str "post: Hello"]
             [str "Body"; []] DEFAULT_AT_URL_FIELD at_url_value);
      reflexivity.
  - apply (strip_undoes_upsert (str "--- ") (str "---  ")
             [str "title: Launch"; str "post: Hello"]
             [str "Body"; []] DEFAULT_AT_URL_FIELD at_url_value);
      reflexivity.
Defined.

(** X15.  Writing the marker touches nothing else.  On a document whose
    lines end in a bare line feed, and for a field name of one line, what
    [upsertFrontmatterField] writes has the content of the document after
    its block (the whole document when it had no block), the lines of its
    block that do not set the field, in their order, and the line
    [field: "value"] as the first line of the block that sets the field. *)
Theorem upsert_keeps_the_rest (markdown field value : jsstring) :
  noCRLF markdown = true ->
  noLF field = true ->
  bodyOf (upsertFrontmatterField markdown field value) = bodyOf markdown
  /\ filter (notKey field)
       (blockOf (upsertFrontmatterField markdown field value))
     = filter (notKey field) (blockOf markdown)
  /\ hd_error (keyLines field (upsertFrontmatterField markdown field value))
     = Some (field ++ str ": " ++ JSON_stringify value).
Proof.
  intros Hm Hfield. fold (rendered field value).
  pose proof (rendered_matches field value) as Ht.
  pose proof (rendered_notDelimiter field value) as Hd.
  unfold bodyOf, blockOf, keyLines.
  destruct (findBlock markdown) as [[block after]|] eqn:Hfind.
  - destruct (upsert_shape markdown field value block after Hm Hfield Hfind)
      as (first & closing & block' & -> & Hus & Hf & Hc & Hb' & Hblock' & _).
    rewrite (findBlock_join first closing block' after Hus Hf Hb' Hc).
    split; [reflexivity|].
    destruct (replaceFirstMatch field (rendered field value) block)
      as [replaced|] eqn:RM; subst block'.
    + split; [now apply (filter_notKey_replaced field _ block replaced Ht)|].
      now apply (first_key_replaced field _ block replaced Ht).
    + destruct (replaceFirstMatch_none field _ block Ht RM) as (_ & _ & H3).
      rewrite H3. split; [|reflexivity].
      rewrite filter_app. cbn [filter]. unfold notKey at 2. rewrite Ht.
      cbn [negb]. now rewrite app_nil_r.
  - destruct (upsert_shape_new markdown field value Hm Hfield Hfind)
      as (after & -> & Hus & Hj).
    rewrite (findBlock_join (str "---") (str "---") [rendered field value]
               after Hus eq_refl); [|cbn; now rewrite Hd|reflexivity].
    split; [exact Hj|]. cbn [filter]. unfold notKey. rewrite Ht.
    now split.
Qed.

Lemma upsert_keeps_the_rest_launch :
  bodyOf (upsertFrontmatterField launch_document DEFAULT_AT_URL_FIELD
            at_url_value) = bodyOf launch_document
  /\ filter (notKey DEFAULT_AT_URL_FIELD)
       (blockOf (upsertFrontmatterField launch_document DEFAULT_AT_URL_FIELD
                   at_url_value))
     = filter (notKey DEFAULT_AT_URL_FIELD) (blockOf launch_document)
  /\ hd_error (keyLines DEFAULT_AT_URL_FIELD
                 (upsertFrontmatterField launch_document DEFAULT_AT_URL_FIELD
                    at_url_value))
     = Some (DEFAULT_AT_URL_FIELD ++ str ": " ++ JSON_stringify at_url_value).
Proof.
  apply (upsert_keeps_the_rest launch_document DEFAULT_AT_URL_FIELD
           at_url_value); reflexivity.
Defined.



End MarkerTheorems.

(** * Removing the marker from any document *)

Section StripFacts.

Local Open Scope N_scope.
Import Aux Spec.

Lemma splitLines_noLF (s : jsstring) : forallb noLF (splitLines s) = true.
Proof.
  induction s as [|c s IH]; [reflexivity|].
  cbn [splitLines]. destruct (c =? LF) eqn:Hc; [exact IH|].
  destruct ((c =? CR) && _); [exact IH|].
  destruct (splitLines s) as [|w ws];
    [unfold noLF; cbn [forallb]; now rewrite Hc|].
  cbn [forallb] in *. apply andb_true_iff in IH as [Hw Hws].
  rewrite Hws, andb_true_r. unfold noLF in *. cbn [forallb].
  now rewrite Hc, Hw.
Qed.

Lemma dropCR_cons (c d : N) (line : jsstring) :
  dropCR (c :: d :: line) = c :: dropCR (d :: line).
Proof.
  unfold dropCR. change (endsCR (c :: d :: line)) with (endsCR (d :: line)).
  now destruct (endsCR (d :: line)).
Qed.

Lemma splitLines_line_any (line rest : jsstring) :
  noLF line = true ->
  splitLines (line ++ LF :: rest) = dropCR line :: splitLines rest.
Proof.
  induction line as [|c line IH]; [reflexivity|].
  unfold noLF. cbn [forallb]. intros H.
  apply andb_true_iff in H as [Hc Hl]. apply negb_true_iff in Hc.
  destruct line as [|d line].
  - cbn [app splitLines]. rewrite Hc, N.eqb_refl, andb_true_r.
    unfold dropCR. cbn [endsCR removelast].
    now destruct (c =? CR).
  - pose proof Hl as Hl'. cbn [forallb] in Hl.
    apply andb_true_iff in Hl as [Hd _]. apply negb_true_iff in Hd.
    change ((c :: d :: line) ++ LF :: rest)
      with (c :: ((d :: line) ++ LF :: rest)).
    rewrite splitLines_cons; [|exact Hc|cbn [app]; now rewrite Hd, andb_false_r].
    rewrite (IH Hl'). cbn [hd tl]. now rewrite dropCR_cons.
Qed.

Lemma splitLines_join_any (lines : list jsstring) :
  lines <> [] -> forallb noLF lines = true ->
  splitLines (join [LF] lines) = resplit lines.
Proof.
  induction lines as [|line rest IH]; [congruence|]. intros _ H.
  cbn [forallb] in H. apply andb_true_iff in H as [Hl Hrest].
  destruct rest as [|l rest].
  - cbn. now apply splitLines_one.
  - rewrite join_cons. change ([LF] ++ ?x) with (LF :: x).
    rewrite (splitLines_line_any line _ Hl), IH by (discriminate || assumption).
    reflexivity.
Qed.

Lemma resplit_app (xs ys : list jsstring) :
  ys <> [] -> resplit (xs ++ ys) = List.map dropCR xs ++ resplit ys.
Proof.
  intros Hy. induction xs as [|x xs IH]; [reflexivity|].
  cbn [app List.map]. rewrite <- IH.
  destruct (xs ++ ys) eqn:E; [|reflexivity].
  apply app_eq_nil in E as [_ E]. congruence.
Qed.

Lemma endsCR_last (line : jsstring) :
  endsCR line = true -> line = removelast line ++ [CR].
Proof.
  induction line as [|c line IH]; [discriminate|].
  destruct line as [|d line].
  - cbn. intros H. apply N.eqb_eq in H. now subst.
  - change (endsCR (c :: d :: line)) with (endsCR (d :: line)). intros H.
    change (removelast (c :: d :: line)) with (c :: removelast (d :: line)).
    cbn [app]. f_equal. now apply IH.
Qed.

Lemma isDelimiter_dropCR (line : jsstring) :
  isDelimiter (dropCR line) = isDelimiter line.
Proof.
  unfold dropCR. destruct (endsCR line) eqn:H; [|reflexivity].
  rewrite (endsCR_last line H) at 2. unfold isDelimiter.
  now rewrite trim_app_ws.
Qed.

Lemma dropWhile_app_keep (p : N -> bool) (a x : jsstring) (c : N) (r : jsstring) :
  dropWhile p a = c :: r -> dropWhile p (a ++ x) = c :: r ++ x.
Proof.
  induction a as [|y a IH]; [discriminate|]. cbn [app dropWhile].
  destruct (p y); [exact IH|]. now intros [= <- <-].
Qed.

(** A line that sets the field still does with something after it. *)
Lemma fieldPatternTest_app (field line x : jsstring) :
  fieldPatternTest field line = true ->
  fieldPatternTest field (line ++ x) = true.
Proof.
  unfold fieldPatternTest. intros H. apply andb_true_iff in H as [Hs Hc].
  rewrite (startsWith_app_l line field x Hs). cbn [andb].
  destruct (startsWith_inv line field Hs) as [r ->].
  rewrite <- app_assoc. rewrite skipn_app, skipn_all, Nat.sub_diag in *.
  cbn [app skipn] in *.
  destruct (dropWhile isWhitespace r) as [|c t] eqn:Hd; [discriminate|].
  rewrite (dropWhile_app_keep isWhitespace r x c t Hd).
  exact Hc.
Qed.

Lemma notKey_dropCR (field line : jsstring) :
  notKey field line = true -> notKey field (dropCR line) = true.
Proof.
  unfold notKey, dropCR. destruct (endsCR line) eqn:H; [|trivial].
  intros Hn. apply negb_true_iff in Hn. apply negb_true_iff.
  destruct (fieldPatternTest field (removelast line)) eqn:Hk; [|reflexivity].
  rewrite (endsCR_last line H), (fieldPatternTest_app _ _ [CR] Hk) in Hn.
  discriminate.
Qed.

Lemma single_line (s line : jsstring) :
  splitLines s = [line] -> line = s /\ noLF s = true.
Proof.
  revert line. induction s as [|c s IH]; intros line.
  - intros [= <-]. now split.
  - cbn [splitLines]. pose proof (splitLines_nonempty s) as Hne.
    destruct (c =? LF) eqn:Hc.
    + destruct (splitLines s); [congruence|discriminate].
    + destruct ((c =? CR) && _) eqn:Hcr.
      * destruct s as [|d s]; [now rewrite andb_false_r in Hcr|].
        apply andb_true_iff in Hcr as [_ Hd].
        cbn [splitLines]. rewrite Hd.
        pose proof (splitLines_nonempty s).
        destruct (splitLines s); [congruence|discriminate].
      * destruct (splitLines s) as [|w ws]; [congruence|].
        destruct ws; [|discriminate]. intros [= <-].
        destruct (IH w eq_refl) as [-> Hs]. split; [reflexivity|].
        unfold noLF in *. cbn [forallb]. now rewrite Hc, Hs.
Qed.

Lemma endsWith_cons (c : N) (s : jsstring) :
  s <> [] -> endsWith (c :: s) [LF] = endsWith s [LF].
Proof. intros H. now apply (endsWith_last_part [c] s LF). Qed.

(** A document that is not empty ends in a line feed exactly when its last
    line is empty. *)
Lemma endsWith_last_line (s : jsstring) :
  s <> [] -> endsWith s [LF] = isNil (last (splitLines s) []).
Proof.
  induction s as [|c s IH]; [congruence|]. intros _.
  destruct s as [|d s].
  - cbn [splitLines]. rewrite andb_false_r.
    change (endsWith [c] [LF]) with ((LF =? c) && true).
    rewrite andb_true_r, N.eqb_sym. now destruct (c =? LF).
  - rewrite endsWith_cons by discriminate. rewrite IH by discriminate.
    set (t := d :: s) in *.
    pose proof (splitLines_nonempty t) as Hne.
    cbn [splitLines]. destruct (c =? LF) eqn:Hc.
    + destruct (splitLines t); [congruence|reflexivity].
    + destruct ((c =? CR) && _); [reflexivity|].
      destruct (splitLines t) as [|w ws] eqn:Ht; [congruence|].
      destruct ws as [|w' ws]; [|reflexivity].
      destruct (single_line t w Ht) as [-> _]. reflexivity.
Qed.

Lemma endsWith_join_last (lines : list jsstring) (line : jsstring) :
  lines <> [] -> noLF line = true ->
  endsWith (join [LF] (lines ++ [line])) [LF] = isNil line.
Proof.
  intros Hne Hl. rewrite join_app by (assumption || discriminate).
  cbn [join]. destruct line as [|c line].
  - rewrite app_nil_r. apply endsWith_app.
  - rewrite app_assoc, endsWith_last_part by discriminate.
    now apply noLF_endsWith.
Qed.

Lemma last_app_cons (xs : list jsstring) (y : jsstring) (ys : list jsstring) :
  last (xs ++ y :: ys) [] = last (y :: ys) [].
Proof.
  induction xs as [|x xs IH]; [reflexivity|].
  cbn [app]. rewrite <- IH. now destruct (xs ++ y :: ys) eqn:E;
    [apply app_eq_nil in E as [_ E]|].
Qed.

Lemma forallb_last (P : jsstring -> bool) (l : list jsstring) (d : jsstring) :
  l <> [] -> forallb P l = true -> P (last l d) = true.
Proof.
  induction l as [|x l IH]; [congruence|]. intros _ H.
  cbn [forallb] in H. apply andb_true_iff in H as [Hx Hl].
  destruct l as [|y l]; [exact Hx|]. now apply IH.
Qed.

(** What [stripFrontmatterField] writes for a document with a block,
    whatever its line ends. *)
Lemma strip_shape_any (markdown field : jsstring) (block after : list jsstring) :
  findBlock markdown = Some (block, after) ->
  stripFrontmatterField markdown field
  = join [LF] (str "---" :: filter (notKey field) block ++ str "---" :: after)
  /\ forallb noLF (str "---" :: filter (notKey field) block
                   ++ str "---" :: after) = true.
Proof.
  intros Hfind.
  destruct (findBlock_inv markdown block after Hfind)
    as (first & closing & Hlines & Hf & Hb & Hc).
  pose proof (splitLines_noLF markdown) as Hno. rewrite Hlines in Hno.
  cbn [forallb] in Hno. apply andb_true_iff in Hno as [_ Hno].
  rewrite forallb_app in Hno. apply andb_true_iff in Hno as [Hblock Hrest].
  cbn [forallb] in Hrest. apply andb_true_iff in Hrest as [Hclosing Hafter].
  assert (Hall : forallb noLF (str "---" :: filter (notKey field) block
                               ++ str "---" :: after) = true).
  { cbn [forallb]. rewrite forallb_app. cbn [forallb].
    rewrite (forallb_filter_keep noLF _ block Hblock), Hafter. reflexivity. }
  split; [|exact Hall].
  unfold stripFrontmatterField. rewrite Hlines, Hf.
  unfold findBlock in Hfind. rewrite Hlines, Hf in Hfind. rewrite Hfind.
  fold (notKey field).
  set (rebuilt := join [LF]
         (str "---" :: filter (notKey field) block ++ str "---" :: after)).
  replace (endsWith markdown [LF]) with (endsWith rebuilt [LF]);
    [apply finalizeNewline_self|].
  assert (Hmd : markdown <> []).
  { intros ->. cbn in Hlines. injection Hlines as <- Hnil.
    discriminate. }
  rewrite (endsWith_last_line markdown Hmd), Hlines. unfold rebuilt.
  change (first :: block ++ closing :: after)
    with ((first :: block) ++ closing :: after).
  change (str "---" :: filter (notKey field) block ++ str "---" :: after)
    with ((str "---" :: filter (notKey field) block) ++ str "---" :: after).
  rewrite last_app_cons.
  destruct after as [|a after].
  - rewrite endsWith_join_last by (discriminate || reflexivity).
    cbn [last]. apply delimiter_nonempty in Hc. now destruct closing.
  - assert (Hex : exists init l, a :: after = init ++ [l])
      by (exists (removelast (a :: after)), (last (a :: after) []);
          apply app_removelast_last; discriminate).
    destruct Hex as [init [l Hex]].
    change (last (closing :: a :: after) []) with (last (a :: after) []).
    rewrite Hex, last_last.
    change ((str "---" :: filter (notKey field) block)
            ++ str "---" :: init ++ [l])
      with ((str "---" :: filter (notKey field) block)
            ++ (str "---" :: init) ++ [l]).
    rewrite app_assoc.
    apply endsWith_join_last; [discriminate|].
    rewrite Hex, forallb_app in Hafter.
    apply andb_true_iff in Hafter as [_ Hl]. cbn in Hl.
    now rewrite andb_true_r in Hl.
Qed.

Lemma forallb_map_dropCR (P : jsstring -> bool) (l : list jsstring) :
  (forall line, P line = true -> P (dropCR line) = true) ->
  forallb P l = true -> forallb P (List.map dropCR l) = true.
Proof.
  intros HP. induction l as [|x l IH]; [reflexivity|].
  cbn [forallb List.map]. intros H. apply andb_true_iff in H as [Hx Hl].
  now rewrite (HP x Hx), (IH Hl).
Qed.

Lemma filter_none (P : jsstring -> bool) (l : list jsstring) :
  forallb (fun x => negb (P x)) l = true -> filter P l = [].
Proof.
  induction l as [|x l IH]; [reflexivity|].
  cbn [forallb filter]. intros H. apply andb_true_iff in H as [Hx Hl].
  apply negb_true_iff in Hx. now rewrite Hx, (IH Hl).
Qed.

Lemma forallb_filter_self (P : jsstring -> bool) (l : list jsstring) :
  forallb P (filter P l) = true.
Proof.
  induction l as [|x l IH]; [reflexivity|]. cbn [filter].
  destruct (P x) eqn:Hx; [|exact IH]. cbn [forallb]. now rewrite Hx, IH.
Qed.

(** X17.  After [stripFrontmatterField] no line of the frontmatter block
    sets the field, whatever the document, its line ends and the field. *)
Theorem strip_leaves_no_key_line (markdown field : jsstring) :
  keyLines field (stripFrontmatterField markdown field) = [].
Proof.
  destruct (findBlock markdown) as [[block after]|] eqn:Hfind.
  - destruct (strip_shape_any markdown field block after Hfind)
      as (-> & Hall).
    unfold keyLines, findBlock.
    rewrite splitLines_join_any by (discriminate || assumption).
    change (str "---" :: filter (notKey field) block ++ str "---" :: after)
      with ((str "---" :: filter (notKey field) block) ++ str "---" :: after).
    rewrite resplit_app by discriminate.
    cbn [List.map]. change (dropCR (str "---")) with (str "---").
    cbn [app]. change (isDelimiter (str "---")) with true. cbv iota.
    assert (Hrest : exists after',
               resplit (str "---" :: after) = str "---" :: after').
    { destruct after as [|a after]; [now exists []|].
      now exists (resplit (a :: after)). }
    destruct Hrest as [after' ->].
    destruct (findBlock_inv markdown block after Hfind)
      as (first & closing & _ & _ & Hb & _).
    rewrite breakAtDelimiter_forget, breakAtDelimiter'_app;
      [|apply forallb_map_dropCR;
        [intros line; unfold notDelimiter; now rewrite isDelimiter_dropCR
        |now apply forallb_filter_keep]
      |reflexivity].
    apply filter_none. fold (notKey field).
    apply forallb_map_dropCR; [apply notKey_dropCR|apply forallb_filter_self].
  - rewrite (strip_without_block markdown field Hfind).
    unfold keyLines. now rewrite Hfind.
Qed.

End StripFacts.

(** * Writing the marker twice *)

Section UpsertTwice.

Local Open Scope N_scope.
Import Aux Spec.

(** Joining the lines of a text with line feeds gives a text that is no
    longer, and the text itself only if it holds no CR LF. *)
Lemma rejoin_length (s : jsstring) :
  (length (join [LF] (splitLines s)) <= length s)%nat.
Proof.
  induction s as [|c s IH]; [apply Nat.le_refl|].
  pose proof (splitLines_nonempty s) as Hne.
  cbn [splitLines]. destruct (c =? LF).
  - destruct (splitLines s) as [|w ws]; [congruence|].
    rewrite join_cons. cbn [app length] in *. lia.
  - destruct ((c =? CR) && _); [cbn [length]; lia|].
    destruct (splitLines s) as [|w ws]; [congruence|].
    destruct ws as [|w' ws]; cbn [join app length] in *; lia.
Qed.

Lemma rejoin_same (s : jsstring) :
  join [LF] (splitLines s) = s -> noCRLF s = true.
Proof.
  induction s as [|c s IH]; [reflexivity|].
  pose proof (splitLines_nonempty s) as Hne.
  cbn [splitLines noCRLF]. destruct (c =? LF) eqn:Hc.
  - destruct (splitLines s) as [|w ws] eqn:Hs; [congruence|].
    rewrite join_cons. cbn [app]. intros [= _ E].
    apply N.eqb_eq in Hc. subst c. cbn [N.eqb Pos.eqb andb negb].
    change (LF =? CR) with false. cbn [andb negb]. now apply IH.
  - destruct ((c =? CR) && _) eqn:Hcr.
    + intros E. pose proof (rejoin_length s) as Hlen.
      rewrite E in Hlen. cbn [length] in Hlen. lia.
    + cbn [negb andb]. destruct (splitLines s) as [|w ws] eqn:Hs; [congruence|].
      assert (E : join [LF] ((c :: w) :: ws) = c :: join [LF] (w :: ws))
        by now destruct ws.
      rewrite E. intros [= E']. now apply IH.
Qed.

Lemma rejoin_iff (s : jsstring) :
  join [LF] (splitLines s) = s <-> noCRLF s = true.
Proof. split; [apply rejoin_same|apply join_splitLines]. Qed.

(** Joining the lines keeps the line feed at the end, or its absence. *)
Lemma rejoin_endsWith (s : jsstring) :
  endsWith (join [LF] (splitLines s)) [LF] = endsWith s [LF].
Proof.
  destruct s as [|c s]; [reflexivity|].
  set (t := c :: s). assert (Ht : t <> []) by discriminate.
  rewrite (endsWith_last_line t Ht).
  pose proof (splitLines_nonempty t) as Hne.
  pose proof (splitLines_noLF t) as Hno.
  destruct (splitLines t) as [|w ws] eqn:Hs; [congruence|].
  destruct (@exists_last _ (w :: ws)) as (init & l & E); [discriminate|].
  rewrite E in *. rewrite last_last.
  rewrite forallb_app in Hno. apply andb_true_iff in Hno as [_ Hl].
  cbn [forallb] in Hl. rewrite andb_true_r in Hl.
  destruct init as [|i init].
  - cbn [app join]. cbn [app] in E. injection E as -> ->.
    destruct (single_line t l Hs) as [-> _].
    now rewrite (endsWith_last_line t Ht), Hs.
  - now apply endsWith_join_last.
Qed.

(** A line sets the field whether or not it keeps the carriage return at
    its end. *)
Lemma dropWhile_before_last (p : N -> bool) (t : jsstring) (c x : N)
  (r : jsstring) :
  p c = true -> dropWhile p (t ++ [c]) = x :: r ->
  exists r', dropWhile p t = x :: r'.
Proof.
  intros Hc. induction t as [|y t IH]; cbn [app dropWhile].
  - now rewrite Hc.
  - destruct (p y); [exact IH|]. intros [= -> _]. now exists t.
Qed.

Lemma fieldPatternTest_dropCR (field line : jsstring) :
  fieldPatternTest field (dropCR line) = fieldPatternTest field line.
Proof.
  destruct (fieldPatternTest field line) eqn:Hk.
  - unfold dropCR. destruct (endsCR line) eqn:Hcr; [|exact Hk].
    rewrite (endsCR_last line Hcr) in Hk. set (body := removelast line) in *.
    unfold fieldPatternTest in *. apply andb_true_iff in Hk as [Hs Hc].
    destruct (startsWith_inv _ _ Hs) as [tail E].
    destruct tail as [|x tail] using rev_ind.
    { rewrite app_nil_r in E. rewrite E in Hc.
      rewrite skipn_all in Hc. discriminate. }
    clear IHtail. rewrite app_assoc in E. apply app_inj_tail in E as [E <-].
    rewrite E in *. rewrite startsWith_app. cbn [andb].
    rewrite <- app_assoc in Hc.
    rewrite skipn_app, skipn_all, Nat.sub_diag in *. cbn [app skipn] in *.
    destruct (dropWhile isWhitespace (tail ++ [CR])) as [|y r] eqn:Hd;
      [discriminate|].
    destruct (dropWhile_before_last isWhitespace tail CR y r eq_refl Hd)
      as [r' ->].
    exact Hc.
  - apply negb_true_iff. apply (notKey_dropCR field line).
    unfold notKey. now rewrite Hk.
Qed.

Lemma replaceFirstMatch_dropCR (field r : jsstring) (block : list jsstring) :
  dropCR r = r ->
  replaceFirstMatch field r block = Some block ->
  replaceFirstMatch field r (List.map dropCR block)
  = Some (List.map dropCR block).
Proof.
  intros Hr. induction block as [|line block IH]; [discriminate|].
  cbn [replaceFirstMatch List.map]. rewrite fieldPatternTest_dropCR.
  destruct (fieldPatternTest field line).
  - intros [= ->]. now rewrite Hr.
  - destruct (replaceFirstMatch field r block) as [b|]; [|discriminate].
    intros [= ->]. now rewrite IH.
Qed.

Lemma filter_key_dropCR (field : jsstring) (block : list jsstring) :
  length (filter (fieldPatternTest field) (List.map dropCR block))
  = length (filter (fieldPatternTest field) block).
Proof.
  induction block as [|line block IH]; [reflexivity|].
  cbn [List.map filter]. rewrite fieldPatternTest_dropCR.
  destruct (fieldPatternTest field line); cbn [length]; now rewrite IH.
Qed.

Lemma join_split_LF (s : jsstring) : join [LF] (split LF s) = s.
Proof.
  induction s as [|c s IH]; [reflexivity|].
  pose proof (split_nonempty LF s) as Hne.
  cbn [split]. destruct (c =? LF) eqn:Hc.
  - apply N.eqb_eq in Hc. subst c.
    destruct (split LF s) as [|w ws]; [congruence|].
    rewrite join_cons, IH. reflexivity.
  - destruct (split LF s) as [|w ws]; [congruence|].
    assert (E : join [LF] ((c :: w) :: ws) = c :: join [LF] (w :: ws))
      by now destruct ws.
    now rewrite E, IH.
Qed.

Lemma split_LF_noLF (s : jsstring) : forallb noLF (split LF s) = true.
Proof.
  induction s as [|c s IH]; [reflexivity|].
  pose proof (split_nonempty LF s) as Hne.
  cbn [split]. destruct (c =? LF) eqn:Hc; [exact IH|].
  destruct (split LF s) as [|w ws]; [congruence|].
  cbn [forallb] in *. apply andb_true_iff in IH as [Hw Hws].
  unfold noLF in *. cbn [forallb]. now rewrite Hc, Hw, Hws.
Qed.

Section Calls.

Variables field value : jsstring.

Let r := rendered field value.

Let written (block : list jsstring) : list jsstring :=
  match replaceFirstMatch field r block with
  | Some replaced => replaced
  | None => block ++ [r]
  end.

(** What the call writes into a document with a block, whatever its line
    ends. *)
Lemma upsert_with_block (markdown : jsstring) (block after : list jsstring) :
  findBlock markdown = Some (block, after) ->
  exists first closing,
    splitLines markdown = first :: block ++ closing :: after
    /\ isDelimiter first = true /\ forallb notDelimiter block = true
    /\ isDelimiter closing = true
    /\ upsertFrontmatterField markdown field value
       = join [LF] (first :: written block ++ closing :: after).
Proof.
  intros Hfind.
  destruct (findBlock_inv markdown block after Hfind)
    as (first & closing & Hlines & Hf & Hb & Hc).
  exists first, closing. repeat split; try assumption.
  pose proof (splitLines_noLF markdown) as Hno. rewrite Hlines in Hno.
  cbn [forallb] in Hno. apply andb_true_iff in Hno as [_ Hno].
  rewrite forallb_app in Hno. apply andb_true_iff in Hno as [_ Hno].
  cbn [forallb] in Hno. apply andb_true_iff in Hno as [Hclosing _].
  unfold upsertFrontmatterField. rewrite Hlines, Hf.
  rewrite (breakAtDelimiter'_app block after closing Hb Hc).
  fold (rendered field value). fold r. fold (written block).
  rewrite <- (rejoin_endsWith markdown), Hlines.
  change (first :: block ++ closing :: after)
    with ((first :: block) ++ closing :: after).
  change (first :: written block ++ closing :: after)
    with ((first :: written block) ++ closing :: after).
  rewrite (endsWith_same_rest (first :: block) (first :: written block) after
             closing closing)
    by (assumption || now apply delimiter_nonempty).
  apply finalizeNewline_self.
Qed.

(** What the call writes before a document without a block. *)
Lemma upsert_without_block (markdown : jsstring) :
  findBlock markdown = None ->
  upsertFrontmatterField markdown field value
  = match markdown with
    | [] => join [LF] [str "---"; r; str "---"]
    | _ => join [LF] [str "---"; r; str "---"; markdown]
    end.
Proof.
  intros Hfind.
  assert (Hprefixed :
    upsertFrontmatterField markdown field value
    = finalizeNewline (join [LF] [str "---"; r; str "---"; markdown])
        (endsWith markdown [LF])).
  { unfold upsertFrontmatterField, findBlock in *.
    destruct (splitLines markdown) as [|first rest]; [reflexivity|].
    destruct (isDelimiter first); [|reflexivity].
    rewrite breakAtDelimiter_forget in Hfind.
    now destruct (breakAtDelimiter' rest) as [[[b c] a]|]. }
  rewrite Hprefixed. destruct markdown as [|c markdown].
  - change (join [LF] [str "---"; r; str "---"; []])
      with (str "---" ++ [LF] ++ r ++ [LF] ++ str "---" ++ [LF] ++ []).
    rewrite app_nil_r.
    replace (str "---" ++ [LF] ++ r ++ [LF] ++ str "---" ++ [LF])
      with ((str "---" ++ [LF] ++ r ++ [LF] ++ str "---") ++ [LF])
      by (now rewrite <- !app_assoc).
    unfold finalizeNewline.
    change (endsWith [] [LF]) with false. cbv iota.
    rewrite endsWith_app. apply (dropEnd_app _ [LF]).
  - set (md := c :: markdown) in *.
    change (join [LF] [str "---"; r; str "---"; md])
      with (str "---" ++ [LF] ++ r ++ [LF] ++ str "---" ++ [LF] ++ md).
    set (text := str "---" ++ [LF] ++ r ++ [LF] ++ str "---" ++ [LF] ++ md).
    replace (endsWith md [LF]) with (endsWith text [LF]);
      [apply finalizeNewline_self|].
    unfold text. rewrite !app_assoc. now apply endsWith_last_part.
Qed.

Hypothesis field_one_line : noLF field = true.

(** The lines of what the first call writes: a block whose first key line
    is the rendered one, with as many key lines as the block of the
    document had, or one if it had none. *)
Lemma upsert_once (markdown : jsstring) :
  exists first block closing after,
    upsertFrontmatterField markdown field value
    = join [LF] (first :: block ++ closing :: after)
    /\ forallb noLF (first :: block ++ closing :: after) = true
    /\ isDelimiter first = true /\ forallb notDelimiter block = true
    /\ isDelimiter closing = true
    /\ replaceFirstMatch field r block = Some block
    /\ length (filter (fieldPatternTest field) block)
       = Nat.max 1 (length (keyLines field markdown)).
Proof.
  assert (Hr : lineOK r = true) by (apply rendered_lineOK, field_one_line).
  pose proof Hr as Hr'. unfold lineOK in Hr'.
  apply andb_true_iff in Hr' as [Hrno _].
  assert (Hd : notDelimiter r = true) by apply rendered_notDelimiter.
  assert (Ht : fieldPatternTest field r = true) by apply rendered_matches.
  destruct (findBlock markdown) as [[block after]|] eqn:Hfind.
  - destruct (upsert_with_block markdown block after Hfind)
      as (first & closing & Hlines & Hf & Hb & Hc & Hu).
    pose proof (splitLines_noLF markdown) as Hno. rewrite Hlines in Hno.
    cbn [forallb] in Hno. apply andb_true_iff in Hno as [Hfirst Hno].
    rewrite forallb_app in Hno. apply andb_true_iff in Hno as [Hblock Hrest].
    assert (Hall : forall P : jsstring -> bool,
               P r = true -> forallb P block = true ->
               forallb P (written block) = true).
    { intros P HP HB. unfold written.
      destruct (replaceFirstMatch field r block) as [b|] eqn:RM.
      - destruct (replaceFirstMatch_some field r block b Ht RM)
          as (_ & _ & _ & H4).
        now apply H4.
      - rewrite forallb_app, HB. cbn. now rewrite HP. }
    exists first, (written block), closing, after.
    split; [exact Hu|]. split.
    { cbn [forallb]. rewrite forallb_app, Hfirst, (Hall noLF Hrno Hblock).
      exact Hrest. }
    split; [exact Hf|]. split; [now apply Hall|]. split; [exact Hc|].
    unfold keyLines. rewrite Hfind. unfold written.
    destruct (replaceFirstMatch field r block) as [b|] eqn:RM.
    + destruct (replaceFirstMatch_some field r block b Ht RM)
        as (H1 & H2 & H3 & _).
      split; [exact H1|]. rewrite H2.
      destruct (filter (fieldPatternTest field) block); [congruence|].
      cbn [length]. lia.
    + destruct (replaceFirstMatch_none field r block Ht RM) as (H1 & H2 & H3).
      split; [exact H2|]. now rewrite H3, H1.
  - rewrite (upsert_without_block markdown Hfind).
    unfold keyLines. rewrite Hfind. cbn [length Nat.max].
    assert (Hone : replaceFirstMatch field r [r] = Some [r])
      by (cbn; now rewrite Ht).
    assert (Hkey : length (filter (fieldPatternTest field) [r]) = 1%nat)
      by (cbn; now rewrite Ht).
    destruct markdown as [|c markdown].
    + exists (str "---"), [r], (str "---"), [].
      repeat split; try assumption; try reflexivity.
      * cbn [forallb app]. now rewrite Hrno.
      * cbn. now rewrite Hd.
    + set (md := c :: markdown) in *.
      exists (str "---"), [r], (str "---"), (split LF md).
      repeat split; try assumption; try reflexivity.
      * change (str "---" :: [r] ++ str "---" :: split LF md)
          with ([str "---"; r; str "---"] ++ split LF md).
        rewrite join_app by (try discriminate; apply split_nonempty).
        rewrite join_split_LF. cbn [join]. now rewrite <- !app_assoc.
      * cbn [forallb app]. rewrite Hrno, split_LF_noLF. reflexivity.
      * cbn. now rewrite Hd.
Qed.

(** The second call writes nothing new: it joins the lines of the
    document again. *)
Lemma upsert_rejoins (first closing : jsstring) (block after : list jsstring) :
  forallb noLF (first :: block ++ closing :: after) = true ->
  isDelimiter first = true -> forallb notDelimiter block = true ->
  isDelimiter closing = true ->
  replaceFirstMatch field r block = Some block ->
  let written := join [LF] (first :: block ++ closing :: after) in
  splitLines written
  = dropCR first :: List.map dropCR block ++ resplit (closing :: after)
  /\ upsertFrontmatterField written field value
     = join [LF] (splitLines written)
  /\ keyLines field written
     = filter (fieldPatternTest field) (List.map dropCR block).
Proof.
  intros Hno Hf Hb Hc Hrm doc0.
  assert (Hcr : dropCR r = r).
  { unfold dropCR. destruct (rendered_last field value) as [body E].
    fold r in E. rewrite E, endsCR_app_last. reflexivity. }
  assert (Hlines : splitLines doc0
                   = dropCR first :: List.map dropCR block
                     ++ resplit (closing :: after)).
  { unfold doc0. rewrite splitLines_join_any by (discriminate || assumption).
    change (first :: block ++ closing :: after)
      with ((first :: block) ++ closing :: after).
    now rewrite resplit_app by discriminate. }
  assert (Hrest : exists closing' after',
             resplit (closing :: after) = closing' :: after'
             /\ isDelimiter closing' = true).
  { destruct after as [|a after].
    - now exists closing, [].
    - exists (dropCR closing), (resplit (a :: after)).
      split; [reflexivity|]. now rewrite isDelimiter_dropCR. }
  destruct Hrest as (closing' & after' & Hrest & Hc').
  assert (Hb' : forallb notDelimiter (List.map dropCR block) = true).
  { apply forallb_map_dropCR; [|exact Hb].
    intros line. unfold notDelimiter. now rewrite isDelimiter_dropCR. }
  split; [exact Hlines|]. split.
  - unfold upsertFrontmatterField. rewrite Hlines, Hrest.
    rewrite isDelimiter_dropCR, Hf.
    rewrite (breakAtDelimiter'_app _ after' closing' Hb' Hc').
    fold (rendered field value). fold r.
    rewrite (replaceFirstMatch_dropCR field r block Hcr Hrm).
    rewrite <- (rejoin_endsWith doc0), Hlines, Hrest.
    apply finalizeNewline_self.
  - unfold keyLines, findBlock. rewrite Hlines, Hrest.
    rewrite isDelimiter_dropCR, Hf, breakAtDelimiter_forget.
    now rewrite (breakAtDelimiter'_app _ after' closing' Hb' Hc').
Qed.

End Calls.

(** A call that finds no key line makes the document longer by a line:
    this is what every call does for a field name of several lines, which
    no line can begin with. *)
Lemma lineFeeds_app (a b : jsstring) :
  lineFeeds (a ++ b) = (lineFeeds a + lineFeeds b)%nat.
Proof. unfold lineFeeds. now rewrite filter_app, length_app. Qed.

Lemma lineFeeds_noLF (line : jsstring) : noLF line = true -> lineFeeds line = O.
Proof.
  unfold noLF, lineFeeds. induction line as [|c line IH]; [reflexivity|].
  cbn [forallb filter]. intros H. apply andb_true_iff in H as [Hc Hl].
  apply negb_true_iff in Hc. rewrite Hc. now apply IH.
Qed.

Lemma lineFeeds_join (lines : list jsstring) :
  lines <> [] ->
  (lineFeeds (join [LF] lines) + 1
   = list_sum (List.map lineFeeds lines) + length lines)%nat.
Proof.
  induction lines as [|line rest IH]; [congruence|]. intros _.
  destruct rest as [|l rest].
  - cbn [join List.map list_sum fold_right length]. lia.
  - rewrite join_cons, !lineFeeds_app.
    change (lineFeeds [LF]) with 1%nat.
    specialize (IH ltac:(discriminate)).
    cbn [List.map list_sum fold_right length] in *. lia.
Qed.

Lemma lineFeeds_rejoin (s : jsstring) :
  lineFeeds (join [LF] (splitLines s)) = lineFeeds s.
Proof.
  induction s as [|c s IH]; [reflexivity|].
  pose proof (splitLines_nonempty s) as Hne.
  cbn [splitLines]. destruct (c =? LF) eqn:Hc.
  - destruct (splitLines s) as [|w ws]; [congruence|].
    rewrite join_cons. unfold lineFeeds in *. cbn [app filter].
    rewrite Hc. change (LF =? LF) with true. cbn [length]. now rewrite IH.
  - destruct ((c =? CR) && _).
    + unfold lineFeeds in *. cbn [filter]. now rewrite Hc.
    + destruct (splitLines s) as [|w ws]; [congruence|].
      assert (E : join [LF] ((c :: w) :: ws) = c :: join [LF] (w :: ws))
        by now destruct ws.
      rewrite E. unfold lineFeeds in *. cbn [filter]. now rewrite Hc.
Qed.

Lemma sum_lineFeeds_noLF (lines : list jsstring) :
  forallb noLF lines = true -> list_sum (List.map lineFeeds lines) = O.
Proof.
  induction lines as [|line lines IH]; [reflexivity|].
  cbn [forallb List.map]. intros H.
  apply andb_true_iff in H as [Hl Hls].
  change (list_sum (lineFeeds line :: List.map lineFeeds lines))
    with (lineFeeds line + list_sum (List.map lineFeeds lines))%nat.
  now rewrite (lineFeeds_noLF line Hl), (IH Hls).
Qed.

Lemma not_key_of_line (field line : jsstring) :
  noLF field = false -> noLF line = true -> notKey field line = true.
Proof.
  intros Hf Hl. unfold notKey, fieldPatternTest.
  destruct (startsWith line field) eqn:Hs; [|reflexivity].
  destruct (startsWith_inv _ _ Hs) as [tail ->].
  rewrite noLF_app, Hf in Hl. discriminate.
Qed.

Lemma upsert_adds_a_line (markdown field value : jsstring) :
  noLF field = false ->
  (lineFeeds markdown
   < lineFeeds (upsertFrontmatterField markdown field value))%nat.
Proof.
  intros Hf. set (r := rendered field value).
  destruct (findBlock markdown) as [[block after]|] eqn:Hfind.
  - destruct (upsert_with_block field value markdown block after Hfind)
      as (first & closing & Hlines & _ & _ & _ & ->).
    pose proof (splitLines_noLF markdown) as Hno. rewrite Hlines in Hno.
    assert (Hblock : forallb (notKey field) block = true).
    { cbn [forallb] in Hno. apply andb_true_iff in Hno as [_ Hno].
      rewrite forallb_app in Hno. apply andb_true_iff in Hno as [Hb _].
      rewrite forallb_forall in *. intros line Hin.
      apply (not_key_of_line field line Hf), Hb, Hin. }
    rewrite (replaceFirstMatch_no_key field _ block Hblock).
    rewrite <- (lineFeeds_rejoin markdown), Hlines.
    pose proof (lineFeeds_join (first :: block ++ closing :: after)
                  ltac:(discriminate)) as H1.
    pose proof (lineFeeds_join
                  (first :: (block ++ [rendered field value])
                   ++ closing :: after) ltac:(discriminate)) as H2.
    rewrite (sum_lineFeeds_noLF _ Hno) in H1.
    assert (Hlen : length (first :: (block ++ [rendered field value])
                           ++ closing :: after)
                   = S (length (first :: block ++ closing :: after))).
    { cbn [length]. rewrite !length_app. cbn [length]. lia. }
    rewrite Hlen in H2. lia.
  - rewrite (upsert_without_block field value markdown Hfind).
    destruct markdown as [|c markdown].
    + unfold lineFeeds. cbn [join app filter length].
      rewrite filter_app, length_app. cbn. lia.
    + cbn [join]. rewrite !lineFeeds_app.
      change (lineFeeds [LF]) with 1%nat. lia.
Qed.

Lemma noCRLF_after_line (line rest : jsstring) :
  noLF line = true -> endsCR line = false ->
  noCRLF (line ++ LF :: rest) = noCRLF rest.
Proof.
  intros Hl Hcr. induction line as [|c line IH]; [reflexivity|].
  unfold noLF in Hl. cbn [forallb] in Hl.
  apply andb_true_iff in Hl as [_ Hl].
  cbn [app noCRLF]. destruct line as [|d line].
  - cbn [app]. cbn [endsCR] in Hcr. rewrite Hcr. cbn [andb negb].
    apply (IH Hl eq_refl).
  - cbn [forallb] in Hl. pose proof Hl as Hl'.
    apply andb_true_iff in Hl as [Hd _]. apply negb_true_iff in Hd.
    cbn [app]. rewrite Hd, andb_false_r. cbn [negb andb].
    apply (IH Hl' Hcr).
Qed.

Section LineEnds.

Variables markdown field value : jsstring.

Hypothesis field_one_line : noLF field = true.

Let once := upsertFrontmatterField markdown field value.

Lemma upsert_twice_rejoins :
  upsertFrontmatterField once field value = join [LF] (splitLines once).
Proof.
  destruct (upsert_once field value field_one_line markdown)
    as (first & block & closing & after & E & Hno & Hf & Hb & Hc & Hrm & _).
  unfold once. rewrite E.
  now destruct (upsert_rejoins field value first closing block after
                  Hno Hf Hb Hc Hrm) as (_ & H & _).
Qed.

Lemma upsert_key_lines :
  length (keyLines field once) = Nat.max 1 (length (keyLines field markdown)).
Proof.
  destruct (upsert_once field value field_one_line markdown)
    as (first & block & closing & after & E & Hno & Hf & Hb & Hc & Hrm & Hn).
  unfold once. rewrite E.
  destruct (upsert_rejoins field value first closing block after
              Hno Hf Hb Hc Hrm) as (_ & _ & ->).
  now rewrite filter_key_dropCR.
Qed.

Lemma upsert_stable_block :
  findBlock markdown <> None -> stableLines (splitLines markdown) = true ->
  noCRLF once = true.
Proof.
  intros Hfind Hs.
  destruct (findBlock markdown) as [[block after]|] eqn:Hblock; [|congruence].
  destruct (upsert_with_block field value markdown block after Hblock)
    as (first & closing & Hlines & _ & _ & _ & E).
  unfold once. rewrite E. apply noCRLF_join.
  rewrite Hlines in Hs.
  change (first :: block ++ closing :: after)
    with ((first :: block) ++ closing :: after) in Hs.
  rewrite stableLines_app in Hs by discriminate.
  apply andb_true_iff in Hs as [Hxs Hrest].
  cbn [forallb] in Hxs. apply andb_true_iff in Hxs as [Hfirst Hblock'].
  match goal with
  | |- stableLines (first :: ?written ++ closing :: after) = true =>
      change (first :: written ++ closing :: after)
        with ((first :: written) ++ closing :: after);
      rewrite stableLines_app by discriminate;
      cbn [forallb]; rewrite Hfirst, Hrest;
      assert (Hw : forallb lineOK written = true)
  end.
  { pose proof (rendered_lineOK field value field_one_line) as Hr.
    pose proof (rendered_matches field value) as Ht.
    fold (rendered field value).
    destruct (replaceFirstMatch field (rendered field value) block)
      as [b|] eqn:RM.
    - destruct (replaceFirstMatch_some field _ block b Ht RM)
        as (_ & _ & _ & H4).
      now apply H4.
    - rewrite forallb_app, Hblock'. cbn. now rewrite Hr. }
  now rewrite Hw.
Qed.

Lemma upsert_new_block :
  findBlock markdown = None -> noCRLF once = noCRLF markdown.
Proof.
  intros Hfind. unfold once.
  rewrite (upsert_without_block field value markdown Hfind).
  pose proof (rendered_lineOK field value field_one_line) as Hr.
  unfold lineOK in Hr. apply andb_true_iff in Hr as [Hrno Hrcr].
  apply negb_true_iff in Hrcr.
  destruct markdown as [|c md].
  - apply noCRLF_join.
    change [str "---"; rendered field value; str "---"]
      with ([str "---"; rendered field value] ++ [str "---"]).
    rewrite stableLines_app by discriminate. cbn [forallb].
    unfold lineOK. now rewrite Hrno, Hrcr.
  - change (join [LF] [str "---"; rendered field value; str "---"; c :: md])
      with (str "---" ++ LF :: rendered field value
            ++ LF :: str "---" ++ LF :: c :: md).
    rewrite (noCRLF_after_line (str "---")) by reflexivity.
    rewrite (noCRLF_after_line (rendered field value)) by assumption.
    now rewrite (noCRLF_after_line (str "---")) by reflexivity.
Qed.

Lemma upsert_plain :
  noCRLF markdown = true -> noCRLF once = true.
Proof.
  intros Hm. destruct (findBlock markdown) as [found|] eqn:Hfind.
  - apply upsert_stable_block; [congruence|].
    now apply stableLines_splitLines.
  - now rewrite (upsert_new_block Hfind).
Qed.

End LineEnds.

End UpsertTwice.

(** C7, as amended: [upsertFrontmatterField] applied twice gives what it
    gives applied once exactly when the field name is one line and what the
    first call gives holds no CR LF; the second call then only writes the
    line ends again, as line feeds.  For a field name of one line this is
    so for every document whose lines end in a bare line feed, and for
    every document with a block, the line ends of Windows included, whose
    lines keep no carriage return at their end once they are split; for a
    document without a block it is so only if the document holds no CR LF.
    And it adds no key line to a block that has one: the block of the
    result holds as many key lines as the block of the document did, and
    one if that held none or was missing. *)
Theorem upsert_idempotent (markdown field value : jsstring) :
  (upsertFrontmatterField (upsertFrontmatterField markdown field value)
     field value
   = upsertFrontmatterField markdown field value
   <-> Spec.noLF field = true
       /\ Spec.noCRLF (upsertFrontmatterField markdown field value) = true)
  /\ (Spec.noLF field = true ->
      upsertFrontmatterField (upsertFrontmatterField markdown field value)
        field value
      = join [LF] (splitLines (upsertFrontmatterField markdown field value))
      /\ (Spec.noCRLF markdown = true ->
          Spec.noCRLF (upsertFrontmatterField markdown field value) = true)
      /\ (findBlock markdown <> None ->
          Aux.stableLines (splitLines markdown) = true ->
          Spec.noCRLF (upsertFrontmatterField markdown field value) = true)
      /\ (findBlock markdown = None ->
          Spec.noCRLF (upsertFrontmatterField markdown field value)
          = Spec.noCRLF markdown)
      /\ length (keyLines field (upsertFrontmatterField markdown field value))
         = Nat.max 1 (length (keyLines field markdown))).
Proof.
  split.
  - split.
    + intros Hsame.
      destruct (Spec.noLF field) eqn:Hf.
      * split; [reflexivity|]. apply rejoin_same.
        now rewrite <- (upsert_twice_rejoins markdown field value Hf).
      * pose proof (upsert_adds_a_line
                      (upsertFrontmatterField markdown field value)
                      field value Hf) as Hlong.
        rewrite Hsame in Hlong. lia.
    + intros [Hf Hplain].
      rewrite (upsert_twice_rejoins markdown field value Hf).
      now apply join_splitLines.
  - intros Hf.
    split; [apply (upsert_twice_rejoins markdown field value Hf)|].
    split; [apply (upsert_plain markdown field value Hf)|].
    split; [apply (upsert_stable_block markdown field value Hf)|].
    split; [apply (upsert_new_block markdown field value Hf)|].
    apply (upsert_key_lines markdown field value Hf).
Qed.

(** The document of the tests: the marker is written once, with the line
    ends of Unix and with those of Windows. *)
Lemma upsert_idempotent_launch :
  upsertFrontmatterField
    (upsertFrontmatterField launch_document DEFAULT_AT_URL_FIELD at_url_value)
    DEFAULT_AT_URL_FIELD at_url_value
  = upsertFrontmatterField launch_document DEFAULT_AT_URL_FIELD at_url_value
  /\ upsertFrontmatterField
       (upsertFrontmatterField windows_launch_document DEFAULT_AT_URL_FIELD
          at_url_value)
       DEFAULT_AT_URL_FIELD at_url_value
     = upsertFrontmatterField windows_launch_document DEFAULT_AT_URL_FIELD
         at_url_value
  /\ length (keyLines DEFAULT_AT_URL_FIELD
               (upsertFrontmatterField launch_document DEFAULT_AT_URL_FIELD
                  at_url_value)) = 1.
Proof.
  destruct (upsert_idempotent launch_document DEFAULT_AT_URL_FIELD
              at_url_value) as [Hunix Hline].
  destruct (upsert_idempotent windows_launch_document DEFAULT_AT_URL_FIELD
              at_url_value) as [Hwindows Hblock].
  destruct (Hline eq_refl) as (_ & Hplain & _ & _ & Hkeys).
  destruct (Hblock eq_refl) as (_ & _ & Hstable & _).
  split; [|split].
  - apply Hunix. split; [reflexivity|]. now apply Hplain.
  - apply Hwindows. split; [reflexivity|].
    apply Hstable; [discriminate|reflexivity].
  - rewrite Hkeys. reflexivity.
Defined.

(** C7, as stated, fails three times.  A document with the line ends of
    Windows and no frontmatter keeps them under the first call and loses
    them under the second; a block that holds the key twice still holds it
    twice; and a field name of two lines is never found again, so that every
    call adds it once more. *)
Lemma upsert_not_idempotent :
  seqb (upsertFrontmatterField
          (upsertFrontmatterField windows_document DEFAULT_AT_URL_FIELD
             at_url_value) DEFAULT_AT_URL_FIELD at_url_value)
       (upsertFrontmatterField windows_document DEFAULT_AT_URL_FIELD
          at_url_value) = false
  /\ length (keyLines DEFAULT_AT_URL_FIELD
               (upsertFrontmatterField twice_marked_document
                  DEFAULT_AT_URL_FIELD at_url_value)) = 2
  /\ seqb (upsertFrontmatterField
             (upsertFrontmatterField launch_document two_line_field
                at_url_value) two_line_field at_url_value)
          (upsertFrontmatterField launch_document two_line_field at_url_value)
     = false.
Proof. repeat split. Qed.

(** * The [.env] file *)

Section DotEnvFacts.

Local Open Scope N_scope.
Import Aux Spec.

Lemma parseLine_entry (env : Env) (rawLine : jsstring) :
  parseLine env rawLine
  = match entryOf rawLine with
    | Some (key, value) => assign key value env
    | None => env
    end.
Proof.
  unfold parseLine, entryOf.
  destruct (negb (nonEmpty (trim rawLine)) || _); [reflexivity|].
  destruct (dropWhile notSeparator (trim rawLine)); [reflexivity|].
  now destruct (trim (takeWhile notSeparator (trim rawLine))).
Qed.

Lemma parseLine_trim (env : Env) (rawLine : jsstring) :
  parseLine env (trim rawLine) = parseLine env rawLine.
Proof. unfold parseLine. now rewrite trim_idem. Qed.

Lemma fold_parseLine_trim (lines : list jsstring) (env : Env) :
  fold_left parseLine (List.map trim lines) env = fold_left parseLine lines env.
Proof.
  revert env. induction lines as [|line lines IH]; intros env; [reflexivity|].
  cbn [List.map fold_left]. now rewrite parseLine_trim, IH.
Qed.

Lemma trim_dropCR (line : jsstring) : trim (dropCR line) = trim line.
Proof.
  unfold dropCR. destruct (endsCR line) eqn:H; [|reflexivity].
  rewrite (endsCR_last line H) at 2. now rewrite trim_app_ws.
Qed.

(** The lines of two texts joined by a line feed: the last line of the
    first text loses the carriage return at its end. *)
Lemma splitLines_app_LF (a b : jsstring) :
  splitLines (a ++ LF :: b)
  = removelast (splitLines a) ++ dropCR (last (splitLines a) []) :: splitLines b.
Proof.
  induction a as [|c a IH]; [reflexivity|].
  pose proof (splitLines_nonempty a) as Hne.
  destruct a as [|d a].
  - cbn [app splitLines]. rewrite N.eqb_refl, andb_true_r, andb_false_r.
    destruct (c =? LF) eqn:Hc; [reflexivity|].
    unfold dropCR. cbn [removelast last endsCR app].
    now destruct (c =? CR).
  - set (t := d :: a) in *.
    change (splitLines ((c :: t) ++ LF :: b))
      with (if c =? LF then [] :: splitLines (t ++ LF :: b)
            else if (c =? CR) && (d =? LF) then splitLines (t ++ LF :: b)
            else match splitLines (t ++ LF :: b) with
                 | [] => [[c]]
                 | w :: ws => (c :: w) :: ws
                 end).
    change (splitLines (c :: t))
      with (if c =? LF then [] :: splitLines t
            else if (c =? CR) && (d =? LF) then splitLines t
            else match splitLines t with
                 | [] => [[c]]
                 | w :: ws => (c :: w) :: ws
                 end).
    rewrite IH.
    destruct (c =? LF).
    + destruct (splitLines t) as [|w ws]; [congruence|]. reflexivity.
    + destruct ((c =? CR) && (d =? LF)); [reflexivity|].
      destruct (splitLines t) as [|w ws] eqn:Ht; [congruence|].
      destruct ws as [|w' ws].
      * destruct (single_line t w Ht) as [-> _]. unfold t.
        cbn [removelast last app]. now rewrite dropCR_cons.
      * reflexivity.
Qed.

Lemma map_trim_app_LF (a b : jsstring) :
  List.map trim (splitLines (a ++ LF :: b))
  = List.map trim (splitLines a) ++ List.map trim (splitLines b).
Proof.
  rewrite splitLines_app_LF, map_app. cbn [List.map]. rewrite trim_dropCR.
  rewrite (app_removelast_last [] (splitLines_nonempty a)) at 3.
  rewrite map_app. cbn [List.map]. now rewrite <- app_assoc.
Qed.

Lemma parseDotEnv_app (a b : jsstring) :
  parseDotEnv (a ++ LF :: b)
  = fold_left parseLine (splitLines b) (parseDotEnv a).
Proof.
  unfold parseDotEnv. rewrite <- fold_parseLine_trim, map_trim_app_LF.
  rewrite fold_left_app, !fold_parseLine_trim. reflexivity.
Qed.

Lemma seqb_trans_false (k key k' : jsstring) :
  seqb key k' = true -> seqb k k' = seqb k key.
Proof. intros H. apply seqb_eq in H. now subst. Qed.

Lemma lookupEnv_setEnv (k key value : jsstring) (env : Env) :
  lookupEnv k (setEnv key value env)
  = if seqb k key then Some value else lookupEnv k env.
Proof.
  induction env as [|[k' v'] env IH].
  - cbn. reflexivity.
  - cbn [setEnv lookupEnv]. destruct (seqb key k') eqn:Hk.
    + cbn [lookupEnv]. rewrite (seqb_trans_false k key k' Hk).
      now destruct (seqb k key).
    + cbn [lookupEnv]. destruct (seqb k k') eqn:Hk'; [|exact IH].
      destruct (seqb k key) eqn:Hkk; [|reflexivity].
      apply seqb_eq in Hkk, Hk'. subst. now rewrite seqb_refl in Hk.
Qed.

Lemma lookupEnv_parseLine (k rawLine : jsstring) (env : Env) :
  lookupEnv k (parseLine env rawLine)
  = match lookupEnv k (parseLine [] rawLine) with
    | Some v => Some v
    | None => lookupEnv k env
    end.
Proof.
  rewrite !parseLine_entry.
  destruct (entryOf rawLine) as [[key value]|]; [|reflexivity].
  unfold assign. destruct (seqb key (str "__proto__")); [reflexivity|].
  rewrite !lookupEnv_setEnv. now destruct (seqb k key).
Qed.

Lemma lookupEnv_fold (k : jsstring) (lines : list jsstring) (env : Env) :
  lookupEnv k (fold_left parseLine lines env)
  = match lookupEnv k (fold_left parseLine lines []) with
    | Some v => Some v
    | None => lookupEnv k env
    end.
Proof.
  revert env. induction lines as [|line lines IH]; intros env; [reflexivity|].
  cbn [fold_left]. rewrite (IH (parseLine env line)), (IH (parseLine [] line)).
  destruct (lookupEnv k (fold_left parseLine lines [])); [reflexivity|].
  apply lookupEnv_parseLine.
Qed.

(** X18.  A [.env] file is read line by line and a later line wins: what
    a name has after two texts joined by a line feed is what the second
    text gives it, and what the first gives it when the second does not
    set it. *)
Theorem parseDotEnv_later_wins (first second key : jsstring) :
  lookupEnv key (parseDotEnv (first ++ [LF] ++ second))
  = match lookupEnv key (parseDotEnv second) with
    | Some value => Some value
    | None => lookupEnv key (parseDotEnv first)
    end.
Proof.
  change (first ++ [LF] ++ second) with (first ++ LF :: second).
  rewrite parseDotEnv_app. apply lookupEnv_fold.
Qed.

Lemma trim_head (s : jsstring) (c : N) (r : jsstring) :
  trim s = c :: r -> isWhitespace c = false.
Proof.
  unfold trim, trimEnd, trimStart. intros H.
  destruct (dropWhileEnd_head isWhitespace _ c r H) as [r' Hr'].
  now apply (dropWhile_head isWhitespace s c r').
Qed.

Lemma trim_app_blank (s t : jsstring) :
  forallb isWhitespace t = true -> trim (s ++ t) = trim s.
Proof.
  revert s. induction t as [|c t IH]; intros s H.
  - now rewrite app_nil_r.
  - cbn [forallb] in H. apply andb_true_iff in H as [Hc Ht].
    change (s ++ c :: t) with (s ++ [c] ++ t). rewrite app_assoc.
    rewrite (IH (s ++ [c]) Ht). now apply trim_app_ws.
Qed.

Lemma trim_trimEnd (s : jsstring) : trim (trimEnd s) = trim s.
Proof.
  destruct (dropWhileEnd_split isWhitespace s) as [t [Hs Ht]].
  unfold trimEnd. rewrite Hs at 2. now rewrite trim_app_blank.
Qed.

(** A text that begins with a character that is no white space keeps its
    beginning under [trim]. *)
Lemma trim_keeps_start (a b : jsstring) (c : N) (r : jsstring) :
  a = c :: r -> isWhitespace c = false ->
  forall x, isWhitespace x = false ->
  trim (a ++ x :: b) = a ++ x :: trimEnd b.
Proof.
  intros -> Hc x Hx. unfold trim, trimStart, trimEnd.
  cbn [app dropWhile]. rewrite Hc.
  change (c :: r ++ x :: b) with ((c :: r) ++ x :: b).
  rewrite dropWhileEnd_app. cbn [dropWhileEnd].
  destruct (dropWhileEnd isWhitespace b); [now rewrite Hx|reflexivity].
Qed.

Lemma isKey_inv (key : jsstring) :
  isKey key = true ->
  key <> [] /\ trim key = key /\ forallb notSeparator key = true
  /\ noLF key = true /\ startsWith key (str "#") = false
  /\ seqb key (str "__proto__") = false.
Proof.
  unfold isKey. intros H.
  repeat (apply andb_true_iff in H as [H ?]).
  repeat split; try assumption.
  - intros ->. discriminate.
  - now apply seqb_eq.
  - now apply negb_true_iff.
  - now apply negb_true_iff.
Qed.

(** What a line [key=rest] assigns. *)
Lemma entryOf_assignment (key rest : jsstring) :
  isKey key = true ->
  entryOf (key ++ str "=" ++ rest) = Some (key, assignedValue (trim rest)).
Proof.
  intros Hkey.
  destruct (isKey_inv key Hkey) as (Hne & Htrim & Hsep & _ & Hhash & _).
  destruct key as [|c r] eqn:Ek; [congruence|]. rewrite <- Ek in *.
  assert (Hc : isWhitespace c = false).
  { apply (trim_head key c r). now rewrite Htrim. }
  unfold entryOf. change (str "=" ++ rest) with (61 :: rest).
  rewrite (trim_keeps_start key rest c r Ek Hc 61 eq_refl).
  assert (Hstart : startsWith (key ++ 61 :: trimEnd rest) (str "#") = false).
  { rewrite Ek in *. exact Hhash. }
  rewrite Hstart.
  assert (Hnon : nonEmpty (key ++ 61 :: trimEnd rest) = true)
    by now rewrite Ek.
  rewrite Hnon. cbn [negb orb].
  destruct (takeWhile_until notSeparator key 61 (trimEnd rest) Hsep eq_refl)
    as [-> ->].
  rewrite Htrim, trim_trimEnd. now rewrite Ek.
Qed.

Lemma parseDotEnv_one (line : jsstring) :
  noLF line = true -> parseDotEnv line = parseLine [] line.
Proof.
  intros H. unfold parseDotEnv. now rewrite (splitLines_one line H).
Qed.

Lemma parseDotEnv_assignment (key rest : jsstring) :
  isKey key = true -> noLF rest = true ->
  parseDotEnv (key ++ str "=" ++ rest)
  = [(key, assignedValue (trim rest))].
Proof.
  intros Hkey Hrest.
  destruct (isKey_inv key Hkey) as (_ & _ & _ & Hno & _ & Hproto).
  rewrite parseDotEnv_one by (rewrite !noLF_app, Hno, Hrest; reflexivity).
  rewrite parseLine_entry, (entryOf_assignment key rest Hkey).
  unfold assign. now rewrite Hproto.
Qed.

Lemma isBare_inv (value : jsstring) :
  isBare value = true ->
  trim value = value /\ noLF value = true
  /\ startsWith value [34] = false /\ startsWith value [39] = false
  /\ beforeComment value = None.
Proof.
  unfold isBare. intros H.
  repeat (apply andb_true_iff in H as [H ?]).
  repeat split; try assumption.
  - now apply seqb_eq.
  - now apply negb_true_iff.
  - now apply negb_true_iff.
  - now destruct (beforeComment value).
Qed.

Lemma isQuotedBy_start (quote : N) (value : jsstring) :
  startsWith value [quote] = false -> isQuotedBy quote value = false.
Proof. unfold isQuotedBy. now intros ->. Qed.

Lemma beforeComment_tail (x : N) (value : jsstring) :
  beforeComment (x :: value) = None -> beforeComment value = None.
Proof.
  destruct value as [|y value]; [reflexivity|].
  cbn [beforeComment]. destruct ((x =? 32) && (y =? 35)); [discriminate|].
  destruct value as [|z value]; [reflexivity|].
  destruct ((y =? 32) && (z =? 35)); [discriminate|].
  now destruct (beforeComment (z :: value)).
Qed.

Lemma beforeComment_found (value comment : jsstring) :
  beforeComment value = None ->
  beforeComment (value ++ 32 :: 35 :: comment) = Some value.
Proof.
  induction value as [|x value IH]; [reflexivity|]. intros H.
  pose proof (beforeComment_tail x value H) as Htail.
  destruct value as [|y value].
  - cbn [app beforeComment]. rewrite andb_false_r. reflexivity.
  - cbn [app]. cbn [app] in IH.
    change (beforeComment (x :: y :: value ++ 32 :: 35 :: comment))
      with (if (x =? 32) && (y =? 35) then Some []
            else option_map (cons x)
                   (beforeComment (y :: value ++ 32 :: 35 :: comment))).
    change (beforeComment (x :: y :: value))
      with (if (x =? 32) && (y =? 35) then Some []
            else option_map (cons x) (beforeComment (y :: value))) in H.
    destruct ((x =? 32) && (y =? 35)); [discriminate|].
    now rewrite (IH Htail).
Qed.

(** X19.  A plain assignment.  For a name [isKey] accepts and a value
    written without quotes, the line [key=value] gives the name that value;
    and when the value is not empty, so does the line with a comment after
    the value, behind a space and a [#]. *)
Theorem parseDotEnv_plain (key value : jsstring) :
  isKey key = true -> isBare value = true ->
  parseDotEnv (key ++ str "=" ++ value) = [(key, value)]
  /\ (value <> [] ->
      forall comment, noLF comment = true ->
        parseDotEnv (key ++ str "=" ++ value ++ str " #" ++ comment)
        = [(key, value)]).
Proof.
  intros Hkey Hbare.
  destruct (isBare_inv value Hbare) as (Htrim & Hno & H34 & H39 & Hcomment).
  split.
  - rewrite (parseDotEnv_assignment key value Hkey Hno), Htrim.
    unfold assignedValue.
    rewrite (isQuotedBy_start 34 value H34), (isQuotedBy_start 39 value H39).
    now rewrite Hcomment.
  - intros Hne comment Hc.
    rewrite (parseDotEnv_assignment key (value ++ str " #" ++ comment) Hkey)
      by (rewrite !noLF_app, Hno, Hc; reflexivity).
    destruct value as [|v0 vr] eqn:Ev; [congruence|]. rewrite <- Ev in *.
    assert (Hv0 : isWhitespace v0 = false).
    { apply (trim_head value v0 vr). now rewrite Htrim. }
    change (str " #" ++ comment) with (32 :: 35 :: comment).
    assert (Htrimmed : trim (value ++ 32 :: 35 :: comment)
                       = value ++ 32 :: 35 :: trimEnd comment).
    { change (value ++ 32 :: 35 :: comment)
        with (value ++ [32] ++ 35 :: comment).
      rewrite app_assoc.
      assert (Ev' : value ++ [32] = v0 :: (vr ++ [32])) by now rewrite Ev.
      rewrite (trim_keeps_start (value ++ [32]) comment v0 (vr ++ [32]) Ev' Hv0
                 35 eq_refl).
      now rewrite <- app_assoc. }
    rewrite Htrimmed. unfold assignedValue.
    assert (Hq : forall q, startsWith value [q] = false ->
               isQuotedBy q (value ++ 32 :: 35 :: trimEnd comment) = false).
    { intros q Hs. apply isQuotedBy_start. rewrite Ev in *. exact Hs. }
    rewrite (Hq 34 H34), (Hq 39 H39).
    now rewrite (beforeComment_found value (trimEnd comment) Hcomment), Htrim.
Qed.

Lemma parseDotEnv_plain_sample :
  parseDotEnv (str "NOAT_BASE_URL" ++ str "=" ++ str "https://abc.com/#blog")
  = [(str "NOAT_BASE_URL", str "https://abc.com/#blog")]
  /\ parseDotEnv (str "NOAT_BASE_URL" ++ str "="
                  ++ str "https://abc.com/#blog" ++ str " #" ++ str " the site")
     = [(str "NOAT_BASE_URL", str "https://abc.com/#blog")].
Proof.
  destruct (parseDotEnv_plain (str "NOAT_BASE_URL")
              (str "https://abc.com/#blog") eq_refl eq_refl) as [Hplain Hcomment].
  split; [exact Hplain|]. apply Hcomment; [discriminate|reflexivity].
Defined.

Lemma trim_quoted (quote : N) (inner : jsstring) :
  isWhitespace quote = false ->
  trim ([quote] ++ inner ++ [quote]) = [quote] ++ inner ++ [quote].
Proof.
  intros Hq. destruct (trim_keeps_last ([quote] ++ inner) quote Hq) as [body Hb].
  rewrite <- app_assoc in Hb. unfold trim, trimStart, trimEnd in *.
  cbn [app dropWhile] in *. rewrite Hq in *.
  change (quote :: inner ++ [quote]) with ((quote :: inner) ++ [quote]).
  rewrite dropWhileEnd_app. cbn [dropWhileEnd]. now rewrite Hq.
Qed.

Lemma unquote_quoted (quote : N) (inner : jsstring) :
  isQuotedBy quote ([quote] ++ inner ++ [quote]) = true
  /\ unquote ([quote] ++ inner ++ [quote]) = inner.
Proof.
  split.
  - unfold isQuotedBy. cbn [app startsWith]. rewrite N.eqb_refl. cbn [andb].
    change (quote :: inner ++ [quote]) with ((quote :: inner) ++ [quote]).
    rewrite endsWith_app, length_app. cbn [length andb].
    apply Nat.leb_le. lia.
  - unfold unquote. cbn [app skipn]. apply (dropEnd_app inner [quote]).
Qed.

Lemma replacePairs_none (a b : N) (rep s : jsstring) :
  forallb (fun c => negb (c =? a)) s = true -> replacePairs a b rep s = s.
Proof.
  induction s as [|x s IH]; [reflexivity|].
  cbn [forallb]. intros H. apply andb_true_iff in H as [Hx Hs].
  apply negb_true_iff in Hx. cbn [replacePairs].
  destruct s as [|y s]; [reflexivity|]. rewrite Hx. cbn [andb].
  now rewrite (IH Hs).
Qed.

(** X20.  Quoted values.  Between single quotes a value is taken as it is
    written, whatever it holds: spaces, [#], [=], quotes, backslashes.
    Between double quotes a value without a backslash is taken as it is
    written too. *)
Theorem parseDotEnv_quoted (key value : jsstring) :
  isKey key = true -> noLF value = true ->
  parseDotEnv (key ++ str "=" ++ str "'" ++ value ++ str "'") = [(key, value)]
  /\ (forallb (fun c => negb (c =? 92)) value = true ->
      parseDotEnv (key ++ str "=" ++ [34] ++ value ++ [34]) = [(key, value)]).
Proof.
  intros Hkey Hno. split.
  - rewrite (parseDotEnv_assignment key _ Hkey)
      by (rewrite !noLF_app, Hno; reflexivity).
    change (str "'") with [39].
    rewrite (trim_quoted 39 value eq_refl). unfold assignedValue.
    rewrite isQuotedBy_start by reflexivity.
    destruct (unquote_quoted 39 value) as [-> ->]. reflexivity.
  - intros Hplain.
    rewrite (parseDotEnv_assignment key _ Hkey)
      by (rewrite !noLF_app, Hno; reflexivity).
    rewrite (trim_quoted 34 value eq_refl). unfold assignedValue.
    destruct (unquote_quoted 34 value) as [-> ->].
    rewrite (replacePairs_none 92 110 [LF] value Hplain).
    rewrite (replacePairs_none 92 34 [34] value Hplain).
    now rewrite (replacePairs_none 92 92 [92] value Hplain).
Qed.

Lemma parseDotEnv_quoted_sample :
  parseDotEnv (str "GREETING" ++ str "=" ++ str "'" ++ str " it's = #1 "
               ++ str "'")
  = [(str "GREETING", str " it's = #1 ")]
  /\ parseDotEnv (str "GREETING" ++ str "=" ++ [34] ++ str " it's = #1 "
                  ++ [34])
     = [(str "GREETING", str " it's = #1 ")].
Proof.
  destruct (parseDotEnv_quoted (str "GREETING") (str " it's = #1 ")
              eq_refl eq_refl) as [Hsingle Hdouble].
  split; [exact Hsingle|]. apply Hdouble. reflexivity.
Defined.

Lemma forallb_dropWhile (P p : N -> bool) (s : jsstring) :
  forallb P s = true -> forallb P (dropWhile p s) = true.
Proof.
  induction s as [|c s IH]; [reflexivity|]. intros H.
  cbn [dropWhile]. destruct (p c); [|exact H].
  cbn [forallb] in H. apply andb_true_iff in H as [_ H]. now apply IH.
Qed.

Lemma forallb_dropWhileEnd (P p : N -> bool) (s : jsstring) :
  forallb P s = true -> forallb P (dropWhileEnd p s) = true.
Proof.
  intros H. destruct (dropWhileEnd_split p s) as [t [Hs _]].
  rewrite Hs, forallb_app in H. now apply andb_true_iff in H as [H _].
Qed.

Lemma forallb_trim (P : N -> bool) (s : jsstring) :
  forallb P s = true -> forallb P (trim s) = true.
Proof.
  intros H. unfold trim, trimStart, trimEnd.
  now apply forallb_dropWhileEnd, forallb_dropWhile.
Qed.

Lemma forallb_takeWhile (P p : N -> bool) (s : jsstring) :
  forallb P s = true -> forallb P (takeWhile p s) = true.
Proof.
  induction s as [|c s IH]; [reflexivity|]. cbn [forallb takeWhile].
  intros H. apply andb_true_iff in H as [Hc Hs].
  destruct (p c); [|reflexivity]. cbn [forallb]. now rewrite Hc, IH.
Qed.

Lemma forallb_takeWhile_self (p : N -> bool) (s : jsstring) :
  forallb p (takeWhile p s) = true.
Proof.
  induction s as [|c s IH]; [reflexivity|]. cbn [takeWhile].
  destruct (p c) eqn:Hc; [|reflexivity]. cbn [forallb]. now rewrite Hc, IH.
Qed.

Lemma trim_starts (c : N) (t : jsstring) :
  isWhitespace c = false -> trim (c :: t) = c :: trimEnd t.
Proof.
  intros Hc. unfold trim, trimStart, trimEnd. cbn [dropWhile]. rewrite Hc.
  cbn [dropWhileEnd]. destruct (dropWhileEnd isWhitespace t); [|reflexivity].
  now rewrite Hc.
Qed.

(** The name a line assigns to is one [isKey] accepts, [__proto__] apart. *)
Lemma entryOf_key (rawLine key value : jsstring) :
  noLF rawLine = true -> entryOf rawLine = Some (key, value) ->
  nonEmpty key && seqb (trim key) key && forallb notSeparator key
  && noLF key && negb (startsWith key (str "#")) = true.
Proof.
  intros Hno. unfold entryOf.
  destruct (trim rawLine) as [|c line] eqn:Hline; [discriminate|].
  cbn [nonEmpty negb orb].
  destruct (startsWith (c :: line) (str "#")) eqn:Hhash; [discriminate|].
  destruct (dropWhile notSeparator (c :: line)); [discriminate|].
  destruct (trim (takeWhile notSeparator (c :: line))) as [|k key'] eqn:Hkey;
    [discriminate|].
  intros [= <- _]. rewrite <- Hkey.
  assert (Hc : isWhitespace c = false) by now apply (trim_head rawLine c line).
  assert (Hnoline : noLF (c :: line) = true)
    by (rewrite <- Hline; now apply forallb_trim).
  repeat (apply andb_true_iff; split).
  - now rewrite Hkey.
  - apply seqb_eq, trim_idem.
  - apply forallb_trim, forallb_takeWhile_self.
  - apply forallb_trim, forallb_takeWhile. exact Hnoline.
  - cbn [takeWhile] in *. destruct (notSeparator c); [|discriminate].
    rewrite (trim_starts c _ Hc). exact (f_equal negb Hhash).
Qed.

Lemma setEnv_keys (key value : jsstring) (env : Env) :
  List.map fst (setEnv key value env)
  = if existsb (seqb key) (List.map fst env) then List.map fst env
    else List.map fst env ++ [key].
Proof.
  induction env as [|[k v] env IH]; [reflexivity|].
  cbn [setEnv List.map fst existsb]. destruct (seqb key k); [reflexivity|].
  cbn [List.map fst orb]. rewrite IH.
  now destruct (existsb (seqb key) (List.map fst env)).
Qed.

Lemma setEnv_In (key value k v : jsstring) (env : Env) :
  In (k, v) (setEnv key value env) -> k = key \/ In (k, v) env.
Proof.
  induction env as [|[k' v'] env IH]; cbn [setEnv In].
  - intros [[= <- <-]|[]]. now left.
  - destruct (seqb key k') eqn:Hk.
    + apply seqb_eq in Hk. subst k'. cbn [In].
      intros [[= <- <-]|H]; [now left|now right; right].
    + cbn [In]. intros [H|H]; [now right; left|].
      destruct (IH H); [now left|now right; right].
Qed.

Lemma parseLine_keys (env : Env) (rawLine : jsstring) :
  noLF rawLine = true ->
  NoDup (List.map fst env) ->
  (forall k v, In (k, v) env -> isKey k = true) ->
  NoDup (List.map fst (parseLine env rawLine))
  /\ (forall k v, In (k, v) (parseLine env rawLine) -> isKey k = true).
Proof.
  intros Hno Hdup Hkeys. rewrite parseLine_entry.
  destruct (entryOf rawLine) as [[key value]|] eqn:He; [|now split].
  unfold assign. destruct (seqb key (str "__proto__")) eqn:Hproto; [now split|].
  pose proof (entryOf_key rawLine key value Hno He) as Hk.
  assert (Hkey : isKey key = true)
    by (unfold isKey; now rewrite Hk, Hproto).
  split.
  - rewrite setEnv_keys.
    destruct (existsb (seqb key) (List.map fst env)) eqn:Hex; [assumption|].
    apply NoDup_app; [assumption|repeat constructor; intros []|].
    intros k Hin [Heq|[]]. subst k.
    assert (existsb (seqb key) (List.map fst env) = true)
      by (apply existsb_exists; exists key; split;
          [assumption|apply seqb_refl]).
    congruence.
  - intros k v Hin. destruct (setEnv_In key value k v env Hin) as [->|Hin'];
      [assumption|now apply (Hkeys k v)].
Qed.

Lemma fold_parseLine_keys (lines : list jsstring) (env : Env) :
  forallb noLF lines = true ->
  NoDup (List.map fst env) ->
  (forall k v, In (k, v) env -> isKey k = true) ->
  NoDup (List.map fst (fold_left parseLine lines env))
  /\ (forall k v, In (k, v) (fold_left parseLine lines env) -> isKey k = true).
Proof.
  revert env. induction lines as [|line lines IH]; intros env Hno Hdup Hkeys;
    [now split|].
  cbn [forallb] in Hno. apply andb_true_iff in Hno as [Hline Hlines].
  destruct (parseLine_keys env line Hline Hdup Hkeys) as [Hd Hk].
  cbn [fold_left]. now apply IH.
Qed.

(** X21.  The names a [.env] file sets.  Whatever the file holds, every
    name [parseDotEnv] returns is one [isKey] accepts (not empty, without
    white space around it, without [=], of one line, not beginning with
    [#], not [__proto__]), and no name is returned twice. *)
Theorem parseDotEnv_keys (source : jsstring) :
  NoDup (List.map fst (parseDotEnv source))
  /\ (forall key value, In (key, value) (parseDotEnv source) -> isKey key = true).
Proof.
  unfold parseDotEnv. apply fold_parseLine_keys.
  - apply splitLines_noLF.
  - constructor.
  - intros k v [].
Qed.

End DotEnvFacts.

(** The file of the tests sets four names, each once. *)
Lemma parseDotEnv_keys_sample :
  NoDup (List.map fst (parseDotEnv env_of_the_tests))
  /\ isKey (str "QUOTED") = true.
Proof.
  destruct (parseDotEnv_keys env_of_the_tests) as [Hdup Hkeys].
  split; [exact Hdup|].
  apply (Hkeys (str "QUOTED") (str "hello world")).
  right. left. reflexivity.
Defined.

(** * The configuration *)

Section ConfigFacts.

Variable resolve : jsstring -> jsstring -> jsstring.

Lemma orElse_trimmed (a b : option value) (text : jsstring) :
  orElse (resolveString a) (resolveString b) = Some text ->
  trim text = text /\ text <> [].
Proof.
  destruct (resolveString a) as [t|] eqn:Ha; cbn [orElse].
  - intros [= <-]. now apply (resolveString_trimmed a).
  - intros H. now apply (resolveString_trimmed b).
Qed.

Lemma default_trimmed (v : option value) (fallback text : jsstring) :
  trim fallback = fallback -> fallback <> [] ->
  match resolveString v with
  | Some given => given
  | None => fallback
  end = text ->
  trim text = text /\ text <> [].
Proof.
  intros Ht Hne. destruct (resolveString v) as [t|] eqn:Hv.
  - intros <-. now apply (resolveString_trimmed v).
  - intros <-. now split.
Qed.

(** X22.  A resolved configuration has no blank field.  When
    [normalizeConfig] returns, the handle, the PDS URL, the name of the
    password variable, the post text field and the base URL are not empty
    and carry no white space around them (each is a trimmed value of the
    configuration or the environment, or a default), and the posts
    directory is a path of that kind resolved against the directory of the
    configuration; when it throws, the handle or the base URL is missing. *)
Theorem normalizeConfig_fields (configDir : jsstring) (env : Env)
  (config : NoatConfig) :
  (forall resolved,
      normalizeConfig resolve configDir env config = Returned resolved ->
      Forall (fun text => trim text = text /\ text <> [])
        [handle resolved; pdsUrl resolved; passwordEnvVar resolved;
         postTextField resolved; baseUrl resolved]
      /\ exists posts,
           postsDir resolved = resolve configDir posts
           /\ trim posts = posts /\ posts <> [])
  /\ (forall f,
         normalizeConfig resolve configDir env config = Thrown f ->
         f = MissingHandle \/ f = MissingBaseUrl).
Proof.
  unfold normalizeConfig. split.
  - intros resolved.
    destruct (orElse (resolveString (lookup (str "handle") config)) _)
      as [h|] eqn:Hh; [|discriminate].
    destruct (orElse (resolveString (lookup (str "baseUrl") config)) _)
      as [b|] eqn:Hb; [|discriminate].
    intros [= <-]. cbn [handle pdsUrl passwordEnvVar postTextField baseUrl postsDir].
    split.
    + repeat constructor.
      * now apply (orElse_trimmed _ _ h Hh).
      * now apply (orElse_trimmed _ _ h Hh).
      * destruct (orElse (resolveString (lookup (str "pdsUrl") config)) _)
          as [u|] eqn:Hu; [|reflexivity].
        now apply (orElse_trimmed _ _ u Hu).
      * destruct (orElse (resolveString (lookup (str "pdsUrl") config)) _)
          as [u|] eqn:Hu; [|discriminate].
        now apply (orElse_trimmed _ _ u Hu).
      * now apply (default_trimmed (lookup (str "passwordEnvVar") config)
                     DEFAULT_PASSWORD_ENV_VAR _ eq_refl).
      * apply (default_trimmed (lookup (str "passwordEnvVar") config)
                 DEFAULT_PASSWORD_ENV_VAR _ eq_refl); [discriminate|reflexivity].
      * now apply (default_trimmed (lookup (str "postTextField") config)
                     DEFAULT_POST_TEXT_FIELD _ eq_refl).
      * apply (default_trimmed (lookup (str "postTextField") config)
                 DEFAULT_POST_TEXT_FIELD _ eq_refl); [discriminate|reflexivity].
      * now apply (orElse_trimmed _ _ b Hb).
      * now apply (orElse_trimmed _ _ b Hb).
    + destruct (resolveString (lookup (str "posts") config)) as [p|] eqn:Hp.
      * exists p. split; [reflexivity|].
        now apply (resolveString_trimmed (lookup (str "posts") config)).
      * exists DEFAULT_POSTS_DIR. split; [reflexivity|]. split;
          [reflexivity|discriminate].
  - intros f.
    destruct (orElse (resolveString (lookup (str "handle") config)) _);
      [|intros [= <-]; now left].
    destruct (orElse (resolveString (lookup (str "baseUrl") config)) _);
      [discriminate|intros [= <-]; now right].
Qed.

Lemma lookup_setProp (name key : jsstring) (v : value)
  (props : list (jsstring * value)) :
  lookup name (setProp key v props)
  = if seqb name key then Some v else lookup name props.
Proof.
  induction props as [|[k' v'] props IH].
  - cbn. reflexivity.
  - cbn [setProp lookup]. destruct (seqb key k') eqn:Hk.
    + cbn [lookup]. apply seqb_eq in Hk. subst k'.
      now destruct (seqb name key).
    + cbn [lookup]. destruct (seqb name k') eqn:Hk'; [|exact IH].
      destruct (seqb name key) eqn:Hkk; [|reflexivity].
      apply seqb_eq in Hkk, Hk'. subst. now rewrite seqb_refl in Hk.
Qed.

Lemma lookup_setIfGiven (name key : jsstring) (given : option jsstring)
  (config : NoatConfig) :
  lookup name (setIfGiven key given config)
  = match given with
    | Some v => if seqb name key then Some (VStr v) else lookup name config
    | None => lookup name config
    end.
Proof. destruct given; [apply lookup_setProp|reflexivity]. Qed.

Lemma lookup_spread (name : jsstring) (a b : NoatConfig) :
  lookup name (spread a b)
  = match lookup name (spread [] b) with
    | Some v => Some v
    | None => lookup name a
    end.
Proof.
  unfold spread. revert a.
  induction b as [|[k v] b IH]; intros a; [reflexivity|].
  cbn [fold_left fst snd]. rewrite (IH (setProp k v a)), (IH (setProp k v [])).
  destruct (lookup name (fold_left _ b [])); [reflexivity|].
  rewrite !lookup_setProp. now destruct (seqb name k).
Qed.

Lemma spread_same (b : NoatConfig) (name : jsstring) :
  NoDup (List.map fst b) -> lookup name (spread [] b) = lookup name b.
Proof.
  unfold spread. intros Hdup.
  assert (H : forall a,
             (forall k, In k (List.map fst b) -> lookup k a = None) ->
             lookup name (fold_left
                            (fun merged property =>
                               setProp (fst property) (snd property) merged) b a)
             = match lookup name a with
               | Some v => Some v
               | None => lookup name b
               end).
  { induction b as [|[k v] b IH]; intros a Ha.
    - cbn. now destruct (lookup name a).
    - cbn [fold_left fst snd List.map] in *. inversion Hdup as [|? ? Hk Hb]. subst.
      rewrite (IH Hb).
      + rewrite lookup_setProp. cbn [lookup].
        destruct (seqb name k) eqn:Hn; [|reflexivity].
        apply seqb_eq in Hn. subst k.
        now rewrite (Ha name (or_introl eq_refl)).
      + intros k' Hin. rewrite lookup_setProp.
        destruct (seqb k' k) eqn:Hn.
        * apply seqb_eq in Hn. subst k'. contradiction.
        * apply Ha. now right. }
  now rewrite (H [] (fun _ _ => eq_refl)).
Qed.

Lemma setProp_keys (key : jsstring) (v : value)
  (props : list (jsstring * value)) :
  List.map fst (setProp key v props)
  = if existsb (seqb key) (List.map fst props) then List.map fst props
    else List.map fst props ++ [key].
Proof.
  induction props as [|[k' v'] props IH]; [reflexivity|].
  cbn [setProp List.map fst existsb]. destruct (seqb key k'); [reflexivity|].
  cbn [List.map fst orb]. rewrite IH.
  now destruct (existsb (seqb key) (List.map fst props)).
Qed.

Lemma setIfGiven_NoDup (key : jsstring) (given : option jsstring)
  (config : NoatConfig) :
  NoDup (List.map fst config) ->
  NoDup (List.map fst (setIfGiven key given config)).
Proof.
  intros Hdup. destruct given as [v|]; [|assumption].
  cbn [setIfGiven]. rewrite setProp_keys.
  destruct (existsb (seqb key) (List.map fst config)) eqn:Hex; [assumption|].
  apply NoDup_app; [assumption|repeat constructor; intros []|].
  intros k Hin [Heq|[]]. subst k.
  assert (existsb (seqb key) (List.map fst config) = true)
    by (apply existsb_exists; exists key; split; [assumption|apply seqb_refl]).
  congruence.
Qed.

Lemma lookup_overrides (name : jsstring) (options : PublishOptions) :
  lookup name (spread [] (extractConfigOverrides options))
  = if seqb name (str "handle") then option_map VStr (opt_handle options)
    else if seqb name (str "pdsUrl") then option_map VStr (opt_pdsUrl options)
    else if seqb name (str "posts") then option_map VStr (opt_postsDir options)
    else if seqb name (str "passwordEnvVar")
         then option_map VStr (opt_passwordEnvVar options)
    else if seqb name (str "postTextField")
         then option_map VStr (opt_postTextField options)
    else if seqb name (str "baseUrl") then option_map VStr (opt_baseUrl options)
    else None.
Proof.
  rewrite spread_same
    by (unfold extractConfigOverrides;
        repeat apply setIfGiven_NoDup; constructor).
  unfold extractConfigOverrides. rewrite !lookup_setIfGiven. cbn [lookup].
  destruct (seqb name (str "handle")) eqn:H1;
    [apply seqb_eq in H1; subst name;
     now destruct (opt_handle options), (opt_pdsUrl options),
       (opt_postsDir options), (opt_passwordEnvVar options),
       (opt_postTextField options), (opt_baseUrl options)|].
  destruct (seqb name (str "pdsUrl")) eqn:H2;
    [apply seqb_eq in H2; subst name;
     now destruct (opt_handle options), (opt_pdsUrl options),
       (opt_postsDir options), (opt_passwordEnvVar options),
       (opt_postTextField options), (opt_baseUrl options)|].
  destruct (seqb name (str "posts")) eqn:H3;
    [apply seqb_eq in H3; subst name;
     now destruct (opt_handle options), (opt_pdsUrl options),
       (opt_postsDir options), (opt_passwordEnvVar options),
       (opt_postTextField options), (opt_baseUrl options)|].
  destruct (seqb name (str "passwordEnvVar")) eqn:H4;
    [apply seqb_eq in H4; subst name;
     now destruct (opt_handle options), (opt_pdsUrl options),
       (opt_postsDir options), (opt_passwordEnvVar options),
       (opt_postTextField options), (opt_baseUrl options)|].
  destruct (seqb name (str "postTextField")) eqn:H5;
    [apply seqb_eq in H5; subst name;
     now destruct (opt_handle options), (opt_pdsUrl options),
       (opt_postsDir options), (opt_passwordEnvVar options),
       (opt_postTextField options), (opt_baseUrl options)|].
  destruct (seqb name (str "baseUrl")) eqn:H6;
    [apply seqb_eq in H6; subst name;
     now destruct (opt_handle options), (opt_pdsUrl options),
       (opt_postsDir options), (opt_passwordEnvVar options),
       (opt_postTextField options), (opt_baseUrl options)|].
  now destruct (opt_handle options), (opt_pdsUrl options),
    (opt_postsDir options), (opt_passwordEnvVar options),
    (opt_postTextField options), (opt_baseUrl options).
Qed.

Lemma lookup_merged (name : jsstring) (loaded : NoatConfig)
  (options : PublishOptions) (given : option jsstring) :
  lookup name (spread [] (extractConfigOverrides options))
  = option_map VStr given ->
  lookup name (mergedConfig loaded options)
  = override given (lookup name loaded).
Proof.
  intros H. unfold mergedConfig. rewrite lookup_spread, H.
  now destruct given.
Qed.

(** X23.  What the caller gives overrides the configuration file.  In
    the merged configuration of [publish] each of the six fields holds the
    option of the caller when that is given, and the value of the file
    otherwise; so the handle and the base URL of the resolved configuration
    are the option when it is given and not blank, the variable of the
    environment when it is given and blank (the file is not asked then),
    and the value of the file, then the variable, when no option is
    given. *)
Theorem options_override_config (loaded : NoatConfig)
  (options : PublishOptions) :
  lookup (str "handle") (mergedConfig loaded options)
  = override (opt_handle options) (lookup (str "handle") loaded)
  /\ lookup (str "pdsUrl") (mergedConfig loaded options)
     = override (opt_pdsUrl options) (lookup (str "pdsUrl") loaded)
  /\ lookup (str "posts") (mergedConfig loaded options)
     = override (opt_postsDir options) (lookup (str "posts") loaded)
  /\ lookup (str "passwordEnvVar") (mergedConfig loaded options)
     = override (opt_passwordEnvVar options)
         (lookup (str "passwordEnvVar") loaded)
  /\ lookup (str "postTextField") (mergedConfig loaded options)
     = override (opt_postTextField options)
         (lookup (str "postTextField") loaded)
  /\ lookup (str "baseUrl") (mergedConfig loaded options)
     = override (opt_baseUrl options) (lookup (str "baseUrl") loaded)
  /\ (forall configDir env resolved,
         normalizeConfig resolve configDir env (mergedConfig loaded options)
         = Returned resolved ->
         Some (handle resolved)
         = orElse
             (resolveString
                (override (opt_handle options) (lookup (str "handle") loaded)))
             (resolveString
                (option_map VStr (lookupEnv (str "NOAT_BLUESKY_HANDLE") env)))
         /\ Some (baseUrl resolved)
            = orElse
                (resolveString
                   (override (opt_baseUrl options)
                      (lookup (str "baseUrl") loaded)))
                (resolveString
                   (option_map VStr (lookupEnv (str "NOAT_BASE_URL") env)))).
Proof.
  assert (H1 := lookup_merged (str "handle") loaded options (opt_handle options)
                  (lookup_overrides (str "handle") options)).
  assert (H2 := lookup_merged (str "pdsUrl") loaded options (opt_pdsUrl options)
                  (lookup_overrides (str "pdsUrl") options)).
  assert (H3 := lookup_merged (str "posts") loaded options (opt_postsDir options)
                  (lookup_overrides (str "posts") options)).
  assert (H4 := lookup_merged (str "passwordEnvVar") loaded options
                  (opt_passwordEnvVar options)
                  (lookup_overrides (str "passwordEnvVar") options)).
  assert (H5 := lookup_merged (str "postTextField") loaded options
                  (opt_postTextField options)
                  (lookup_overrides (str "postTextField") options)).
  assert (H6 := lookup_merged (str "baseUrl") loaded options
                  (opt_baseUrl options)
                  (lookup_overrides (str "baseUrl") options)).
  repeat (split; [assumption|]).
  intros configDir env resolved. unfold normalizeConfig. rewrite H1, H6.
  destruct (orElse (resolveString (override (opt_handle options) _)) _)
    as [h|]; [|discriminate].
  destruct (orElse (resolveString (override (opt_baseUrl options) _)) _)
    as [b|]; [|discriminate].
  intros [= <-]. now split.
Qed.

End ConfigFacts.

Lemma normalizeConfig_fields_sample :
  Forall (fun text => trim text = text /\ text <> [])
    [str "nick.bsky.social"; str "https://bsky.social";
     str "NOAT_BLUESKY_APP_PASSWORD"; str "post";
     str "https://blog.example.com"]
  /\ exists posts,
       str "/repo/posts" = posix_resolve (str "/repo") posts
       /\ trim posts = posts /\ posts <> [].
Proof.
  destruct (normalizeConfig_fields posix_resolve (str "/repo") nick_env [])
    as [Hfields _].
  apply (Hfields {| handle := str "nick.bsky.social";
                    pdsUrl := str "https://bsky.social";
                    postsDir := str "/repo/posts";
                    passwordEnvVar := str "NOAT_BLUESKY_APP_PASSWORD";
                    postTextField := str "post";
                    baseUrl := str "https://blog.example.com" |}).
  reflexivity.
Defined.



Lemma options_override_config_sample :
  Some (str "nick.bsky.social")
  = orElse
      (resolveString
         (override (opt_handle blank_handle_options)
            (lookup (str "handle") file_config)))
      (resolveString
         (option_map VStr (lookupEnv (str "NOAT_BLUESKY_HANDLE") nick_env)))
  /\ Some (str "https://cli.example.com")
     = orElse
         (resolveString
            (override (opt_baseUrl blank_handle_options)
               (lookup (str "baseUrl") file_config)))
         (resolveString
            (option_map VStr (lookupEnv (str "NOAT_BASE_URL") nick_env))).
Proof.
  destruct (options_override_config posix_resolve file_config
              blank_handle_options) as (_ & _ & _ & _ & _ & _ & Hresolved).
  apply (Hresolved (str "/repo") nick_env
           {| handle := str "nick.bsky.social";
              pdsUrl := str "https://bsky.social";
              postsDir := str "/repo/notes";
              passwordEnvVar := str "NOAT_BLUESKY_APP_PASSWORD";
              postTextField := str "post";
              baseUrl := str "https://cli.example.com" |}).
  reflexivity.
Defined.

(** * The publish commit *)

Section DigitFacts.

Local Open Scope N_scope.







End DigitFacts.

Section CommitSequence.

Local Open Scope N_scope.

Variable Repository : Type.
Variable git : list jsstring -> Repository -> option (jsstring * Repository).
Variable shortestDigits : N -> jsstring.

(** The subjects of the commits of a repository, the newest first. *)
Variable history : Repository -> list jsstring.

Hypothesis log_prints_history :
  forall repo printed repo',
    git [str "log"; str "--format=%s"] repo = Some (printed, repo') ->
    printed = gitLog (history repo) /\ history repo' = history repo.

Hypothesis add_keeps_history :
  forall postPaths repo printed repo',
    git ([str "add"; str "--"] ++ postPaths) repo = Some (printed, repo') ->
    history repo' = history repo.

Hypothesis commit_records_message :
  forall message repo printed repo',
    git [str "commit"; str "-m"; message] repo = Some (printed, repo') ->
    history repo' = message :: history repo.


End CommitSequence.


(** * The fields of a post *)

Section ParseFacts.

Variable yaml_load : jsstring -> option (option value).

Lemma parseMarkdownImagePath_trimmed (target path : jsstring) :
  parseMarkdownImagePath target = Some path -> trim path = path.
Proof.
  unfold parseMarkdownImagePath. destruct target as [|c target]; [discriminate|].
  destruct (startsWith (c :: target) (str "<")).
  - destruct (indexOf 62 (c :: target)) as [closing|]; [|discriminate].
    destruct (Nat.leb closing 1); [discriminate|].
    intros [= <-]. apply trim_idem.
  - destruct (trim (takeWhile _ (c :: target))) as [|k token] eqn:Ht;
      [discriminate|].
    intros [= <-]. rewrite <- Ht. apply trim_idem.
Qed.

Lemma findFirstMarkdownImage_trimmed (content : jsstring)
  (image : MarkdownImageReference) :
  findFirstMarkdownImage content = Some image ->
  trim (image_alt image) = image_alt image
  /\ trim (image_path image) = image_path image.
Proof.
  unfold findFirstMarkdownImage.
  destruct (execImage content) as [[alt target]|]; [|discriminate].
  destruct (parseMarkdownImagePath (trim target)) as [path|] eqn:Hp;
    [|discriminate].
  intros [= <-]. cbn [image_alt image_path]. split; [apply trim_idem|].
  now apply (parseMarkdownImagePath_trimmed (trim target)).
Qed.

(** X25.  What [parsePostFields] returns.  The text is the first string
    that is not blank among the configured field, [bluesky.text], [text]
    and [post] of the frontmatter (a blank field name is not looked up),
    and the body without its images when there is none; it is trimmed, not
    empty and of at most 300 characters.  The image is the first one of
    the body, with a trimmed path and alternative text, and the
    alternative text is empty when there is no image.  Its errors are the
    three of the source, and a text is refused as too long only when it has
    more than 300 characters. *)
Theorem parsePostFields_returns (markdown field : jsstring) :
  (forall parsed,
      parsePostFields yaml_load markdown field = Ok parsed ->
      exists fm content,
        splitFrontmatter yaml_load markdown = Ok (fm, content)
        /\ pp_text parsed
           = match firstString fm
                     (filter (fun path => negb (isBlank path))
                        [field; str "bluesky.text"; str "text"; str "post"]) with
             | Some text => text
             | None => trim (stripMarkdownImages content)
             end
        /\ trim (pp_text parsed) = pp_text parsed
        /\ pp_text parsed <> []
        /\ characterCount (pp_text parsed) <= 300
        /\ pp_imagePath parsed
           = option_map image_path (findFirstMarkdownImage content)
        /\ (forall path, pp_imagePath parsed = Some path -> trim path = path)
        /\ trim (pp_imageAlt parsed) = pp_imageAlt parsed
        /\ (pp_imagePath parsed = None -> pp_imageAlt parsed = []))
  /\ (forall e,
         parsePostFields yaml_load markdown field = Err e ->
         e = InvalidYamlFrontmatter \/ e = MissingPostText
         \/ exists count, e = PostTextTooLong count /\ 300 < count).
Proof.
  split.
  - intros parsed H.
    pose proof (parsePostFields_text yaml_load markdown field parsed H) as Hcount.
    unfold parsePostFields in H.
    destruct (splitFrontmatter yaml_load markdown) as [[fm content]|] eqn:Hs;
      cbn [bind] in H; [|discriminate].
    destruct (isBlank (resolveText fm content field)) eqn:Hblank;
      [discriminate|].
    destruct (Nat.ltb 300 _); [discriminate|].
    injection H as <-. cbn [pp_text pp_imagePath pp_imageAlt] in *.
    exists fm, content. split; [reflexivity|]. split.
    { unfold resolveText, uniquePaths.
      now rewrite (firstString_uniquePaths_loop fm _ [] (fun _ F => match F with end)). }
    split; [apply resolveText_trimmed|]. split.
    { intros Hnil. rewrite Hnil in Hblank. discriminate. }
    split; [assumption|]. split; [reflexivity|].
    destruct (findFirstMarkdownImage content) as [image|] eqn:Hi;
      cbn [option_map].
    + destruct (findFirstMarkdownImage_trimmed content image Hi) as [Ha Hp].
      split; [now intros path [= <-]|]. split; [assumption|discriminate].
    + split; [discriminate|]. now split.
  - intros e. unfold parsePostFields.
    destruct (splitFrontmatter yaml_load markdown) as [[fm content]|e'] eqn:Hs;
      cbn [bind].
    + destruct (isBlank _); [intros [= <-]; tauto|].
      destruct (Nat.ltb 300 _) eqn:Hlt; [|discriminate].
      intros [= <-]. right. right. eexists. split; [reflexivity|].
      now apply Nat.ltb_lt.
    + intros [= <-]. left. now apply (splitFrontmatter_error yaml_load markdown).
Qed.

End ParseFacts.

Lemma parsePostFields_returns_sample :
  exists fm content,
    splitFrontmatter no_yaml (str " Hello ![chart](a.png) world ")
    = Ok (fm, content)
    /\ str "Hello  world"
       = match firstString fm
                 (filter (fun path => negb (isBlank path))
                    [str "post"; str "bluesky.text"; str "text"; str "post"]) with
         | Some text => text
         | None => trim (stripMarkdownImages content)
         end
    /\ trim (str "Hello  world") = str "Hello  world"
    /\ str "Hello  world" <> []
    /\ characterCount (str "Hello  world") <= 300
    /\ Some (str "a.png")
       = option_map image_path (findFirstMarkdownImage content)
    /\ (forall path, Some (str "a.png") = Some path -> trim path = path)
    /\ trim (str "chart") = str "chart"
    /\ (Some (str "a.png") = None -> str "chart" = []).
Proof.
  destruct (parsePostFields_returns no_yaml (str " Hello ![chart](a.png) world ")
              (str "post")) as [Hreturns _].
  apply (Hreturns {| pp_text := str "Hello  world";
                     pp_imagePath := Some (str "a.png");
                     pp_imageAlt := str "chart" |}).
  reflexivity.
Defined.

(** * The frontmatter of a document *)

Section SplitFacts.

Import Aux Spec.

Variable yaml_load : jsstring -> option (option value).

(** X26.  [splitFrontmatter] takes a document apart where it was put
    together.  For a document made of an opening delimiter line, the lines
    of a block, a closing delimiter line and the lines of a body, with
    lines that end in a bare line feed, the YAML loader is given the lines
    of the block joined by line feeds and the content is the lines of the
    body joined by line feeds; a document whose first line is no delimiter
    has no frontmatter and is its own content. *)
Theorem splitFrontmatter_document (first closing : jsstring)
  (block body : list jsstring) :
  (stableLines (first :: block ++ closing :: body) = true ->
   isDelimiter first = true -> forallb notDelimiter block = true ->
   isDelimiter closing = true ->
   splitFrontmatter yaml_load (doc (first :: block ++ closing :: body))
   = (fm <- parseYamlFrontmatter yaml_load (doc block) ;; Ok (fm, doc body)))
  /\ (forall markdown,
         isDelimiter (hd [] (splitLines markdown)) = false ->
         splitFrontmatter yaml_load markdown = Ok (VObj [], markdown)).
Proof.
  split.
  - intros Hs Hf Hb Hc. unfold splitFrontmatter, doc.
    now rewrite (findBlock_join first closing block body Hs Hf Hb Hc).
  - intros markdown H. unfold splitFrontmatter, findBlock.
    destruct (splitLines markdown) as [|line rest]; [reflexivity|].
    cbn [hd] in H. now rewrite H.
Qed.

End SplitFacts.

Lemma splitFrontmatter_document_sample :
  splitFrontmatter sample_yaml
    (doc (str "--- " :: [str "slug: hello"] ++ str "---" :: [str "Hello"; []]))
  = (fm <- parseYamlFrontmatter sample_yaml (doc [str "slug: hello"]) ;;
     Ok (fm, doc [str "Hello"; []])).
Proof.
  destruct (splitFrontmatter_document sample_yaml (str "--- ") (str "---")
              [str "slug: hello"] [str "Hello"; []]) as [Hdocument _].
  apply Hdocument; reflexivity.
Defined.

(** * The line of the marker *)

Section MarkerLine.

Local Open Scope N_scope.
Import Aux Spec.

Lemma parseChars_plain (fuel : nat) (c : N) (rest : jsstring) :
  (c =? 34) = false -> (c =? 92) = false -> (c <? 32) = false ->
  parseChars (S fuel) (c :: rest)
  = match parseChars fuel rest with
    | Some (cs, rest') => Some (c :: cs, rest')
    | None => None
    end.
Proof.
  cbn [parseChars].
  destruct c as [|p]; [discriminate|].
  repeat (destruct p as [p|p|];
          try (intros H1 H2 H3; rewrite ?H3, ?H2; reflexivity);
          try discriminate).
Qed.

Lemma hexValue_hexLower (n : N) : n < 16 -> hexValue (hexLower n) = Some n.
Proof.
  intros H. destruct n as [|p]; [reflexivity|].
  repeat (destruct p as [p|p|]; try reflexivity; try (exfalso; lia)).
Qed.

Lemma hex_digits_value (c : N) :
  c / 4096 * 4096 + (c / 256) mod 16 * 256 + (c / 16) mod 16 * 16 + c mod 16
  = c.
Proof.
  pose proof (N.div_mod c 16 ltac:(discriminate)) as H1.
  pose proof (N.div_mod (c / 16) 16 ltac:(discriminate)) as H2.
  pose proof (N.div_mod (c / 256) 16 ltac:(discriminate)) as H3.
  rewrite !N.Div0.div_div in *.
  change (16 * 16) with 256 in *. change (256 * 16) with 4096 in *.
  set (a := c / 4096) in *. set (b := (c / 256) mod 16) in *.
  set (d := (c / 16) mod 16) in *. set (e := c mod 16) in *.
  set (x := c / 16) in *. set (y := c / 256) in *.
  lia.
Qed.

Lemma parseChars_unicodeEscape (fuel : nat) (c : N) (rest : jsstring) :
  c < 65536 ->
  parseChars (S fuel) (unicodeEscape c ++ rest)
  = match parseChars fuel rest with
    | Some (cs, rest') => Some (c :: cs, rest')
    | None => None
    end.
Proof.
  intros Hc. unfold unicodeEscape. cbn [app parseChars N.eqb Pos.eqb hex4].
  rewrite !hexValue_hexLower
    by (try (apply N.mod_lt; discriminate);
        apply N.Div0.div_lt_upper_bound; exact Hc).
  now rewrite hex_digits_value.
Qed.

Lemma surrogate_bounds (c : N) :
  isHighSurrogate c = true \/ isLowSurrogate c = true ->
  c < 65536 /\ (c =? 34) = false /\ (c =? 92) = false /\ (c <? 32) = false.
Proof.
  unfold isHighSurrogate, isLowSurrogate.
  intros [H|H]; apply andb_true_iff in H as [H1 H2];
    apply N.leb_le in H1, H2;
    (split; [lia|]); (split; [apply N.eqb_neq; lia|]);
    (split; [apply N.eqb_neq; lia|apply N.ltb_ge; lia]).
Qed.

Lemma parseChars_quoteUnit (fuel : nat) (c : N) (rest : jsstring) :
  parseChars (S fuel) (quoteUnit c ++ rest)
  = match parseChars fuel rest with
    | Some (cs, rest') => Some (c :: cs, rest')
    | None => None
    end.
Proof.
  unfold quoteUnit.
  destruct (c =? 34) eqn:H34; [apply N.eqb_eq in H34; now subst|].
  destruct (c =? 92) eqn:H92; [apply N.eqb_eq in H92; now subst|].
  destruct (c =? 8) eqn:H8; [apply N.eqb_eq in H8; now subst|].
  destruct (c =? 12) eqn:H12; [apply N.eqb_eq in H12; now subst|].
  destruct (c =? 10) eqn:H10; [apply N.eqb_eq in H10; now subst|].
  destruct (c =? 13) eqn:H13; [apply N.eqb_eq in H13; now subst|].
  destruct (c =? 9) eqn:H9; [apply N.eqb_eq in H9; now subst|].
  destruct (c <? 32) eqn:H32.
  - apply parseChars_unicodeEscape. apply N.ltb_lt in H32. lia.
  - now apply parseChars_plain.
Qed.

Lemma length_quoteChars (s : jsstring) :
  (length s <= length (quoteChars s))%nat.
Proof.
  assert (H : forall n s, (length s <= n)%nat ->
                          (length s <= length (quoteChars s))%nat).
  { clear s. induction n as [|n IH]; intros s Hn.
    - destruct s; [apply Nat.le_refl|cbn in Hn; lia].
    - destruct s as [|c s]; [apply Nat.le_refl|].
      cbn [length] in Hn. cbn [quoteChars].
      assert (Hunit : forall x, (1 <= length (quoteUnit x))%nat).
      { intros x. unfold quoteUnit.
        repeat match goal with
               | |- context [if ?b then _ else _] => destruct b
               end; cbn; lia. }
      assert (Hs : (length s <= length (quoteChars s))%nat) by (apply IH; lia).
      destruct (isHighSurrogate c).
      + destruct s as [|d s']; [cbn; lia|].
        destruct (isLowSurrogate d).
        * cbn [length] in *.
          assert ((length s' <= length (quoteChars s'))%nat) by (apply IH; lia).
          lia.
        * rewrite length_app. cbn [length unicodeEscape].
          change (length (d :: s')) with (S (length s')) in Hs. lia.
      + destruct (isLowSurrogate c).
        * rewrite length_app. cbn [length unicodeEscape]. lia.
        * rewrite length_app. pose proof (Hunit c). cbn [length]. lia. }
  now apply (H (length s)).
Qed.

(** [JSON.parse] reads the characters [JSON.stringify] writes. *)
Lemma parseChars_quoteChars (s rest : jsstring) (fuel : nat) :
  (length s < fuel)%nat ->
  parseChars fuel (quoteChars s ++ 34 :: rest) = Some (s, rest).
Proof.
  assert (H : forall n s fuel, (length s <= n)%nat -> (length s < fuel)%nat ->
                parseChars fuel (quoteChars s ++ 34 :: rest) = Some (s, rest)).
  { clear s fuel. induction n as [|n IH]; intros s fuel Hn Hfuel.
    - destruct s; [|cbn in Hn; lia].
      destruct fuel; [lia|]. reflexivity.
    - destruct s as [|c s].
      { destruct fuel; [lia|]. reflexivity. }
      cbn [length] in Hn, Hfuel. destruct fuel as [|fuel]; [lia|].
      cbn [quoteChars].
      destruct (isHighSurrogate c) eqn:Hhigh.
      + destruct (surrogate_bounds c (or_introl Hhigh)) as (Hc & H34 & H92 & H32).
        destruct s as [|d s'].
        * rewrite parseChars_unicodeEscape by assumption.
          destruct fuel; [lia|]. reflexivity.
        * destruct (isLowSurrogate d) eqn:Hlow.
          -- destruct (surrogate_bounds d (or_intror Hlow))
               as (Hd & Hd34 & Hd92 & Hd32).
             cbn [app length] in *.
             rewrite parseChars_plain by assumption.
             destruct fuel as [|fuel]; [lia|].
             rewrite parseChars_plain by assumption.
             rewrite (IH s' fuel) by lia. reflexivity.
          -- rewrite <- app_assoc, parseChars_unicodeEscape by assumption.
             now rewrite (IH (d :: s') fuel) by (cbn [length] in *; lia).
      + destruct (isLowSurrogate c) eqn:Hlow.
        * destruct (surrogate_bounds c (or_intror Hlow)) as (Hc & _).
          rewrite <- app_assoc, parseChars_unicodeEscape by assumption.
          now rewrite (IH s fuel) by lia.
        * rewrite <- app_assoc, parseChars_quoteUnit.
          now rewrite (IH s fuel) by lia. }
  intros Hfuel. now apply (H (length s)).
Qed.

Lemma JSON_parse_stringify (value : jsstring) :
  JSON_parse (JSON_stringify value) = Some (VStr value).
Proof.
  unfold JSON_parse, JSON_stringify.
  set (written := quoteChars value ++ [34]).
  change ([34] ++ written) with (34 :: written).
  replace (2 * length (34%N :: written) + 2)%nat
    with (S (2 * length (34%N :: written) + 1))%nat by lia.
  cbn [parseValue skipSpace dropWhile isJsonSpace N.eqb Pos.eqb orb].
  unfold written. rewrite parseChars_quoteChars.
  - reflexivity.
  - pose proof (length_quoteChars value). rewrite length_app. cbn [length]. lia.
Qed.

(** X27.  The line [upsertFrontmatterField] writes for the marker.
    Whatever the value holds (quotes, line feeds, a delimiter), the text
    after the colon is JSON that reads back as the value and holds no line
    feed; the line sets the field, is no delimiter line, and is one line
    when the name of the field is. *)
Theorem marker_line_reads_back (field value : jsstring) :
  JSON_parse (JSON_stringify value) = Some (VStr value)
  /\ noLF (JSON_stringify value) = true
  /\ fieldPatternTest field (field ++ str ": " ++ JSON_stringify value) = true
  /\ isDelimiter (field ++ str ": " ++ JSON_stringify value) = false
  /\ noLF (field ++ str ": " ++ JSON_stringify value) = noLF field.
Proof.
  split; [apply JSON_parse_stringify|].
  assert (Hno : noLF (JSON_stringify value) = true).
  { unfold JSON_stringify. now rewrite !noLF_app, noLF_quoteChars. }
  split; [exact Hno|]. split; [apply (rendered_matches field value)|].
  split.
  - pose proof (rendered_notDelimiter field value) as H.
    unfold notDelimiter in H. now apply negb_true_iff in H.
  - rewrite !noLF_app, Hno. cbn. now rewrite andb_true_r.
Qed.

End MarkerLine.
